(** * pwdusage: calendar resolution and supply allocation of the usage engine

    A shallow embedding of [engine.py], [common.py] and [simple_agent.py],
    and the properties of the calendar walk, the schedule masks, the supply
    waterfall, the report column registry and the configuration loader.

    Conventions of the embedding:
    - a Python [dict] is an insertion-ordered association list ([dict K V]),
      because iteration order is observable in the engine (calendar walk,
      previous-season inheritance, report column order);
    - a pandas [DataFrame] is stored column-major: an index of timestamps and a
      [dict] from column name to a [Series] of cells;
    - a float64 cell holds the rational number it denotes ([Num]), an infinity
      ([Inf]) or the missing value [NaN]; float arithmetic computes the exact
      rational result and rounds it to the nearest float64, ties to even
      ([round64]); the two zeros of float64 are the one cell [Num 0], which no
      operation of the engine tells apart;
    - a date-time of the engine is the plan-local wall clock in microseconds
      ([Z]); all comparisons of the engine are made on that clock;
    - the configuration document is the decoded JSON, typed: an absent key is
      [None];
    - code that can raise returns a [result]; a class method that assigns class
      variables before it raises is a [cls] action, which returns its outcome
      together with the class state it leaves. *)

From Stdlib Require Import ZArith QArith Qminmax Qround Qabs Qpower Lqa Lia List String Ascii Bool
  Permutation Sorted.
From Stdlib Require PrimFloat SpecFloat FloatOps Uint63.
From stdpp Require Import base gmap strings list.
Import ListNotations.
Local Open Scope string_scope.
Local Open Scope list_scope.
Local Open Scope Z_scope.

(* ================================================================== *)
(** ** Exceptions *)

Inductive PyErr : Type := KeyError | ValueError | TypeError | IndexError.

Inductive result (A : Type) : Type :=
| Ok (a : A)
| Raise (e : PyErr).
Arguments Ok {A} a.
Arguments Raise {A} e.

Definition rbind {A B : Type} (m : result A) (f : A -> result B) : result B :=
  match m with
  | Ok a => f a
  | Raise e => Raise e
  end.

Notation "'let*' x ':=' m 'in' k" := (rbind m (fun x => k))
  (at level 10, x pattern, m at level 100, k at level 200).

Definition lift_opt {A : Type} (e : PyErr) (o : option A) : result A :=
  match o with
  | Some a => Ok a
  | None => Raise e
  end.

Definition is_ok {A : Type} (m : result A) : bool :=
  match m with
  | Ok _ => true
  | Raise _ => false
  end.

(* ================================================================== *)
(** ** Python dictionaries: insertion-ordered association lists *)

Abbreviation dict K V := (list (K * V)).

Section PyDict.
Context {K V : Type} `{EqDecision K}.

(** [d.get(k)] *)
Fixpoint dget (k : K) (d : dict K V) : option V :=
  match d with
  | [] => None
  | (k', v) :: d' => if decide (k = k') then Some v else dget k d'
  end.

(** [d[k] = v]: an existing key keeps its position, a new key goes last. *)
Fixpoint dset (k : K) (v : V) (d : dict K V) : dict K V :=
  match d with
  | [] => [(k, v)]
  | (k', v') :: d' =>
      if decide (k = k') then (k', v) :: d' else (k', v') :: dset k v d'
  end.

(** [k in d] *)
Definition dmem (k : K) (d : dict K V) : bool :=
  match dget k d with
  | Some _ => true
  | None => false
  end.

Definition dkeys (d : dict K V) : list K := map fst d.
Definition dvalues (d : dict K V) : list V := map snd d.

(** [d[k]], raising [KeyError] *)
Definition dindex (k : K) (d : dict K V) : result V := lift_opt KeyError (dget k d).

End PyDict.

(* ================================================================== *)
(** ** common.py: the column name enumeration *)

Inductive PDColName : Type :=
| GRID_SUPPLY | GRID_EXPORT | PW_SUPPLY | HOME_DEMAND | SOLAR_SUPPLY
| GRID_TO_HOME | PW_TO_HOME | SOLAR_TO_HOME | GRID_CHARGING
| RESIDUAL_DEMAND_1 | RESIDUAL_DEMAND_2 | RESIDUAL_DEMAND_FINAL
| SELF_PW_NET_OF_GRID | SELF_SOLAR_PLUS_RES | SELF_TOTAL
| SUPPLY_CHARGE | TARIFF | TIME.

#[global] Instance PDColName_eq_dec : EqDecision PDColName.
Proof. intros x y. unfold Decision. decide equality. Defined.

Definition all_PDColName : list PDColName :=
  [GRID_SUPPLY; GRID_EXPORT; PW_SUPPLY; HOME_DEMAND; SOLAR_SUPPLY;
   GRID_TO_HOME; PW_TO_HOME; SOLAR_TO_HOME; GRID_CHARGING;
   RESIDUAL_DEMAND_1; RESIDUAL_DEMAND_2; RESIDUAL_DEMAND_FINAL;
   SELF_PW_NET_OF_GRID; SELF_SOLAR_PLUS_RES; SELF_TOTAL;
   SUPPLY_CHARGE; TARIFF; TIME].

(** The enum member's string value (the pandas column name). *)
Definition value (c : PDColName) : string :=
  match c with
  | GRID_SUPPLY => "Grid supply"
  | GRID_EXPORT => "Grid export"
  | PW_SUPPLY => "PW supply"
  | HOME_DEMAND => "Home Demand"
  | SOLAR_SUPPLY => "Solar supply"
  | GRID_TO_HOME => "Grid to Home"
  | PW_TO_HOME => "PW to Home"
  | SOLAR_TO_HOME => "Solar to Home"
  | GRID_CHARGING => "Grid charging"
  | RESIDUAL_DEMAND_1 => "Home demand ex supply 1"
  | RESIDUAL_DEMAND_2 => "Home demand ex supply 1+2"
  | RESIDUAL_DEMAND_FINAL => "Home demand ex supplies"
  | SELF_PW_NET_OF_GRID => "PW to home-grid charge"
  | SELF_SOLAR_PLUS_RES => "Solar to home+residual"
  | SELF_TOTAL => "Self consumption"
  | SUPPLY_CHARGE => "Supply Charge"
  | TARIFF => "Tariff"
  | TIME => "_time"
  end.

(** The enum member's name, the key of [PDColName[...]]. *)
Definition member_name (c : PDColName) : string :=
  match c with
  | GRID_SUPPLY => "GRID_SUPPLY"
  | GRID_EXPORT => "GRID_EXPORT"
  | PW_SUPPLY => "PW_SUPPLY"
  | HOME_DEMAND => "HOME_DEMAND"
  | SOLAR_SUPPLY => "SOLAR_SUPPLY"
  | GRID_TO_HOME => "GRID_TO_HOME"
  | PW_TO_HOME => "PW_TO_HOME"
  | SOLAR_TO_HOME => "SOLAR_TO_HOME"
  | GRID_CHARGING => "GRID_CHARGING"
  | RESIDUAL_DEMAND_1 => "RESIDUAL_DEMAND_1"
  | RESIDUAL_DEMAND_2 => "RESIDUAL_DEMAND_2"
  | RESIDUAL_DEMAND_FINAL => "RESIDUAL_DEMAND_FINAL"
  | SELF_PW_NET_OF_GRID => "SELF_PW_NET_OF_GRID"
  | SELF_SOLAR_PLUS_RES => "SELF_SOLAR_PLUS_RES"
  | SELF_TOTAL => "SELF_TOTAL"
  | SUPPLY_CHARGE => "SUPPLY_CHARGE"
  | TARIFF => "TARIFF"
  | TIME => "TIME"
  end.

(** [PDColName.from_str]: lookup by member name, [None] when it is not one. *)
Definition from_str (str_v : string) : option PDColName :=
  List.find (fun c => bool_decide (member_name c = str_v)) all_PDColName.

(** [value_with_override] *)
Definition value_with_override (c : PDColName) (override : dict PDColName string) : string :=
  match dget c override with
  | Some s => s
  | None => value c
  end.

(* ================================================================== *)
(** ** The flow frame *)

Inductive cell : Type :=
| Num (q : Q)
| NaN
| Inf (negative : bool)
| Str (s : string).

Definition Series : Type := list cell.

Record DataFrame : Type := mkFrame {
  df_index : list Z;
  df_data : dict string Series
}.

(** [df[c]] *)
Definition col (df : DataFrame) (c : string) : result Series :=
  dindex c (df_data df).

(** [df[c] = s] *)
Definition set_col (df : DataFrame) (c : string) (s : Series) : DataFrame :=
  mkFrame (df_index df) (dset c s (df_data df)).

(** [df[c] = x] for a scalar [x], broadcast over the index. *)
Definition set_col_scalar (df : DataFrame) (c : string) (x : cell) : DataFrame :=
  set_col df c (map (fun _ => x) (df_index df)).

(** The cell of column [c] in row number [i]. *)
Definition cell_at (df : DataFrame) (c : PDColName) (i : nat) : option cell :=
  match dget (value c) (df_data df) with
  | Some s => nth_error s i
  | None => None
  end.

(** *** float64 arithmetic

    The columns of the frame are float64 columns.  A finite float64 is the
    rational it denotes; an operation computes the exact rational result and
    rounds it as IEEE 754 binary64 does in the default mode: to the nearest
    value with a 53-bit significand and an exponent of at least -1074, ties
    to the even significand, and to an infinity from [2^1024] on. *)

Definition pow2 (e : Z) : Q := (2 ^ e)%Q.
Arguments pow2 : simpl never.

(** [floor (log2 q)] of a positive rational. *)
Definition floor_log2 (q : Q) : Z :=
  let k := Z.log2 (Qnum q) - Z.log2 (Zpos (Qden q)) in
  if Qle_bool (pow2 k) q then k else k - 1.

(** The nearest integer, a tie going to the even one. *)
Definition round_half_even (t : Q) : Z :=
  let m := Qfloor t in
  match (t - inject_Z m ?= 1 # 2)%Q with
  | Lt => m
  | Gt => m + 1
  | Eq => if Z.even m then m else m + 1
  end.

(** The exponent of the last significand bit of the float64 values near [q]:
    53 bits below the leading bit of [q], and -1074 in the subnormal range. *)
Definition f64_exponent (q : Q) : Z := Z.max (floor_log2 (Qabs q) - 52) (-1074).

(** A non-negative rational rounded to a whole multiple of [2^f64_exponent]. *)
Definition round64_magnitude (q : Q) : Q :=
  let e := f64_exponent q in
  (inject_Z (round_half_even (q / pow2 e)) * pow2 e)%Q.

(** Rounding is symmetric in the sign. *)
Definition round64_value (q : Q) : Q :=
  Qred (if Qle_bool 0 q then round64_magnitude q else - round64_magnitude (- q)).

(** The float64 result of an operation whose exact result is [q]. *)
Definition round64 (q : Q) : cell :=
  let r := round64_value q in
  if Qle_bool (pow2 1024) r then Inf false
  else if Qle_bool r (- pow2 1024) then Inf true
  else Num r.
Arguments round64 : simpl never.

(** The cell that a binary64 float of the machine denotes. *)
Definition cell_of_float (f : PrimFloat.float) : cell :=
  match FloatOps.Prim2SF f with
  | SpecFloat.S754_zero _ => Num 0
  | SpecFloat.S754_finite s m e =>
      Num (Qred (inject_Z (if s then Z.neg m else Z.pos m) * pow2 e))
  | SpecFloat.S754_infinity s => Inf s
  | SpecFloat.S754_nan => NaN
  end.

(** Machine floats on which the rounding of the embedding is compared with
    the arithmetic of the machine: the readings of the examples, values at
    both ends of the exponent range, a tie and subnormal numbers. *)
Definition machine_float_pairs : list (PrimFloat.float * PrimFloat.float) :=
  let f n d := PrimFloat.div (PrimFloat.of_uint63 (Uint63.of_Z n))
                             (PrimFloat.of_uint63 (Uint63.of_Z d)) in
  let two_to e := FloatOps.Z.ldexp PrimFloat.one e in
  let big := two_to 1023 in
  let tiny := two_to (-1074) in
  [(f 11 10, f 3 10); (f 2 10, f 9 10); (f 6 10, f 2 10); (f 1 3, f 2 3);
   (f 10 1, f 4 1); (f 1 10, f 1 10); (f 7 2, f 5 2);
   (big, PrimFloat.opp big); (big, big); (big, tiny); (tiny, tiny);
   (tiny, f 1 2); (tiny, f 3 2); (FloatOps.Z.ldexp (f 3 1) (-1074), f 1 2);
   (two_to 53, f 1 1); (two_to (-1022), FloatOps.Z.ldexp (f 3 4) (-1022));
   (two_to (-600), two_to (-600));
   (PrimFloat.opp (f 11 10), f 3 10);
   (FloatOps.Z.ldexp (f 9007199254740991 1) 971, big)].

(** The machine floats [1.1] and [0.3]. *)
Definition machine_1_1 : PrimFloat.float :=
  PrimFloat.div (PrimFloat.of_uint63 (Uint63.of_Z 11)) (PrimFloat.of_uint63 (Uint63.of_Z 10)).
Definition machine_0_3 : PrimFloat.float :=
  PrimFloat.div (PrimFloat.of_uint63 (Uint63.of_Z 3)) (PrimFloat.of_uint63 (Uint63.of_Z 10)).

(** [q] is a finite float64 value: rounding leaves it as it is. *)
Definition is_f64 (q : Q) : bool :=
  match round64 q with
  | Num r => Qeq_bool r q
  | _ => false
  end.

(** [q] is a whole multiple of [2^e]. *)
Definition on_grid (q : Q) (e : Z) : Prop := exists z, (q == inject_Z z * pow2 e)%Q.

(** A float64 value, unbounded: a whole multiple of the power of two that
    its own magnitude selects. *)
Definition f64_value (q : Q) : Prop := on_grid q (f64_exponent q).

(** A finite float64 value, as a property. *)
Definition f64_finite (q : Q) : Prop :=
  f64_value q /\ (- pow2 1024 < q)%Q /\ (q < pow2 1024)%Q.

(** The machine epsilon of float64, [numpy.finfo(float).eps], and the unit
    roundoff, the largest relative error of one rounding. *)
Definition F64_EPSILON : Q := pow2 (-52).
Definition F64_UNIT_ROUNDOFF : Q := pow2 (-53).

(** [a - b], [a + b] and [a * b] on float64 cells. *)
Definition float_sub (a b : cell) : cell :=
  match a, b with
  | Num x, Num y => round64 (x - y)
  | Inf s, Inf s' => if Bool.eqb s s' then NaN else Inf s
  | Inf s, Num _ => Inf s
  | Num _, Inf s => Inf (negb s)
  | _, _ => NaN
  end.

Definition float_add (a b : cell) : cell :=
  match a, b with
  | Num x, Num y => round64 (x + y)
  | Inf s, Inf s' => if Bool.eqb s s' then Inf s else NaN
  | Inf s, Num _ | Num _, Inf s => Inf s
  | _, _ => NaN
  end.

Definition float_mul (a b : cell) : cell :=
  match a, b with
  | Num x, Num y => round64 (x * y)
  | Inf s, Inf s' => Inf (xorb s s')
  | Inf s, Num y | Num y, Inf s =>
      if Qeq_bool y 0 then NaN else Inf (xorb s (negb (Qle_bool 0 y)))
  | _, _ => NaN
  end.

(** Element-wise float arithmetic: a missing value propagates, a string
    operand is a [TypeError]. *)
Definition cell_arith (op : cell -> cell -> cell) (a b : cell) : result cell :=
  match a, b with
  | Str _, _ | _, Str _ => Raise TypeError
  | _, _ => Ok (op a b)
  end.

Fixpoint series_zip (f : cell -> cell -> result cell) (a b : Series) : result Series :=
  match a, b with
  | x :: a', y :: b' =>
      let* z := f x y in
      let* r := series_zip f a' b' in
      Ok (z :: r)
  | _, _ => Ok []
  end.

Fixpoint series_map (f : cell -> result cell) (a : Series) : result Series :=
  match a with
  | x :: a' =>
      let* z := f x in
      let* r := series_map f a' in
      Ok (z :: r)
  | [] => Ok []
  end.

Definition series_sub : Series -> Series -> result Series := series_zip (cell_arith float_sub).
Definition series_add : Series -> Series -> result Series := series_zip (cell_arith float_add).

Definition Qclip_lower (lower x : Q) : Q :=
  if Qlt_le_dec x lower then lower else x.

(** [max(lower, c)] on a float64 cell; a missing value stays missing. *)
Definition float_clip (lower : Q) (c : cell) : cell :=
  match c with
  | Num x => Num (Qclip_lower lower x)
  | Inf true => Num lower
  | _ => c
  end.

(** [s.clip(lower=...)] *)
Definition series_clip (lower : Q) : Series -> result Series :=
  series_map (fun c =>
    match c with
    | Str _ => Raise TypeError
    | _ => Ok (float_clip lower c)
    end).

(** Unary [+s] *)
Definition series_pos : Series -> result Series :=
  series_map (fun c =>
    match c with
    | Str _ => Raise TypeError
    | _ => Ok c
    end).

(* ================================================================== *)
(** ** engine.py: the supply allocator, [_core_usage] *)

Definition SUPPLY_TO_DEMAND : dict PDColName PDColName :=
  [(GRID_SUPPLY, GRID_TO_HOME); (PW_SUPPLY, PW_TO_HOME); (SOLAR_SUPPLY, SOLAR_TO_HOME)].

Definition RESIDUALS : list PDColName :=
  [RESIDUAL_DEMAND_1; RESIDUAL_DEMAND_2; RESIDUAL_DEMAND_FINAL].

(** One pass of the loop body of [_core_usage], for priority position [i]. *)
Definition allocate_supply (i : nat) (supply last_residual : PDColName) (df : DataFrame)
  : result (PDColName * DataFrame) :=
  let* this_residual := lift_opt IndexError (nth_error RESIDUALS i) in
  let* demand := col df (value last_residual) in
  let* avail := col df (value supply) in
  let* short := series_sub demand avail in
  let* clipped := series_clip 0 short in
  let df := set_col df (value this_residual) clipped in
  let* demand := col df (value last_residual) in
  let* remaining := col df (value this_residual) in
  let* used := series_sub demand remaining in
  let* target := dindex supply SUPPLY_TO_DEMAND in
  Ok (this_residual, set_col df (value target) used).

(** [for i in range(len(self._priority))] *)
Fixpoint supply_waterfall (priority : list PDColName) (i : nat)
    (last_residual : PDColName) (df : DataFrame) : result DataFrame :=
  match priority with
  | [] => Ok df
  | supply :: rest =>
      let* (this_residual, df) := allocate_supply i supply last_residual df in
      supply_waterfall rest (S i) this_residual df
  end.

(** [df[dst] = df[a] op df[b]] *)
Definition assign_binop (op : Series -> Series -> result Series)
    (dst a b : PDColName) (df : DataFrame) : result DataFrame :=
  let* x := col df (value a) in
  let* y := col df (value b) in
  let* z := op x y in
  Ok (set_col df (value dst) z).

Definition _core_usage (priority : list PDColName) (df : DataFrame) : result DataFrame :=
  let* df := supply_waterfall priority 0 HOME_DEMAND df in
  let* df := assign_binop series_sub GRID_CHARGING GRID_SUPPLY GRID_TO_HOME df in
  let* df := assign_binop series_sub SELF_PW_NET_OF_GRID PW_TO_HOME GRID_CHARGING df in
  let* df := assign_binop series_add SELF_SOLAR_PLUS_RES SOLAR_TO_HOME RESIDUAL_DEMAND_FINAL df in
  let* df :=
    (let* x := col df (value PW_TO_HOME) in
     let* px := series_pos x in
     let* y := col df (value SELF_SOLAR_PLUS_RES) in
     let* z := series_add px y in
     Ok (set_col df (value SELF_TOTAL) z)) in
  Ok (set_col_scalar df (value TARIFF) (Str "None")).


(** The column holding [last_residual] when priority position [k] is
    allocated. *)
Definition residual_before (k : nat) : PDColName :=
  match k with
  | O => HOME_DEMAND
  | S k' => nth k' RESIDUALS RESIDUAL_DEMAND_FINAL
  end.

(** Scenario D of the specification as a one-row frame: home demand 10,
    grid 4, battery 3, solar 2. *)
Definition scenarioD : DataFrame :=
  mkFrame [0] [("Grid supply", [Num 4]); ("Grid export", [Num 0]); ("PW supply", [Num 3]);
               ("Solar supply", [Num 2]); ("Home Demand", [Num 10])].

(** A row whose grid reading is negative. *)
Definition negative_grid_frame : DataFrame :=
  mkFrame [0] [("Grid supply", [Num (-1)]); ("Grid export", [Num 0]); ("PW supply", [Num 3]);
               ("Solar supply", [Num 2]); ("Home Demand", [Num 10])].

(** The float64 values nearest to 1.1 and to 0.3, which the literals [1.1]
    and [0.3] denote. *)
Definition float_1_1 : Q := 2476979795053773 # 2251799813685248.
Definition float_0_3 : Q := 5404319552844595 # 18014398509481984.

(** A row of non-negative readings that are not whole numbers: home demand
    1.1, grid supply 0.3, no battery and no solar supply. *)
Definition rounding_frame : DataFrame :=
  mkFrame [0] [("Grid supply", [Num float_0_3]); ("Grid export", [Num 0]);
               ("PW supply", [Num 0]); ("Solar supply", [Num 0]);
               ("Home Demand", [Num float_1_1])].

Definition default_priority : list PDColName := [GRID_SUPPLY; PW_SUPPLY; SOLAR_SUPPLY].

(** The frame left by [_core_usage], or the input when it raises; used to
    name results in examples. *)
Definition core_usage_frame (priority : list PDColName) (df : DataFrame) : DataFrame :=
  match _core_usage priority df with
  | Ok df' => df'
  | Raise _ => df
  end.

(** A series of floats: numbers, infinities and missing values, no strings. *)
Definition float_series (s : Series) : Prop :=
  Forall (fun c => match c with Str _ => False | _ => True end) s.

(** The frame has the column and it holds floats. *)
Definition float_column (df : DataFrame) (c : PDColName) : Prop :=
  exists s, dget (value c) (df_data df) = Some s /\ float_series s.

(* ================================================================== *)
(** ** engine.py: plans, calendar entries and the class state *)

(** A time of day is the number of microseconds since local midnight; a
    date-time is the plan-local wall clock in microseconds since the epoch. *)
Definition MICROS_PER_DAY : Z := 86400000000.

(** A time zone: the offset from UTC, in microseconds, in force at a UTC
    instant. *)
Record ZoneInfo : Type := mkZone { utcoffset : Z -> Z }.

Record TariffPeriod : Type := mkPeriod {
  tp_tariff : string;
  tp_start : Z;
  tp_end : Z
}.

Record TariffSchedule : Type := mkSchedule {
  ts_name : string;
  ts_days : gset Z;
  ts_periods : list TariffPeriod
}.

Inductive AgentClass : Type := SimpleAgent.

Record UsagePlan : Type := mkPlan {
  up_name : string;
  up_agent_class : AgentClass;
  up_report_cols : list PDColName;
  up_seasons : dict string (dict string TariffSchedule)
}.

Record CalendarEntry : Type := mkEntry {
  ce_start_date : Z;
  ce_plan : string;
  ce_season : string;
  ce_tariffs : dict string (dict PDColName Q);
  ce_end_date : option Z
}.

(** The class variables of [UsageEngine]. *)
Record UsageEngine : Type := mkEngine {
  _influx_client : option string;
  _bucket : string;
  _timezone : option ZoneInfo;
  _priority : list PDColName;
  _col_overrides : dict PDColName string;
  _cost_unit : string;
  _energy_unit : string;
  _plans : dict string UsagePlan;
  _calendar : dict Z CalendarEntry
}.

(** [TariffSchedule.tariff_defined] *)
Definition schedule_tariff_defined (sch : TariffSchedule) (tariff : string) : bool :=
  existsb (fun t_period => bool_decide (tp_tariff t_period = tariff)) (ts_periods sch).

(** [UsagePlan.season_defined] *)
Definition season_defined (plan : UsagePlan) (season : string) : bool :=
  dmem season (up_seasons plan).

(** [UsagePlan.season_schedules] *)
Definition season_schedules (plan : UsagePlan) (season : string)
  : result (dict string TariffSchedule) :=
  dindex season (up_seasons plan).

(** [UsagePlan.tariff_defined] *)
Definition tariff_defined (plan : UsagePlan) (season tariff : string) : bool :=
  match dget season (up_seasons plan) with
  | None => false
  | Some schedules =>
      existsb (fun sch => schedule_tariff_defined sch tariff) (dvalues schedules)
  end.

(* ================================================================== *)
(** ** engine.py: the calendar walk of [_process_periodic_data] *)

Section PeriodicLoop.
Context {S : Type}.
(** What is done with each sub-range; [_apply_calendar] in the engine. *)
Context (apply_calendar : CalendarEntry -> Z -> Z -> S -> result S).

(** The [for entry in self._calendar.values()] loop, with [season_start]
    carried from one iteration to the next. *)
Fixpoint periodic_loop (entries : list CalendarEntry) (range_stop season_start : Z) (st : S)
  : result S :=
  match entries with
  | [] => Ok st
  | entry :: rest =>
      if ce_start_date entry >=? range_stop then Ok st
      else
        let season_start :=
          if season_start <=? ce_start_date entry then ce_start_date entry
          else season_start in
        if season_start >=? range_stop then Ok st
        else
          match ce_end_date entry with
          | Some end_date =>
              if season_start >=? end_date
              then periodic_loop rest range_stop season_start st
              else
                let season_end := if range_stop >? end_date then end_date else range_stop in
                let* st := apply_calendar entry season_start season_end st in
                periodic_loop rest range_stop season_end st
          | None =>
              let season_end := range_stop in
              let* st := apply_calendar entry season_start season_end st in
              periodic_loop rest range_stop season_end st
          end
  end.
End PeriodicLoop.

(** A sub-range handed to [_apply_calendar]. *)
Definition SubRange : Type := (CalendarEntry * Z * Z)%type.

Definition record_subrange (entry : CalendarEntry) (season_start season_end : Z)
    (seen : list SubRange) : result (list SubRange) :=
  Ok (seen ++ [(entry, season_start, season_end)]).

(** The sub-ranges the calendar walk emits for the window
    [[range_start, range_stop)], in the order of the calls. *)
Definition emitted_subranges (calendar : dict Z CalendarEntry) (range_start range_stop : Z)
  : result (list SubRange) :=
  periodic_loop record_subrange (dvalues calendar) range_stop range_start [].

(** The same walk as a list: the arguments of the successive calls. *)
Fixpoint subranges (entries : list CalendarEntry) (range_stop season_start : Z)
  : list SubRange :=
  match entries with
  | [] => []
  | entry :: rest =>
      if ce_start_date entry >=? range_stop then []
      else
        let season_start := Z.max season_start (ce_start_date entry) in
        if season_start >=? range_stop then []
        else
          match ce_end_date entry with
          | Some end_date =>
              if season_start >=? end_date
              then subranges rest range_stop season_start
              else
                (entry, season_start, Z.min range_stop end_date)
                  :: subranges rest range_stop (Z.min range_stop end_date)
          | None =>
              (entry, season_start, range_stop) :: subranges rest range_stop range_stop
          end
  end.

(** Calls of [apply_calendar] along a list of sub-ranges. *)
Fixpoint apply_subranges {S : Type} (apply_calendar : CalendarEntry -> Z -> Z -> S -> result S)
    (l : list SubRange) (st : S) : result S :=
  match l with
  | [] => Ok st
  | (entry, season_start, season_end) :: l' =>
      let* st := apply_calendar entry season_start season_end st in
      apply_subranges apply_calendar l' st
  end.

(** *** Calendars *)

(** The instants of a calendar entry: [[start_date, end_date)], open-ended
    when [end_date] is [None]. *)
Definition in_entry (entry : CalendarEntry) (t : Z) : Prop :=
  ce_start_date entry <= t /\
  match ce_end_date entry with
  | Some end_date => t < end_date
  | None => True
  end.

(** A calendar as [_load_calendar] leaves it: ascending start dates, each
    end date the next start date, the last end date [None]. *)
Fixpoint valid_calendar (entries : list CalendarEntry) : Prop :=
  match entries with
  | [] => True
  | entry :: rest =>
      match rest with
      | [] => ce_end_date entry = None
      | next :: _ =>
          ce_end_date entry = Some (ce_start_date next) /\
          ce_start_date entry <= ce_start_date next /\
          valid_calendar rest
      end
  end.

Definition in_subrange (t : Z) (sr : SubRange) : bool :=
  let '(_, season_start, season_end) := sr in
  (season_start <=? t) && (t <? season_end).

(** Number of emitted sub-ranges that hold the instant [t]. *)
Definition cover_count (t : Z) (l : list SubRange) : nat :=
  List.length (List.filter (in_subrange t) l).

(** Sub-ranges that follow one another without overlap, none starting
    before [lo]. *)
Fixpoint chained (lo : Z) (l : list SubRange) : Prop :=
  match l with
  | [] => True
  | (_, season_start, season_end) :: l' =>
      lo <= season_start /\ season_start < season_end /\ chained season_end l'
  end.

(** A two-entry calendar: summer from day 19358 (2023-01-01), winter from
    day 19539 (2023-07-01). *)
Definition two_season_calendar : dict Z CalendarEntry :=
  [(19358 * MICROS_PER_DAY,
    mkEntry (19358 * MICROS_PER_DAY) "P" "Summer" [] (Some (19539 * MICROS_PER_DAY)));
   (19539 * MICROS_PER_DAY,
    mkEntry (19539 * MICROS_PER_DAY) "P" "Winter" [] None)].

(* ================================================================== *)
(** ** Library calls the engine relies on *)

(** An aware date-time: an instant on the UTC time line and the zone it is
    shown in ([None] is [timezone.utc]). *)
Record datetime : Type := mkDatetime {
  dt_instant : Z;
  dt_tzinfo : option ZoneInfo
}.

(** The wall clock of an aware date-time. *)
Definition wall_clock (dt : datetime) : Z :=
  match dt_tzinfo dt with
  | None => dt_instant dt
  | Some tz => dt_instant dt + utcoffset tz (dt_instant dt)
  end.

(** The Python and InfluxDB calls whose code is outside the repository.
    - [time_fromisoformat s]: [time.fromisoformat(s)] as microseconds since
      midnight, [None] when it raises [ValueError];
    - [datetime_fromisoformat s]: the wall clock fields of
      [datetime.fromisoformat(s)] in microseconds since the epoch (both callers
      overwrite [tzinfo]), [None] when it raises [ValueError];
    - [zone_info key]: [ZoneInfo(key)], [None] when the key is unknown;
    - [influx_buckets url]: the bucket names the database at [url] reports. *)
Class External : Type := {
  time_fromisoformat : string -> option Z;
  datetime_fromisoformat : string -> option Z;
  zone_info : string -> option ZoneInfo;
  influx_buckets : string -> result (list string)
}.

(* ================================================================== *)
(** ** The configuration document [usage.json] *)

Record ScheduleJson : Type := mkScheduleJson {
  sj_schedule : option string;
  sj_days : option (list Z);
  sj_periods : option (dict string string)
}.

Record PlanJson : Type := mkPlanJson {
  pj_name : option string;
  pj_agent : option string;
  pj_report : option (list string);
  pj_seasons : option (dict string (list ScheduleJson))
}.

Record CalendarJson : Type := mkCalendarJson {
  cj_plan : option string;
  cj_season : option string;
  cj_tariffs : option (dict string (dict string Q))
}.

Record SettingsJson : Type := mkSettingsJson {
  set_influx_url : option string;
  set_bucket : option string;
  set_timezone : option string;
  set_rename : option (dict string string);
  set_supplyPriority : option (list string);
  set_cost_unit : option string;
  set_energy_unit : option string
}.

Record ConfigJson : Type := mkConfigJson {
  cfg_settings : option SettingsJson;
  cfg_plans : option (list PlanJson);
  cfg_calendar : option (dict string CalendarJson)
}.

(* ================================================================== *)
(** ** engine.py: [UsagePlan.__init__] and [_init_seasons] *)

Section Loading.
Context `{External}.

(** [for this, next in pairwise(periods.items())] *)
Fixpoint pairwise_periods (items : dict string string) : result (list TariffPeriod) :=
  match items with
  | this :: rest =>
      match rest with
      | next :: _ =>
          let* start_time := lift_opt ValueError (time_fromisoformat (fst this)) in
          let* end_time := lift_opt ValueError (time_fromisoformat (fst next)) in
          let* more := pairwise_periods rest in
          Ok (mkPeriod (snd this) start_time end_time :: more)
      | [] => Ok []
      end
  | [] => Ok []
  end.

(** The tariff periods of one schedule: successive boundaries, the last
    period ending where the first starts. *)
Definition build_periods (items : dict string string) : result (list TariffPeriod) :=
  let* periods := pairwise_periods items in
  let* this := lift_opt IndexError (List.last (map Some items) None) in
  let next :=
    if Nat.eqb (List.length items) 1 then this
    else List.hd this items in
  let* start_time := lift_opt ValueError (time_fromisoformat (fst this)) in
  let* end_time := lift_opt ValueError (time_fromisoformat (fst next)) in
  Ok (periods ++ [mkPeriod (snd this) start_time end_time]).

(** The keyword arguments collected for one schedule. *)
Record ScheduleKwarg : Type := mkKwarg {
  kw_name : string;
  kw_days : option (gset Z);
  kw_periods : option (list TariffPeriod)
}.

Definition schedule_kwarg (schedule_json : ScheduleJson) : result ScheduleKwarg :=
  let* schedule_name := lift_opt KeyError (sj_schedule schedule_json) in
  let days := option_map (fun l => (list_to_set l : gset Z)) (sj_days schedule_json) in
  let* periods :=
    match sj_periods schedule_json with
    | Some items => let* p := build_periods items in Ok (Some p)
    | None => Ok None
    end in
  Ok (mkKwarg schedule_name days periods).

(** [dc_replace] with the keyword arguments on a [TariffSchedule]. *)
Definition replace_schedule (base : TariffSchedule) (kwarg : ScheduleKwarg) : TariffSchedule :=
  mkSchedule (kw_name kwarg)
             (match kw_days kwarg with Some d => d | None => ts_days base end)
             (match kw_periods kwarg with Some p => p | None => ts_periods base end).

(** [TariffSchedule] built from the keyword arguments; a missing field is reported as [ValueError]. *)
Definition new_schedule (kwarg : ScheduleKwarg) : result TariffSchedule :=
  match kw_days kwarg, kw_periods kwarg with
  | Some d, Some p => Ok (mkSchedule (kw_name kwarg) d p)
  | _, _ => Raise ValueError
  end.

(** The inner loop of [_init_seasons]: the schedules listed for one season. *)
Fixpoint season_from_json (prev_season : option (dict string TariffSchedule))
    (schedules : list ScheduleJson) (season : dict string TariffSchedule)
  : result (dict string TariffSchedule) :=
  match schedules with
  | [] => Ok season
  | schedule_json :: rest =>
      let* kwarg := schedule_kwarg schedule_json in
      let* sch :=
        match prev_season with
        | Some prev =>
            match dget (kw_name kwarg) prev with
            | Some base => Ok (replace_schedule base kwarg)
            | None => new_schedule kwarg
            end
        | None => new_schedule kwarg
        end in
      season_from_json prev_season rest (dset (kw_name kwarg) sch season)
  end.

(** Schedules of the previous season that the season did not list are
    duplicated unchanged. *)
Fixpoint inherit_schedules (prev : dict string TariffSchedule)
    (season : dict string TariffSchedule) : dict string TariffSchedule :=
  match prev with
  | [] => season
  | (schedule_name, sch) :: rest =>
      inherit_schedules rest
        (if dmem schedule_name season then season else dset schedule_name sch season)
  end.

Definition build_season (prev_season : option (dict string TariffSchedule))
    (schedules : list ScheduleJson) : result (dict string TariffSchedule) :=
  let* season := season_from_json prev_season schedules [] in
  Ok (match prev_season with
      | Some prev => inherit_schedules prev season
      | None => season
      end).

(** The outer loop of [_init_seasons]. *)
Fixpoint seasons_from_json (items : dict string (list ScheduleJson))
    (prev_season : option (dict string TariffSchedule))
    (seasons : dict string (dict string TariffSchedule))
  : result (dict string (dict string TariffSchedule)) :=
  match items with
  | [] => Ok seasons
  | (season_name, schedules) :: rest =>
      let* season := build_season prev_season schedules in
      seasons_from_json rest (Some season) (dset season_name season seasons)
  end.

Definition _init_seasons (plan_json : PlanJson)
  : result (dict string (dict string TariffSchedule)) :=
  let* items := lift_opt KeyError (pj_seasons plan_json) in
  seasons_from_json items None [].

Definition _get_agent (plan_json : PlanJson) : result AgentClass :=
  let* name := lift_opt KeyError (pj_agent plan_json) in
  if bool_decide (name = "Simple") then Ok SimpleAgent else Raise ValueError.

Fixpoint report_columns (reports : list string) : result (list PDColName) :=
  match reports with
  | [] => Ok []
  | report :: rest =>
      let* pd_col := lift_opt ValueError (from_str report) in
      let* more := report_columns rest in
      Ok (pd_col :: more)
  end.

(** [UsagePlan(plan_json)] *)
Definition new_plan (plan_json : PlanJson) : result UsagePlan :=
  let* name := lift_opt KeyError (pj_name plan_json) in
  let* agent := _get_agent plan_json in
  let* reports := lift_opt KeyError (pj_report plan_json) in
  let* cols := report_columns reports in
  let* seasons := _init_seasons plan_json in
  Ok (mkPlan name agent cols seasons).

(* ------------------------------------------------------------------ *)
(** ** engine.py: calendar entries and [_load_calendar] *)

(** The rate table of one tariff with its labels converted to columns. *)
Fixpoint sanitize_rates (rates : dict string Q) (rate_table : dict PDColName Q)
  : result (dict PDColName Q) :=
  match rates with
  | [] => Ok rate_table
  | (rate_name, rate) :: rest =>
      let* rate_label := lift_opt ValueError (from_str rate_name) in
      sanitize_rates rest (dset rate_label rate rate_table)
  end.

(** The tariffs handed to a calendar entry: fresh from the document, with
    string labels, or the already converted table of the previous entry. *)
Inductive TariffsArg : Type :=
| FromJson (tariffs : dict string (dict string Q))
| Inherited (tariffs : dict string (dict PDColName Q)).

(** The [for tariff in self.tariffs] loop of [__post_init__] over tariffs
    read from the document. *)
Fixpoint validate_fresh_tariffs (plan : UsagePlan) (season : string)
    (tariffs : dict string (dict string Q)) : result (dict string (dict PDColName Q)) :=
  match tariffs with
  | [] => Ok []
  | (tariff, rates) :: rest =>
      if tariff_defined plan season tariff then
        let* rate_table := sanitize_rates rates [] in
        let* more := validate_fresh_tariffs plan season rest in
        Ok ((tariff, rate_table) :: more)
      else Raise ValueError
  end.

(** The same loop over an inherited table: labels are columns already, so
    only the tariff names are checked. *)
Fixpoint validate_inherited_tariffs (plan : UsagePlan) (season : string)
    (tariffs : dict string (dict PDColName Q)) : result unit :=
  match tariffs with
  | [] => Ok tt
  | (tariff, _) :: rest =>
      if tariff_defined plan season tariff
      then validate_inherited_tariffs plan season rest
      else Raise ValueError
  end.

(** [CalendarEntry.__post_init__] *)
Definition post_init (plans : dict string UsagePlan) (start_date : Z)
    (plan season : string) (tariffs : TariffsArg) : result CalendarEntry :=
  let* plan_instance := lift_opt ValueError (dget plan plans) in
  if season_defined plan_instance season then
    let* table :=
      match tariffs with
      | FromJson raw => validate_fresh_tariffs plan_instance season raw
      | Inherited table =>
          let* _ := validate_inherited_tariffs plan_instance season table in Ok table
      end in
    Ok (mkEntry start_date plan season table None)
  else Raise ValueError.

(** One calendar entry: the [CalendarEntry] constructor for the first one, where
    every field must be given and any failure is reported as [ValueError];
    [dc_replace] on the previous entry afterwards. *)
Definition make_entry (plans : dict string UsagePlan) (prev_event : option CalendarEntry)
    (date_v : Z) (data : CalendarJson) : result CalendarEntry :=
  match prev_event with
  | None =>
      match cj_plan data, cj_season data, cj_tariffs data with
      | Some plan, Some season, Some tariffs =>
          post_init plans date_v plan season (FromJson tariffs)
      | _, _, _ => Raise ValueError
      end
  | Some prev =>
      post_init plans date_v
        (match cj_plan data with Some plan => plan | None => ce_plan prev end)
        (match cj_season data with Some season => season | None => ce_season prev end)
        (match cj_tariffs data with
         | Some tariffs => FromJson tariffs
         | None => Inherited (ce_tariffs prev)
         end)
  end.

(** The dict comprehension that turns date strings into date-times. *)
Fixpoint parse_dates (calendar_json : dict string CalendarJson) (acc : dict Z CalendarJson)
  : result (dict Z CalendarJson) :=
  match calendar_json with
  | [] => Ok acc
  | (d_str, item) :: rest =>
      let* date_v := lift_opt ValueError (datetime_fromisoformat d_str) in
      parse_dates rest (dset date_v item acc)
  end.

(** [dict(sorted(calendar.items()))] *)
Fixpoint insert_by_date (item : Z * CalendarJson) (sorted : dict Z CalendarJson)
  : dict Z CalendarJson :=
  match sorted with
  | [] => [item]
  | x :: rest =>
      if fst item <? fst x then item :: sorted else x :: insert_by_date item rest
  end.

Definition sort_by_date (calendar : dict Z CalendarJson) : dict Z CalendarJson :=
  fold_right insert_by_date [] calendar.

(** The main loop of [_load_calendar]; the calendar built so far survives a
    failure. *)
Fixpoint load_entries (plans : dict string UsagePlan) (items : dict Z CalendarJson)
    (prev_event : option CalendarEntry) (calendar : dict Z CalendarEntry)
  : result unit * dict Z CalendarEntry :=
  match items with
  | [] => (Ok tt, calendar)
  | (date_v, data) :: rest =>
      match make_entry plans prev_event date_v data with
      | Ok entry => load_entries plans rest (Some entry) (dset date_v entry calendar)
      | Raise e => (Raise e, calendar)
      end
  end.

(** [for this, next in pairwise(values): this.end_date = next.start_date] *)
Fixpoint set_end_dates (calendar : dict Z CalendarEntry) : dict Z CalendarEntry :=
  match calendar with
  | [] => []
  | (date_v, this) :: rest =>
      match rest with
      | (_, next) :: _ =>
          (date_v, mkEntry (ce_start_date this) (ce_plan this) (ce_season this)
                           (ce_tariffs this) (Some (ce_start_date next)))
            :: set_end_dates rest
      | [] => [(date_v, this)]
      end
  end.

Definition with_calendar (eng : UsageEngine) (calendar : dict Z CalendarEntry) : UsageEngine :=
  mkEngine (_influx_client eng) (_bucket eng) (_timezone eng) (_priority eng)
           (_col_overrides eng) (_cost_unit eng) (_energy_unit eng) (_plans eng) calendar.

Definition with_plans (eng : UsageEngine) (plans : dict string UsagePlan) : UsageEngine :=
  mkEngine (_influx_client eng) (_bucket eng) (_timezone eng) (_priority eng)
           (_col_overrides eng) (_cost_unit eng) (_energy_unit eng) plans (_calendar eng).

(** [_load_calendar]: the outcome and the class state it leaves. *)
Definition _load_calendar (calendar_json : dict string CalendarJson) (eng : UsageEngine)
  : result unit * UsageEngine :=
  let eng := with_calendar eng [] in
  match parse_dates calendar_json [] with
  | Raise e => (Raise e, eng)
  | Ok calendar =>
      let calendar := sort_by_date calendar in
      match load_entries (_plans eng) calendar None [] with
      | (Raise e, built) => (Raise e, with_calendar eng built)
      | (Ok _, built) => (Ok tt, with_calendar eng (set_end_dates built))
      end
  end.

(* ------------------------------------------------------------------ *)
(** ** engine.py: [_init_settings] and [reload_config] *)

(** A class method: it returns or raises, and leaves a class state either
    way. *)
Definition cls (A : Type) : Type := UsageEngine -> result A * UsageEngine.

Definition cls_bind {A B : Type} (m : cls A) (f : A -> cls B) : cls B :=
  fun eng =>
    match m eng with
    | (Ok a, eng') => f a eng'
    | (Raise e, eng') => (Raise e, eng')
    end.

Definition cls_try {A : Type} (r : result A) : cls A := fun eng => (r, eng).

Definition cls_update (f : UsageEngine -> UsageEngine) : cls unit :=
  fun eng => (Ok tt, f eng).

Notation "'do' x '<-' m ';' k" := (cls_bind m (fun x => k))
  (at level 10, x name, m at level 100, k at level 200).
Notation "'run' m ';' k" := (cls_bind m (fun _ => k))
  (at level 10, m at level 100, k at level 200).

Definition set_influx_client (url : string) (eng : UsageEngine) : UsageEngine :=
  mkEngine (Some url) (_bucket eng) (_timezone eng) (_priority eng)
           (_col_overrides eng) (_cost_unit eng) (_energy_unit eng) (_plans eng) (_calendar eng).

Definition set_bucket_name (bucket : string) (eng : UsageEngine) : UsageEngine :=
  mkEngine (_influx_client eng) bucket (_timezone eng) (_priority eng)
           (_col_overrides eng) (_cost_unit eng) (_energy_unit eng) (_plans eng) (_calendar eng).

Definition set_zone (tz : ZoneInfo) (eng : UsageEngine) : UsageEngine :=
  mkEngine (_influx_client eng) (_bucket eng) (Some tz) (_priority eng)
           (_col_overrides eng) (_cost_unit eng) (_energy_unit eng) (_plans eng) (_calendar eng).

Definition set_priority (priority : list PDColName) (eng : UsageEngine) : UsageEngine :=
  mkEngine (_influx_client eng) (_bucket eng) (_timezone eng) priority
           (_col_overrides eng) (_cost_unit eng) (_energy_unit eng) (_plans eng) (_calendar eng).

Definition set_col_overrides (overrides : dict PDColName string) (eng : UsageEngine)
  : UsageEngine :=
  mkEngine (_influx_client eng) (_bucket eng) (_timezone eng) (_priority eng)
           overrides (_cost_unit eng) (_energy_unit eng) (_plans eng) (_calendar eng).

Definition set_units (cost_unit energy_unit : string) (eng : UsageEngine) : UsageEngine :=
  mkEngine (_influx_client eng) (_bucket eng) (_timezone eng) (_priority eng)
           (_col_overrides eng) cost_unit energy_unit (_plans eng) (_calendar eng).

(** The [rename] loop: each override is stored as soon as it is read. *)
Fixpoint load_renames (renames : dict string string) : cls unit :=
  match renames with
  | [] => cls_try (Ok tt)
  | (name, override) :: rest =>
      do pd_name <- cls_try (lift_opt ValueError (from_str name));
      run cls_update (fun eng => set_col_overrides (dset pd_name override (_col_overrides eng)) eng);
      load_renames rest
  end.

(** The members of a list of lookups that were found. *)
Definition found_names (l : list (option PDColName)) : list PDColName :=
  List.concat (map (fun o => match o with Some c => [c] | None => [] end) l).

Definition _init_settings (config : ConfigJson) : cls unit :=
  do settings <- cls_try (lift_opt KeyError (cfg_settings config));
  do url <- cls_try (lift_opt KeyError (set_influx_url settings));
  run cls_update (set_influx_client url);
  do bucket <- cls_try (lift_opt KeyError (set_bucket settings));
  run cls_update (set_bucket_name bucket);
  do tz_key <- cls_try (lift_opt KeyError (set_timezone settings));
  do tz <- cls_try (lift_opt KeyError (zone_info tz_key));
  run cls_update (set_zone tz);
  run cls_update (set_col_overrides []);
  run (match set_rename settings with
       | Some renames => load_renames renames
       | None => cls_try (Ok tt)
       end);
  do bucket_list <- cls_try (influx_buckets url);
  run (if bool_decide (bucket ∈ bucket_list) then cls_try (Ok tt)
       else run cls_update (set_bucket_name EmptyString); cls_try (Raise KeyError));
  run cls_update (set_priority default_priority);
  run (match set_supplyPriority settings with
       | Some names =>
           let priority := map from_str names in
           let all_found :=
             forallb (fun x => bool_decide (Some x ∈ priority)) default_priority in
           if negb all_found || negb (Nat.eqb (List.length names) 3)
           then cls_try (Raise TypeError)
           else cls_update (set_priority (found_names priority))
       | None => cls_try (Ok tt)
       end);
  cls_update (set_units
    (match set_cost_unit settings with Some u => u | None => "$" end)
    (match set_energy_unit settings with Some u => u | None => "kWh" end)).

(** [for data in config["plans"]: cls._plans[plan.name] = UsagePlan(data)] *)
Fixpoint load_plans (plans_json : list PlanJson) : cls unit :=
  match plans_json with
  | [] => cls_try (Ok tt)
  | data :: rest =>
      do plan <- cls_try (new_plan data);
      run cls_update (fun eng => with_plans eng (dset (up_name plan) plan (_plans eng)));
      load_plans rest
  end.

(** [reload_config], given the outcome of reading and decoding the
    configuration file. *)
Definition reload_config (config_file : result ConfigJson) : cls unit :=
  do config <- cls_try config_file;
  run _init_settings config;
  do plans_json <- cls_try (lift_opt KeyError (cfg_plans config));
  run cls_update (fun eng => with_plans eng []);
  run load_plans plans_json;
  do calendar_json <- cls_try (lift_opt KeyError (cfg_calendar config));
  _load_calendar calendar_json.

End Loading.

(** A class method that never touches the plans or the calendar. *)
Definition keeps_catalog {A : Type} (m : cls A) : Prop :=
  forall eng r eng',
    m eng = (r, eng') -> _plans eng' = _plans eng /\ _calendar eng' = _calendar eng.


(* ================================================================== *)
(** ** engine.py: the request path *)

(** [iso_utc[-1]] *)
Fixpoint last_char (s : string) : option ascii :=
  match s with
  | EmptyString => None
  | String c EmptyString => Some c
  | String _ rest => last_char rest
  end.

(** [iso_utc[:-1]] *)
Fixpoint drop_last (s : string) : string :=
  match s with
  | EmptyString => EmptyString
  | String _ EmptyString => EmptyString
  | String c rest => String c (drop_last rest)
  end.

(** [dt.astimezone(tz)]: the same instant shown in another zone. *)
Definition astimezone (dt : datetime) (tz : ZoneInfo) : datetime :=
  mkDatetime (dt_instant dt) (Some tz).

Definition safe_iso_utc_to_dt `{External} (iso_utc : string) (new_tz : option ZoneInfo)
  : result datetime :=
  let* c := lift_opt IndexError (last_char iso_utc) in
  if negb (Ascii.eqb c "Z") then Raise ValueError
  else
    let* fields := lift_opt ValueError (datetime_fromisoformat (drop_last iso_utc)) in
    let dt := mkDatetime fields None in
    match new_tz with
    | Some tz => Ok (astimezone dt tz)
    | None => Ok dt
    end.

(** *** Row selection *)

Definition time_of_day (t : Z) : Z := t mod MICROS_PER_DAY.

(** Monday is 0; day 0 of the epoch was a Thursday. *)
Definition dayofweek (t : Z) : Z := (t / MICROS_PER_DAY + 3) mod 7.

(** [s.between(left, right, inclusive="left")] *)
Definition between_left (left_v right_v t : Z) : bool :=
  (left_v <=? t) && (t <? right_v).

(** [s.between_time(start_time, end_time, inclusive="left")] of pandas: the
    two bounds are joined with "and" when [start_time <= end_time] and with
    "or" when the interval wraps around midnight. *)
Definition between_time_left (start_time end_time t : Z) : bool :=
  if start_time <=? end_time
  then (start_time <=? time_of_day t) && (time_of_day t <? end_time)
  else (start_time <=? time_of_day t) || (time_of_day t <? end_time).

(** The rows of a sub-range: [season_idx]. *)
Definition season_index (df_index : list Z) (season_start season_end : Z) : list Z :=
  List.filter (between_left season_start season_end) df_index.

(** The rows that fall on the weekdays of a schedule: [day_idx]. *)
Definition day_index (schedule : TariffSchedule) (season_idx : list Z) : list Z :=
  List.filter (fun t => bool_decide (dayofweek t ∈ ts_days schedule)) season_idx.

(** The rows of one tariff period: [tariff_idx]. *)
Definition tariff_index (schedule : TariffSchedule) (period : TariffPeriod)
    (day_idx : list Z) : list Z :=
  if Nat.eqb (List.length (ts_periods schedule)) 1 then day_idx
  else List.filter (between_time_left (tp_start period) (tp_end period)) day_idx.

(** Membership of a label in an index. *)
Definition isin (t : Z) (idx : list Z) : bool := existsb (Z.eqb t) idx.

(** *** Writes through [.loc] *)

(** Label-aligned merge of a column: the rows labelled in [idx] take the
    cell of [new], the others keep the cell of [old]. *)
Fixpoint loc_merge (df_index idx : list Z) (old new : Series) : Series :=
  match df_index with
  | [] => []
  | t :: df_index' =>
      (if isin t idx then List.hd NaN new else List.hd NaN old)
        :: loc_merge df_index' idx (List.tl old) (List.tl new)
  end.

(** [df.loc[idx, c] = new]: the rows labelled in [idx] take their cell from
    [new]; a column that does not exist yet is created holding [NaN]. *)
Definition loc_assign (df : DataFrame) (idx : list Z) (c : string) (new : Series) : DataFrame :=
  let old :=
    match dget c (df_data df) with
    | Some s => s
    | None => map (fun _ => NaN) (df_index df)
    end in
  set_col df c (loc_merge (df_index df) idx old new).

(** [df.loc[idx, c] = x] for a scalar [x]. *)
Definition loc_assign_scalar (df : DataFrame) (idx : list Z) (c : string) (x : cell) : DataFrame :=
  loc_assign df idx c (map (fun _ => x) (df_index df)).

(** [df.loc[idx, c] * rate]; only the selected cells take part. *)
Fixpoint loc_times (df_index idx : list Z) (s : Series) (rate : Q) : result Series :=
  match df_index, s with
  | t :: df_index', x :: s' =>
      let* y := if isin t idx then cell_arith float_mul x (Num rate) else Ok x in
      let* more := loc_times df_index' idx s' rate in
      Ok (y :: more)
  | _, _ => Ok []
  end.

(** *** Report columns *)

(** The per-tariff column name, [f"{tariff} {name} ({unit})"]. *)
Definition report_name (tariff name unit : string) : string :=
  tariff +:+ " " +:+ name +:+ " (" +:+ unit +:+ ")".

(** [if full_name not in report_cols: report_cols[full_name] = "number"] *)
Definition register_column (full_name : string) (report_cols : dict string string)
  : dict string string :=
  if negb (dmem full_name report_cols) then dset full_name "number" report_cols
  else report_cols.

(** The state of one request: the frame and the report column registry. *)
Record Request : Type := mkRequest {
  _frame : DataFrame;
  _report_cols : dict string string
}.

(** The [for column in usage_plan.report_cols] loop of [_add_energy_reports]. *)
Fixpoint energy_report_columns (eng : UsageEngine) (tariff : string) (tariff_idx : list Z)
    (columns : list PDColName) (req : Request) : result Request :=
  match columns with
  | [] => Ok req
  | column :: rest =>
      if bool_decide (column ∈ [TIME; TARIFF; SUPPLY_CHARGE])
      then energy_report_columns eng tariff tariff_idx rest req
      else
        let full_name :=
          report_name tariff (value_with_override column (_col_overrides eng))
                      (_energy_unit eng) in
        let report_cols := register_column full_name (_report_cols req) in
        let* data := col (_frame req) (value column) in
        let frame := loc_assign (_frame req) tariff_idx full_name data in
        energy_report_columns eng tariff tariff_idx rest (mkRequest frame report_cols)
  end.

Definition _add_energy_reports (eng : UsageEngine) (tariff : string) (tariff_idx : list Z)
    (usage_plan : UsagePlan) (req : Request) : result Request :=
  let frame := loc_assign_scalar (_frame req) tariff_idx (value TARIFF) (Str tariff) in
  energy_report_columns eng tariff tariff_idx (up_report_cols usage_plan)
                        (mkRequest frame (_report_cols req)).

(** simple_agent.py: [SimpleAgent.usage] *)
Fixpoint simple_agent_usage (tariff : string) (tariff_idx : list Z)
    (rates : dict PDColName Q) (cost_unit : string) (col_override : dict PDColName string)
    (req : Request) : result Request :=
  match rates with
  | [] => Ok req
  | (energy_column, rate) :: rest =>
      let full_name :=
        report_name tariff (value_with_override energy_column col_override) cost_unit in
      let report_cols := register_column full_name (_report_cols req) in
      if bool_decide (energy_column = SUPPLY_CHARGE) then
        let frame := loc_assign_scalar (_frame req) tariff_idx full_name (Num rate) in
        simple_agent_usage tariff tariff_idx rest cost_unit col_override
                           (mkRequest frame report_cols)
      else if negb (dmem (value energy_column) (df_data (_frame req))) then Raise KeyError
      else
        let* data := col (_frame req) (value energy_column) in
        let* cost := loc_times (df_index (_frame req)) tariff_idx data rate in
        let frame := loc_assign (_frame req) tariff_idx full_name cost in
        simple_agent_usage tariff tariff_idx rest cost_unit col_override
                           (mkRequest frame report_cols)
  end.

(** [usage_plan.agent.usage(...)], dispatched on the agent class. *)
Definition agent_usage (agent : AgentClass) (tariff : string) (tariff_idx : list Z)
    (rates : dict PDColName Q) (cost_unit : string) (col_override : dict PDColName string)
    (req : Request) : result Request :=
  match agent with
  | SimpleAgent => simple_agent_usage tariff tariff_idx rates cost_unit col_override req
  end.

(** *** [_apply_calendar] *)

(** [for period in schedule.periods] *)
Fixpoint apply_periods (eng : UsageEngine) (entry : CalendarEntry) (usage_plan : UsagePlan)
    (schedule : TariffSchedule) (day_idx : list Z) (periods : list TariffPeriod)
    (req : Request) : result Request :=
  match periods with
  | [] => Ok req
  | period :: rest =>
      let tariff_idx := tariff_index schedule period day_idx in
      match tariff_idx with
      | [] => apply_periods eng entry usage_plan schedule day_idx rest req
      | _ :: _ =>
          let* req := _add_energy_reports eng (tp_tariff period) tariff_idx usage_plan req in
          let* rates := dindex (tp_tariff period) (ce_tariffs entry) in
          let* req := agent_usage (up_agent_class usage_plan) (tp_tariff period) tariff_idx
                                  rates (_cost_unit eng) (_col_overrides eng) req in
          apply_periods eng entry usage_plan schedule day_idx rest req
      end
  end.

(** [for schedule in usage_plan.season_schedules(entry.season).values()] *)
Fixpoint apply_schedules (eng : UsageEngine) (entry : CalendarEntry) (usage_plan : UsagePlan)
    (season_idx : list Z) (schedules : list TariffSchedule) (req : Request) : result Request :=
  match schedules with
  | [] => Ok req
  | schedule :: rest =>
      let day_idx := day_index schedule season_idx in
      match day_idx with
      | [] => apply_schedules eng entry usage_plan season_idx rest req
      | _ :: _ =>
          let* req := apply_periods eng entry usage_plan schedule day_idx
                                    (ts_periods schedule) req in
          apply_schedules eng entry usage_plan season_idx rest req
      end
  end.

Definition _apply_calendar (eng : UsageEngine) (entry : CalendarEntry)
    (season_start season_end : Z) (req : Request) : result Request :=
  let season_idx := season_index (df_index (_frame req)) season_start season_end in
  match season_idx with
  | [] => Ok req
  | _ :: _ =>
      let* usage_plan := dindex (ce_plan entry) (_plans eng) in
      let* schedules := season_schedules usage_plan (ce_season entry) in
      apply_schedules eng entry usage_plan season_idx (dvalues schedules) req
  end.

Definition _process_periodic_data (eng : UsageEngine) (range_start range_stop : Z)
    (req : Request) : result Request :=
  periodic_loop (_apply_calendar eng) (dvalues (_calendar eng)) range_stop range_start req.

(** *** [usage] *)

(** The time range of a query, [request_content["range"]]. *)
Record QueryRange : Type := mkRange {
  range_from : string;
  range_to : string
}.

(** [usage], up to the JSON rendering of the frame. [influx_frame] is the
    frame [_get_influx_data] builds for the requested range. *)
Definition usage `{External} (eng : UsageEngine) (influx_frame : Z -> Z -> result DataFrame)
    (request_content : QueryRange) : result Request :=
  let* start_dt := safe_iso_utc_to_dt (range_from request_content) (_timezone eng) in
  let* stop_dt := safe_iso_utc_to_dt (range_to request_content) (_timezone eng) in
  let range_start := wall_clock start_dt in
  let range_stop := wall_clock stop_dt in
  let* frame := influx_frame range_start range_stop in
  let* frame := _core_usage (_priority eng) frame in
  _process_periodic_data eng range_start range_stop (mkRequest frame []).

(** *** Shapes of a period list *)

(** Each period ends where the next one starts, the last one at [closing]. *)
Fixpoint linked (periods : list TariffPeriod) (closing : Z) : Prop :=
  match periods with
  | [] => True
  | p :: rest =>
      match rest with
      | [] => tp_end p = closing
      | q :: _ => tp_end p = tp_start q /\ linked rest closing
      end
  end.

(** A period that runs past midnight: it starts later in the day than it
    ends. *)
Definition wraps_midnight (p : TariffPeriod) : bool := tp_end p <? tp_start p.

(** The time-of-day test of [tariff_index] for one period. *)
Definition holds_time (t : Z) (p : TariffPeriod) : bool :=
  between_time_left (tp_start p) (tp_end p) t.

(** The column names [_add_energy_reports] registers for a plan's report
    columns, in order. *)
Definition energy_report_names (eng : UsageEngine) (tariff : string)
    (columns : list PDColName) : list string :=
  map (fun column =>
         report_name tariff (value_with_override column (_col_overrides eng))
                     (_energy_unit eng))
      (List.filter (fun column => negb (bool_decide (column ∈ [TIME; TARIFF; SUPPLY_CHARGE])))
                   columns).

(** The column names [SimpleAgent.usage] registers for a rate table. *)
Definition cost_report_names (tariff : string) (rates : dict PDColName Q)
    (cost_unit : string) (col_override : dict PDColName string) : list string :=
  map (fun '(energy_column, _) =>
         report_name tariff (value_with_override energy_column col_override) cost_unit)
      rates.

(** Registering a list of names, first to last. *)
Definition register_columns (names : list string) (report_cols : dict string string)
  : dict string string :=
  fold_left (fun reg name => register_column name reg) names report_cols.

(** *** Reading a resolved configuration by position *)

(** The entry a calendar item is built from: the entry before it, or
    [prev_event] for the first item. *)
Definition entry_before (prev_event : option CalendarEntry) (entries : list CalendarEntry)
    (i : nat) : option CalendarEntry :=
  match i with
  | O => prev_event
  | S k => nth_error entries k
  end.

(** The last schedule object of a season's list that carries a given name;
    it is the one that decides the schedule stored under that name. *)
Fixpoint last_named (schedule_name : string) (schedules : list ScheduleJson)
  : option ScheduleJson :=
  match schedules with
  | [] => None
  | schedule_json :: rest =>
      match last_named schedule_name rest with
      | Some later => Some later
      | None =>
          if bool_decide (sj_schedule schedule_json = Some schedule_name)
          then Some schedule_json else None
      end
  end.

(** *** Reading the frame of a request *)

(** The cell of a column at a row position; a column that does not exist, or
    is too short, reads as a missing value. *)
Definition cell_of (df : DataFrame) (c : string) (i : nat) : cell :=
  match dget c (df_data df) with
  | Some s => nth i s NaN
  | None => NaN
  end.

(** The rows of one tariff period inside a sub-range, as a test on the row
    label. *)
Definition in_period_mask (schedule : TariffSchedule) (period : TariffPeriod)
    (season_start season_end t : Z) : bool :=
  between_left season_start season_end t
  && bool_decide (dayofweek t ∈ ts_days schedule)
  && (Nat.eqb (List.length (ts_periods schedule)) 1
      || between_time_left (tp_start period) (tp_end period) t).

(** The row label [t] is selected for some tariff period of some sub-range
    of the window. *)
Definition in_tariff_mask (eng : UsageEngine) (range_start range_stop t : Z) : Prop :=
  exists entry season_start season_end usage_plan schedules schedule period,
    In (entry, season_start, season_end)
       (subranges (dvalues (_calendar eng)) range_stop range_start) /\
    dget (ce_plan entry) (_plans eng) = Some usage_plan /\
    dget (ce_season entry) (up_seasons usage_plan) = Some schedules /\
    In schedule (dvalues schedules) /\
    In period (ts_periods schedule) /\
    in_period_mask schedule period season_start season_end t = true.

(** Every calendar entry names a plan of the catalog and a season of that
    plan, as [__post_init__] checks when the calendar is loaded. *)
Definition calendar_resolves (eng : UsageEngine) : Prop :=
  forall e, In e (dvalues (_calendar eng)) ->
    exists plan_instance,
      dget (ce_plan e) (_plans eng) = Some plan_instance /\
      season_defined plan_instance (ce_season e) = true.

(** Row [i] of the frame reads the same in [df'] as in [df], column by
    column, and the index is the same. *)
Definition row_kept (i : nat) (df df' : DataFrame) : Prop :=
  df_index df' = df_index df /\ forall c, cell_of df' c i = cell_of df c i.

(** The same test, computed. *)
Definition in_tariff_maskb (eng : UsageEngine) (range_start range_stop t : Z) : bool :=
  existsb
    (fun '(entry, season_start, season_end) =>
       match dget (ce_plan entry) (_plans eng) with
       | Some usage_plan =>
           match dget (ce_season entry) (up_seasons usage_plan) with
           | Some schedules =>
               existsb
                 (fun schedule =>
                    existsb
                      (fun period =>
                         in_period_mask schedule period season_start season_end t)
                      (ts_periods schedule))
                 (dvalues schedules)
           | None => false
           end
       | None => false
       end)
    (subranges (dvalues (_calendar eng)) range_stop range_start).

(* ================================================================== *)
(** ** A concrete environment for the examples *)

Definition digit_value (c : ascii) : option Z :=
  let n := Z.of_N (N_of_ascii c) in
  if (48 <=? n) && (n <=? 57) then Some (n - 48) else None.

Fixpoint digits_value (s : string) (acc : Z) : option Z :=
  match s with
  | EmptyString => Some acc
  | String c rest =>
      match digit_value c with
      | Some d => digits_value rest (10 * acc + d)
      | None => None
      end
  end.

(** Times of the form [HH:MM]. *)
Definition parse_hh_mm (s : string) : option Z :=
  if Nat.eqb (String.length s) 5 && bool_decide (String.get 2 s = Some ":"%char) then
    match digits_value (String.substring 0 2 s) 0, digits_value (String.substring 3 2 s) 0 with
    | Some h, Some m =>
        if (h <? 24) && (m <? 60) then Some ((h * 60 + m) * 60000000) else None
    | _, _ => None
    end
  else None.

(** Days from 1970-01-01 to a date of the proleptic Gregorian calendar. *)
Definition days_from_civil (y m d : Z) : Z :=
  let y' := if m <=? 2 then y - 1 else y in
  let era := y' / 400 in
  let yoe := y' - era * 400 in
  let doy := (153 * (if m >? 2 then m - 3 else m + 9) + 2) / 5 + d - 1 in
  let doe := yoe * 365 + yoe / 4 - yoe / 100 + doy in
  era * 146097 + doe - 719468.

(** Dates of the form [YYYY-MM-DD], optionally followed by [THH:MM]. *)
Definition parse_date (s : string) : option Z :=
  if bool_decide (String.get 4 s = Some "-"%char) && bool_decide (String.get 7 s = Some "-"%char)
  then
    match digits_value (String.substring 0 4 s) 0, digits_value (String.substring 5 2 s) 0,
          digits_value (String.substring 8 2 s) 0 with
    | Some y, Some m, Some d =>
        if (1 <=? m) && (m <=? 12) && (1 <=? d) && (d <=? 31) then
          let midnight := days_from_civil y m d * MICROS_PER_DAY in
          if Nat.eqb (String.length s) 10 then Some midnight
          else if Nat.eqb (String.length s) 16 && bool_decide (String.get 10 s = Some "T"%char)
          then option_map (Z.add midnight) (parse_hh_mm (String.substring 11 5 s))
          else None
        else None
    | _, _, _ => None
    end
  else None.

Definition perth : ZoneInfo := mkZone (fun _ => 8 * 3600000000).

Definition example_env : External := {|
  time_fromisoformat := parse_hh_mm;
  datetime_fromisoformat := parse_date;
  zone_info := fun key =>
    if bool_decide (key = "Australia/Perth") then Some perth
    else if bool_decide (key = "UTC") then Some (mkZone (fun _ => 0))
    else None;
  influx_buckets := fun _ => Ok ["powerwall"]
|}.

(** Scenario B of the specification: peak from 14:00 to 20:00, off-peak
    otherwise. *)
Definition peak_offpeak_json : dict string string :=
  [("14:00", "peak"); ("20:00", "off-peak")].

(** Three periods listed out of time order. *)
Definition unordered_periods_json : dict string string :=
  [("14:00", "peak"); ("06:00", "shoulder"); ("20:00", "off-peak")].

(** 15:00 on Monday 2023-01-02. *)
Definition monday_3pm : Z := 19359 * MICROS_PER_DAY + 15 * 3600000000.

(** A configuration document: one plan with a flat tariff, a summer season
    for every day and a winter season that only changes the days, and the
    calendar of Scenario C of the specification (the second entry names only
    its season). *)
Definition example_settings : SettingsJson :=
  mkSettingsJson (Some "http://influxdb:8086") (Some "powerwall") (Some "Australia/Perth")
                 None None None None.

Definition example_plan : PlanJson :=
  mkPlanJson (Some "P") (Some "Simple") (Some ["GRID_TO_HOME"; "SELF_TOTAL"])
    (Some [("Summer",
            [mkScheduleJson (Some "all") (Some [0; 1; 2; 3; 4; 5; 6]) (Some [("00:00", "flat")])]);
           ("Winter",
            [mkScheduleJson (Some "all") (Some [0; 1; 2; 3; 4]) None])]).

Definition example_calendar : dict string CalendarJson :=
  [("2023-07-01", mkCalendarJson None (Some "Winter") None);
   ("2023-01-01",
    mkCalendarJson (Some "P") (Some "Summer") (Some [("flat", [("GRID_TO_HOME", float_0_3)])]))].

Definition example_config : ConfigJson :=
  mkConfigJson (Some example_settings) (Some [example_plan]) (Some example_calendar).

(** A document whose only plan is called P2 while its calendar names P. *)
Definition broken_config : ConfigJson :=
  mkConfigJson (Some example_settings)
    (Some [mkPlanJson (Some "P2") (Some "Simple") (Some ["GRID_TO_HOME"])
             (Some [("Summer",
                     [mkScheduleJson (Some "all") (Some [0; 1; 2; 3; 4; 5; 6])
                                     (Some [("00:00", "flat")])])])])
    (Some example_calendar).

(** The class state before any configuration is loaded. *)
Definition fresh_engine : UsageEngine :=
  mkEngine None EmptyString None [] [] EmptyString EmptyString [] [].

(** The class state after [example_config] is loaded. *)
Definition loaded_engine : UsageEngine :=
  snd (@reload_config example_env (Ok example_config) fresh_engine).

(** Two rows at 06:00 local time: Saturday 2023-07-01, which the weekday
    schedule of the winter season leaves out, and Monday 2023-07-03. *)
Definition saturday_6am : Z := 19539 * MICROS_PER_DAY + 6 * 3600000000.
Definition monday_6am : Z := 19541 * MICROS_PER_DAY + 6 * 3600000000.

Definition weekend_frame : DataFrame :=
  mkFrame [saturday_6am; monday_6am]
          [("Grid supply", [Num 1; Num 1]); ("Grid export", [Num 0; Num 0]);
           ("PW supply", [Num 0; Num 0]); ("Solar supply", [Num 0; Num 0]);
           ("Home Demand", [Num 1; Num 1])].

Definition weekend_request : QueryRange := mkRange "2023-06-30T16:00Z" "2023-07-04T16:00Z".

(** The request state [usage] returns for the weekend frame. *)
Definition weekend_result : Request :=
  match @usage example_env loaded_engine (fun _ _ => Ok weekend_frame) weekend_request with
  | Ok req => req
  | Raise _ => mkRequest weekend_frame []
  end.

(** The seasons [_init_seasons] builds for [example_plan]. *)
Definition example_seasons : dict string (dict string TariffSchedule) :=
  match @_init_seasons example_env example_plan with
  | Ok seasons => seasons
  | Raise _ => []
  end.

(* ================================================================== *)
(** ** Further examples *)

(** The periods built for [peak_offpeak_json]. *)
Definition peak_offpeak_periods : list TariffPeriod :=
  match @build_periods example_env peak_offpeak_json with
  | Ok periods => periods
  | Raise _ => []
  end.

(** Every schedule of a season is stored under its own name and has at
    least one tariff period. *)
Definition schedules_well_formed (season : dict string TariffSchedule) : Prop :=
  forall schedule_name sch,
    dget schedule_name season = Some sch ->
    ts_name sch = schedule_name /\ ts_periods sch <> [].

(** The items of a calendar document whose date string
    [datetime.fromisoformat] accepts, each with its date. *)
Definition dated_items `{External} (calendar_json : dict string CalendarJson)
  : dict Z CalendarJson :=
  flat_map (fun '(d_str, item) =>
              match datetime_fromisoformat d_str with
              | Some date_v => [(date_v, item)]
              | None => []
              end)
           calendar_json.

(** A class method that leaves one attribute of the class as it found it,
    whether it returns or raises. *)
Definition keeps_attribute {A B : Type} (attribute : UsageEngine -> B) (m : cls A) : Prop :=
  forall eng r eng', m eng = (r, eng') -> attribute eng' = attribute eng.

(** [UsageEngine.__init__]: the configuration is loaded when the class has
    no InfluxDB client yet. *)
Definition UsageEngine__init__ `{External} (config_file : result ConfigJson) : cls unit :=
  fun eng =>
    match _influx_client eng with
    | None => reload_config config_file eng
    | Some _ => (Ok tt, eng)
    end.

(** Settings that put solar first in the supply priority and bill in cents;
    the class state [_init_settings] leaves for them. *)
Definition solar_first_config : ConfigJson :=
  mkConfigJson
    (Some (mkSettingsJson (Some "http://influxdb:8086") (Some "powerwall")
                          (Some "Australia/Perth") (Some [("SELF_TOTAL", "Self use")])
                          (Some ["SOLAR_SUPPLY"; "PW_SUPPLY"; "GRID_SUPPLY"])
                          (Some "c") None))
    None None.

Definition solar_first_engine : UsageEngine :=
  snd (@_init_settings example_env solar_first_config fresh_engine).

(** The window of [weekend_request] in local wall-clock time, the frame
    [_core_usage] builds from [weekend_frame], and the request state the
    calendar walk leaves for them. *)
Definition weekend_start : Z := 19539 * MICROS_PER_DAY.
Definition weekend_stop : Z := 19543 * MICROS_PER_DAY.

Definition weekend_core : DataFrame := core_usage_frame default_priority weekend_frame.

Definition weekend_processed : Request :=
  match _process_periodic_data loaded_engine weekend_start weekend_stop
                               (mkRequest weekend_core []) with
  | Ok req => req
  | Raise _ => mkRequest weekend_core []
  end.

(** The request state after the energy reports of the tariff "flat" were
    added for the Monday row of the weekend frame, and after the simple agent
    costed that row. *)
Definition monday_reports : Request :=
  match _add_energy_reports loaded_engine "flat" [monday_6am]
          (mkPlan "P" SimpleAgent [GRID_TO_HOME; SELF_TOTAL] [])
          (mkRequest weekend_core []) with
  | Ok req => req
  | Raise _ => mkRequest weekend_core []
  end.

Definition monday_costs : Request :=
  match simple_agent_usage "flat" [monday_6am]
          [(GRID_TO_HOME, float_0_3); (SUPPLY_CHARGE, 1%Q)] "$" [] monday_reports with
  | Ok req => req
  | Raise _ => monday_reports
  end.

(** A document that the loader accepts although the schedule of its plan
    has a period, "peak", for which the calendar gives no rates; the class
    state it loads to and a frame with one row in that period. *)
Definition unpriced_config : ConfigJson :=
  mkConfigJson (Some example_settings)
    (Some [mkPlanJson (Some "P") (Some "Simple") (Some ["GRID_TO_HOME"])
             (Some [("Summer",
                     [mkScheduleJson (Some "all") (Some [0; 1; 2; 3; 4; 5; 6])
                                     (Some peak_offpeak_json)])])])
    (Some [("2023-01-01",
            mkCalendarJson (Some "P") (Some "Summer")
                           (Some [("off-peak", [("GRID_TO_HOME", float_0_3)])]))]).

Definition unpriced_engine : UsageEngine :=
  snd (@reload_config example_env (Ok unpriced_config) fresh_engine).

Definition monday_3pm_frame : DataFrame :=
  core_usage_frame default_priority
    (mkFrame [monday_3pm]
             [("Grid supply", [Num 1]); ("Grid export", [Num 0]); ("PW supply", [Num 0]);
              ("Solar supply", [Num 0]); ("Home Demand", [Num 1])]).

(* ================================================================== *)
(** ** engine.py: [_frame_to_json_tables] *)

(** The one table of the reply: its column manifest (text and type of each
    column) and its rows.  The rendering of the table as a JSON string by
    [simplejson.dumps] is left out. *)
Record JsonTable : Type := mkTable {
  table_columns : list (string * string);
  table_rows : list (list cell)
}.

(** [self._frame[list(self._report_cols.keys())]] *)
Fixpoint select_columns (df : DataFrame) (names : list string) : result (dict string Series) :=
  match names with
  | [] => Ok []
  | name :: rest =>
      let* s := col df name in
      let* more := select_columns df rest in
      Ok ((name, s) :: more)
  end.

(** The [for name in df.columns.tolist()] loop. *)
Fixpoint column_manifest (names : list string) (report_cols : dict string string)
  : result (list (string * string)) :=
  match names with
  | [] => Ok []
  | name :: rest =>
      let* ret_type := dindex name report_cols in
      let* more := column_manifest rest report_cols in
      Ok ((name, ret_type) :: more)
  end.

(** [df.values.tolist()]: the frame row by row; a missing value stays a
    missing value (it is rendered as null). *)
Definition frame_rows (index : list Z) (data : dict string Series) : list (list cell) :=
  map (fun i => map (fun '(_, s) => nth i s NaN) data) (seq 0 (List.length index)).

(** [_frame_to_json_tables]. [epoch_ms] gives the instant of a row label in
    milliseconds since the epoch, [df.index.astype(np_int64) / int(1e6)]. *)
Definition _frame_to_json_tables (epoch_ms : Z -> Q) (req : Request)
  : result (JsonTable * Request) :=
  let* data := select_columns (_frame req) (dkeys (_report_cols req)) in
  if dmem (value TIME) data then Raise ValueError
  else
    let data :=
      (value TIME, map (fun t => Num (epoch_ms t)) (df_index (_frame req))) :: data in
    let report_cols := dset (value TIME) "time" (_report_cols req) in
    let* columns := column_manifest (dkeys data) report_cols in
    Ok (mkTable columns (frame_rows (df_index (_frame req)) data),
        mkRequest (_frame req) report_cols).

(** Every registered report column is a column of the frame, is named like
    a report column and has the type "number". *)
Definition registry_consistent (req : Request) : Prop :=
  forall name,
    dmem name (_report_cols req) = true ->
    dmem name (df_data (_frame req)) = true /\
    last_char name = Some ")"%char /\
    dget name (_report_cols req) = Some "number".

(** A document whose plan names an agent the engine does not have:
    [UsagePlan] raises for it, after [reload_config] has emptied the plan
    catalog and before it reaches the calendar. *)
Definition unknown_agent_config : ConfigJson :=
  mkConfigJson (Some example_settings)
    (Some [mkPlanJson (Some "P") (Some "Unknown") (Some ["GRID_TO_HOME"; "SELF_TOTAL"])
             (Some [("Summer",
                     [mkScheduleJson (Some "all") (Some [0; 1; 2; 3; 4; 5; 6])
                                     (Some [("00:00", "flat")])])])])
    (Some example_calendar).

(** The class state a failed reload of [unknown_agent_config] leaves when it
    follows the load of [example_config]: no plan, beside the calendar of the
    earlier load. *)
Definition stale_engine : UsageEngine :=
  snd (@reload_config example_env (Ok unknown_agent_config) loaded_engine).

(** A frame whose only row is the Saturday row of [weekend_frame], which no
    schedule of the winter season covers. *)
Definition saturday_frame : DataFrame :=
  mkFrame [saturday_6am]
          [("Grid supply", [Num 1]); ("Grid export", [Num 0]); ("PW supply", [Num 0]);
           ("Solar supply", [Num 0]); ("Home Demand", [Num 1])].
(* ================================================================== *)
(** * Properties *)

(** ** Dictionaries *)

Section PyDictFacts.
Context {K V : Type} `{EqDecision K}.
Implicit Types (k : K) (v : V) (d : dict K V).

Lemma dget_dset_eq k v d : dget k (dset k v d) = Some v.
Proof.
  induction d as [|[k' v'] d IH]; simpl.
  - destruct (decide (k = k)); congruence.
  - destruct (decide (k = k')) as [->|Hne]; simpl.
    + destruct (decide (k' = k')); congruence.
    + destruct (decide (k = k')); congruence.
Qed.

Lemma dget_dset_ne k k' v d : k <> k' -> dget k' (dset k v d) = dget k' d.
Proof.
  intros Hne. induction d as [|[k0 v0] d IH]; simpl.
  - destruct (decide (k' = k)); congruence.
  - destruct (decide (k = k0)) as [->|Hk]; simpl.
    + destruct (decide (k' = k0)); congruence.
    + destruct (decide (k' = k0)); congruence.
Qed.

Lemma dset_present_same k v d : dget k d = Some v -> dset k v d = d.
Proof.
  induction d as [|[k' v'] d IH]; simpl; [discriminate|].
  destruct (decide (k = k')) as [->|Hne]; intros H.
  - congruence.
  - rewrite IH; auto.
Qed.

Lemma dmem_dset k k' v d : dmem k' (dset k v d) = (bool_decide (k = k') || dmem k' d)%bool.
Proof.
  unfold dmem. destruct (decide (k = k')) as [->|Hne].
  - rewrite dget_dset_eq, bool_decide_eq_true_2; auto.
  - rewrite dget_dset_ne, bool_decide_eq_false_2; auto.
Qed.

Lemma dkeys_dset_present k v d : dmem k d = true -> dkeys (dset k v d) = dkeys d.
Proof.
  unfold dmem, dkeys. induction d as [|[k' v'] d IH]; simpl; [discriminate|].
  destruct (decide (k = k')) as [->|Hne]; simpl; intros H; [reflexivity|].
  rewrite IH; auto.
Qed.
End PyDictFacts.
(** ** float64: powers of two *)

Lemma pow2_pos e : (0 < pow2 e)%Q.
Proof. apply Qpower_0_lt. reflexivity. Qed.

Lemma pow2_add a b : (pow2 (a + b) == pow2 a * pow2 b)%Q.
Proof. apply Qpower_plus. discriminate. Qed.

Lemma pow2_le a b : a <= b -> (pow2 a <= pow2 b)%Q.
Proof. intros H. apply Qpower_le_compat_l; [exact H | discriminate]. Qed.

Lemma pow2_lt a b : a < b -> (pow2 a < pow2 b)%Q.
Proof. intros H. apply Qpower_lt_compat_l; [exact H | reflexivity]. Qed.

Lemma pow2_lt_inv a b : (pow2 a < pow2 b)%Q -> a < b.
Proof. intros H. eapply Qpower_lt_compat_l_inv; [exact H | reflexivity]. Qed.

Lemma pow2_Z k : 0 <= k -> (pow2 k == inject_Z (2 ^ k))%Q.
Proof. intros H. unfold pow2. now rewrite Zpower_Qpower. Qed.

Lemma pow2_succ a : (pow2 (a + 1) == 2 * pow2 a)%Q.
Proof. rewrite pow2_add. unfold pow2 at 2. rewrite Qpower_1_r. ring. Qed.

Lemma pow2_pred a : (pow2 a == 2 * pow2 (a - 1))%Q.
Proof. rewrite <- pow2_succ. now replace (a - 1 + 1) with a by lia. Qed.

(** ** float64: the binade of a positive rational *)

Lemma Zlog2_pow2_bounds n : 0 < n ->
  (pow2 (Z.log2 n) <= inject_Z n /\ inject_Z n < pow2 (Z.log2 n + 1))%Q.
Proof.
  intros Hn. destruct (Z.log2_spec n Hn) as [H1 H2].
  pose proof (Z.log2_nonneg n) as H0.
  rewrite !pow2_Z by lia. rewrite <- Zle_Qle, <- Zlt_Qlt.
  replace (Z.log2 n + 1) with (Z.succ (Z.log2 n)) by lia. auto.
Qed.

Lemma floor_log2_spec q : (0 < q)%Q ->
  (pow2 (floor_log2 q) <= q /\ q < pow2 (floor_log2 q + 1))%Q.
Proof.
  intros Hq. unfold floor_log2.
  set (n := Qnum q). set (d := Zpos (Qden q)).
  assert (Hn : 0 < n) by (destruct q as [qn qd]; unfold Qlt in Hq; simpl in *; subst n; lia).
  assert (Hd : 0 < d) by (subst d; lia).
  destruct (Zlog2_pow2_bounds n Hn) as [Hn1 Hn2].
  destruct (Zlog2_pow2_bounds d Hd) as [Hd1 Hd2].
  assert (Eq : (q * inject_Z d == inject_Z n)%Q).
  { destruct q as [qn qd]. subst n d. unfold Qeq, Qmult, inject_Z. simpl. lia. }
  set (a := Z.log2 n) in *. set (b := Z.log2 d) in *.
  assert (HD : (0 < inject_Z d)%Q) by (rewrite Zlt_Qlt in Hd; exact Hd).
  assert (E1 : (pow2 (a - b + 1) * pow2 b == pow2 (a + 1))%Q)
    by (rewrite <- pow2_add; now replace (a - b + 1 + b) with (a + 1) by lia).
  assert (E2 : (pow2 (a - b - 1) * pow2 (b + 1) == pow2 a)%Q)
    by (rewrite <- pow2_add; now replace (a - b - 1 + (b + 1)) with a by lia).
  pose proof (pow2_pos (a - b + 1)) as P1.
  pose proof (pow2_pos (a - b - 1)) as P2.
  pose proof (pow2_pos b) as P3.
  assert (Hup : (q < pow2 (a - b + 1))%Q).
  { apply Qnot_le_lt. intros Hc.
    assert ((pow2 (a - b + 1) * pow2 b <= q * inject_Z d)%Q) by nra. lra. }
  assert (Hlo : (pow2 (a - b - 1) <= q)%Q).
  { apply Qnot_lt_le. intros Hc.
    assert ((q * inject_Z d < pow2 (a - b - 1) * pow2 (b + 1))%Q) by nra. lra. }
  destruct (Qle_bool (pow2 (a - b)) q) eqn:Hb.
  - apply Qle_bool_iff in Hb. split; assumption.
  - assert (Hlt : (q < pow2 (a - b))%Q).
    { apply Qnot_le_lt. intros Hc. apply Qle_bool_iff in Hc. congruence. }
    replace (a - b - 1 + 1) with (a - b) by lia. split; assumption.
Qed.

Lemma floor_log2_unique q k : (pow2 k <= q)%Q -> (q < pow2 (k + 1))%Q -> floor_log2 q = k.
Proof.
  intros H1 H2.
  assert (Hq : (0 < q)%Q) by (pose proof (pow2_pos k); lra).
  destruct (floor_log2_spec q Hq) as [H3 H4].
  assert (floor_log2 q < k + 1) by (apply pow2_lt_inv; lra).
  assert (k < floor_log2 q + 1) by (apply pow2_lt_inv; lra).
  lia.
Qed.

Lemma floor_log2_mono q x : (0 < q)%Q -> (q <= x)%Q -> floor_log2 q <= floor_log2 x.
Proof.
  intros Hq Hx.
  destruct (floor_log2_spec q Hq) as [H1 _].
  destruct (floor_log2_spec x ltac:(lra)) as [_ H2].
  assert (floor_log2 q < floor_log2 x + 1) by (apply pow2_lt_inv; lra).
  lia.
Qed.

Lemma floor_log2_lt q k : (0 < q)%Q -> (q < pow2 k)%Q -> floor_log2 q < k.
Proof.
  intros Hq H. destruct (floor_log2_spec q Hq) as [H1 _].
  apply pow2_lt_inv. lra.
Qed.

Lemma floor_log2_ge q k : (pow2 k <= q)%Q -> k <= floor_log2 q.
Proof.
  intros H. assert (Hq : (0 < q)%Q) by (pose proof (pow2_pos k); lra).
  destruct (floor_log2_spec q Hq) as [_ H2].
  assert (k < floor_log2 q + 1) by (apply pow2_lt_inv; lra). lia.
Qed.

(** ** float64: rounding to the nearest integer *)

Lemma Qfloor_bounds t : (inject_Z (Qfloor t) <= t /\ t < inject_Z (Qfloor t) + 1)%Q.
Proof.
  split; [apply Qfloor_le|].
  pose proof (Qlt_floor t) as H. rewrite inject_Z_plus in H. exact H.
Qed.

Lemma round_half_even_cases t :
  (round_half_even t = Qfloor t /\ (t - inject_Z (Qfloor t) <= 1 # 2)%Q) \/
  (round_half_even t = Qfloor t + 1 /\ (1 # 2 <= t - inject_Z (Qfloor t))%Q).
Proof.
  unfold round_half_even.
  destruct (t - inject_Z (Qfloor t) ?= 1 # 2)%Q eqn:E.
  - apply Qeq_alt in E. destruct (Z.even (Qfloor t)); [left|right]; split; auto; lra.
  - apply Qlt_alt in E. left. split; auto. lra.
  - apply Qgt_alt in E. right. split; auto. lra.
Qed.

Lemma round_half_even_upper t z : (t <= inject_Z z)%Q -> round_half_even t <= z.
Proof.
  intros H. destruct (Qfloor_bounds t) as [H1 H2].
  destruct (round_half_even_cases t) as [[-> _]|[-> H3]].
  - rewrite Zle_Qle. lra.
  - assert (Qfloor t < z); [|lia]. rewrite Zlt_Qlt. lra.
Qed.

Lemma round_half_even_lower t z : (inject_Z z <= t)%Q -> z <= round_half_even t.
Proof.
  intros H. destruct (Qfloor_bounds t) as [H1 H2].
  assert (z < Qfloor t + 1).
  { rewrite Zlt_Qlt, inject_Z_plus. change (inject_Z 1) with 1%Q. lra. }
  destruct (round_half_even_cases t) as [[-> _]|[-> _]]; lia.
Qed.

Lemma round_half_even_Z z : round_half_even (inject_Z z) = z.
Proof.
  apply Z.le_antisymm.
  - apply round_half_even_upper. lra.
  - apply round_half_even_lower. lra.
Qed.

Lemma round_half_even_err t :
  (- (1 # 2) <= inject_Z (round_half_even t) - t <= 1 # 2)%Q.
Proof.
  destruct (Qfloor_bounds t) as [H1 H2].
  destruct (round_half_even_cases t) as [[-> H3]|[-> H3]].
  - lra.
  - rewrite inject_Z_plus. change (inject_Z 1) with 1%Q. lra.
Qed.

Lemma round_half_even_comp t t' : (t == t')%Q -> round_half_even t = round_half_even t'.
Proof.
  intros E. unfold round_half_even.
  rewrite (Qfloor_comp _ _ E).
  assert (Ec : (t - inject_Z (Qfloor t') ?= 1 # 2)%Q = (t' - inject_Z (Qfloor t') ?= 1 # 2)%Q).
  { apply Qcompare_comp; [rewrite E|]; reflexivity. }
  now rewrite Ec.
Qed.

Lemma floor_log2_comp q q' : (0 < q)%Q -> (q == q')%Q -> floor_log2 q = floor_log2 q'.
Proof.
  intros Hq E. symmetry. apply floor_log2_unique; rewrite <- E; apply floor_log2_spec; exact Hq.
Qed.

(** ** float64: the multiples of a power of two *)


Lemma on_grid_finer q e e' : e' <= e -> on_grid q e -> on_grid q e'.
Proof.
  intros He [z Hz]. exists (z * 2 ^ (e - e')).
  rewrite inject_Z_mult, <- pow2_Z by lia.
  rewrite Hz. replace e with ((e - e') + e') at 1 by lia. rewrite pow2_add. ring.
Qed.

Lemma on_grid_minus x y e : on_grid x e -> on_grid y e -> on_grid (x - y) e.
Proof.
  intros [a Ha] [b Hb]. exists (a - b). unfold Z.sub. rewrite inject_Z_plus, inject_Z_opp.
  rewrite Ha, Hb. ring.
Qed.

Lemma on_grid_plus x y e : on_grid x e -> on_grid y e -> on_grid (x + y) e.
Proof.
  intros [a Ha] [b Hb]. exists (a + b). rewrite inject_Z_plus.
  rewrite Ha, Hb. ring.
Qed.

Lemma on_grid_opp x e : on_grid x e -> on_grid (- x) e.
Proof.
  intros [a Ha]. exists (- a). rewrite inject_Z_opp, Ha. ring.
Qed.

Lemma on_grid_0 e : on_grid 0 e.
Proof. exists 0. ring. Qed.

Lemma on_grid_comp x y e : (x == y)%Q -> on_grid x e -> on_grid y e.
Proof. intros E [a Ha]. exists a. now rewrite <- E. Qed.

Lemma on_grid_pow2 k e : e <= k -> on_grid (pow2 k) e.
Proof.
  intros H. exists (2 ^ (k - e)). rewrite <- pow2_Z by lia. rewrite <- pow2_add.
  now replace (k - e + e) with k by lia.
Qed.

Lemma on_grid_quotient q e : on_grid q e -> exists z, (q / pow2 e == inject_Z z)%Q.
Proof.
  intros [z Hz]. exists z. rewrite Hz. field.
  pose proof (pow2_pos e). lra.
Qed.

Lemma f64_exponent_ge q : -1074 <= f64_exponent q.
Proof. unfold f64_exponent. lia. Qed.

Lemma f64_exponent_pos q : (0 < q)%Q -> f64_exponent q = Z.max (floor_log2 q - 52) (-1074).
Proof.
  intros Hq. unfold f64_exponent.
  rewrite (floor_log2_comp (Qabs q) q); [reflexivity| |]; rewrite Qabs_pos; lra.
Qed.

Lemma f64_exponent_mono q x : (0 < q)%Q -> (q <= x)%Q -> f64_exponent q <= f64_exponent x.
Proof.
  intros Hq Hx. rewrite !f64_exponent_pos by lra.
  pose proof (floor_log2_mono q x Hq Hx). lia.
Qed.

Lemma f64_exponent_comp q q' : (0 < q)%Q -> (q == q')%Q -> f64_exponent q = f64_exponent q'.
Proof.
  intros Hq E. rewrite !f64_exponent_pos by lra.
  now rewrite (floor_log2_comp q q' Hq E).
Qed.

Lemma Qabs_opp_eq q : Qabs (- q) = Qabs q.
Proof. destruct q as [n d]. unfold Qabs, Qopp. simpl. now rewrite Z.abs_opp. Qed.

Lemma f64_exponent_opp q : f64_exponent (- q) = f64_exponent q.
Proof. unfold f64_exponent. now rewrite Qabs_opp_eq. Qed.

(** ** float64: rounding a positive number *)

Section Magnitude.
Variable q : Q.
Hypothesis Hq : (0 < q)%Q.
Let e := f64_exponent q.
Let t := (q / pow2 e)%Q.
Let m := round_half_even t.

Lemma magnitude_scaled : (t * pow2 e == q)%Q.
Proof. subst t. field. pose proof (pow2_pos e). lra. Qed.

Lemma magnitude_eq : (round64_magnitude q == inject_Z m * pow2 e)%Q.
Proof. reflexivity. Qed.

Lemma magnitude_nonneg : (0 <= round64_magnitude q)%Q.
Proof.
  rewrite magnitude_eq. pose proof (pow2_pos e) as Pe.
  assert (0 <= m).
  { apply round_half_even_lower. change (inject_Z 0) with 0%Q.
    pose proof magnitude_scaled. apply Qnot_lt_le. intros Hc. nra. }
  assert ((0 <= inject_Z m)%Q) by (now rewrite Zle_Qle in H).
  nra.
Qed.

(** A multiple of [2^e] above [q] is above the rounded value. *)
Lemma magnitude_upper_grid x : on_grid x e -> (q <= x)%Q -> (round64_magnitude q <= x)%Q.
Proof.
  intros [z Hz] Hx. rewrite magnitude_eq, Hz.
  pose proof (pow2_pos e) as Pe. pose proof magnitude_scaled as Et.
  assert (m <= z).
  { apply round_half_even_upper. apply Qnot_lt_le. intros Hc. nra. }
  rewrite Zle_Qle in H. nra.
Qed.

Lemma magnitude_lower_grid x : on_grid x e -> (x <= q)%Q -> (x <= round64_magnitude q)%Q.
Proof.
  intros [z Hz] Hx. rewrite magnitude_eq, Hz.
  pose proof (pow2_pos e) as Pe. pose proof magnitude_scaled as Et.
  assert (z <= m).
  { apply round_half_even_lower. apply Qnot_lt_le. intros Hc. nra. }
  rewrite Zle_Qle in H. nra.
Qed.

Lemma magnitude_exact : on_grid q e -> (round64_magnitude q == q)%Q.
Proof.
  intros G. apply Qle_antisym.
  - apply magnitude_upper_grid; [exact G | lra].
  - apply magnitude_lower_grid; [exact G | lra].
Qed.

Lemma magnitude_on_grid : on_grid (round64_magnitude q) e.
Proof. exists m. apply magnitude_eq. Qed.

Lemma magnitude_err_abs :
  (- (pow2 (e - 1)) <= round64_magnitude q - q <= pow2 (e - 1))%Q.
Proof.
  rewrite magnitude_eq. pose proof (pow2_pos (e - 1)) as Pe.
  pose proof (pow2_pred e) as E2.
  pose proof magnitude_scaled as Et.
  pose proof (round_half_even_err t) as [H1 H2]. fold m in H1, H2.
  split; nra.
Qed.

End Magnitude.


Lemma f64_value_0 q : (q == 0)%Q -> f64_value q.
Proof. intros E. eapply on_grid_comp; [symmetry; exact E | apply on_grid_0]. Qed.

Lemma f64_value_comp x y : (x == y)%Q -> f64_value x -> f64_value y.
Proof.
  intros E Hx. destruct (Qeq_dec x 0) as [Z0|NZ].
  - apply f64_value_0. now rewrite <- E.
  - unfold f64_value in *.
    assert (Ee : f64_exponent x = f64_exponent y).
    { destruct (Qlt_le_dec 0 x) as [Hp|Hn].
      - now apply f64_exponent_comp.
      - rewrite <- (f64_exponent_opp x), <- (f64_exponent_opp y).
        apply f64_exponent_comp; [lra | now rewrite E]. }
    rewrite <- Ee. eapply on_grid_comp; eauto.
Qed.

Lemma f64_value_opp x : f64_value x -> f64_value (- x).
Proof. unfold f64_value. rewrite f64_exponent_opp. apply on_grid_opp. Qed.

Lemma grid_canonical x e :
  (0 < x)%Q -> on_grid x e -> -1074 <= e -> (x <= pow2 (53 + e))%Q -> f64_value x.
Proof.
  intros Hx G He Hb. unfold f64_value.
  destruct (Qlt_le_dec x (pow2 (53 + e))) as [Hlt|Hge].
  - apply on_grid_finer with (e := e); [|exact G].
    rewrite f64_exponent_pos by exact Hx.
    pose proof (floor_log2_lt x _ Hx Hlt). lia.
  - assert (E : (x == pow2 (53 + e))%Q) by lra.
    eapply on_grid_comp; [symmetry; exact E|].
    apply on_grid_pow2.
    rewrite (f64_exponent_comp x (pow2 (53 + e)) Hx E).
    rewrite f64_exponent_pos by apply pow2_pos.
    rewrite (floor_log2_unique (pow2 (53 + e)) (53 + e)); [lia|lra|apply pow2_lt; lia].
Qed.

Lemma magnitude_bound q : (0 < q)%Q -> (round64_magnitude q <= pow2 (53 + f64_exponent q))%Q.
Proof.
  intros Hq. apply magnitude_upper_grid.
  - apply on_grid_pow2. lia.
  - destruct (floor_log2_spec q Hq) as [_ H2].
    rewrite f64_exponent_pos by exact Hq.
    assert ((pow2 (floor_log2 q + 1) <= pow2 (53 + Z.max (floor_log2 q - 52) (-1074)))%Q)
      by (apply pow2_le; lia).
    lra.
Qed.

Lemma magnitude_value q : (0 < q)%Q -> f64_value (round64_magnitude q).
Proof.
  intros Hq. pose proof (magnitude_nonneg q Hq) as H0.
  destruct (Qeq_dec (round64_magnitude q) 0) as [Z0|NZ].
  - now apply f64_value_0.
  - apply grid_canonical with (e := f64_exponent q).
    + lra.
    + apply magnitude_on_grid.
    + apply f64_exponent_ge.
    + now apply magnitude_bound.
Qed.

Lemma magnitude_le q x : (0 < q)%Q -> f64_value x -> (q <= x)%Q -> (round64_magnitude q <= x)%Q.
Proof.
  intros Hq Hx Hle. apply magnitude_upper_grid; [|exact Hle].
  apply on_grid_finer with (e := f64_exponent x); [|exact Hx].
  now apply f64_exponent_mono.
Qed.

Lemma magnitude_ge q x : (0 < q)%Q -> f64_value x -> (x <= q)%Q -> (x <= round64_magnitude q)%Q.
Proof.
  intros Hq Hx Hle.
  destruct (Qlt_le_dec 0 x) as [Hp|Hn]; [|pose proof (magnitude_nonneg q Hq); lra].
  pose proof (f64_exponent_mono x q Hp Hle) as He.
  destruct (Z.eq_dec (f64_exponent x) (f64_exponent q)) as [E|NE].
  - apply magnitude_lower_grid; [|exact Hle]. rewrite <- E. exact Hx.
  - assert (Hk : floor_log2 x < floor_log2 q /\ f64_exponent q = floor_log2 q - 52).
    { rewrite !f64_exponent_pos in * by lra. lia. }
    destruct Hk as [Hk Eq].
    destruct (floor_log2_spec x Hp) as [_ H2].
    destruct (floor_log2_spec q Hq) as [H3 _].
    assert ((pow2 (floor_log2 x + 1) <= pow2 (floor_log2 q))%Q) by (apply pow2_le; lia).
    assert ((pow2 (floor_log2 q) <= round64_magnitude q)%Q).
    { apply magnitude_lower_grid; [|exact H3]. apply on_grid_pow2. lia. }
    lra.
Qed.

Lemma magnitude_err q :
  (0 < q)%Q -> on_grid q (-1074) ->
  (- (pow2 (-53) * q) <= round64_magnitude q - q <= pow2 (-53) * q)%Q.
Proof.
  intros Hq G.
  destruct (Z.eq_dec (f64_exponent q) (-1074)) as [E|NE].
  - assert (Ex : (round64_magnitude q == q)%Q).
    { apply magnitude_exact. now rewrite E. }
    pose proof (pow2_pos (-53)). rewrite Ex. split; nra.
  - assert (Ee : f64_exponent q = floor_log2 q - 52).
    { rewrite f64_exponent_pos in * by exact Hq. lia. }
    pose proof (magnitude_err_abs q) as [H1 H2].
    destruct (floor_log2_spec q Hq) as [H3 _].
    assert (Ep : (pow2 (f64_exponent q - 1) == pow2 (-53) * pow2 (floor_log2 q))%Q).
    { rewrite <- pow2_add. rewrite Ee. now replace (floor_log2 q - 52 - 1) with (-53 + floor_log2 q) by lia. }
    pose proof (pow2_pos (-53)). rewrite Ep in H1, H2. split; nra.
Qed.

(** ** float64: rounding a signed number *)

Lemma magnitude_zero q : (q == 0)%Q -> (round64_magnitude q == 0)%Q.
Proof.
  intros E. unfold round64_magnitude.
  generalize (f64_exponent q). intros e.
  rewrite (round_half_even_comp _ (inject_Z 0)); [rewrite round_half_even_Z; ring|].
  rewrite E. change (inject_Z 0) with 0%Q. field.
  pose proof (pow2_pos e). lra.
Qed.

Lemma magnitude_nonneg' q : (0 <= q)%Q -> (0 <= round64_magnitude q)%Q.
Proof.
  intros H. destruct (Qeq_dec q 0) as [Z0|NZ].
  - rewrite (magnitude_zero q Z0). lra.
  - apply magnitude_nonneg. lra.
Qed.

Lemma round64_value_nonneg_eq q : (0 <= q)%Q -> (round64_value q == round64_magnitude q)%Q.
Proof.
  intros H. unfold round64_value. rewrite Qred_correct.
  apply Qle_bool_iff in H. now rewrite H.
Qed.

Lemma round64_value_neg_eq q : (q < 0)%Q -> (round64_value q == - round64_magnitude (- q))%Q.
Proof.
  intros H. unfold round64_value. rewrite Qred_correct.
  destruct (Qle_bool 0 q) eqn:E; [|reflexivity].
  apply Qle_bool_iff in E. lra.
Qed.

Lemma round64_value_comp q q' : (q == q')%Q -> round64_value q = round64_value q'.
Proof.
  intros E. unfold round64_value. apply Qred_complete.
  assert (Eb : Qle_bool 0 q = Qle_bool 0 q').
  { destruct (Qle_bool 0 q) eqn:B, (Qle_bool 0 q') eqn:B'; auto.
    - apply Qle_bool_iff in B. rewrite E in B. apply Qle_bool_iff in B. congruence.
    - apply Qle_bool_iff in B'. rewrite <- E in B'. apply Qle_bool_iff in B'. congruence. }
  rewrite <- Eb.
  assert (Em : forall a b, (a == b)%Q -> (0 <= a)%Q -> (round64_magnitude a == round64_magnitude b)%Q).
  { intros a b Eab Ha. destruct (Qeq_dec a 0) as [Z0|NZ].
    - rewrite (magnitude_zero a Z0), (magnitude_zero b); [reflexivity | now rewrite <- Eab].
    - unfold round64_magnitude.
      rewrite <- (f64_exponent_comp a b) by (lra || exact Eab).
      generalize (f64_exponent a). intros e.
      rewrite (round_half_even_comp (a / pow2 e) (b / pow2 e));
        [reflexivity | now rewrite Eab]. }
  destruct (Qle_bool 0 q) eqn:B.
  - apply Qle_bool_iff in B. now apply Em.
  - assert ((q < 0)%Q).
    { apply Qnot_le_lt. intros Hc. apply Qle_bool_iff in Hc. congruence. }
    rewrite (Em (- q) (- q'))%Q; [reflexivity | now rewrite E | lra].
Qed.

Lemma round64_value_opp q : (round64_value (- q) == - round64_value q)%Q.
Proof.
  destruct (Qlt_le_dec q 0) as [Hn|Hp].
  - rewrite (round64_value_nonneg_eq (- q)) by lra.
    rewrite (round64_value_neg_eq q) by lra. ring.
  - destruct (Qeq_dec q 0) as [Z0|NZ].
    + rewrite (round64_value_nonneg_eq (- q)) by lra.
      rewrite (round64_value_nonneg_eq q) by lra.
      rewrite (magnitude_zero q Z0), (magnitude_zero (- q)); [ring | lra].
    + rewrite (round64_value_neg_eq (- q)) by lra.
      rewrite (round64_value_nonneg_eq q) by lra.
      assert (E : (- - q == q)%Q) by ring.
      rewrite <- (round64_value_nonneg_eq (- - q)) by lra.
      rewrite (round64_value_comp _ _ E).
      rewrite (round64_value_nonneg_eq q) by lra. reflexivity.
Qed.

Lemma round64_value_sign_nonneg q : (0 <= q)%Q -> (0 <= round64_value q)%Q.
Proof. intros H. rewrite round64_value_nonneg_eq by exact H. now apply magnitude_nonneg'. Qed.

Lemma round64_value_sign_nonpos q : (q <= 0)%Q -> (round64_value q <= 0)%Q.
Proof.
  intros H. pose proof (round64_value_sign_nonneg (- q) ltac:(lra)) as H1.
  rewrite round64_value_opp in H1. lra.
Qed.

(** Rounding is monotone against float64 values. *)
Lemma round64_value_le q x : f64_value x -> (q <= x)%Q -> (round64_value q <= x)%Q.
Proof.
  intros Hx Hle. destruct (Qlt_le_dec 0 q) as [Hp|Hn].
  - rewrite round64_value_nonneg_eq by lra. now apply magnitude_le.
  - destruct (Qlt_le_dec x 0) as [Hxn|Hxp].
    + rewrite round64_value_neg_eq by lra.
      pose proof (magnitude_ge (- q) (- x) ltac:(lra) (f64_value_opp x Hx) ltac:(lra)). lra.
    + pose proof (round64_value_sign_nonpos q Hn). lra.
Qed.

Lemma round64_value_ge q x : f64_value x -> (x <= q)%Q -> (x <= round64_value q)%Q.
Proof.
  intros Hx Hle.
  pose proof (round64_value_le (- q) (- x) (f64_value_opp x Hx) ltac:(lra)) as H.
  rewrite round64_value_opp in H. lra.
Qed.

Lemma round64_value_exact x : f64_value x -> (round64_value x == x)%Q.
Proof.
  intros Hx. apply Qle_antisym.
  - apply round64_value_le; [exact Hx | lra].
  - apply round64_value_ge; [exact Hx | lra].
Qed.

Lemma round64_value_is_value q : f64_value (round64_value q).
Proof.
  destruct (Qlt_le_dec 0 q) as [Hp|Hn].
  - eapply f64_value_comp; [symmetry; apply round64_value_nonneg_eq; lra|].
    now apply magnitude_value.
  - destruct (Qeq_dec q 0) as [Z0|NZ].
    + apply f64_value_0. rewrite round64_value_nonneg_eq by lra. now apply magnitude_zero.
    + eapply f64_value_comp; [symmetry; apply round64_value_neg_eq; lra|].
      apply f64_value_opp, magnitude_value. lra.
Qed.

Lemma round64_value_err q :
  on_grid q (-1074) ->
  (- (pow2 (-53) * Qabs q) <= round64_value q - q <= pow2 (-53) * Qabs q)%Q.
Proof.
  intros G. pose proof (pow2_pos (-53)) as P.
  destruct (Qlt_le_dec 0 q) as [Hp|Hn].
  - rewrite round64_value_nonneg_eq, Qabs_pos by lra. now apply magnitude_err.
  - destruct (Qeq_dec q 0) as [Z0|NZ].
    + rewrite round64_value_nonneg_eq by lra. rewrite (magnitude_zero q Z0).
      rewrite Qabs_pos by lra. rewrite Z0. split; lra.
    + rewrite round64_value_neg_eq, Qabs_neg by lra.
      pose proof (magnitude_err (- q) ltac:(lra) (on_grid_opp _ _ G)) as [H1 H2].
      split; lra.
Qed.

Lemma f64_value_grid x : f64_value x -> on_grid x (-1074).
Proof. apply on_grid_finer, f64_exponent_ge. Qed.

(** The amount a rounded difference falls short of its minuend is a float64
    value: for [0 <= s <= r] the subtraction [r - round64 (r - s)] is exact. *)
Lemma round64_difference_value r s :
  f64_value r -> f64_value s -> (0 <= s)%Q -> (s <= r)%Q ->
  f64_value (r - round64_value (r - s)).
Proof.
  intros Hr Hs Hs0 Hsr.
  destruct (Qeq_dec s 0) as [Zs|NZs].
  { apply f64_value_0.
    assert (E : (r - s == r)%Q) by lra.
    rewrite (round64_value_comp _ _ E), (round64_value_exact r Hr). ring. }
  destruct (Qeq_dec (r - s) 0) as [Zq|NZq].
  { apply f64_value_comp with (x := r); [|exact Hr].
    rewrite round64_value_nonneg_eq by lra. rewrite (magnitude_zero _ Zq). ring. }
  set (q := (r - s)%Q) in *.
  assert (Hq : (0 < q)%Q) by (subst q; lra).
  assert (Hsp : (0 < s)%Q) by lra.
  assert (Hrp : (0 < r)%Q) by lra.
  apply f64_value_comp with (x := (r - round64_magnitude q)%Q);
    [rewrite round64_value_nonneg_eq by lra; reflexivity|].
  assert (Gr : on_grid r (f64_exponent q)).
  { apply on_grid_finer with (e := f64_exponent r); [|exact Hr].
    apply f64_exponent_mono; subst q; lra. }
  destruct (Z_le_gt_dec (f64_exponent q) (f64_exponent s)) as [Hes|Hes].
  - assert (Gq : on_grid q (f64_exponent q)).
    { apply on_grid_minus; [exact Gr|].
      apply on_grid_finer with (e := f64_exponent s); [exact Hes|exact Hs]. }
    apply f64_value_comp with (x := s); [|exact Hs].
    rewrite (magnitude_exact q Gq). subst q. ring.
  - assert (Gy : on_grid (r - round64_magnitude q) (f64_exponent q)).
    { apply on_grid_minus; [exact Gr | apply magnitude_on_grid]. }
    assert (Hy0 : (0 <= r - round64_magnitude q)%Q).
    { pose proof (magnitude_le q r Hq Hr ltac:(subst q; lra)). lra. }
    destruct (Qeq_dec (r - round64_magnitude q) 0) as [Zy|NZy]; [now apply f64_value_0|].
    apply grid_canonical with (e := f64_exponent q);
      [lra | exact Gy | apply f64_exponent_ge |].
    assert (Hk : floor_log2 s < floor_log2 q /\ f64_exponent q = floor_log2 q - 52).
    { rewrite !f64_exponent_pos in Hes by lra. rewrite f64_exponent_pos by lra. lia. }
    destruct Hk as [Hk Ee].
    pose proof (magnitude_err_abs q) as [H1 H2].
    destruct (floor_log2_spec s Hsp) as [_ Hs2].
    assert ((pow2 (floor_log2 s + 1) <= pow2 (floor_log2 q))%Q) by (apply pow2_le; lia).
    assert ((pow2 (f64_exponent q - 1) <= pow2 (floor_log2 q))%Q) by (apply pow2_le; lia).
    assert (E2 : (pow2 (53 + f64_exponent q) == 2 * pow2 (floor_log2 q))%Q).
    { rewrite <- pow2_succ. now replace (53 + f64_exponent q) with (floor_log2 q + 1) by lia. }
    rewrite E2. subst q. lra.
Qed.

(** ** float64 cells *)

Lemma Qclip_lower_ge lower x : (lower <= Qclip_lower lower x)%Q.
Proof. unfold Qclip_lower. destruct (Qlt_le_dec x lower); lra. Qed.

Lemma Qclip_lower_le lower x : (x <= Qclip_lower lower x)%Q.
Proof. unfold Qclip_lower. destruct (Qlt_le_dec x lower); lra. Qed.

Lemma Qclip_lower_cases lower x :
  (x < lower /\ Qclip_lower lower x = lower)%Q \/ (lower <= x /\ Qclip_lower lower x = x)%Q.
Proof. unfold Qclip_lower. destruct (Qlt_le_dec x lower); auto. Qed.

Lemma round64_cases q :
  (round64 q = Num (round64_value q) /\
   (- pow2 1024 < round64_value q)%Q /\ (round64_value q < pow2 1024)%Q) \/
  (round64 q = Inf false /\ (pow2 1024 <= round64_value q)%Q) \/
  (round64 q = Inf true /\ (round64_value q <= - pow2 1024)%Q).
Proof.
  unfold round64. cbv zeta.
  destruct (Qle_bool (pow2 1024) (round64_value q)) eqn:E1.
  { apply Qle_bool_iff in E1. auto. }
  destruct (Qle_bool (round64_value q) (- pow2 1024)) eqn:E2.
  { apply Qle_bool_iff in E2. auto. }
  left. split; [reflexivity|]. split; apply Qnot_le_lt; intros Hc;
    apply Qle_bool_iff in Hc; congruence.
Qed.

Lemma round64_num q r : round64 q = Num r -> r = round64_value q.
Proof.
  destruct (round64_cases q) as [[E _]|[[E _]|[E _]]]; rewrite E; congruence.
Qed.

(** Between two finite float64 values the result is a finite number that
    lies between them. *)
Lemma round64_between q lo hi :
  f64_finite lo -> f64_finite hi -> (lo <= q)%Q -> (q <= hi)%Q ->
  round64 q = Num (round64_value q) /\ f64_finite (round64_value q) /\
  (lo <= round64_value q)%Q /\ (round64_value q <= hi)%Q.
Proof.
  intros (Vlo & Llo & _) (Vhi & _ & Hhi) H1 H2.
  pose proof (round64_value_ge q lo Vlo H1) as G.
  pose proof (round64_value_le q hi Vhi H2) as L.
  destruct (round64_cases q) as [[E _]|[[_ Hc]|[_ Hc]]]; [|lra|lra].
  split; [exact E|]. split; [|split; assumption].
  split; [apply round64_value_is_value|]. split; lra.
Qed.

Lemma is_f64_finite q : is_f64 q = true -> f64_finite q.
Proof.
  unfold is_f64. intros H.
  destruct (round64_cases q) as [(E & B1 & B2)|[[E _]|[E _]]]; rewrite E in H; try discriminate.
  apply Qeq_bool_iff in H.
  split; [|rewrite <- H; split; assumption].
  eapply f64_value_comp; [exact H | apply round64_value_is_value].
Qed.

Lemma f64_finite_0 : f64_finite 0.
Proof.
  split; [now apply f64_value_0|]. pose proof (pow2_pos 1024). split; lra.
Qed.

Lemma f64_finite_opp q : f64_finite q -> f64_finite (- q).
Proof.
  intros (V & B1 & B2). split; [now apply f64_value_opp|]. split; lra.
Qed.

Lemma f64_finite_comp x y : (x == y)%Q -> f64_finite x -> f64_finite y.
Proof.
  intros E (V & B1 & B2). split; [eapply f64_value_comp; eauto|]. rewrite <- E. auto.
Qed.

(** One step of the waterfall on a row of non-negative readings: the
    residual [r] before the step and the supply [s] give the residual [r']
    after it and the allocation [a]. *)
Lemma allocation_step r s :
  f64_finite r -> f64_finite s -> (0 <= r)%Q -> (0 <= s)%Q ->
  exists r' a,
    float_clip 0 (float_sub (Num r) (Num s)) = Num r' /\
    float_sub (Num r) (Num r') = Num a /\
    f64_finite r' /\ f64_finite a /\
    (0 <= r')%Q /\ (r' <= r)%Q /\
    (a == r - r')%Q /\
    (a <= s + F64_UNIT_ROUNDOFF * r)%Q /\
    ((r <= s)%Q -> (a == r)%Q).
Proof.
  intros Fr Fs Hr Hs.
  destruct (round64_between (r - s) (- s) r (f64_finite_opp s Fs) Fr ltac:(lra) ltac:(lra))
    as (E1 & F1 & L1 & U1).
  set (x := round64_value (r - s)) in *.
  set (r' := Qclip_lower 0 x).
  assert (Hr'0 : (0 <= r')%Q) by apply Qclip_lower_ge.
  assert (Hr'x : (x <= r')%Q) by apply Qclip_lower_le.
  assert (Hr'r : (r' <= r)%Q).
  { subst r'. destruct (Qclip_lower_cases 0 x) as [[_ ->]|[_ ->]]; lra. }
  assert (Fr' : f64_finite r').
  { subst r'. destruct (Qclip_lower_cases 0 x) as [[_ ->]|[_ ->]];
      [apply f64_finite_0 | exact F1]. }
  assert (Vd : f64_value (r - r')).
  { subst r'. destruct (Qclip_lower_cases 0 x) as [[_ ->]|[Hx0 ->]].
    - eapply f64_value_comp; [|exact (proj1 Fr)]. ring.
    - destruct (Qlt_le_dec r s) as [Hlt|Hle].
      + pose proof (round64_value_sign_nonpos (r - s) ltac:(lra)) as Hn. fold x in Hn.
        eapply f64_value_comp; [|exact (proj1 Fr)]. lra.
      + subst x. apply round64_difference_value; [exact (proj1 Fr)|exact (proj1 Fs)|lra|lra]. }
  destruct (round64_between (r - r') 0 r f64_finite_0 Fr ltac:(lra) ltac:(lra))
    as (E2 & F2 & L2 & U2).
  pose proof (round64_value_exact _ Vd) as Ea.
  pose proof (pow2_pos (-53)) as Pu.
  exists r', (round64_value (r - r')).
  split; [unfold float_sub; rewrite E1; reflexivity|].
  split; [exact E2|].
  split; [exact Fr'|]. split; [exact F2|].
  split; [exact Hr'0|]. split; [exact Hr'r|]. split; [exact Ea|].
  split.
  - rewrite Ea. unfold F64_UNIT_ROUNDOFF.
    destruct (Qlt_le_dec r s) as [Hlt|Hle]; [nra|].
    assert (G : on_grid (r - s) (-1074)).
    { apply on_grid_minus; apply f64_value_grid; [exact (proj1 Fr)|exact (proj1 Fs)]. }
    pose proof (round64_value_err (r - s) G) as [He _]. fold x in He.
    rewrite Qabs_pos in He by lra. nra.
  - intros Hle. rewrite Ea.
    pose proof (round64_value_sign_nonpos (r - s) ltac:(lra)) as Hn. fold x in Hn.
    subst r'. destruct (Qclip_lower_cases 0 x) as [[_ ->]|[Hx0 ->]]; lra.
Qed.

(** ** The result monad *)

Lemma rbind_ok {A B : Type} (m : result A) (f : A -> result B) (b : B) :
  rbind m f = Ok b -> exists a, m = Ok a /\ f a = Ok b.
Proof. destruct m as [a|e]; simpl; [eauto | discriminate]. Qed.

Lemma Ok_inj {A : Type} (a b : A) : Ok a = Ok b -> a = b.
Proof. congruence. Qed.

Lemma lift_opt_ok {A : Type} (e : PyErr) (o : option A) (a : A) :
  lift_opt e o = Ok a -> o = Some a.
Proof. destruct o; simpl; congruence. Qed.

(** Peel the leading binds of a hypothesis [... = Ok _]. *)
Ltac inv_ok H :=
  repeat match type of H with
  | rbind _ _ = Ok _ =>
      let a := fresh "a" in
      let Ha := fresh "Ha" in
      apply rbind_ok in H; destruct H as (a & Ha & H)
  | (let (_, _) := ?p in _) = Ok _ => destruct p
  end.

(** ** Series *)

Lemma series_zip_nth f a b c (i : nat) x y :
  series_zip f a b = Ok c ->
  nth_error a i = Some x -> nth_error b i = Some y ->
  exists z, f x y = Ok z /\ nth_error c i = Some z.
Proof.
  revert b c i. induction a as [|x0 a IH]; intros [|y0 b] c i H Hx Hy;
    destruct i; simpl in *; try discriminate.
  - inv_ok H. injection H as <-. injection Hx as ->. injection Hy as ->. eauto.
  - inv_ok H. injection H as <-. simpl. eapply IH; eauto.
Qed.

Lemma series_map_nth f a c (i : nat) x :
  series_map f a = Ok c ->
  nth_error a i = Some x ->
  exists z, f x = Ok z /\ nth_error c i = Some z.
Proof.
  revert c i. induction a as [|x0 a IH]; intros c i H Hx;
    destruct i; simpl in *; try discriminate.
  - inv_ok H. injection H as <-. injection Hx as ->. eauto.
  - inv_ok H. injection H as <-. simpl. eapply IH; eauto.
Qed.

Lemma cell_arith_ok op x y z : cell_arith op x y = Ok z -> z = op x y.
Proof. unfold cell_arith. destruct x, y; congruence. Qed.

Lemma series_sub_nth a b c (i : nat) x y :
  series_sub a b = Ok c ->
  nth_error a i = Some x -> nth_error b i = Some y ->
  nth_error c i = Some (float_sub x y).
Proof.
  intros H Ha Hb. destruct (series_zip_nth _ _ _ _ _ _ _ H Ha Hb) as (z & Hz & Hc).
  apply cell_arith_ok in Hz. congruence.
Qed.

Lemma series_add_nth a b c (i : nat) x y :
  series_add a b = Ok c ->
  nth_error a i = Some x -> nth_error b i = Some y ->
  nth_error c i = Some (float_add x y).
Proof.
  intros H Ha Hb. destruct (series_zip_nth _ _ _ _ _ _ _ H Ha Hb) as (z & Hz & Hc).
  apply cell_arith_ok in Hz. congruence.
Qed.

Lemma series_clip_nth lower a c (i : nat) x :
  series_clip lower a = Ok c ->
  nth_error a i = Some x ->
  nth_error c i = Some (float_clip lower x).
Proof.
  intros H Ha. destruct (series_map_nth _ _ _ _ _ H Ha) as (z & Hz & Hc).
  destruct x; try discriminate Hz; congruence.
Qed.

(** ** Columns of the frame *)

Lemma value_inj c1 c2 : value c1 = value c2 -> c1 = c2.
Proof. destruct c1, c2; simpl; intros H; first [reflexivity | discriminate H]. Qed.

Lemma cell_at_set_col_eq df c s (i : nat) :
  cell_at (set_col df (value c) s) c i = nth_error s i.
Proof. unfold cell_at, set_col; simpl. now rewrite dget_dset_eq. Qed.

Lemma cell_at_set_col_ne df c c' s (i : nat) :
  c <> c' -> cell_at (set_col df (value c) s) c' i = cell_at df c' i.
Proof.
  intros Hne. unfold cell_at, set_col; simpl. rewrite dget_dset_ne; auto.
  intros E. apply value_inj in E. congruence.
Qed.

Lemma col_cell_at df c s (i : nat) :
  col df (value c) = Ok s -> cell_at df c i = nth_error s i.
Proof.
  unfold col, dindex, cell_at. intros H. apply lift_opt_ok in H. now rewrite H.
Qed.

(** ** One allocation step of the waterfall, read at one row *)

Lemma allocate_supply_row (i : nat) supply last df this df' (n : nat) (l s : cell) :
  allocate_supply i supply last df = Ok (this, df') ->
  this <> last ->
  cell_at df last n = Some l ->
  cell_at df supply n = Some s ->
  exists target,
    nth_error RESIDUALS i = Some this /\
    dget supply SUPPLY_TO_DEMAND = Some target /\
    cell_at df' target n = Some (float_sub l (float_clip 0 (float_sub l s))) /\
    (target <> this -> cell_at df' this n = Some (float_clip 0 (float_sub l s))) /\
    (forall c, c <> this -> c <> target -> cell_at df' c n = cell_at df c n).
Proof.
  unfold allocate_supply. intros H Hne Hl Hs.
  inv_ok H. injection H as -> <-.
  apply lift_opt_ok in Ha. apply lift_opt_ok in Ha7.
  rename a7 into target.
  rewrite (col_cell_at _ _ _ _ Ha0) in Hl.
  rewrite (col_cell_at _ _ _ _ Ha1) in Hs.
  pose proof (series_sub_nth _ _ _ _ _ _ Ha2 Hl Hs) as Hshort.
  pose proof (series_clip_nth _ _ _ _ _ Ha3 Hshort) as Hclip.
  assert (Hl' : nth_error a4 n = Some l).
  { rewrite <- (col_cell_at _ _ _ _ Ha4), cell_at_set_col_ne by assumption.
    now rewrite (col_cell_at _ _ _ _ Ha0). }
  assert (Hr : nth_error a5 n = Some (float_clip 0 (float_sub l s))).
  { rewrite <- (col_cell_at _ _ _ _ Ha5), cell_at_set_col_eq. exact Hclip. }
  pose proof (series_sub_nth _ _ _ _ _ _ Ha6 Hl' Hr) as Hused.
  exists target. repeat split; auto.
  - now rewrite cell_at_set_col_eq.
  - intros Hts. rewrite cell_at_set_col_ne, cell_at_set_col_eq by assumption. exact Hclip.
  - intros c Hc1 Hc2. rewrite !cell_at_set_col_ne by congruence. reflexivity.
Qed.

Lemma assign_binop_sub_row dst a b df df' (n : nat) (x y : cell) :
  assign_binop series_sub dst a b df = Ok df' ->
  cell_at df a n = Some x -> cell_at df b n = Some y ->
  cell_at df' dst n = Some (float_sub x y) /\
  (forall c, c <> dst -> cell_at df' c n = cell_at df c n).
Proof.
  unfold assign_binop. intros H Hx Hy. inv_ok H. injection H as <-.
  rewrite (col_cell_at _ _ _ _ Ha) in Hx. rewrite (col_cell_at _ _ _ _ Ha0) in Hy.
  split.
  - rewrite cell_at_set_col_eq. eapply series_sub_nth; eauto.
  - intros c Hc. rewrite cell_at_set_col_ne; congruence.
Qed.

Lemma assign_binop_frame op dst a b df df' (n : nat) c :
  assign_binop op dst a b df = Ok df' ->
  c <> dst -> cell_at df' c n = cell_at df c n.
Proof.
  unfold assign_binop. intros H Hc. inv_ok H. injection H as <-.
  rewrite cell_at_set_col_ne; congruence.
Qed.

Lemma allocate_supply_this (i : nat) supply last df this df' :
  allocate_supply i supply last df = Ok (this, df') ->
  nth_error RESIDUALS i = Some this.
Proof.
  unfold allocate_supply. intros H. inv_ok H. injection H as -> <-.
  now apply lift_opt_ok in Ha.
Qed.

Lemma supply_permutations (priority : list PDColName) :
  Permutation priority [GRID_SUPPLY; PW_SUPPLY; SOLAR_SUPPLY] ->
  priority = [GRID_SUPPLY; PW_SUPPLY; SOLAR_SUPPLY] \/
  priority = [GRID_SUPPLY; SOLAR_SUPPLY; PW_SUPPLY] \/
  priority = [PW_SUPPLY; GRID_SUPPLY; SOLAR_SUPPLY] \/
  priority = [PW_SUPPLY; SOLAR_SUPPLY; GRID_SUPPLY] \/
  priority = [SOLAR_SUPPLY; GRID_SUPPLY; PW_SUPPLY] \/
  priority = [SOLAR_SUPPLY; PW_SUPPLY; GRID_SUPPLY].
Proof.
  intros HP. pose proof (Permutation_length HP) as HL.
  destruct priority as [|x [|y [|z [|]]]]; try discriminate HL.
  assert (ND : List.NoDup [x; y; z]).
  { eapply Permutation_NoDup; [symmetry; exact HP|].
    repeat constructor; simpl; intuition discriminate. }
  assert (Hx : In x [GRID_SUPPLY; PW_SUPPLY; SOLAR_SUPPLY])
    by (eapply Permutation_in; [exact HP | simpl; auto]).
  assert (Hy : In y [GRID_SUPPLY; PW_SUPPLY; SOLAR_SUPPLY])
    by (eapply Permutation_in; [exact HP | simpl; auto]).
  assert (Hz : In z [GRID_SUPPLY; PW_SUPPLY; SOLAR_SUPPLY])
    by (eapply Permutation_in; [exact HP | simpl; auto]).
  inversion ND as [|? ? Nx ND1]; subst. inversion ND1 as [|? ? Ny ND2]; subst.
  simpl in *.
  destruct Hx as [<-|[<-|[<-|[]]]]; destruct Hy as [<-|[<-|[<-|[]]]];
    destruct Hz as [<-|[<-|[<-|[]]]]; try (exfalso; tauto); tauto.
Qed.

Ltac waterfall_step H n Hl Hs dfk Hcell_t Hcell_r Hframe :=
  let this := fresh "this" in
  let tgt := fresh "tgt" in
  let Hstep := fresh "Hstep" in
  let Hthis := fresh "Hthis" in
  let Htgt := fresh "Htgt" in
  apply rbind_ok in H; destruct H as ([this dfk] & Hstep & H);
  pose proof (allocate_supply_this _ _ _ _ _ _ Hstep) as Hthis;
  simpl in Hthis; injection Hthis as <-;
  destruct (allocate_supply_row _ _ _ _ _ _ n _ _ Hstep ltac:(discriminate) Hl Hs)
    as (tgt & _ & Htgt & Hcell_t & Hcell_r & Hframe);
  simpl in Htgt; injection Htgt as <-;
  specialize (Hcell_r ltac:(discriminate)).

Lemma waterfall_row s0 s1 s2 df df' (n : nat) (d v0 v1 v2 : cell) :
  Permutation [s0; s1; s2] [GRID_SUPPLY; PW_SUPPLY; SOLAR_SUPPLY] ->
  supply_waterfall [s0; s1; s2] 0 HOME_DEMAND df = Ok df' ->
  cell_at df HOME_DEMAND n = Some d ->
  cell_at df s0 n = Some v0 ->
  cell_at df s1 n = Some v1 ->
  cell_at df s2 n = Some v2 ->
  let r1 := float_clip 0 (float_sub d v0) in
  let r2 := float_clip 0 (float_sub r1 v1) in
  let r3 := float_clip 0 (float_sub r2 v2) in
  exists t0 t1 t2,
    dget s0 SUPPLY_TO_DEMAND = Some t0 /\
    dget s1 SUPPLY_TO_DEMAND = Some t1 /\
    dget s2 SUPPLY_TO_DEMAND = Some t2 /\
    cell_at df' RESIDUAL_DEMAND_1 n = Some r1 /\
    cell_at df' RESIDUAL_DEMAND_2 n = Some r2 /\
    cell_at df' RESIDUAL_DEMAND_FINAL n = Some r3 /\
    cell_at df' t0 n = Some (float_sub d r1) /\
    cell_at df' t1 n = Some (float_sub r1 r2) /\
    cell_at df' t2 n = Some (float_sub r2 r3) /\
    (forall c, In c [HOME_DEMAND; GRID_SUPPLY; PW_SUPPLY; SOLAR_SUPPLY; GRID_EXPORT] ->
               cell_at df' c n = cell_at df c n).
Proof.
  intros HP H Hd H0 H1 H2 r1 r2 r3.
  cbn [supply_waterfall] in H.
  destruct (supply_permutations _ HP) as [E|[E|[E|[E|[E|E]]]]];
    injection E as -> -> ->.
  all: waterfall_step H n Hd H0 dfa Ht0 Hr1 Hfa.
  all: rewrite <- Hfa in H1 by discriminate.
  all: waterfall_step H n Hr1 H1 dfb Ht1 Hr2 Hfb.
  all: rewrite <- Hfa, <- Hfb in H2 by discriminate.
  all: waterfall_step H n Hr2 H2 dfc Ht2 Hr3 Hfc.
  all: injection H as <-.
  all: eexists _, _, _; repeat split; try reflexivity.
  all: try (rewrite ?Hfc, ?Hfb, ?Hfa by discriminate; assumption).
  all: intros c Hc; simpl in Hc;
       destruct Hc as [<-|[<-|[<-|[<-|[<-|[]]]]]];
       rewrite ?Hfc, ?Hfb, ?Hfa by discriminate; reflexivity.
Qed.

Lemma core_usage_inv priority df df' :
  _core_usage priority df = Ok df' ->
  exists dfw dfg,
    supply_waterfall priority 0 HOME_DEMAND df = Ok dfw /\
    assign_binop series_sub GRID_CHARGING GRID_SUPPLY GRID_TO_HOME dfw = Ok dfg /\
    df_index df' = df_index dfg /\
    dget (value TARIFF) (df_data df') = Some (map (fun _ => Str "None") (df_index dfg)) /\
    (forall c (n : nat),
        ~ In c [SELF_PW_NET_OF_GRID; SELF_SOLAR_PLUS_RES; SELF_TOTAL; TARIFF] ->
        cell_at df' c n = cell_at dfg c n).
Proof.
  unfold _core_usage. intros H. inv_ok H. apply Ok_inj in H. subst df'.
  rename a into dfw, a0 into dfg.
  assert (Hidx : df_index a3 = df_index dfg).
  { unfold assign_binop in Ha1, Ha2. inv_ok Ha1. inv_ok Ha2. inv_ok Ha3.
    apply Ok_inj in Ha1, Ha2, Ha3. subst. reflexivity. }
  exists dfw, dfg. repeat split; auto.
  - unfold set_col_scalar, set_col; simpl. rewrite dget_dset_eq. now rewrite Hidx.
  - intros c n Hc. simpl in Hc.
    unfold set_col_scalar. rewrite cell_at_set_col_ne by tauto.
    inv_ok Ha3. apply Ok_inj in Ha3. subst a3. rewrite cell_at_set_col_ne by tauto.
    rewrite (assign_binop_frame _ _ _ _ _ _ n c Ha2) by (intros ->; tauto).
    rewrite (assign_binop_frame _ _ _ _ _ _ n c Ha1) by (intros ->; tauto).
    reflexivity.
Qed.

Lemma core_usage_row priority df df' (n : nat) (d g p s : cell) :
  Permutation priority [GRID_SUPPLY; PW_SUPPLY; SOLAR_SUPPLY] ->
  _core_usage priority df = Ok df' ->
  cell_at df HOME_DEMAND n = Some d ->
  cell_at df GRID_SUPPLY n = Some g ->
  cell_at df PW_SUPPLY n = Some p ->
  cell_at df SOLAR_SUPPLY n = Some s ->
  exists s0 s1 s2 t0 t1 t2 v0 v1 v2,
    priority = [s0; s1; s2] /\
    Permutation [(s0, t0, v0); (s1, t1, v1); (s2, t2, v2)]
                [(GRID_SUPPLY, GRID_TO_HOME, g); (PW_SUPPLY, PW_TO_HOME, p);
                 (SOLAR_SUPPLY, SOLAR_TO_HOME, s)] /\
    let r1 := float_clip 0 (float_sub d v0) in
    let r2 := float_clip 0 (float_sub r1 v1) in
    let r3 := float_clip 0 (float_sub r2 v2) in
    cell_at df' HOME_DEMAND n = Some d /\
    cell_at df' GRID_SUPPLY n = Some g /\
    cell_at df' PW_SUPPLY n = Some p /\
    cell_at df' SOLAR_SUPPLY n = Some s /\
    cell_at df' RESIDUAL_DEMAND_1 n = Some r1 /\
    cell_at df' RESIDUAL_DEMAND_2 n = Some r2 /\
    cell_at df' RESIDUAL_DEMAND_FINAL n = Some r3 /\
    cell_at df' t0 n = Some (float_sub d r1) /\
    cell_at df' t1 n = Some (float_sub r1 r2) /\
    cell_at df' t2 n = Some (float_sub r2 r3) /\
    exists g2h, cell_at df' GRID_TO_HOME n = Some g2h /\
                cell_at df' GRID_CHARGING n = Some (float_sub g g2h).
Proof.
  intros HP H Hd Hg Hp Hs.
  destruct (core_usage_inv _ _ _ H) as (dfw & dfg & Hw & Hgc & _ & _ & Htail).
  assert (Hkeep : forall c, In c [HOME_DEMAND; GRID_SUPPLY; PW_SUPPLY; SOLAR_SUPPLY;
                                  RESIDUAL_DEMAND_1; RESIDUAL_DEMAND_2; RESIDUAL_DEMAND_FINAL;
                                  GRID_TO_HOME; PW_TO_HOME; SOLAR_TO_HOME] ->
                         cell_at df' c n = cell_at dfw c n).
  { intros c Hc. rewrite Htail.
    - apply (assign_binop_frame _ _ _ _ _ _ n c Hgc).
      simpl in Hc. intuition (subst; discriminate).
    - simpl in *. intuition (subst; discriminate). }
  destruct (supply_permutations _ HP) as [E|[E|[E|[E|[E|E]]]]]; subst priority.
  all: match type of Hw with
       | supply_waterfall [?a; ?b; ?c] _ _ ?df0 = _ =>
           match goal with
           | Ha : cell_at df0 a ?n0 = Some ?va,
             Hb : cell_at df0 b ?n0 = Some ?vb,
             Hc : cell_at df0 c ?n0 = Some ?vc,
             Hd0 : cell_at df0 HOME_DEMAND ?n0 = Some ?d0 |- _ =>
               destruct (waterfall_row a b c df0 _ n0 d0 va vb vc HP Hw Hd0 Ha Hb Hc)
                 as (t0 & t1 & t2 & E0 & E1 & E2 & R1 & R2 & R3 & T0 & T1 & T2 & Hin);
               simpl in E0, E1, E2;
               injection E0 as <-; injection E1 as <-; injection E2 as <-;
               eexists a, b, c, _, _, _, va, vb, vc
           end
       end.
  all: split; [reflexivity|].
  all: split; [ first [ reflexivity | apply perm_swap
                      | eapply perm_trans; [apply perm_swap|apply perm_skip, perm_swap]
                      | eapply perm_trans; [apply perm_skip, perm_swap|apply perm_swap]
                      | apply perm_skip, perm_swap
                      | eapply perm_trans; [apply perm_swap|];
                        eapply perm_trans; [apply perm_skip, perm_swap|apply perm_swap] ] |].
  all: cbv zeta.
  all: rewrite !Hkeep by (simpl; tauto).
  all: rewrite !Hin by (simpl; tauto).
  all: repeat (split; [assumption|]).
  all: match goal with
       | HG : cell_at ?dfw0 GRID_TO_HOME ?n0 = Some ?x |- _ =>
           exists x; split; [exact HG|];
           rewrite Htail by (simpl; intuition discriminate);
           rewrite <- Hin in Hg by (simpl; tauto);
           apply (assign_binop_sub_row _ _ _ _ _ n0 _ _ Hgc Hg HG)
       end.
Qed.

Lemma Permutation_length_3_inv {A : Type} (a b c x y z : A) :
  Permutation [a; b; c] [x; y; z] ->
  (a = x /\ b = y /\ c = z) \/ (a = x /\ b = z /\ c = y) \/
  (a = y /\ b = x /\ c = z) \/ (a = y /\ b = z /\ c = x) \/
  (a = z /\ b = x /\ c = y) \/ (a = z /\ b = y /\ c = x).
Proof.
  intros HP.
  assert (Ha : In a [x; y; z]) by (eapply Permutation_in; [exact HP | simpl; auto]).
  simpl in Ha. destruct Ha as [->|[->|[->|[]]]].
  - apply Permutation_cons_inv in HP.
    destruct (Permutation_length_2_inv HP) as [E|E]; injection E as -> ->; tauto.
  - assert (HP' : Permutation (a :: [b; c]) (a :: [x; z])).
    { etransitivity; [exact HP|]. apply perm_swap. }
    apply Permutation_cons_inv in HP'.
    destruct (Permutation_length_2_inv HP') as [E|E]; injection E as -> ->; tauto.
  - assert (HP' : Permutation (a :: [b; c]) (a :: [x; y])).
    { etransitivity; [exact HP|].
      etransitivity; [apply perm_skip, perm_swap|]. apply perm_swap. }
    apply Permutation_cons_inv in HP'.
    destruct (Permutation_length_2_inv HP') as [E|E]; injection E as -> ->; tauto.
Qed.


(** ** [_core_usage] returns on a frame of floats *)

Lemma round64_is_float q : match round64 q with Str _ => False | _ => True end.
Proof.
  destruct (round64_cases q) as [[-> _]|[[-> _]|[-> _]]]; exact I.
Qed.

Lemma float_sub_is_float x y : match float_sub x y with Str _ => False | _ => True end.
Proof.
  destruct x as [a| |sa|?], y as [b| |sb|?]; simpl; try exact I.
  - apply round64_is_float.
  - destruct (Bool.eqb sa sb); exact I.
Qed.

Lemma float_add_is_float x y : match float_add x y with Str _ => False | _ => True end.
Proof.
  destruct x as [a| |sa|?], y as [b| |sb|?]; simpl; try exact I.
  - apply round64_is_float.
  - destruct (Bool.eqb sa sb); exact I.
Qed.

Lemma series_arith_total op a b :
  (forall x y, match op x y with Str _ => False | _ => True end) ->
  float_series a -> float_series b ->
  exists c, series_zip (cell_arith op) a b = Ok c /\ float_series c.
Proof.
  unfold float_series. intros Hop Ha. revert b.
  induction Ha as [|x a Hx Ha IH]; intros b Hb.
  - exists []. split; [reflexivity | constructor].
  - destruct Hb as [|y b Hy Hb]; [exists []; split; [reflexivity | constructor]|].
    destruct (IH b Hb) as (c & Hc & Hfc). cbn [series_zip]. rewrite Hc.
    destruct x, y; try contradiction; cbn [cell_arith rbind]; eexists;
      (split; [reflexivity|]); constructor; auto; apply Hop.
Qed.

Lemma series_clip_total lower a :
  float_series a -> exists c, series_clip lower a = Ok c /\ float_series c.
Proof.
  unfold float_series, series_clip. induction 1 as [|x a Hx Ha (c & Hc & Hfc)].
  - exists []. split; [reflexivity | constructor].
  - cbn [series_map]. rewrite Hc.
    destruct x as [q| |[|]|?]; try contradiction; simpl; eexists; (split; [reflexivity|]);
      constructor; simpl; auto.
Qed.

Lemma series_pos_total a :
  float_series a -> exists c, series_pos a = Ok c /\ float_series c.
Proof.
  unfold float_series, series_pos. induction 1 as [|x a Hx Ha (c & Hc & Hfc)].
  - exists []. split; [reflexivity | constructor].
  - cbn [series_map]. rewrite Hc.
    destruct x; try contradiction; simpl; eexists; (split; [reflexivity|]);
      constructor; simpl; auto.
Qed.

Lemma float_column_set_col df c s c' :
  float_series s -> (c' = c \/ float_column df c') ->
  float_column (set_col df (value c) s) c'.
Proof.
  intros Hs Hc. unfold float_column, set_col. cbn [df_data].
  destruct (decide (c = c')) as [<-|Hne].
  - exists s. split; [apply dget_dset_eq | exact Hs].
  - destruct Hc as [->|(s' & Hget & Hs')]; [congruence|].
    exists s'. split; [|exact Hs']. rewrite dget_dset_ne; [exact Hget|].
    intros E. apply value_inj in E. congruence.
Qed.

Lemma float_column_col df c :
  float_column df c -> exists s, col df (value c) = Ok s /\ float_series s.
Proof.
  intros (s & Hget & Hs). exists s. split; [|exact Hs].
  unfold col, dindex. now rewrite Hget.
Qed.

Lemma allocate_supply_total (i : nat) supply last df this target :
  nth_error RESIDUALS i = Some this ->
  dget supply SUPPLY_TO_DEMAND = Some target ->
  float_column df last -> float_column df supply ->
  exists df',
    allocate_supply i supply last df = Ok (this, df') /\
    forall c, c = this \/ c = target \/ float_column df c -> float_column df' c.
Proof.
  intros Hthis Htarget Hlast Hsupply. unfold allocate_supply.
  rewrite Hthis. cbn [lift_opt rbind].
  destruct (float_column_col _ _ Hlast) as (demand & -> & Hdemand).
  destruct (float_column_col _ _ Hsupply) as (avail & -> & Havail).
  cbn [rbind]. unfold series_sub at 1.
  destruct (series_arith_total float_sub _ _ float_sub_is_float Hdemand Havail)
    as (short & -> & Hshort).
  cbn [rbind]. destruct (series_clip_total 0 _ Hshort) as (clipped & -> & Hclipped).
  cbn [rbind].
  assert (Hlast1 : float_column (set_col df (value this) clipped) last)
    by (apply float_column_set_col; auto).
  assert (Hthis1 : float_column (set_col df (value this) clipped) this)
    by (apply float_column_set_col; auto).
  destruct (float_column_col _ _ Hlast1) as (demand1 & -> & Hdemand1).
  destruct (float_column_col _ _ Hthis1) as (remaining & -> & Hremaining).
  cbn [rbind]. unfold series_sub.
  destruct (series_arith_total float_sub _ _ float_sub_is_float Hdemand1 Hremaining)
    as (used & -> & Hused).
  cbn [rbind]. unfold dindex. rewrite Htarget. cbn [lift_opt rbind].
  eexists. split; [reflexivity|].
  intros c [->|[->|Hc]].
  - apply float_column_set_col; auto.
  - apply float_column_set_col; auto.
  - apply float_column_set_col; auto. right. apply float_column_set_col; auto.
Qed.

Lemma assign_binop_total f dst a b df :
  (f = series_sub \/ f = series_add) ->
  float_column df a -> float_column df b ->
  exists df',
    assign_binop f dst a b df = Ok df' /\
    forall c, c = dst \/ float_column df c -> float_column df' c.
Proof.
  intros Hf Ha Hb. unfold assign_binop.
  destruct (float_column_col _ _ Ha) as (x & -> & Hx).
  destruct (float_column_col _ _ Hb) as (y & -> & Hy).
  cbn [rbind].
  assert (Hz : exists z, f x y = Ok z /\ float_series z)
    by (destruct Hf as [->| ->]; apply series_arith_total;
        first [assumption | apply float_sub_is_float | apply float_add_is_float]).
  destruct Hz as (z & -> & Hz).
  cbn [rbind]. eexists. split; [reflexivity|].
  intros c Hc. apply float_column_set_col; auto.
Qed.

Ltac float_col :=
  first
    [ assumption
    | match goal with
      | K : forall c, _ \/ _ \/ float_column _ c -> float_column ?d c |- float_column ?d _ =>
          apply K; first [left; reflexivity | right; left; reflexivity | right; right; float_col]
      end
    | match goal with
      | K : forall c, _ \/ float_column _ c -> float_column ?d c |- float_column ?d _ =>
          apply K; first [left; reflexivity | right; float_col]
      end
    | match goal with
      | K : forall c, In c _ -> float_column ?d c |- float_column ?d _ =>
          apply K; simpl; tauto
      end ].

(** [_core_usage] returns a frame whenever home demand and the three supply
    columns are present and hold floats. *)
Lemma core_usage_total priority df :
  Permutation priority [GRID_SUPPLY; PW_SUPPLY; SOLAR_SUPPLY] ->
  float_column df HOME_DEMAND -> float_column df GRID_SUPPLY ->
  float_column df PW_SUPPLY -> float_column df SOLAR_SUPPLY ->
  exists df', _core_usage priority df = Ok df'.
Proof.
  intros HP Hd Hg Hp Hs. unfold _core_usage.
  assert (Hw : exists dfw,
             supply_waterfall priority 0 HOME_DEMAND df = Ok dfw /\
             forall c, In c [GRID_SUPPLY; GRID_TO_HOME; PW_TO_HOME; SOLAR_TO_HOME;
                             RESIDUAL_DEMAND_FINAL] -> float_column dfw c).
  { destruct (supply_permutations _ HP) as [E|[E|[E|[E|[E|E]]]]]; subst priority;
      cbn [supply_waterfall].
    all: match goal with
         | |- context [allocate_supply 0 ?s0 HOME_DEMAND ?d0] =>
             edestruct (allocate_supply_total 0 s0 HOME_DEMAND d0)
               as (df1 & -> & K1); [reflexivity | reflexivity | float_col | float_col |]
         end; cbn [rbind].
    all: match goal with
         | |- context [allocate_supply 1 ?s1 RESIDUAL_DEMAND_1 ?d1] =>
             edestruct (allocate_supply_total 1 s1 RESIDUAL_DEMAND_1 d1)
               as (df2 & -> & K2); [reflexivity | reflexivity | float_col | float_col |]
         end; cbn [rbind].
    all: match goal with
         | |- context [allocate_supply 2 ?s2 RESIDUAL_DEMAND_2 ?d2] =>
             edestruct (allocate_supply_total 2 s2 RESIDUAL_DEMAND_2 d2)
               as (df3 & -> & K3); [reflexivity | reflexivity | float_col | float_col |]
         end; cbn [rbind].
    all: eexists; split; [reflexivity|].
    all: intros c Hc; simpl in Hc;
         destruct Hc as [<-|[<-|[<-|[<-|[<-|[]]]]]]; float_col. }
  destruct Hw as (dfw & -> & Kw). cbn [rbind].
  destruct (assign_binop_total series_sub GRID_CHARGING GRID_SUPPLY GRID_TO_HOME dfw)
    as (dfa & -> & Ka); [auto | float_col | float_col |].
  cbn [rbind].
  destruct (assign_binop_total series_sub SELF_PW_NET_OF_GRID PW_TO_HOME GRID_CHARGING dfa)
    as (dfb & -> & Kb); [auto | float_col | float_col |].
  cbn [rbind].
  destruct (assign_binop_total series_add SELF_SOLAR_PLUS_RES SOLAR_TO_HOME RESIDUAL_DEMAND_FINAL dfb)
    as (dfc & -> & Kc); [auto | float_col | float_col |].
  cbn [rbind].
  assert (Hpw : float_column dfc PW_TO_HOME) by float_col.
  assert (Hss : float_column dfc SELF_SOLAR_PLUS_RES) by float_col.
  destruct (float_column_col _ _ Hpw) as (x & -> & Hx). cbn [rbind].
  destruct (series_pos_total _ Hx) as (px & -> & Hpx). cbn [rbind].
  destruct (float_column_col _ _ Hss) as (y & -> & Hy). cbn [rbind].
  unfold series_add.
  destruct (series_arith_total float_add _ _ float_add_is_float Hpx Hy) as (z & -> & Hz).
  cbn [rbind]. eexists. reflexivity.
Qed.
(** ** The waterfall on a row of float64 readings *)

Lemma float_sub_num x y v : float_sub x y = Num v -> exists q, v = round64_value q.
Proof.
  destruct x as [a| |sa|?], y as [b| |sb|?]; simpl; try discriminate.
  - intros H. exists (a - b)%Q. now apply round64_num.
  - destruct (Bool.eqb sa sb); discriminate.
Qed.

(** A residual that is a number is a non-negative float64 value. *)
Lemma residual_cell_value x y rv :
  float_clip 0 (float_sub x y) = Num rv -> f64_value rv /\ (0 <= rv)%Q.
Proof.
  destruct (float_sub x y) as [v| |[|]|?] eqn:E; simpl; try discriminate.
  - intros H. injection H as <-. split; [|apply Qclip_lower_ge].
    destruct (float_sub_num _ _ _ E) as [q ->].
    destruct (Qclip_lower_cases 0 (round64_value q)) as [[_ ->]|[_ ->]];
      [now apply f64_value_0 | apply round64_value_is_value].
  - intros H. injection H as <-. split; [now apply f64_value_0 | lra].
Qed.

(** An allocation that is a number is at most the residual it is taken
    from. *)
Lemma allocation_le_residual rv y a :
  f64_value rv ->
  float_sub (Num rv) (float_clip 0 (float_sub (Num rv) y)) = Num a ->
  (a <= rv)%Q.
Proof.
  intros V H.
  destruct (float_clip 0 (float_sub (Num rv) y)) as [c| |sc|?] eqn:E;
    simpl in H; try discriminate.
  destruct (residual_cell_value _ _ _ E) as [_ Hc].
  apply round64_num in H. subst a.
  apply round64_value_le; [exact V | lra].
Qed.

(** The three steps of the waterfall on a row of non-negative readings. *)
Lemma waterfall_cells (d v0 v1 v2 : Q) :
  f64_finite d -> f64_finite v0 -> f64_finite v1 -> f64_finite v2 ->
  (0 <= d)%Q -> (0 <= v0)%Q -> (0 <= v1)%Q -> (0 <= v2)%Q ->
  exists r1 r2 r3 a0 a1 a2,
    float_clip 0 (float_sub (Num d) (Num v0)) = Num r1 /\
    float_clip 0 (float_sub (Num r1) (Num v1)) = Num r2 /\
    float_clip 0 (float_sub (Num r2) (Num v2)) = Num r3 /\
    float_sub (Num d) (Num r1) = Num a0 /\
    float_sub (Num r1) (Num r2) = Num a1 /\
    float_sub (Num r2) (Num r3) = Num a2 /\
    (f64_finite a0 /\ f64_finite a1 /\ f64_finite a2) /\
    ((0 <= r1)%Q /\ (r1 <= d)%Q /\ (0 <= r2)%Q /\ (r2 <= r1)%Q /\ (0 <= r3)%Q /\ (r3 <= r2)%Q) /\
    ((a0 == d - r1)%Q /\ (a1 == r1 - r2)%Q /\ (a2 == r2 - r3)%Q) /\
    ((a0 <= v0 + F64_UNIT_ROUNDOFF * d)%Q /\ (a1 <= v1 + F64_UNIT_ROUNDOFF * r1)%Q /\
     (a2 <= v2 + F64_UNIT_ROUNDOFF * r2)%Q) /\
    (((d <= v0)%Q -> (a0 == d)%Q) /\ ((r1 <= v1)%Q -> (a1 == r1)%Q) /\
     ((r2 <= v2)%Q -> (a2 == r2)%Q)).
Proof.
  intros Fd F0 F1 F2 Hd H0 H1 H2.
  destruct (allocation_step d v0 Fd F0 Hd H0)
    as (r1 & a0 & E1 & T0 & Fr1 & Fa0 & P1 & Q1 & X0 & B0 & C0).
  destruct (allocation_step r1 v1 Fr1 F1 P1 H1)
    as (r2 & a1 & E2 & T1 & Fr2 & Fa1 & P2 & Q2 & X1 & B1 & C1).
  destruct (allocation_step r2 v2 Fr2 F2 P2 H2)
    as (r3 & a2 & E3 & T2 & Fr3 & Fa2 & P3 & Q3 & X2 & B2 & C2).
  exists r1, r2, r3, a0, a1, a2.
  split; [exact E1|]. split; [exact E2|]. split; [exact E3|].
  split; [exact T0|]. split; [exact T1|]. split; [exact T2|].
  split; [exact (conj Fa0 (conj Fa1 Fa2))|].
  split; [exact (conj P1 (conj Q1 (conj P2 (conj Q2 (conj P3 Q3)))))|].
  split; [exact (conj X0 (conj X1 X2))|].
  split; [exact (conj B0 (conj B1 B2))|].
  exact (conj C0 (conj C1 C2)).
Qed.

(** Grid charging, from the allocation to the home at grid's turn. *)
Lemma grid_charging_cell (rv g a : Q) :
  f64_finite g -> f64_finite a -> (0 <= g)%Q -> (0 <= a)%Q -> (0 <= rv)%Q ->
  (a <= g + F64_UNIT_ROUNDOFF * rv)%Q ->
  ((rv <= g)%Q -> (a == rv)%Q) ->
  exists charging,
    float_sub (Num g) (Num a) = Num charging /\
    (- (F64_EPSILON * rv) <= charging)%Q /\
    ((rv <= g)%Q -> (0 <= charging)%Q).
Proof.
  intros Fg Fa Hg Ha Hrv Hb Hc.
  destruct (round64_between (g - a) (- a) g (f64_finite_opp a Fa) Fg ltac:(lra) ltac:(lra))
    as (E & _ & _ & _).
  exists (round64_value (g - a)). split; [exact E|].
  pose proof (pow2_pos (-53)) as Pu.
  assert (Eu : (F64_EPSILON == 2 * F64_UNIT_ROUNDOFF)%Q).
  { unfold F64_EPSILON, F64_UNIT_ROUNDOFF. apply (pow2_pred (-52)). }
  assert (Hu1 : (F64_UNIT_ROUNDOFF <= 1)%Q).
  { unfold F64_UNIT_ROUNDOFF. change 1%Q with (pow2 0). apply pow2_le. lia. }
  unfold F64_UNIT_ROUNDOFF in *.
  split.
  - destruct (Qlt_le_dec (g - a) 0) as [Hn|Hp].
    + assert (G : on_grid (g - a) (-1074)).
      { apply on_grid_minus; apply f64_value_grid; [exact (proj1 Fg)|exact (proj1 Fa)]. }
      pose proof (round64_value_err (g - a) G) as [He _].
      rewrite Qabs_neg in He by lra. rewrite Eu. nra.
    + pose proof (round64_value_sign_nonneg (g - a) Hp). rewrite Eu. nra.
  - intros Hle. apply round64_value_sign_nonneg. specialize (Hc Hle). lra.
Qed.

(** ** C2 and C9: the supply allocation waterfall *)

Lemma round64_literals :
  round64 (11 # 10) = Num float_1_1 /\ round64 (3 # 10) = Num float_0_3.
Proof. split; vm_compute; reflexivity. Qed.

(** A row of non-negative float64 readings after [_core_usage]: the three
    residuals and the three allocations are numbers, in priority order. *)
Lemma core_usage_nonneg_row priority df df' (n : nat) (d g p s : Q) :
  Permutation priority [GRID_SUPPLY; PW_SUPPLY; SOLAR_SUPPLY] ->
  _core_usage priority df = Ok df' ->
  cell_at df HOME_DEMAND n = Some (Num d) ->
  cell_at df GRID_SUPPLY n = Some (Num g) ->
  cell_at df PW_SUPPLY n = Some (Num p) ->
  cell_at df SOLAR_SUPPLY n = Some (Num s) ->
  f64_finite d -> f64_finite g -> f64_finite p -> f64_finite s ->
  (0 <= d)%Q -> (0 <= g)%Q -> (0 <= p)%Q -> (0 <= s)%Q ->
  exists s0 s1 s2 t0 t1 t2 v0 v1 v2 r1 r2 r3 a0 a1 a2,
    priority = [s0; s1; s2] /\
    Permutation [(s0, t0, v0); (s1, t1, v1); (s2, t2, v2)]
                [(GRID_SUPPLY, GRID_TO_HOME, g); (PW_SUPPLY, PW_TO_HOME, p);
                 (SOLAR_SUPPLY, SOLAR_TO_HOME, s)] /\
    (cell_at df' HOME_DEMAND n = Some (Num d) /\
     cell_at df' s0 n = Some (Num v0) /\
     cell_at df' s1 n = Some (Num v1) /\
     cell_at df' s2 n = Some (Num v2)) /\
    (cell_at df' RESIDUAL_DEMAND_1 n = Some (Num r1) /\
     cell_at df' RESIDUAL_DEMAND_2 n = Some (Num r2) /\
     cell_at df' RESIDUAL_DEMAND_FINAL n = Some (Num r3)) /\
    (cell_at df' t0 n = Some (Num a0) /\
     cell_at df' t1 n = Some (Num a1) /\
     cell_at df' t2 n = Some (Num a2)) /\
    (exists g2h, cell_at df' GRID_TO_HOME n = Some (Num g2h) /\
                 cell_at df' GRID_CHARGING n = Some (float_sub (Num g) (Num g2h))) /\
    (f64_finite a0 /\ f64_finite a1 /\ f64_finite a2) /\
    ((0 <= r1)%Q /\ (r1 <= d)%Q /\ (0 <= r2)%Q /\ (r2 <= r1)%Q /\ (0 <= r3)%Q /\ (r3 <= r2)%Q) /\
    ((a0 == d - r1)%Q /\ (a1 == r1 - r2)%Q /\ (a2 == r2 - r3)%Q) /\
    ((a0 <= v0 + F64_UNIT_ROUNDOFF * d)%Q /\ (a1 <= v1 + F64_UNIT_ROUNDOFF * r1)%Q /\
     (a2 <= v2 + F64_UNIT_ROUNDOFF * r2)%Q) /\
    (((d <= v0)%Q -> (a0 == d)%Q) /\ ((r1 <= v1)%Q -> (a1 == r1)%Q) /\
     ((r2 <= v2)%Q -> (a2 == r2)%Q)).
Proof.
  intros HP H Hd Hg Hp Hs Fd Fg Fp Fs Hd0 Hg0 Hp0 Hs0.
  destruct (core_usage_row _ _ _ n _ _ _ _ HP H Hd Hg Hp Hs)
    as (s0 & s1 & s2 & t0 & t1 & t2 & c0 & c1 & c2 & -> & HP3 & Hrow).
  cbv zeta in Hrow.
  destruct Hrow as (Hd' & Hg' & Hp' & Hs' & R1 & R2 & R3 & T0 & T1 & T2 & g2h & HG & HC).
  destruct (Permutation_length_3_inv _ _ _ _ _ _ HP3)
    as [(E0 & E1 & E2)|[(E0 & E1 & E2)|[(E0 & E1 & E2)|[(E0 & E1 & E2)|[(E0 & E1 & E2)|(E0 & E1 & E2)]]]]];
    injection E0 as -> -> ->; injection E1 as -> -> ->; injection E2 as -> -> ->.
  all: match type of R3 with
       | _ = Some (float_clip 0 (float_sub (float_clip 0 (float_sub (float_clip 0
                     (float_sub (Num ?dd) (Num ?x0))) (Num ?x1))) (Num ?x2))) =>
           destruct (waterfall_cells dd x0 x1 x2) as
             (r1 & r2 & r3 & a0 & a1 & a2 & C1 & C2 & C3 & A0 & A1 & A2 & Props);
           [assumption..|];
           rewrite C1 in R1, R2, R3, T0, T1, T2;
           rewrite C2 in R2, R3, T1, T2;
           rewrite C3 in R3, T2;
           rewrite A0 in T0; rewrite A1 in T1; rewrite A2 in T2;
           eexists _, _, _, _, _, _, x0, x1, x2, r1, r2, r3, a0, a1, a2
       end.
  all: split; [reflexivity|].
  all: split; [ first [ reflexivity | apply perm_swap
                      | eapply perm_trans; [apply perm_swap|apply perm_skip, perm_swap]
                      | eapply perm_trans; [apply perm_skip, perm_swap|apply perm_swap]
                      | apply perm_skip, perm_swap
                      | eapply perm_trans; [apply perm_swap|];
                        eapply perm_trans; [apply perm_skip, perm_swap|apply perm_swap] ] |].
  all: split; [repeat split; assumption|].
  all: split; [repeat split; assumption|].
  all: split; [repeat split; assumption|].
  all: split; [|exact Props].
  all: match goal with
       | HT : cell_at _ GRID_TO_HOME _ = Some (Num ?x) |- _ =>
           exists x; split; [exact HT|]; congruence
       end.
Qed.

Lemma Some_inj {A : Type} (a b : A) : Some a = Some b -> a = b.
Proof. congruence. Qed.

(** Whatever the signs of the readings, an allocation that is a number is at
    most the residual before it, when that is a number. *)
Lemma waterfall_allocation_le_residual priority df df' (n : nat) (d g p s : Q) :
  Permutation priority [GRID_SUPPLY; PW_SUPPLY; SOLAR_SUPPLY] ->
  _core_usage priority df = Ok df' ->
  cell_at df HOME_DEMAND n = Some (Num d) ->
  cell_at df GRID_SUPPLY n = Some (Num g) ->
  cell_at df PW_SUPPLY n = Some (Num p) ->
  cell_at df SOLAR_SUPPLY n = Some (Num s) ->
  f64_value d ->
  forall (k : nat) supply target a rv,
    nth_error priority k = Some supply ->
    dget supply SUPPLY_TO_DEMAND = Some target ->
    cell_at df' target n = Some (Num a) ->
    cell_at df' (residual_before k) n = Some (Num rv) ->
    (a <= rv)%Q.
Proof.
  intros HP H Hd Hg Hp Hs Vd k supply target a rv Hk Htgt Ha Hrv.
  destruct (core_usage_row _ _ _ n _ _ _ _ HP H Hd Hg Hp Hs)
    as (s0 & s1 & s2 & t0 & t1 & t2 & c0 & c1 & c2 & -> & HP3 & Hrow).
  cbv zeta in Hrow.
  destruct Hrow as (Hd' & _ & _ & _ & R1 & R2 & _ & T0 & T1 & T2 & _).
  assert (Ht : (k = 0%nat /\ supply = s0 /\ target = t0) \/
               (k = 1%nat /\ supply = s1 /\ target = t1) \/
               (k = 2%nat /\ supply = s2 /\ target = t2)).
  { destruct (Permutation_length_3_inv _ _ _ _ _ _ HP3)
      as [(E0 & E1 & E2)|[(E0 & E1 & E2)|[(E0 & E1 & E2)|[(E0 & E1 & E2)|[(E0 & E1 & E2)|(E0 & E1 & E2)]]]]];
      injection E0 as -> -> ->; injection E1 as -> -> ->; injection E2 as -> -> ->.
    all: destruct k as [|[|[|k]]]; simpl in Hk;
      [ injection Hk as <- | injection Hk as <- | injection Hk as <-
      | destruct k; discriminate Hk ];
      simpl in Htgt; injection Htgt as <-; auto. }
  destruct Ht as [(-> & -> & ->)|[(-> & -> & ->)|(-> & -> & ->)]]; simpl in Hrv.
  - rewrite Hd' in Hrv. apply Some_inj in Hrv. injection Hrv as <-.
    rewrite T0 in Ha. apply Some_inj in Ha.
    exact (allocation_le_residual _ _ _ Vd Ha).
  - rewrite R1 in Hrv. apply Some_inj in Hrv.
    rewrite Hrv in T1. rewrite T1 in Ha. apply Some_inj in Ha.
    exact (allocation_le_residual _ _ _ (proj1 (residual_cell_value _ _ _ Hrv)) Ha).
  - rewrite R2 in Hrv. apply Some_inj in Hrv.
    rewrite Hrv in T2. rewrite T2 in Ha. apply Some_inj in Ha.
    exact (allocation_le_residual _ _ _ (proj1 (residual_cell_value _ _ _ Hrv)) Ha).
Qed.

(** C2, as stated, fails in two ways.  A negative supply reading is booked
    as a negative allocation: with home demand 10 and grid supply -1 the
    residual after grid is 11 and Grid to Home is 10 - 11 = -1.  And on
    non-negative readings the allocation can exceed the supply by a rounding
    error: with home demand 1.1 and grid supply 0.3 the residual is the
    float64 nearest to 0.8, which lies above 1.1 - 0.3, and Grid to Home is
    0.30000000000000004, more than the grid supply. *)
Lemma core_usage_allocation_bounds_fail :
  (exists df' a,
     _core_usage default_priority negative_grid_frame = Ok df' /\
     cell_at df' GRID_TO_HOME 0 = Some (Num a) /\
     (a < 0)%Q) /\
  (exists df' a,
     _core_usage default_priority rounding_frame = Ok df' /\
     is_f64 float_1_1 = true /\ is_f64 float_0_3 = true /\
     cell_at df' HOME_DEMAND 0 = Some (Num float_1_1) /\
     cell_at df' GRID_SUPPLY 0 = Some (Num float_0_3) /\
     cell_at df' GRID_TO_HOME 0 = Some (Num a) /\
     (float_0_3 < a)%Q).
Proof.
  split.
  - eexists _, _. split; [vm_compute; reflexivity|].
    split; [vm_compute; reflexivity|].
    vm_compute; reflexivity.
  - eexists _, _. split; [vm_compute; reflexivity|].
    split; [vm_compute; reflexivity|]. split; [vm_compute; reflexivity|].
    split; [vm_compute; reflexivity|]. split; [vm_compute; reflexivity|].
    split; [vm_compute; reflexivity|].
    vm_compute; reflexivity.
Qed.

(** C2 (amended): for every priority order that is a permutation of the three
    supply sources and every row whose home demand and three supplies are
    float64 numbers, an allocated source-to-home amount is at most the
    residual demand remaining before that source was allocated.  When the
    four readings are non-negative, every allocation is a non-negative
    number, it exceeds the supply of its source by at most one rounding
    error (2^-53 times the residual before it), and the three allocations
    plus the final residual add up to the home demand exactly. *)
Theorem core_usage_allocation priority df df' (n : nat) (d g p s : Q) :
  Permutation priority [GRID_SUPPLY; PW_SUPPLY; SOLAR_SUPPLY] ->
  _core_usage priority df = Ok df' ->
  cell_at df HOME_DEMAND n = Some (Num d) ->
  cell_at df GRID_SUPPLY n = Some (Num g) ->
  cell_at df PW_SUPPLY n = Some (Num p) ->
  cell_at df SOLAR_SUPPLY n = Some (Num s) ->
  is_f64 d = true -> is_f64 g = true -> is_f64 p = true -> is_f64 s = true ->
  (forall (k : nat) supply target a rv,
      nth_error priority k = Some supply ->
      dget supply SUPPLY_TO_DEMAND = Some target ->
      cell_at df' target n = Some (Num a) ->
      cell_at df' (residual_before k) n = Some (Num rv) ->
      (a <= rv)%Q) /\
  ((0 <= d)%Q -> (0 <= g)%Q -> (0 <= p)%Q -> (0 <= s)%Q ->
   (forall (k : nat) supply,
       nth_error priority k = Some supply ->
       exists target a sv rv,
         dget supply SUPPLY_TO_DEMAND = Some target /\
         cell_at df' target n = Some (Num a) /\
         cell_at df' supply n = Some (Num sv) /\
         cell_at df' (residual_before k) n = Some (Num rv) /\
         (0 <= a)%Q /\ (a <= rv)%Q /\ (a <= sv + F64_UNIT_ROUNDOFF * rv)%Q) /\
   exists g2h p2h s2h rf,
     cell_at df' GRID_TO_HOME n = Some (Num g2h) /\
     cell_at df' PW_TO_HOME n = Some (Num p2h) /\
     cell_at df' SOLAR_TO_HOME n = Some (Num s2h) /\
     cell_at df' RESIDUAL_DEMAND_FINAL n = Some (Num rf) /\
     cell_at df' HOME_DEMAND n = Some (Num d) /\
     (0 <= rf)%Q /\
     (g2h + p2h + s2h + rf == d)%Q).
Proof.
  intros HP H Hd Hg Hp Hs Id Ig Ip Is.
  apply is_f64_finite in Id, Ig, Ip, Is.
  split.
  { exact (waterfall_allocation_le_residual _ _ _ n d g p s HP H Hd Hg Hp Hs (proj1 Id)). }
  intros Hd0 Hg0 Hp0 Hs0.
  destruct (core_usage_nonneg_row _ _ _ n d g p s HP H Hd Hg Hp Hs Id Ig Ip Is Hd0 Hg0 Hp0 Hs0)
    as (s0 & s1 & s2 & t0 & t1 & t2 & v0 & v1 & v2 & r1 & r2 & r3 & a0 & a1 & a2 &
        -> & HP3 & (Hd' & S0 & S1 & S2) & (R1 & R2 & R3) & (T0 & T1 & T2) & _ & _ &
        (P1 & Q1 & P2 & Q2 & P3 & Q3) & (X0 & X1 & X2) & (B0 & B1 & B2) & _).
  split.
  - intros k supply Hk.
    assert (Ht : dget s0 SUPPLY_TO_DEMAND = Some t0 /\ dget s1 SUPPLY_TO_DEMAND = Some t1 /\
                 dget s2 SUPPLY_TO_DEMAND = Some t2).
    { destruct (Permutation_length_3_inv _ _ _ _ _ _ HP3)
        as [(E0 & E1 & E2)|[(E0 & E1 & E2)|[(E0 & E1 & E2)|[(E0 & E1 & E2)|[(E0 & E1 & E2)|(E0 & E1 & E2)]]]]];
        injection E0 as -> -> ->; injection E1 as -> -> ->; injection E2 as -> -> ->;
        repeat split; reflexivity. }
    destruct Ht as (D0 & D1 & D2).
    destruct k as [|[|[|k]]]; simpl in Hk;
      [ injection Hk as <- | injection Hk as <- | injection Hk as <-
      | destruct k; discriminate Hk ]; simpl residual_before.
    + exists t0, a0, v0, d. repeat (split; [assumption|]). repeat split; lra.
    + exists t1, a1, v1, r1. repeat (split; [assumption|]). repeat split; lra.
    + exists t2, a2, v2, r2. repeat (split; [assumption|]). repeat split; lra.
  - destruct (Permutation_length_3_inv _ _ _ _ _ _ HP3)
      as [(E0 & E1 & E2)|[(E0 & E1 & E2)|[(E0 & E1 & E2)|[(E0 & E1 & E2)|[(E0 & E1 & E2)|(E0 & E1 & E2)]]]]];
      injection E0 as -> -> ->; injection E1 as -> -> ->; injection E2 as -> -> ->.
    all: eexists _, _, _, r3;
      split; [eassumption|]; split; [eassumption|]; split; [eassumption|];
      split; [eassumption|]; split; [eassumption|]; split; [assumption|]; lra.
Qed.

Lemma core_usage_allocation_witness :
  _core_usage default_priority scenarioD = Ok (core_usage_frame default_priority scenarioD) /\
  cell_at (core_usage_frame default_priority scenarioD) GRID_TO_HOME 0 = Some (Num 4) /\
  cell_at (core_usage_frame default_priority scenarioD) RESIDUAL_DEMAND_1 0 = Some (Num 6) /\
  cell_at (core_usage_frame default_priority scenarioD) PW_TO_HOME 0 = Some (Num 3) /\
  cell_at (core_usage_frame default_priority scenarioD) RESIDUAL_DEMAND_2 0 = Some (Num 3) /\
  cell_at (core_usage_frame default_priority scenarioD) SOLAR_TO_HOME 0 = Some (Num 2) /\
  cell_at (core_usage_frame default_priority scenarioD) RESIDUAL_DEMAND_FINAL 0 = Some (Num 1) /\
  exists g2h p2h s2h rf,
    cell_at (core_usage_frame default_priority scenarioD) GRID_TO_HOME 0 = Some (Num g2h) /\
    cell_at (core_usage_frame default_priority scenarioD) PW_TO_HOME 0 = Some (Num p2h) /\
    cell_at (core_usage_frame default_priority scenarioD) SOLAR_TO_HOME 0 = Some (Num s2h) /\
    cell_at (core_usage_frame default_priority scenarioD) RESIDUAL_DEMAND_FINAL 0 = Some (Num rf) /\
    cell_at (core_usage_frame default_priority scenarioD) HOME_DEMAND 0 = Some (Num 10) /\
    (0 <= rf)%Q /\
    (g2h + p2h + s2h + rf == 10)%Q.
Proof.
  split; [vm_compute; reflexivity|].
  repeat (split; [vm_compute; reflexivity|]).
  refine (proj2 (proj2 (core_usage_allocation default_priority scenarioD _ 0 10 4 3 2
                          _ _ _ _ _ _ _ _ _ _) _ _ _ _)).
  - reflexivity.
  - vm_compute; reflexivity.
  - reflexivity.
  - reflexivity.
  - reflexivity.
  - reflexivity.
  - vm_compute; reflexivity.
  - vm_compute; reflexivity.
  - vm_compute; reflexivity.
  - vm_compute; reflexivity.
  - discriminate.
  - discriminate.
  - discriminate.
  - discriminate.
Defined.

(** C9, as stated, fails on non-negative readings by a rounding error: with
    home demand 1.1, grid supply 0.3 and no other supply, Grid to Home is
    0.30000000000000004 and Grid charging, the grid supply less that amount,
    is negative. *)
Lemma core_usage_grid_charging_negative :
  exists df' charging,
    _core_usage default_priority rounding_frame = Ok df' /\
    is_f64 float_1_1 = true /\ is_f64 float_0_3 = true /\ is_f64 0 = true /\
    (0 <= float_1_1)%Q /\ (0 <= float_0_3)%Q /\
    cell_at df' HOME_DEMAND 0 = Some (Num float_1_1) /\
    cell_at df' GRID_SUPPLY 0 = Some (Num float_0_3) /\
    cell_at df' PW_SUPPLY 0 = Some (Num 0) /\
    cell_at df' SOLAR_SUPPLY 0 = Some (Num 0) /\
    cell_at df' GRID_CHARGING 0 = Some (Num charging) /\
    (charging < 0)%Q.
Proof.
  eexists _, _. split; [vm_compute; reflexivity|].
  repeat (split; [vm_compute; first [reflexivity | discriminate]|]).
  vm_compute; reflexivity.
Qed.

(** C9 (amended): in a row whose home demand and three supplies are
    non-negative float64 numbers, for every permutation of the supply
    priority, the Grid charging column (grid supply minus Grid to Home) is
    negative by at most a rounding error: it is at least -2^-52 times the
    residual demand remaining before grid's turn, which is at most the home
    demand; and it is non-negative whenever the grid supply covers that
    residual. *)
Theorem core_usage_grid_charging_bound priority df df' (n : nat) (d g p s : Q) :
  Permutation priority [GRID_SUPPLY; PW_SUPPLY; SOLAR_SUPPLY] ->
  _core_usage priority df = Ok df' ->
  cell_at df HOME_DEMAND n = Some (Num d) ->
  cell_at df GRID_SUPPLY n = Some (Num g) ->
  cell_at df PW_SUPPLY n = Some (Num p) ->
  cell_at df SOLAR_SUPPLY n = Some (Num s) ->
  is_f64 d = true -> is_f64 g = true -> is_f64 p = true -> is_f64 s = true ->
  (0 <= d)%Q -> (0 <= g)%Q -> (0 <= p)%Q -> (0 <= s)%Q ->
  exists (k : nat) rv g2h charging,
    nth_error priority k = Some GRID_SUPPLY /\
    cell_at df' (residual_before k) n = Some (Num rv) /\
    cell_at df' GRID_TO_HOME n = Some (Num g2h) /\
    cell_at df' GRID_CHARGING n = Some (Num charging) /\
    float_sub (Num g) (Num g2h) = Num charging /\
    (0 <= rv)%Q /\ (rv <= d)%Q /\
    (- (F64_EPSILON * rv) <= charging)%Q /\
    ((rv <= g)%Q -> (0 <= charging)%Q).
Proof.
  intros HP H Hd Hg Hp Hs Id Ig Ip Is Hd0 Hg0 Hp0 Hs0.
  apply is_f64_finite in Id, Ig, Ip, Is.
  destruct (core_usage_nonneg_row _ _ _ n d g p s HP H Hd Hg Hp Hs Id Ig Ip Is Hd0 Hg0 Hp0 Hs0)
    as (s0 & s1 & s2 & t0 & t1 & t2 & v0 & v1 & v2 & r1 & r2 & r3 & a0 & a1 & a2 &
        -> & HP3 & (Hd' & S0 & S1 & S2) & (R1 & R2 & R3) & (T0 & T1 & T2) &
        (g2h & HG & HC) & (Fa0 & Fa1 & Fa2) &
        (P1 & Q1 & P2 & Q2 & P3 & Q3) & (X0 & X1 & X2) & (B0 & B1 & B2) & (C0 & C1 & C2)).
  assert (Ha0 : (0 <= a0)%Q) by lra.
  assert (Ha1 : (0 <= a1)%Q) by lra.
  assert (Ha2 : (0 <= a2)%Q) by lra.
  destruct (Permutation_length_3_inv _ _ _ _ _ _ HP3)
    as [(E0 & E1 & E2)|[(E0 & E1 & E2)|[(E0 & E1 & E2)|[(E0 & E1 & E2)|[(E0 & E1 & E2)|(E0 & E1 & E2)]]]]];
    injection E0 as -> -> ->; injection E1 as -> -> ->; injection E2 as -> -> ->.
  all: match goal with
       | HT : cell_at _ GRID_TO_HOME _ = Some (Num ?a) |- _ =>
           tryif constr_eq a g2h then fail
           else (assert (Eg : g2h = a) by congruence; subst g2h)
       end.
  all: first
    [ destruct (grid_charging_cell d g a0 Ig Fa0 Hg0 Ha0 Hd0 B0 C0) as (c & Ec & L & N);
      exists 0%nat, d, a0, c;
      split; [reflexivity|]; split; [assumption|]; split; [assumption|];
      split; [congruence|]; split; [exact Ec|];
      split; [lra|]; split; [lra|]; split; assumption
    | destruct (grid_charging_cell r1 g a1 Ig Fa1 Hg0 Ha1 P1 B1 C1) as (c & Ec & L & N);
      exists 1%nat, r1, a1, c;
      split; [reflexivity|]; split; [assumption|]; split; [assumption|];
      split; [congruence|]; split; [exact Ec|];
      split; [lra|]; split; [lra|]; split; assumption
    | destruct (grid_charging_cell r2 g a2 Ig Fa2 Hg0 Ha2 P2 B2 C2) as (c & Ec & L & N);
      exists 2%nat, r2, a2, c;
      split; [reflexivity|]; split; [assumption|]; split; [assumption|];
      split; [congruence|]; split; [exact Ec|];
      split; [lra|]; split; [lra|]; split; assumption ].
Qed.

Lemma core_usage_grid_charging_bound_witness :
  _core_usage [SOLAR_SUPPLY; PW_SUPPLY; GRID_SUPPLY] scenarioD
    = Ok (core_usage_frame [SOLAR_SUPPLY; PW_SUPPLY; GRID_SUPPLY] scenarioD) /\
  cell_at (core_usage_frame [SOLAR_SUPPLY; PW_SUPPLY; GRID_SUPPLY] scenarioD)
          GRID_CHARGING 0 = Some (Num 0) /\
  exists (k : nat) rv g2h charging,
    nth_error [SOLAR_SUPPLY; PW_SUPPLY; GRID_SUPPLY] k = Some GRID_SUPPLY /\
    cell_at (core_usage_frame [SOLAR_SUPPLY; PW_SUPPLY; GRID_SUPPLY] scenarioD)
            (residual_before k) 0 = Some (Num rv) /\
    cell_at (core_usage_frame [SOLAR_SUPPLY; PW_SUPPLY; GRID_SUPPLY] scenarioD)
            GRID_TO_HOME 0 = Some (Num g2h) /\
    cell_at (core_usage_frame [SOLAR_SUPPLY; PW_SUPPLY; GRID_SUPPLY] scenarioD)
            GRID_CHARGING 0 = Some (Num charging) /\
    float_sub (Num 4) (Num g2h) = Num charging /\
    (0 <= rv)%Q /\ (rv <= 10)%Q /\
    (- (F64_EPSILON * rv) <= charging)%Q /\
    ((rv <= 4)%Q -> (0 <= charging)%Q).
Proof.
  split; [vm_compute; reflexivity|].
  split; [vm_compute; reflexivity|].
  apply (core_usage_grid_charging_bound [SOLAR_SUPPLY; PW_SUPPLY; GRID_SUPPLY]
           scenarioD _ 0 10 4 3 2).
  - eapply perm_trans; [apply perm_swap|].
    eapply perm_trans; [apply perm_skip, perm_swap|]. apply perm_swap.
  - vm_compute; reflexivity.
  - reflexivity.
  - reflexivity.
  - reflexivity.
  - reflexivity.
  - vm_compute; reflexivity.
  - vm_compute; reflexivity.
  - vm_compute; reflexivity.
  - vm_compute; reflexivity.
  - discriminate.
  - discriminate.
  - discriminate.
  - discriminate.
Defined.

(** ** The rounding of the embedding against the machine's binary64 *)

Lemma round64_matches_machine_floats :
  map (fun ab => float_sub (cell_of_float (fst ab)) (cell_of_float (snd ab))) machine_float_pairs
  = map (fun ab => cell_of_float (PrimFloat.sub (fst ab) (snd ab))) machine_float_pairs /\
  map (fun ab => float_add (cell_of_float (fst ab)) (cell_of_float (snd ab))) machine_float_pairs
  = map (fun ab => cell_of_float (PrimFloat.add (fst ab) (snd ab))) machine_float_pairs /\
  map (fun ab => float_mul (cell_of_float (fst ab)) (cell_of_float (snd ab))) machine_float_pairs
  = map (fun ab => cell_of_float (PrimFloat.mul (fst ab) (snd ab))) machine_float_pairs.
Proof. repeat split; vm_compute; reflexivity. Qed.

(** The row of [rounding_frame] computed by the machine: its floats are the
    cells of the frame, and the machine's own Grid to Home and Grid charging
    are the cells [_core_usage] of the embedding leaves in that row. *)
Lemma rounding_frame_on_the_machine :
  cell_of_float machine_1_1 = Num float_1_1 /\
  cell_of_float machine_0_3 = Num float_0_3 /\
  cell_at (core_usage_frame default_priority rounding_frame) GRID_TO_HOME 0
  = Some (cell_of_float
            (PrimFloat.sub machine_1_1 (PrimFloat.sub machine_1_1 machine_0_3))) /\
  cell_at (core_usage_frame default_priority rounding_frame) GRID_CHARGING 0
  = Some (cell_of_float
            (PrimFloat.sub machine_0_3
               (PrimFloat.sub machine_1_1 (PrimFloat.sub machine_1_1 machine_0_3)))) /\
  PrimFloat.ltb (PrimFloat.sub machine_0_3
                   (PrimFloat.sub machine_1_1 (PrimFloat.sub machine_1_1 machine_0_3)))
                PrimFloat.zero = true.
Proof. repeat split; vm_compute; reflexivity. Qed.

(** ** C1: the calendar walk tiles the window *)

Section CalendarWalk.
Context {S : Type} (apply_calendar : CalendarEntry -> Z -> Z -> S -> result S).

Lemma periodic_loop_subranges entries range_stop season_start (st : S) :
  periodic_loop apply_calendar entries range_stop season_start st
  = apply_subranges apply_calendar (subranges entries range_stop season_start) st.
Proof.
  revert season_start st.
  induction entries as [|entry rest IH]; intros c st; simpl; [reflexivity|].
  destruct (ce_start_date entry >=? range_stop); [reflexivity|].
  replace (if c <=? ce_start_date entry then ce_start_date entry else c)
    with (Z.max c (ce_start_date entry))
    by (destruct (Z.leb_spec c (ce_start_date entry)); lia).
  destruct (Z.max c (ce_start_date entry) >=? range_stop); [reflexivity|].
  destruct (ce_end_date entry) as [end_date|].
  - destruct (Z.max c (ce_start_date entry) >=? end_date); [apply IH|].
    replace (if range_stop >? end_date then end_date else range_stop)
      with (Z.min range_stop end_date)
      by (destruct (Z.gtb_spec range_stop end_date); lia).
    simpl. destruct (apply_calendar _ _ _ st); simpl; [apply IH | reflexivity].
  - simpl. destruct (apply_calendar _ _ _ st); simpl; [apply IH | reflexivity].
Qed.
End CalendarWalk.

Lemma apply_record_subrange l seen :
  apply_subranges record_subrange l seen = Ok (seen ++ l).
Proof.
  revert seen. induction l as [|[[e a] b] l IH]; intros seen; simpl.
  - now rewrite app_nil_r.
  - rewrite IH, <- app_assoc. reflexivity.
Qed.

Lemma emitted_subranges_eq calendar range_start range_stop :
  emitted_subranges calendar range_start range_stop
  = Ok (subranges (dvalues calendar) range_stop range_start).
Proof.
  unfold emitted_subranges. rewrite periodic_loop_subranges.
  apply apply_record_subrange.
Qed.

Lemma chained_weaken lo lo' l : lo' <= lo -> chained lo l -> chained lo' l.
Proof. destruct l as [|[[e a] b] l]; simpl; [auto|]. intros; intuition lia. Qed.

Lemma subranges_chained entries range_stop c :
  chained c (subranges entries range_stop c).
Proof.
  revert c. induction entries as [|entry rest IH]; intros c; simpl; [exact I|].
  destruct (Z.geb_spec (ce_start_date entry) range_stop); [exact I|].
  destruct (Z.geb_spec (Z.max c (ce_start_date entry)) range_stop); [exact I|].
  destruct (ce_end_date entry) as [end_date|].
  - destruct (Z.geb_spec (Z.max c (ce_start_date entry)) end_date).
    + eapply chained_weaken; [|apply IH]. lia.
    + simpl. repeat split; [lia | lia | apply IH].
  - simpl. repeat split; [lia | lia | apply IH].
Qed.

Lemma subranges_bounds entries range_stop c e a b :
  In (e, a, b) (subranges entries range_stop c) ->
  In e entries /\ c <= a /\ ce_start_date e <= a /\ a < b /\ b <= range_stop /\
  (forall end_date, ce_end_date e = Some end_date -> b <= end_date).
Proof.
  revert c. induction entries as [|entry rest IH]; intros c; simpl; [tauto|].
  destruct (Z.geb_spec (ce_start_date entry) range_stop); [simpl; tauto|].
  destruct (Z.geb_spec (Z.max c (ce_start_date entry)) range_stop); [simpl; tauto|].
  destruct (ce_end_date entry) as [end_date|] eqn:Eend.
  - destruct (Z.geb_spec (Z.max c (ce_start_date entry)) end_date).
    + intros Hin. destruct (IH _ Hin) as (? & ? & ? & ? & ? & ?).
      repeat split; auto; lia.
    + intros [Heq|Hin].
      * injection Heq as <- <- <-. repeat split; auto; try lia.
        intros d Hd. rewrite Eend in Hd. injection Hd as <-. lia.
      * destruct (IH _ Hin) as (? & ? & ? & ? & ? & ?).
        repeat split; auto; lia.
  - intros [Heq|Hin].
    + injection Heq as <- <- <-. repeat split; auto; try lia.
      intros d Hd. rewrite Eend in Hd. discriminate.
    + destruct (IH _ Hin) as (? & ? & ? & ? & ? & ?).
      repeat split; auto; lia.
Qed.

Lemma valid_calendar_tail entry rest :
  valid_calendar (entry :: rest) -> valid_calendar rest.
Proof. simpl. destruct rest; [intros; exact I | tauto]. Qed.

Lemma valid_calendar_ascending entry rest e' :
  valid_calendar (entry :: rest) -> In e' rest ->
  ce_start_date entry <= ce_start_date e'.
Proof.
  revert entry. induction rest as [|next rest IH]; intros entry Hv Hin; [destruct Hin|].
  destruct Hv as (_ & Hle & Hv). destruct Hin as [<-|Hin]; [exact Hle|].
  specialize (IH next Hv Hin). lia.
Qed.

Lemma subranges_cover entries range_stop c t :
  valid_calendar entries ->
  c <= t < range_stop ->
  (exists e, In e entries /\ in_entry e t) ->
  exists e a b, In (e, a, b) (subranges entries range_stop c) /\ a <= t < b.
Proof.
  revert c. induction entries as [|entry rest IH]; intros c Hv Ht (e & Hin & He).
  - destruct Hin.
  - pose proof (valid_calendar_tail _ _ Hv) as Hv'.
    pose proof (valid_calendar_ascending _ _ e Hv) as Hasc.
    assert (Hstart : ce_start_date entry <= t).
    { destruct Hin as [<-|Hin]; [apply He|]. specialize (Hasc Hin).
      destruct He. lia. }
    simpl.
    destruct (Z.geb_spec (ce_start_date entry) range_stop); [lia|].
    destruct (Z.geb_spec (Z.max c (ce_start_date entry)) range_stop); [lia|].
    destruct (ce_end_date entry) as [end_date|] eqn:Eend.
    + assert (Hrest : t < end_date \/ exists e', In e' rest /\ in_entry e' t).
      { destruct Hin as [<-|Hin].
        - left. destruct He as [_ He]. now rewrite Eend in He.
        - right. eauto. }
      destruct (Z.geb_spec (Z.max c (ce_start_date entry)) end_date).
      * destruct Hrest as [Hlt|Hrest]; [lia|].
        apply IH; auto. lia.
      * destruct (Z_lt_le_dec t (Z.min range_stop end_date)) as [Hlt|Hge].
        -- exists entry, (Z.max c (ce_start_date entry)), (Z.min range_stop end_date).
           split; [left; reflexivity | lia].
        -- destruct Hrest as [Hlt|Hrest]; [lia|].
           destruct (IH (Z.min range_stop end_date) Hv' ltac:(lia) Hrest)
             as (e' & a & b & Hin' & Hab).
           exists e', a, b. split; [right; exact Hin' | exact Hab].
    + exists entry, (Z.max c (ce_start_date entry)), range_stop.
      split; [left; reflexivity | lia].
Qed.

Lemma cover_count_before lo t l :
  chained lo l -> t < lo -> cover_count t l = 0%nat.
Proof.
  unfold cover_count. revert lo. induction l as [|[[e a] b] l IH]; intros lo Hc Ht; [reflexivity|].
  destruct Hc as (Ha & Hab & Hc). simpl.
  destruct (Z.leb_spec a t); simpl; [lia|].
  apply (IH b); auto. lia.
Qed.

Lemma cover_count_chained lo t l sr :
  chained lo l -> In sr l -> in_subrange t sr = true -> cover_count t l = 1%nat.
Proof.
  revert lo. induction l as [|[[e a] b] l IH]; intros lo Hc Hin Ht; [destruct Hin|].
  destruct Hc as (Ha & Hab & Hc).
  unfold cover_count in *. simpl.
  destruct Hin as [<-|Hin].
  - simpl in Ht. rewrite Ht. simpl.
    apply andb_true_iff in Ht. destruct Ht as [_ Ht]. apply Z.ltb_lt in Ht.
    f_equal. apply (cover_count_before b); auto.
  - destruct (Z.leb_spec a t); destruct (Z.ltb_spec t b); simpl; try (eapply IH; eauto).
    exfalso.
    assert (E : cover_count t l = 0%nat) by (apply (cover_count_before b); auto).
    unfold cover_count in E.
    assert (Hf : In sr (List.filter (in_subrange t) l)) by (apply List.filter_In; auto).
    destruct (List.filter (in_subrange t) l); [destruct Hf | discriminate E].
Qed.

Lemma chained_disjoint lo l (i j : nat) sr1 sr2 t :
  chained lo l -> (i < j)%nat ->
  nth_error l i = Some sr1 -> nth_error l j = Some sr2 ->
  in_subrange t sr1 = true -> in_subrange t sr2 = false.
Proof.
  revert lo i j. induction l as [|[[e a] b] l IH]; intros lo i j Hc Hij H1 H2 Ht.
  - destruct i; discriminate.
  - destruct Hc as (Ha & Hab & Hc). destruct j as [|j]; [lia|].
    destruct i as [|i]; simpl in H1, H2.
    + injection H1 as <-. simpl in Ht.
      apply andb_true_iff in Ht. destruct Ht as [_ Ht]. apply Z.ltb_lt in Ht.
      destruct (in_subrange t sr2) eqn:E; [|reflexivity].
      assert (Hin : In sr2 l) by (eapply nth_error_In; eauto).
      pose proof (cover_count_chained _ _ _ _ Hc Hin E) as E1.
      rewrite (cover_count_before b) in E1; auto. discriminate.
    + eapply (IH b i j); eauto. lia.
Qed.

(** C1: for a valid calendar and any window, the sub-ranges handed to
    [_apply_calendar] are non-empty, lie inside the window and inside their
    calendar entry, are pairwise disjoint, and together hold exactly the
    instants of the window that belong to some calendar entry; each such
    instant lies in exactly one emitted sub-range. *)
Theorem calendar_walk_tiles_window calendar range_start range_stop :
  valid_calendar (dvalues calendar) ->
  exists subs,
    emitted_subranges calendar range_start range_stop = Ok subs /\
    (forall e a b, In (e, a, b) subs ->
       In e (dvalues calendar) /\ a < b /\
       forall t, a <= t < b -> range_start <= t < range_stop /\ in_entry e t) /\
    (forall (i j : nat) sr1 sr2 t, (i < j)%nat ->
       nth_error subs i = Some sr1 -> nth_error subs j = Some sr2 ->
       in_subrange t sr1 = true -> in_subrange t sr2 = false) /\
    (forall t,
       (exists sr, In sr subs /\ in_subrange t sr = true) <->
       (range_start <= t < range_stop /\
        exists e, In e (dvalues calendar) /\ in_entry e t)) /\
    (forall t, range_start <= t < range_stop ->
       (exists e, In e (dvalues calendar) /\ in_entry e t) ->
       cover_count t subs = 1%nat).
Proof.
  intros Hv. exists (subranges (dvalues calendar) range_stop range_start).
  split; [apply emitted_subranges_eq|].
  pose proof (subranges_chained (dvalues calendar) range_stop range_start) as Hch.
  assert (Hb : forall e a b,
             In (e, a, b) (subranges (dvalues calendar) range_stop range_start) ->
             In e (dvalues calendar) /\ a < b /\
             forall t, a <= t < b -> range_start <= t < range_stop /\ in_entry e t).
  { intros e a b Hin.
    destruct (subranges_bounds _ _ _ _ _ _ Hin) as (He & Hc & Hs & Hab & Hstop & Hend).
    repeat split; auto; try lia.
    destruct (ce_end_date e) as [d|]; [|exact I].
    specialize (Hend d eq_refl). lia. }
  assert (Hcov : forall t, range_start <= t < range_stop ->
             (exists e, In e (dvalues calendar) /\ in_entry e t) ->
             exists sr, In sr (subranges (dvalues calendar) range_stop range_start) /\
                        in_subrange t sr = true).
  { intros t Ht He.
    destruct (subranges_cover _ _ _ _ Hv Ht He) as (e & a & b & Hin & Hab).
    exists (e, a, b). split; [exact Hin|]. simpl.
    apply andb_true_iff. split; [apply Z.leb_le | apply Z.ltb_lt]; lia. }
  split; [exact Hb|]. split; [|split].
  - intros i j sr1 sr2 t. apply chained_disjoint with (lo := range_start). exact Hch.
  - intros t. split.
    + intros ([[e a] b] & Hin & Ht). simpl in Ht.
      apply andb_true_iff in Ht. destruct Ht as [H1 H2].
      apply Z.leb_le in H1. apply Z.ltb_lt in H2.
      destruct (Hb e a b Hin) as (He & _ & Hsub).
      destruct (Hsub t ltac:(lia)) as [Hw Hie].
      split; [exact Hw|]. exists e. split; assumption.
    + intros (Ht & He). apply Hcov; auto.
  - intros t Ht He. destruct (Hcov t Ht He) as (sr & Hin & Hsr).
    eapply cover_count_chained; eauto.
Qed.

Lemma calendar_walk_tiles_window_witness :
  valid_calendar (dvalues two_season_calendar) /\
  emitted_subranges two_season_calendar (19530 * MICROS_PER_DAY) (19550 * MICROS_PER_DAY)
  = Ok [(mkEntry (19358 * MICROS_PER_DAY) "P" "Summer" [] (Some (19539 * MICROS_PER_DAY)),
         19530 * MICROS_PER_DAY, 19539 * MICROS_PER_DAY);
        (mkEntry (19539 * MICROS_PER_DAY) "P" "Winter" [] None,
         19539 * MICROS_PER_DAY, 19550 * MICROS_PER_DAY)] /\
  exists subs,
    emitted_subranges two_season_calendar (19530 * MICROS_PER_DAY) (19550 * MICROS_PER_DAY)
    = Ok subs /\
    (forall e a b, In (e, a, b) subs ->
       In e (dvalues two_season_calendar) /\ a < b /\
       forall t, a <= t < b ->
         19530 * MICROS_PER_DAY <= t < 19550 * MICROS_PER_DAY /\ in_entry e t) /\
    (forall (i j : nat) sr1 sr2 t, (i < j)%nat ->
       nth_error subs i = Some sr1 -> nth_error subs j = Some sr2 ->
       in_subrange t sr1 = true -> in_subrange t sr2 = false) /\
    (forall t,
       (exists sr, In sr subs /\ in_subrange t sr = true) <->
       (19530 * MICROS_PER_DAY <= t < 19550 * MICROS_PER_DAY /\
        exists e, In e (dvalues two_season_calendar) /\ in_entry e t)) /\
    (forall t, 19530 * MICROS_PER_DAY <= t < 19550 * MICROS_PER_DAY ->
       (exists e, In e (dvalues two_season_calendar) /\ in_entry e t) ->
       cover_count t subs = 1%nat).
Proof.
  split; [|split].
  - simpl. repeat split; first [reflexivity | discriminate].
  - vm_compute. reflexivity.
  - apply calendar_walk_tiles_window.
    simpl. repeat split; first [reflexivity | discriminate].
Defined.

(** ** C6: a schedule with a single period is not filtered by time of day *)



(** ** C5: the periods of a schedule tile the day *)

Section PeriodTiling.
Context `{External}.

Lemma last_cons {A : Type} (l : list A) (x d : A) : List.last (x :: l) d = List.last l x.
Proof.
  revert x d. induction l as [|y l IH]; intros x d; [reflexivity|].
  change (List.last (x :: y :: l) d) with (List.last (y :: l) d).
  rewrite (IH y d). symmetry. apply (IH y x).
Qed.

Lemma pairwise_periods_step this next rest :
  pairwise_periods (this :: next :: rest)
  = (let* start_time := lift_opt ValueError (time_fromisoformat (fst this)) in
     let* end_time := lift_opt ValueError (time_fromisoformat (fst next)) in
     let* more := pairwise_periods (next :: rest) in
     Ok (mkPeriod (snd this) start_time end_time :: more)).
Proof. reflexivity. Qed.

Lemma pairwise_periods_linked item items ps final :
  pairwise_periods (item :: items) = Ok ps ->
  time_fromisoformat (fst (List.last items item)) = Some (tp_start final) ->
  linked (ps ++ [final]) (tp_end final) /\
  time_fromisoformat (fst item) = Some (tp_start (List.hd final (ps ++ [final]))).
Proof.
  revert item ps. induction items as [|next items IH]; intros item ps Hps Hlast.
  - simpl in Hps. apply Ok_inj in Hps. subst ps. simpl in *. auto.
  - rewrite pairwise_periods_step in Hps. inv_ok Hps. apply Ok_inj in Hps. subst ps.
    apply lift_opt_ok in Ha, Ha0.
    change (List.last (next :: items) item) with (List.last (next :: items) item) in Hlast.
    rewrite last_cons in Hlast.
    destruct (IH next a1 Ha1 Hlast) as [Hlink Hhd].
    split; [|exact Ha].
    cbn [app linked]. destruct (a1 ++ [final]) as [|q rest] eqn:E.
    + destruct a1; discriminate E.
    + split; [|exact Hlink]. simpl in *. congruence.
Qed.

Lemma build_periods_linked items periods :
  (2 <= List.length items)%nat ->
  build_periods items = Ok periods ->
  exists p rest, periods = p :: rest /\ linked periods (tp_start p) /\
                 (2 <= List.length periods)%nat.
Proof.
  intros Hlen Hb. destruct items as [|item items]; [simpl in Hlen; lia|].
  unfold build_periods in Hb. inv_ok Hb. apply Ok_inj in Hb.
  apply lift_opt_ok in Ha0, Ha1, Ha2.
  assert (Hthis : a0 = List.last items item).
  { clear - Ha0. revert item Ha0. induction items as [|x items IH]; intros item Ha0.
    - simpl in *. congruence.
    - rewrite last_cons. apply (IH x). exact Ha0. }
  subst a0.
  destruct items as [|next items]; [simpl in Hlen; lia|].
  cbn [List.length Nat.eqb List.hd] in Ha2.
  set (final := mkPeriod (snd (List.last (next :: items) item)) a1 a2) in *.
  destruct (pairwise_periods_linked item (next :: items) a final Ha Ha1) as [Hlink Hhd].
  subst periods.
  destruct (a ++ [final]) as [|p rest] eqn:E; [destruct a; discriminate E|].
  exists p, rest. split; [reflexivity|]. simpl in Hhd.
  split.
  - replace (tp_start p) with (tp_end final); [exact Hlink|]. simpl. congruence.
  - rewrite pairwise_periods_step in Ha. inv_ok Ha. apply Ok_inj in Ha. subst a.
    simpl in E. injection E as <- <-. cbn [List.length]. rewrite length_app. simpl. lia.
Qed.
End PeriodTiling.

(** The number of periods of a linked chain that hold a time of day is the
    number of periods running past midnight, corrected at the two ends. *)
Lemma between_time_left_arc a b t :
  Z.b2z (between_time_left a b t)
  = Z.b2z (b <? a) + Z.b2z (a <=? time_of_day t) - Z.b2z (b <=? time_of_day t).
Proof.
  unfold between_time_left.
  destruct (Z.leb_spec a b); destruct (Z.ltb_spec b a); try lia;
    destruct (Z.leb_spec a (time_of_day t)); destruct (Z.leb_spec b (time_of_day t));
    destruct (Z.ltb_spec (time_of_day t) b); simpl; lia.
Qed.

Lemma linked_cover_count p rest closing t :
  linked (p :: rest) closing ->
  Z.of_nat (List.length (List.filter (holds_time t) (p :: rest)))
  = Z.of_nat (List.length (List.filter wraps_midnight (p :: rest)))
    + Z.b2z (tp_start p <=? time_of_day t) - Z.b2z (closing <=? time_of_day t).
Proof.
  revert p. induction rest as [|q rest IH]; intros p Hl.
  - simpl in Hl. subst closing.
    pose proof (between_time_left_arc (tp_start p) (tp_end p) t) as Harc.
    cbn [List.filter]. unfold holds_time at 1, wraps_midnight at 1.
    destruct (between_time_left _ _ t); destruct (tp_end p <? tp_start p);
      simpl in *; lia.
  - destruct Hl as [Hend Hl]. specialize (IH q Hl).
    pose proof (between_time_left_arc (tp_start p) (tp_end p) t) as Harc.
    rewrite Hend in Harc.
    change (List.filter (holds_time t) (p :: q :: rest))
      with (if holds_time t p then p :: List.filter (holds_time t) (q :: rest)
            else List.filter (holds_time t) (q :: rest)).
    change (List.filter wraps_midnight (p :: q :: rest))
      with (if wraps_midnight p then p :: List.filter wraps_midnight (q :: rest)
            else List.filter wraps_midnight (q :: rest)).
    unfold holds_time at 1, wraps_midnight at 1. rewrite Hend.
    destruct (between_time_left (tp_start p) (tp_start q) t);
      destruct (tp_start q <? tp_start p);
      cbn [List.length]; simpl Z.b2z in Harc; lia.
Qed.

Lemma filter_length_one {A : Type} (f : A -> bool) (l : list A) :
  List.length (List.filter f l) = 1%nat ->
  exists (i : nat) x,
    nth_error l i = Some x /\ f x = true /\
    forall (j : nat) y, nth_error l j = Some y -> f y = true -> j = i.
Proof.
  induction l as [|a l IH]; simpl; [discriminate|].
  destruct (f a) eqn:Ea; simpl; intros Hlen.
  - exists 0%nat, a. repeat split; auto.
    intros [|j] y Hj Hy; [reflexivity|]. exfalso. simpl in Hj.
    assert (Hin : In y (List.filter f l))
      by (apply List.filter_In; split; [eapply nth_error_In; eauto | exact Hy]).
    injection Hlen as Hlen. destruct (List.filter f l); [destruct Hin | discriminate].
  - destruct (IH Hlen) as (i & x & Hi & Hx & Huniq).
    exists (S i), x. repeat split; auto.
    intros [|j] y Hj Hy; simpl in Hj.
    + injection Hj as <-. congruence.
    + f_equal. eapply Huniq; eauto.
Qed.

Lemma ascending_periods_wrap_once p rest closing :
  linked (p :: rest) closing ->
  StronglySorted Z.lt (map tp_start (p :: rest)) ->
  closing < tp_start (List.last rest p) ->
  List.length (List.filter wraps_midnight (p :: rest)) = 1%nat.
Proof.
  revert p. induction rest as [|q rest IH]; intros p Hl Hs Hc.
  - simpl in *. subst closing. unfold wraps_midnight.
    destruct (Z.ltb_spec (tp_end p) (tp_start p)); [reflexivity | lia].
  - destruct Hl as [Hend Hl].
    change (List.filter wraps_midnight (p :: q :: rest))
      with (if wraps_midnight p then p :: List.filter wraps_midnight (q :: rest)
            else List.filter wraps_midnight (q :: rest)).
    inversion Hs as [|? ? Hs' Hall]; subst.
    assert (Hpq : tp_start p < tp_start q) by (inversion Hall; assumption).
    unfold wraps_midnight at 1. rewrite Hend.
    destruct (Z.ltb_spec (tp_start q) (tp_start p)); [lia|].
    apply IH; auto. now rewrite last_cons in Hc.
Qed.

(** C5, as stated, fails when the boundaries are not listed in time order:
    with periods starting 14:00, 06:00 and 20:00 the first period runs from
    14:00 past midnight to 06:00 and the second from 06:00 to 20:00, so a row at
    15:00 is selected for both. *)
Lemma unordered_periods_overlap :
  exists p q rest,
    @build_periods example_env unordered_periods_json = Ok (p :: q :: rest) /\
    In monday_3pm (tariff_index (mkSchedule "weekdays" {[0; 1; 2; 3; 4]} (p :: q :: rest)) p
                                [monday_3pm]) /\
    In monday_3pm (tariff_index (mkSchedule "weekdays" {[0; 1; 2; 3; 4]} (p :: q :: rest)) q
                                [monday_3pm]).
Proof.
  eexists _, _, _. split; [vm_compute; reflexivity|].
  split; vm_compute; auto.
Qed.

(** C5 (amended): for every schedule with two or more periods constructed by
    [_init_seasons] in which exactly one period runs past midnight (which is
    the case whenever the start times are listed in strictly increasing
    order), the per-period row masks lie inside the day-filtered mask, every
    row of the day-filtered mask is selected for exactly one period, and a row
    whose time of day is the start of a non-empty period is selected for that
    period. *)
Theorem schedule_periods_tile_day `{External} items schedule (day_idx : list Z) :
  (2 <= List.length items)%nat ->
  build_periods items = Ok (ts_periods schedule) ->
  List.length (List.filter wraps_midnight (ts_periods schedule)) = 1%nat ->
  (forall period t, In t (tariff_index schedule period day_idx) -> In t day_idx) /\
  (forall t, In t day_idx ->
     exists (i : nat) period,
       nth_error (ts_periods schedule) i = Some period /\
       In t (tariff_index schedule period day_idx) /\
       forall (j : nat) q,
         nth_error (ts_periods schedule) j = Some q ->
         In t (tariff_index schedule q day_idx) -> j = i) /\
  (forall t period,
     In t day_idx -> In period (ts_periods schedule) ->
     tp_start period <> tp_end period ->
     time_of_day t = tp_start period ->
     In t (tariff_index schedule period day_idx)).
Proof.
  intros Hlen Hb Hwrap.
  destruct (build_periods_linked _ _ Hlen Hb) as (p & rest & Hp & Hlink & Hn).
  assert (Hidx : forall period t,
             In t (tariff_index schedule period day_idx) <->
             In t day_idx /\ holds_time t period = true).
  { intros period t. unfold tariff_index.
    destruct (Nat.eqb_spec (List.length (ts_periods schedule)) 1) as [E|_]; [lia|].
    apply List.filter_In. }
  split; [|split].
  - intros period t Ht. now apply Hidx in Ht.
  - intros t Ht.
    assert (Hone : List.length (List.filter (holds_time t) (ts_periods schedule)) = 1%nat).
    { rewrite Hp in *. pose proof (linked_cover_count p rest (tp_start p) t Hlink) as Hc.
      rewrite Hwrap in Hc. lia. }
    destruct (filter_length_one _ _ Hone) as (i & period & Hi & Hh & Huniq).
    exists i, period. split; [exact Hi|]. split; [apply Hidx; auto|].
    intros j q Hj Hq. apply Hidx in Hq. eapply Huniq; [exact Hj | apply Hq].
  - intros t period Ht Hin Hne Htod. apply Hidx. split; [exact Ht|].
    unfold holds_time, between_time_left. rewrite Htod.
    destruct (Z.leb_spec (tp_start period) (tp_end period)).
    + apply andb_true_iff. split; [apply Z.leb_le | apply Z.ltb_lt]; lia.
    + apply orb_true_iff. left. apply Z.leb_le. lia.
Qed.

Lemma schedule_periods_tile_day_witness :
  @build_periods example_env peak_offpeak_json
  = Ok [mkPeriod "peak" 50400000000 72000000000; mkPeriod "off-peak" 72000000000 50400000000] /\
  tariff_index (mkSchedule "weekdays" {[0; 1; 2; 3; 4]}
                  [mkPeriod "peak" 50400000000 72000000000;
                   mkPeriod "off-peak" 72000000000 50400000000])
               (mkPeriod "peak" 50400000000 72000000000)
               [19359 * MICROS_PER_DAY + 50400000000; 19359 * MICROS_PER_DAY + 72000000000]
  = [19359 * MICROS_PER_DAY + 50400000000] /\
  tariff_index (mkSchedule "weekdays" {[0; 1; 2; 3; 4]}
                  [mkPeriod "peak" 50400000000 72000000000;
                   mkPeriod "off-peak" 72000000000 50400000000])
               (mkPeriod "off-peak" 72000000000 50400000000)
               [19359 * MICROS_PER_DAY + 50400000000; 19359 * MICROS_PER_DAY + 72000000000]
  = [19359 * MICROS_PER_DAY + 72000000000] /\
  forall t, In t [19359 * MICROS_PER_DAY + 50400000000; 19359 * MICROS_PER_DAY + 72000000000] ->
    exists (i : nat) period,
      nth_error [mkPeriod "peak" 50400000000 72000000000;
                 mkPeriod "off-peak" 72000000000 50400000000] i = Some period /\
      In t (tariff_index (mkSchedule "weekdays" {[0; 1; 2; 3; 4]}
                            [mkPeriod "peak" 50400000000 72000000000;
                             mkPeriod "off-peak" 72000000000 50400000000])
                         period
                         [19359 * MICROS_PER_DAY + 50400000000;
                          19359 * MICROS_PER_DAY + 72000000000]) /\
      forall (j : nat) q,
        nth_error [mkPeriod "peak" 50400000000 72000000000;
                   mkPeriod "off-peak" 72000000000 50400000000] j = Some q ->
        In t (tariff_index (mkSchedule "weekdays" {[0; 1; 2; 3; 4]}
                              [mkPeriod "peak" 50400000000 72000000000;
                               mkPeriod "off-peak" 72000000000 50400000000])
                           q
                           [19359 * MICROS_PER_DAY + 50400000000;
                            19359 * MICROS_PER_DAY + 72000000000]) -> j = i.
Proof.
  split; [vm_compute; reflexivity|].
  split; [vm_compute; reflexivity|].
  split; [vm_compute; reflexivity|].
  apply (proj1 (proj2 (@schedule_periods_tile_day example_env peak_offpeak_json
           (mkSchedule "weekdays" {[0; 1; 2; 3; 4]}
              [mkPeriod "peak" 50400000000 72000000000;
               mkPeriod "off-peak" 72000000000 50400000000])
           [19359 * MICROS_PER_DAY + 50400000000; 19359 * MICROS_PER_DAY + 72000000000]
           ltac:(simpl; lia) ltac:(vm_compute; reflexivity) ltac:(vm_compute; reflexivity)))).
Defined.

(** ** C7: registering report columns *)

Lemma register_column_present name reg :
  dmem name reg = true -> register_column name reg = reg.
Proof. intros H. unfold register_column. now rewrite H. Qed.

Lemma register_column_dmem name name' reg :
  dmem name' (register_column name reg) = (bool_decide (name = name') || dmem name' reg)%bool.
Proof.
  unfold register_column. destruct (dmem name reg) eqn:E; simpl.
  - destruct (bool_decide_reflect (name = name')) as [<-|]; simpl; [now rewrite E | reflexivity].
  - apply dmem_dset.
Qed.

Lemma register_column_keeps name name' reg :
  dmem name' reg = true -> dget name' (register_column name reg) = dget name' reg.
Proof.
  intros Hin. unfold register_column. destruct (dmem name reg) eqn:E; simpl; [reflexivity|].
  apply dget_dset_ne. intros ->. congruence.
Qed.

Lemma dkeys_dset_absent {K V : Type} `{EqDecision K} (k : K) (v : V) (d : dict K V) :
  dmem k d = false -> dkeys (dset k v d) = dkeys d ++ [k].
Proof.
  unfold dmem, dkeys. induction d as [|[k' v'] d IH]; simpl; [reflexivity|].
  destruct (decide (k = k')); [discriminate|]. simpl. intros Hd. now rewrite IH.
Qed.

Lemma dmem_dkeys {K V : Type} `{EqDecision K} (k : K) (d : dict K V) :
  dmem k d = true <-> In k (dkeys d).
Proof.
  unfold dmem, dkeys. induction d as [|[k' v'] d IH]; simpl; [split; [discriminate | tauto]|].
  destruct (decide (k = k')) as [->|Hne]; [tauto|].
  rewrite IH. split; [tauto | intros [E|Hin]; [congruence | exact Hin]].
Qed.

Lemma register_column_NoDup name reg :
  List.NoDup (dkeys reg) -> List.NoDup (dkeys (register_column name reg)).
Proof.
  intros Hnd. unfold register_column. destruct (dmem name reg) eqn:E; simpl; [exact Hnd|].
  rewrite dkeys_dset_absent by exact E.
  apply List.NoDup_app.
  - exact Hnd.
  - repeat constructor. simpl. tauto.
  - intros x Hx [<-|[]]. apply dmem_dkeys in Hx. congruence.
Qed.

Lemma register_columns_dmem names name reg :
  dmem name reg = true -> dmem name (register_columns names reg) = true.
Proof.
  revert reg. induction names as [|n names IH]; intros reg Hin; simpl; [exact Hin|].
  apply IH. rewrite register_column_dmem, Hin. apply orb_true_r.
Qed.

Lemma register_columns_registers names name reg :
  In name names -> dmem name (register_columns names reg) = true.
Proof.
  revert reg. induction names as [|n names IH]; intros reg Hin; [destruct Hin|].
  simpl. destruct Hin as [->|Hin].
  - apply register_columns_dmem. rewrite register_column_dmem.
    rewrite bool_decide_eq_true_2; reflexivity.
  - apply IH. exact Hin.
Qed.

Lemma register_columns_present names reg :
  (forall name, In name names -> dmem name reg = true) ->
  register_columns names reg = reg.
Proof.
  revert reg. induction names as [|n names IH]; intros reg Hall; simpl; [reflexivity|].
  rewrite register_column_present by (apply Hall; left; reflexivity).
  apply IH. intros name Hin. apply Hall. right. exact Hin.
Qed.

Lemma register_columns_twice names reg :
  register_columns names (register_columns names reg) = register_columns names reg.
Proof.
  apply register_columns_present. intros name Hin. now apply register_columns_registers.
Qed.

Lemma energy_report_columns_registry eng tariff tariff_idx columns req req' :
  energy_report_columns eng tariff tariff_idx columns req = Ok req' ->
  _report_cols req'
  = register_columns (energy_report_names eng tariff columns) (_report_cols req).
Proof.
  revert req. induction columns as [|column rest IH]; intros req Hrun.
  - simpl in Hrun. apply Ok_inj in Hrun. now subst req'.
  - unfold energy_report_names. cbn [energy_report_columns List.filter] in *.
    destruct (bool_decide (column ∈ [TIME; TARIFF; SUPPLY_CHARGE])); cbn [negb].
    + apply IH. exact Hrun.
    + inv_ok Hrun. apply IH in Hrun. exact Hrun.
Qed.

Lemma add_energy_reports_registry eng tariff tariff_idx usage_plan req req' :
  _add_energy_reports eng tariff tariff_idx usage_plan req = Ok req' ->
  _report_cols req'
  = register_columns (energy_report_names eng tariff (up_report_cols usage_plan))
                     (_report_cols req).
Proof.
  unfold _add_energy_reports. intros Hrun.
  now apply energy_report_columns_registry in Hrun.
Qed.

Lemma simple_agent_usage_registry tariff tariff_idx rates cost_unit col_override req req' :
  simple_agent_usage tariff tariff_idx rates cost_unit col_override req = Ok req' ->
  _report_cols req'
  = register_columns (cost_report_names tariff rates cost_unit col_override)
                     (_report_cols req).
Proof.
  revert req. induction rates as [|[energy_column rate] rest IH]; intros req Hrun.
  - simpl in Hrun. apply Ok_inj in Hrun. now subst req'.
  - cbn [simple_agent_usage] in Hrun. unfold cost_report_names. cbn [map].
    destruct (bool_decide (energy_column = SUPPLY_CHARGE)).
    + apply IH in Hrun. exact Hrun.
    + destruct (negb (dmem (value energy_column) (df_data (_frame req)))); [discriminate|].
      inv_ok Hrun. apply IH in Hrun. exact Hrun.
Qed.

(** C7: registering a name that is already in the report column registry
    leaves the registry as it was, with the entry's type untouched, so that
    registering a name twice equals registering it once and never duplicates a
    key; running [_add_energy_reports] or [SimpleAgent.usage] a second time for
    the same tariff leaves the registry of the first run. *)
Theorem report_column_registration_idempotent :
  (forall name reg, dmem name reg = true -> register_column name reg = reg) /\
  (forall name reg,
      register_column name (register_column name reg) = register_column name reg) /\
  (forall name reg ty,
      dget name reg = Some ty -> dget name (register_column name reg) = Some ty) /\
  (forall name reg,
      List.NoDup (dkeys reg) ->
      List.NoDup (dkeys (register_column name (register_column name reg))) /\
      In name (dkeys (register_column name (register_column name reg)))) /\
  (forall eng tariff idx1 idx2 usage_plan req req1 req2,
      _add_energy_reports eng tariff idx1 usage_plan req = Ok req1 ->
      _add_energy_reports eng tariff idx2 usage_plan req1 = Ok req2 ->
      _report_cols req2 = _report_cols req1) /\
  (forall tariff idx1 idx2 rates cost_unit col_override req req1 req2,
      simple_agent_usage tariff idx1 rates cost_unit col_override req = Ok req1 ->
      simple_agent_usage tariff idx2 rates cost_unit col_override req1 = Ok req2 ->
      _report_cols req2 = _report_cols req1).
Proof.
  assert (Hmem : forall name reg, dmem name (register_column name reg) = true).
  { intros name reg. rewrite register_column_dmem.
    rewrite bool_decide_eq_true_2; reflexivity. }
  repeat split.
  - apply register_column_present.
  - intros name reg. apply register_column_present, Hmem.
  - intros name reg ty Hty. rewrite register_column_keeps; [exact Hty|].
    unfold dmem. now rewrite Hty.
  - now apply register_column_NoDup, register_column_NoDup.
  - apply dmem_dkeys, Hmem.
  - intros eng tariff idx1 idx2 usage_plan req req1 req2 H1 H2.
    apply add_energy_reports_registry in H1, H2.
    rewrite H2, H1. apply register_columns_twice.
  - intros tariff idx1 idx2 rates cost_unit col_override req req1 req2 H1 H2.
    apply simple_agent_usage_registry in H1, H2.
    rewrite H2, H1. apply register_columns_twice.
Qed.

Lemma report_column_registration_idempotent_witness :
  dmem "peak Grid to Home (kWh)" [("peak Grid to Home (kWh)", "time")] = true /\
  register_column "peak Grid to Home (kWh)" [("peak Grid to Home (kWh)", "time")]
  = [("peak Grid to Home (kWh)", "time")].
Proof.
  split; [reflexivity|].
  apply (proj1 report_column_registration_idempotent). reflexivity.
Defined.

(** ** C8: the query time range *)







(** ** Loading the calendar *)

Lemma dset_absent {K V : Type} `{EqDecision K} (k : K) (v : V) (d : dict K V) :
  dmem k d = false -> dset k v d = d ++ [(k, v)].
Proof.
  unfold dmem. induction d as [|[k' v'] d IH]; simpl; [reflexivity|].
  destruct (decide (k = k')); [discriminate|]. intros Hd. now rewrite IH.
Qed.

Lemma dset_NoDup {K V : Type} `{EqDecision K} (k : K) (v : V) (d : dict K V) :
  List.NoDup (dkeys d) -> List.NoDup (dkeys (dset k v d)).
Proof.
  intros Hnd. destruct (dmem k d) eqn:E.
  - now rewrite dkeys_dset_present.
  - rewrite dkeys_dset_absent by exact E. apply List.NoDup_app.
    + exact Hnd.
    + repeat constructor. simpl. tauto.
    + intros x Hx [<-|[]]. apply dmem_dkeys in Hx. congruence.
Qed.

Lemma dmem_app_false {K V : Type} `{EqDecision K} (k : K) (d1 d2 : dict K V) :
  dmem k (d1 ++ d2) = false <-> dmem k d1 = false /\ dmem k d2 = false.
Proof.
  unfold dmem. induction d1 as [|[k' v'] d1 IH]; simpl; [tauto|].
  destruct (decide (k = k')); [split; [discriminate | intros [? _]; discriminate]|].
  exact IH.
Qed.

Section CalendarLoading.
Context `{External}.

Lemma parse_dates_NoDup calendar_json acc parsed :
  parse_dates calendar_json acc = Ok parsed ->
  List.NoDup (dkeys acc) -> List.NoDup (dkeys parsed).
Proof.
  revert acc. induction calendar_json as [|[d_str item] rest IH]; intros acc Hp Hnd.
  - simpl in Hp. apply Ok_inj in Hp. now subst.
  - simpl in Hp. inv_ok Hp. eapply IH; [exact Hp|]. now apply dset_NoDup.
Qed.

Lemma insert_by_date_perm item (sorted : dict Z CalendarJson) :
  Permutation (insert_by_date item sorted) (item :: sorted).
Proof.
  induction sorted as [|x rest IH]; simpl; [reflexivity|].
  destruct (fst item <? fst x); [reflexivity|].
  etransitivity; [apply perm_skip, IH|]. apply perm_swap.
Qed.

Lemma sort_by_date_perm (calendar : dict Z CalendarJson) :
  Permutation (sort_by_date calendar) calendar.
Proof.
  induction calendar as [|item rest IH]; simpl; [reflexivity|].
  etransitivity; [apply insert_by_date_perm|]. now apply perm_skip.
Qed.

Lemma insert_by_date_sorted item (sorted : dict Z CalendarJson) :
  StronglySorted Z.le (dkeys sorted) ->
  StronglySorted Z.le (dkeys (insert_by_date item sorted)).
Proof.
  unfold dkeys. induction sorted as [|x rest IH]; intros Hs; simpl.
  - repeat constructor.
  - inversion Hs as [|? ? Hs' Hall]; subst.
    destruct (Z.ltb_spec (fst item) (fst x)); simpl.
    + constructor; [exact Hs|]. constructor; [lia|].
      eapply List.Forall_impl; [|exact Hall]. simpl. intros; lia.
    + constructor; [apply IH; exact Hs'|].
      assert (HP : Permutation (map fst (insert_by_date item rest)) (fst item :: map fst rest))
        by (change (fst item :: map fst rest) with (map fst (item :: rest));
            apply Permutation_map, insert_by_date_perm).
      eapply Permutation_Forall; [symmetry; exact HP|].
      constructor; [lia | exact Hall].
Qed.

Lemma sort_by_date_sorted (calendar : dict Z CalendarJson) :
  StronglySorted Z.le (dkeys (sort_by_date calendar)).
Proof.
  induction calendar as [|item rest IH]; simpl; [constructor|].
  now apply insert_by_date_sorted.
Qed.

Lemma sorted_NoDup_strict (keys : list Z) :
  StronglySorted Z.le keys -> List.NoDup keys -> StronglySorted Z.lt keys.
Proof.
  induction keys as [|k keys IH]; intros Hs Hnd; [constructor|].
  inversion Hs as [|? ? Hs' Hall]; subst. inversion Hnd as [|? ? Hnin Hnd']; subst.
  constructor; [auto|].
  rewrite List.Forall_forall in *. intros x Hx.
  specialize (Hall x Hx). assert (x <> k) by (intros ->; contradiction). lia.
Qed.

(** The entries [load_entries] builds, position by position. *)
Lemma load_entries_ok plans items prev_event calendar built :
  load_entries plans items prev_event calendar = (Ok tt, built) ->
  List.NoDup (dkeys items) ->
  (forall k, In k (dkeys items) -> dmem k calendar = false) ->
  exists entries,
    built = calendar ++ combine (dkeys items) entries /\
    List.length entries = List.length items /\
    forall (i : nat) d j e,
      nth_error items i = Some (d, j) -> nth_error entries i = Some e ->
      make_entry plans (entry_before prev_event entries i) d j = Ok e.
Proof.
  revert prev_event calendar.
  induction items as [|[d0 j0] items IH]; intros prev_event calendar Hl Hnd Hfresh.
  - simpl in Hl. injection Hl as <-. exists []. rewrite app_nil_r.
    repeat split; auto. intros [|i]; discriminate.
  - simpl in Hl. destruct (make_entry plans prev_event d0 j0) as [e0|err] eqn:E0;
      [|discriminate].
    inversion Hnd as [|? ? Hnin Hnd']; subst.
    assert (Hd0 : dmem d0 calendar = false) by (apply Hfresh; left; reflexivity).
    rewrite (dset_absent _ _ _ Hd0) in Hl.
    destruct (IH (Some e0) (calendar ++ [(d0, e0)]) Hl Hnd') as (entries & Hb & Hlen & Hnth).
    { intros k Hk. apply dmem_app_false. split; [apply Hfresh; right; exact Hk|].
      unfold dmem. simpl. destruct (decide (k = d0)) as [->|]; [contradiction | reflexivity]. }
    exists (e0 :: entries). split; [|split].
    + rewrite Hb, <- app_assoc. reflexivity.
    + simpl. now rewrite Hlen.
    + intros [|i] d j e Hi He; simpl in Hi, He.
      * injection Hi as <- <-. injection He as <-. exact E0.
      * specialize (Hnth i d j e Hi He). destruct i; exact Hnth.
Qed.

Lemma post_init_fields plans start_date plan season tariffs e :
  post_init plans start_date plan season tariffs = Ok e ->
  ce_start_date e = start_date /\ ce_plan e = plan /\ ce_season e = season /\
  ce_end_date e = None /\
  (forall table, tariffs = Inherited table -> ce_tariffs e = table) /\
  exists plan_instance,
    dget plan plans = Some plan_instance /\ season_defined plan_instance season = true.
Proof.
  unfold post_init. intros Hp. inv_ok Hp. apply lift_opt_ok in Ha.
  destruct (season_defined a season) eqn:Es; [|discriminate].
  inv_ok Hp. apply Ok_inj in Hp. subst e. simpl.
  repeat split; eauto.
  intros table ->. inv_ok Ha0. now apply Ok_inj in Ha0.
Qed.

(** Incremental construction of one calendar entry. *)
Lemma make_entry_inherits plans prev date_v data e :
  make_entry plans (Some prev) date_v data = Ok e ->
  ce_start_date e = date_v /\
  ce_plan e = (match cj_plan data with Some plan => plan | None => ce_plan prev end) /\
  ce_season e = (match cj_season data with Some season => season | None => ce_season prev end) /\
  (cj_tariffs data = None -> ce_tariffs e = ce_tariffs prev).
Proof.
  unfold make_entry. intros Hm.
  destruct (post_init_fields _ _ _ _ _ _ Hm) as (Hd & Hp & Hs & _ & Ht & _).
  repeat split; auto. intros Hnone. apply Ht. now rewrite Hnone.
Qed.

Lemma make_entry_start plans prev_event date_v data e :
  make_entry plans prev_event date_v data = Ok e ->
  ce_start_date e = date_v /\ ce_end_date e = None /\
  exists plan_instance,
    dget (ce_plan e) plans = Some plan_instance /\
    season_defined plan_instance (ce_season e) = true.
Proof.
  unfold make_entry. intros Hm. destruct prev_event as [prev|].
  - destruct (post_init_fields _ _ _ _ _ _ Hm) as (Hd & Hp & Hs & He & _ & Hplan).
    rewrite Hp, Hs. auto.
  - destruct (cj_plan data), (cj_season data), (cj_tariffs data); try discriminate.
    destruct (post_init_fields _ _ _ _ _ _ Hm) as (Hd & Hp & Hs & He & _ & Hplan).
    rewrite Hp, Hs. auto.
Qed.
End CalendarLoading.

Lemma set_end_dates_fields (calendar : dict Z CalendarEntry) (i : nat) e' :
  nth_error (dvalues (set_end_dates calendar)) i = Some e' ->
  exists e,
    nth_error (dvalues calendar) i = Some e /\
    ce_start_date e' = ce_start_date e /\ ce_plan e' = ce_plan e /\
    ce_season e' = ce_season e /\ ce_tariffs e' = ce_tariffs e.
Proof.
  revert i. induction calendar as [|[d this] rest IH]; intros i Hn.
  - destruct i; discriminate.
  - destruct rest as [|[d' next] rest].
    + simpl in *. destruct i as [|[|i]]; try discriminate.
      injection Hn as <-. exists this. auto.
    + change (set_end_dates ((d, this) :: (d', next) :: rest))
        with ((d, mkEntry (ce_start_date this) (ce_plan this) (ce_season this)
                          (ce_tariffs this) (Some (ce_start_date next)))
                :: set_end_dates ((d', next) :: rest)) in Hn.
      destruct i as [|i].
      * simpl in Hn. injection Hn as <-. exists this. simpl. auto.
      * apply (IH i). exact Hn.
Qed.

Lemma set_end_dates_keys (calendar : dict Z CalendarEntry) :
  dkeys (set_end_dates calendar) = dkeys calendar.
Proof.
  induction calendar as [|[d this] rest IH]; [reflexivity|].
  destruct rest as [|[d' next] rest]; [reflexivity|].
  change (set_end_dates ((d, this) :: (d', next) :: rest))
    with ((d, mkEntry (ce_start_date this) (ce_plan this) (ce_season this)
                      (ce_tariffs this) (Some (ce_start_date next)))
            :: set_end_dates ((d', next) :: rest)).
  unfold dkeys in *. simpl. simpl in IH. now rewrite IH.
Qed.

Lemma set_end_dates_valid (calendar : dict Z CalendarEntry) :
  (forall d e, In (d, e) calendar -> ce_start_date e = d /\ ce_end_date e = None) ->
  StronglySorted Z.lt (dkeys calendar) ->
  valid_calendar (dvalues (set_end_dates calendar)).
Proof.
  induction calendar as [|[d this] rest IH]; intros Hfields Hs; [exact I|].
  destruct rest as [|[d' next] rest].
  - simpl. apply (Hfields d this). left. reflexivity.
  - change (set_end_dates ((d, this) :: (d', next) :: rest))
      with ((d, mkEntry (ce_start_date this) (ce_plan this) (ce_season this)
                        (ce_tariffs this) (Some (ce_start_date next)))
              :: set_end_dates ((d', next) :: rest)).
    assert (IH' : valid_calendar (dvalues (set_end_dates ((d', next) :: rest)))).
    { apply IH.
      - intros d0 e0 Hin. apply Hfields. right. exact Hin.
      - inversion Hs; assumption. }
    assert (Hhead : exists e' tl,
               dvalues (set_end_dates ((d', next) :: rest)) = e' :: tl /\
               ce_start_date e' = ce_start_date next).
    { destruct rest as [|[d'' nn] rest]; simpl; eauto. }
    destruct Hhead as (e' & tl & Etl & Estart).
    unfold dvalues in *. cbn [map snd valid_calendar]. rewrite Etl in *.
    cbn [ce_end_date ce_start_date]. rewrite Estart.
    split; [reflexivity|]. split; [|exact IH'].
    destruct (Hfields d this ltac:(left; reflexivity)) as [-> _].
    destruct (Hfields d' next ltac:(right; left; reflexivity)) as [-> _].
    inversion Hs as [|? ? _ Hall]; subst. inversion Hall; subst. lia.
Qed.

Lemma dvalues_combine {K V : Type} (keys : list K) (vals : list V) :
  List.length vals = List.length keys -> dvalues (combine keys vals) = vals.
Proof.
  unfold dvalues. revert vals. induction keys as [|k keys IH]; intros [|v vals] Hlen;
    simpl in *; try discriminate; [reflexivity|]. f_equal. apply IH. lia.
Qed.

Lemma dkeys_combine {K V : Type} (keys : list K) (vals : list V) :
  List.length vals = List.length keys -> dkeys (combine keys vals) = keys.
Proof.
  unfold dkeys. revert vals. induction keys as [|k keys IH]; intros [|v vals] Hlen;
    simpl in *; try discriminate; [reflexivity|]. f_equal. apply IH. lia.
Qed.

Section CalendarLoaded.
Context `{External}.

(** What a successful [_load_calendar] leaves behind. *)
Lemma load_calendar_ok calendar_json eng eng' :
  _load_calendar calendar_json eng = (Ok tt, eng') ->
  exists parsed entries,
    parse_dates calendar_json [] = Ok parsed /\
    _plans eng' = _plans eng /\
    _calendar eng' = set_end_dates (combine (dkeys (sort_by_date parsed)) entries) /\
    List.length entries = List.length (sort_by_date parsed) /\
    StronglySorted Z.lt (dkeys (sort_by_date parsed)) /\
    forall (i : nat) d j e,
      nth_error (sort_by_date parsed) i = Some (d, j) -> nth_error entries i = Some e ->
      make_entry (_plans eng) (entry_before None entries i) d j = Ok e.
Proof.
  unfold _load_calendar. intros Hl.
  destruct (parse_dates calendar_json []) as [parsed|err] eqn:Ep; [|discriminate].
  cbn [with_calendar _plans] in Hl.
  destruct (load_entries (_plans eng) (sort_by_date parsed) None []) as [[[]|err] built] eqn:El;
    [|discriminate].
  injection Hl as <-.
  assert (Hnd : List.NoDup (dkeys (sort_by_date parsed))).
  { eapply Permutation_NoDup.
    - symmetry. apply Permutation_map, sort_by_date_perm.
    - eapply parse_dates_NoDup; [exact Ep | constructor]. }
  destruct (load_entries_ok _ _ _ _ _ El Hnd ltac:(reflexivity)) as (entries & Hb & Hlen & Hnth).
  exists parsed, entries. simpl in Hb. subst built.
  repeat split; auto.
  apply sorted_NoDup_strict; [apply sort_by_date_sorted | exact Hnd].
Qed.

(** A successfully loaded calendar is a valid calendar, and each of its
    entries names a plan and a season of the plan catalog. *)
Lemma load_calendar_valid calendar_json eng eng' :
  _load_calendar calendar_json eng = (Ok tt, eng') ->
  valid_calendar (dvalues (_calendar eng')) /\
  forall e, In e (dvalues (_calendar eng')) ->
    exists plan_instance,
      dget (ce_plan e) (_plans eng') = Some plan_instance /\
      season_defined plan_instance (ce_season e) = true.
Proof.
  intros Hl.
  destruct (load_calendar_ok _ _ _ Hl) as (parsed & entries & Hp & Hplans & Hcal & Hlen & Hs & Hnth).
  assert (Hitem : forall (i : nat) d e,
             nth_error (combine (dkeys (sort_by_date parsed)) entries) i = Some (d, e) ->
             ce_start_date e = d /\ ce_end_date e = None /\
             exists plan_instance,
               dget (ce_plan e) (_plans eng) = Some plan_instance /\
               season_defined plan_instance (ce_season e) = true).
  { intros i d e Hi.
    assert (Hk : nth_error (dkeys (sort_by_date parsed)) i = Some d /\
                 nth_error entries i = Some e).
    { clear - Hi. revert i entries Hi. unfold dkeys.
      induction (sort_by_date parsed) as [|x l IH]; intros i entries Hi.
      - destruct i; discriminate.
      - destruct entries as [|e0 entries]; [destruct i; discriminate|].
        destruct i as [|i]; simpl in *.
        + injection Hi as <- <-. auto.
        + apply IH. exact Hi. }
    destruct Hk as [Hk He]. unfold dkeys in Hk. rewrite nth_error_map in Hk.
    destruct (nth_error (sort_by_date parsed) i) as [[d' j]|] eqn:Ei; [|discriminate].
    simpl in Hk. injection Hk as ->.
    exact (make_entry_start _ _ _ _ _ (Hnth i d j e Ei He)). }
  rewrite Hcal, Hplans. split.
  - apply set_end_dates_valid.
    + intros d e Hin. apply In_nth_error in Hin. destruct Hin as [i Hi].
      destruct (Hitem i d e Hi) as (? & ? & _). auto.
    + rewrite dkeys_combine; [exact Hs | unfold dkeys; now rewrite length_map].
  - intros e' Hin. apply In_nth_error in Hin. destruct Hin as [i Hi].
    destruct (set_end_dates_fields _ _ _ Hi) as (e & He & _ & Hpl & Hse & _).
    unfold dvalues in He. rewrite nth_error_map in He.
    destruct (nth_error (combine (dkeys (sort_by_date parsed)) entries) i) as [[d e0]|] eqn:Ei;
      [|discriminate].
    simpl in He. injection He as ->.
    destruct (Hitem i d e Ei) as (_ & _ & Hplan). now rewrite Hpl, Hse.
Qed.
End CalendarLoaded.

(** ** Building the seasons of a plan *)

Lemma inherit_schedules_get (prev season : dict string TariffSchedule) schedule_name :
  dget schedule_name (inherit_schedules prev season)
  = match dget schedule_name season with
    | Some sch => Some sch
    | None => dget schedule_name prev
    end.
Proof.
  revert season. induction prev as [|[n sch] rest IH]; intros season; simpl.
  - destruct (dget schedule_name season); reflexivity.
  - rewrite IH. destruct (decide (schedule_name = n)) as [->|Hne].
    + unfold dmem. destruct (dget n season) eqn:E; [now rewrite E|].
      now rewrite dget_dset_eq.
    + destruct (dmem n season); [reflexivity|].
      rewrite dget_dset_ne by congruence. reflexivity.
Qed.

Lemma dget_combine_nth {K V : Type} `{EqDecision K} (keys : list K) (vals : list V)
    (i : nat) (k : K) :
  List.NoDup keys -> List.length vals = List.length keys ->
  nth_error keys i = Some k ->
  dget k (combine keys vals) = nth_error vals i.
Proof.
  revert vals i. induction keys as [|k0 keys IH]; intros [|v vals] i Hnd Hlen Hi;
    simpl in *; try discriminate; try (destruct i; discriminate).
  inversion Hnd as [|? ? Hnin Hnd']; subst.
  destruct i as [|i]; simpl in *.
  - injection Hi as ->. destruct (decide (k = k)); congruence.
  - destruct (decide (k = k0)) as [->|Hne].
    + exfalso. apply Hnin. eapply nth_error_In; eauto.
    + apply IH; auto.
Qed.

Section SeasonLoading.
Context `{External}.

Lemma schedule_kwarg_fields schedule_json kwarg :
  schedule_kwarg schedule_json = Ok kwarg ->
  sj_schedule schedule_json = Some (kw_name kwarg) /\
  (sj_days schedule_json = None -> kw_days kwarg = None) /\
  (sj_periods schedule_json = None -> kw_periods kwarg = None).
Proof.
  unfold schedule_kwarg. intros Hk. inv_ok Hk. apply Ok_inj in Hk. subst kwarg.
  apply lift_opt_ok in Ha. simpl. repeat split; auto.
  - intros ->. reflexivity.
  - intros E. rewrite E in Ha0. now apply Ok_inj in Ha0.
Qed.

(** The schedule stored under a name after the listed schedules of a season
    are processed. *)
Lemma season_from_json_get prev_season schedules season0 season schedule_name :
  season_from_json prev_season schedules season0 = Ok season ->
  match last_named schedule_name schedules with
  | Some schedule_json =>
      exists kwarg sch,
        schedule_kwarg schedule_json = Ok kwarg /\
        kw_name kwarg = schedule_name /\
        dget schedule_name season = Some sch /\
        match prev_season with
        | Some prev =>
            match dget schedule_name prev with
            | Some base => sch = replace_schedule base kwarg
            | None => new_schedule kwarg = Ok sch
            end
        | None => new_schedule kwarg = Ok sch
        end
  | None => dget schedule_name season = dget schedule_name season0
  end.
Proof.
  revert season0. induction schedules as [|schedule_json rest IH]; intros season0 Hs.
  - simpl in *. apply Ok_inj in Hs. now subst.
  - cbn [season_from_json] in Hs. inv_ok Hs. rename a into kwarg, a0 into sch.
    specialize (IH _ Hs). cbn [last_named].
    destruct (last_named schedule_name rest) as [later|]; [exact IH|].
    destruct (schedule_kwarg_fields _ _ Ha) as (Hname & _ & _).
    destruct (bool_decide_reflect (sj_schedule schedule_json = Some schedule_name)) as [E|E].
    + assert (Hkw : kw_name kwarg = schedule_name) by congruence.
      exists kwarg, sch. rewrite IH, Hkw, dget_dset_eq. repeat split; auto.
      rewrite Hkw in Ha0.
      destruct prev_season as [prev|]; [|exact Ha0].
      destruct (dget schedule_name prev); [|exact Ha0].
      now apply Ok_inj in Ha0.
    + rewrite IH. apply dget_dset_ne. congruence.
Qed.

(** Incremental construction of one season from the previous one. *)
Lemma build_season_inherits prev schedules season schedule_name base :
  build_season (Some prev) schedules = Ok season ->
  dget schedule_name prev = Some base ->
  match last_named schedule_name schedules with
  | Some schedule_json =>
      exists sch,
        dget schedule_name season = Some sch /\
        ts_name sch = schedule_name /\
        (sj_days schedule_json = None -> ts_days sch = ts_days base) /\
        (sj_periods schedule_json = None -> ts_periods sch = ts_periods base)
  | None => dget schedule_name season = Some base
  end.
Proof.
  unfold build_season. intros Hb Hbase. inv_ok Hb. apply Ok_inj in Hb. subst season.
  pose proof (season_from_json_get _ _ _ _ schedule_name Ha) as Hget.
  rewrite inherit_schedules_get.
  destruct (last_named schedule_name schedules) as [schedule_json|].
  - destruct Hget as (kwarg & sch & Hk & Hname & Hsch & Hrep).
    rewrite Hbase in Hrep. subst sch. rewrite Hsch.
    destruct (schedule_kwarg_fields _ _ Hk) as (_ & Hd & Hp).
    eexists. split; [reflexivity|]. unfold replace_schedule. simpl.
    repeat split; auto.
    + intros E. now rewrite (Hd E).
    + intros E. now rewrite (Hp E).
  - rewrite Hget. simpl. exact Hbase.
Qed.

(** The seasons [seasons_from_json] builds, position by position. *)
Lemma seasons_from_json_ok items prev_season seasons0 seasons :
  seasons_from_json items prev_season seasons0 = Ok seasons ->
  List.NoDup (dkeys items) ->
  (forall k, In k (dkeys items) -> dmem k seasons0 = false) ->
  exists built,
    seasons = seasons0 ++ combine (dkeys items) built /\
    List.length built = List.length items /\
    forall (i : nat) season_name schedules season,
      nth_error items i = Some (season_name, schedules) ->
      nth_error built i = Some season ->
      build_season (match i with O => prev_season | S k => nth_error built k end) schedules
      = Ok season.
Proof.
  revert prev_season seasons0.
  induction items as [|[n0 l0] items IH]; intros prev_season seasons0 Hs Hnd Hfresh.
  - simpl in Hs. apply Ok_inj in Hs. subst. exists []. rewrite app_nil_r.
    repeat split; auto. intros [|i]; discriminate.
  - cbn [seasons_from_json] in Hs. inv_ok Hs. rename a into season0.
    inversion Hnd as [|? ? Hnin Hnd']; subst.
    assert (Hn0 : dmem n0 seasons0 = false) by (apply Hfresh; left; reflexivity).
    rewrite (dset_absent _ _ _ Hn0) in Hs.
    destruct (IH (Some season0) (seasons0 ++ [(n0, season0)]) Hs Hnd') as (built & Hb & Hlen & Hnth).
    { intros k Hk. apply dmem_app_false. split; [apply Hfresh; right; exact Hk|].
      unfold dmem. simpl. destruct (decide (k = n0)) as [->|]; [contradiction | reflexivity]. }
    exists (season0 :: built). split; [|split].
    + rewrite Hb, <- app_assoc. reflexivity.
    + simpl. now rewrite Hlen.
    + intros [|i] season_name schedules season Hi Hse; simpl in Hi, Hse.
      * injection Hi as <- <-. injection Hse as <-. exact Ha.
      * specialize (Hnth i season_name schedules season Hi Hse). destruct i; exact Hnth.
Qed.
End SeasonLoading.

(** ** C4: incremental construction of calendar entries and seasons *)

(** C4: in a successfully loaded calendar, an entry after the first takes
    each of the fields plan, season and tariffs that its document leaves out
    from the chronologically preceding resolved entry; in a plan's seasons, a
    schedule named in a season takes the days or periods its document leaves
    out from the previous season's schedule of the same name, and a schedule
    the season does not name is the previous season's schedule. *)
Theorem incremental_diff_construction `{External} :
  (forall calendar_json eng eng',
      _load_calendar calendar_json eng = (Ok tt, eng') ->
      exists parsed,
        parse_dates calendar_json [] = Ok parsed /\
        dkeys (_calendar eng') = dkeys (sort_by_date parsed) /\
        forall (i : nat) d1 j1 d2 j2,
          nth_error (sort_by_date parsed) i = Some (d1, j1) ->
          nth_error (sort_by_date parsed) (S i) = Some (d2, j2) ->
          d1 < d2 /\
          exists e1 e2,
            nth_error (_calendar eng') i = Some (d1, e1) /\
            nth_error (_calendar eng') (S i) = Some (d2, e2) /\
            (cj_plan j2 = None -> ce_plan e2 = ce_plan e1) /\
            (cj_season j2 = None -> ce_season e2 = ce_season e1) /\
            (cj_tariffs j2 = None -> ce_tariffs e2 = ce_tariffs e1) /\
            (forall plan, cj_plan j2 = Some plan -> ce_plan e2 = plan) /\
            (forall season, cj_season j2 = Some season -> ce_season e2 = season)) /\
  (forall plan_json items seasons,
      pj_seasons plan_json = Some items ->
      List.NoDup (dkeys items) ->
      _init_seasons plan_json = Ok seasons ->
      forall (i : nat) name1 schedules1 name2 schedules2,
        nth_error items i = Some (name1, schedules1) ->
        nth_error items (S i) = Some (name2, schedules2) ->
        exists season1 season2,
          dget name1 seasons = Some season1 /\
          dget name2 seasons = Some season2 /\
          forall schedule_name base,
            dget schedule_name season1 = Some base ->
            match last_named schedule_name schedules2 with
            | Some schedule_json =>
                exists sch,
                  dget schedule_name season2 = Some sch /\
                  ts_name sch = schedule_name /\
                  (sj_days schedule_json = None -> ts_days sch = ts_days base) /\
                  (sj_periods schedule_json = None -> ts_periods sch = ts_periods base)
            | None => dget schedule_name season2 = Some base
            end).
Proof.
  split.
  - intros calendar_json eng eng' Hl.
    destruct (load_calendar_ok _ _ _ Hl)
      as (parsed & entries & Hp & Hplans & Hcal & Hlen & Hs & Hnth).
    exists parsed. split; [exact Hp|].
    assert (Hklen : List.length entries = List.length (dkeys (sort_by_date parsed)))
      by (unfold dkeys; now rewrite length_map).
    split; [now rewrite Hcal, set_end_dates_keys, dkeys_combine|].
    intros i d1 j1 d2 j2 H1 H2.
    assert (Hlt : d1 < d2).
    { clear - Hs H1 H2. revert i Hs H1 H2. unfold dkeys.
      induction (sort_by_date parsed) as [|x l IH]; intros i Hs H1 H2;
        [destruct i; discriminate|].
      inversion Hs as [|? ? Hs' Hall]; subst.
      destruct i as [|i]; simpl in H1, H2.
      - injection H1 as ->. destruct l as [|y l]; [discriminate|].
        injection H2 as ->. inversion Hall; subst. assumption.
      - eapply IH; eauto. }
    split; [exact Hlt|].
    assert (Hex : forall (k : nat) d j,
               nth_error (sort_by_date parsed) k = Some (d, j) ->
               exists e e',
                 nth_error entries k = Some e /\
                 nth_error (_calendar eng') k = Some (d, e') /\
                 ce_plan e' = ce_plan e /\ ce_season e' = ce_season e /\
                 ce_tariffs e' = ce_tariffs e).
    { intros k d j Hk.
      assert (Hkl : (k < List.length entries)%nat)
        by (rewrite Hlen; apply nth_error_Some; congruence).
      destruct (nth_error entries k) as [e|] eqn:Ee;
        [|apply nth_error_None in Ee; lia].
      assert (Hkey : nth_error (dkeys (_calendar eng')) k = Some d).
      { rewrite Hcal, set_end_dates_keys, dkeys_combine by exact Hklen.
        unfold dkeys. rewrite nth_error_map, Hk. reflexivity. }
      unfold dkeys in Hkey. rewrite nth_error_map in Hkey.
      destruct (nth_error (_calendar eng') k) as [[d' e']|] eqn:Ec; [|discriminate].
      simpl in Hkey. injection Hkey as ->.
      assert (Hv : nth_error (dvalues (_calendar eng')) k = Some e')
        by (unfold dvalues; rewrite nth_error_map, Ec; reflexivity).
      rewrite Hcal in Hv.
      destruct (set_end_dates_fields _ _ _ Hv) as (e0 & He0 & _ & Hpl & Hse & Hta).
      rewrite dvalues_combine in He0 by exact Hklen.
      assert (e0 = e) by congruence. subst e0.
      exists e, e'. auto. }
    destruct (Hex i d1 j1 H1) as (e1 & e1' & He1 & Hc1 & Hp1 & Hs1 & Ht1).
    destruct (Hex (S i) d2 j2 H2) as (e2 & e2' & He2 & Hc2 & Hp2 & Hs2 & Ht2).
    pose proof (Hnth (S i) d2 j2 e2 H2 He2) as Hmake. simpl in Hmake.
    rewrite He1 in Hmake.
    destruct (make_entry_inherits _ _ _ _ _ Hmake) as (_ & Hpl & Hse & Hta).
    exists e1', e2'. split; [exact Hc1|]. split; [exact Hc2|].
    rewrite Hp1, Hp2, Hs1, Hs2, Ht1, Ht2, Hpl, Hse.
    repeat split.
    + intros ->. reflexivity.
    + intros ->. reflexivity.
    + exact Hta.
    + intros plan ->. reflexivity.
    + intros season ->. reflexivity.
  - intros plan_json items seasons Hitems Hnd Hinit i name1 schedules1 name2 schedules2 H1 H2.
    unfold _init_seasons in Hinit. rewrite Hitems in Hinit. simpl in Hinit.
    destruct (seasons_from_json_ok _ _ _ _ Hinit Hnd ltac:(reflexivity))
      as (built & Hb & Hlen & Hnth).
    simpl in Hb. subst seasons.
    assert (Hk : forall (k : nat) n l, nth_error items k = Some (n, l) ->
               exists season, nth_error built k = Some season /\
                              dget n (combine (dkeys items) built) = Some season).
    { intros k n l Hkk.
      assert (Hkl : (k < List.length built)%nat)
        by (rewrite Hlen; apply nth_error_Some; congruence).
      destruct (nth_error built k) as [season|] eqn:Eb;
        [|apply nth_error_None in Eb; lia].
      exists season. split; [reflexivity|]. rewrite <- Eb.
      apply dget_combine_nth; auto.
      - unfold dkeys. now rewrite length_map.
      - unfold dkeys. rewrite nth_error_map, Hkk. reflexivity. }
    destruct (Hk i name1 schedules1 H1) as (season1 & Hb1 & Hg1).
    destruct (Hk (S i) name2 schedules2 H2) as (season2 & Hb2 & Hg2).
    exists season1, season2. split; [exact Hg1|]. split; [exact Hg2|].
    intros schedule_name base Hbase.
    pose proof (Hnth (S i) name2 schedules2 season2 H2 Hb2) as Hbuild.
    simpl in Hbuild. rewrite Hb1 in Hbuild.
    exact (build_season_inherits _ _ _ _ _ Hbuild Hbase).
Qed.

Lemma incremental_diff_construction_witness :
  (@_load_calendar example_env example_calendar loaded_engine
   = (Ok tt, snd (@_load_calendar example_env example_calendar loaded_engine)) /\
   map (fun '(_, e) => (ce_plan e, ce_season e))
       (_calendar (snd (@_load_calendar example_env example_calendar loaded_engine)))
   = [("P", "Summer"); ("P", "Winter")] /\
   exists parsed,
     @parse_dates example_env example_calendar [] = Ok parsed /\
     dkeys (_calendar (snd (@_load_calendar example_env example_calendar loaded_engine)))
     = dkeys (@sort_by_date parsed) /\
     forall (i : nat) d1 j1 d2 j2,
       nth_error (sort_by_date parsed) i = Some (d1, j1) ->
       nth_error (sort_by_date parsed) (S i) = Some (d2, j2) ->
       d1 < d2 /\
       exists e1 e2,
         nth_error (_calendar (snd (@_load_calendar example_env example_calendar loaded_engine))) i
         = Some (d1, e1) /\
         nth_error (_calendar (snd (@_load_calendar example_env example_calendar loaded_engine)))
                   (S i)
         = Some (d2, e2) /\
         (cj_plan j2 = None -> ce_plan e2 = ce_plan e1) /\
         (cj_season j2 = None -> ce_season e2 = ce_season e1) /\
         (cj_tariffs j2 = None -> ce_tariffs e2 = ce_tariffs e1) /\
         (forall plan, cj_plan j2 = Some plan -> ce_plan e2 = plan) /\
         (forall season, cj_season j2 = Some season -> ce_season e2 = season)) /\
  (@_init_seasons example_env example_plan = Ok example_seasons /\
   option_map (map (fun '(_, sch) => ts_periods sch)) (dget "Summer" example_seasons)
   = Some [[mkPeriod "flat" 0 0]] /\
   option_map (map (fun '(_, sch) => ts_periods sch)) (dget "Winter" example_seasons)
   = Some [[mkPeriod "flat" 0 0]] /\
   exists season1 season2,
     dget "Summer" example_seasons = Some season1 /\
     dget "Winter" example_seasons = Some season2 /\
     forall schedule_name base,
       dget schedule_name season1 = Some base ->
       match last_named schedule_name
               [mkScheduleJson (Some "all") (Some [0; 1; 2; 3; 4]) None] with
       | Some schedule_json =>
           exists sch,
             dget schedule_name season2 = Some sch /\
             ts_name sch = schedule_name /\
             (sj_days schedule_json = None -> ts_days sch = ts_days base) /\
             (sj_periods schedule_json = None -> ts_periods sch = ts_periods base)
       | None => dget schedule_name season2 = Some base
       end).
Proof.
  split.
  - split; [vm_compute; reflexivity|].
    split; [vm_compute; reflexivity|].
    apply (proj1 (@incremental_diff_construction example_env) example_calendar loaded_engine).
    vm_compute; reflexivity.
  - split; [vm_compute; reflexivity|].
    split; [vm_compute; reflexivity|].
    split; [vm_compute; reflexivity|].
    refine (proj2 (@incremental_diff_construction example_env) example_plan _ example_seasons
              eq_refl _ _ 0%nat "Summer" _ "Winter" _ eq_refl eq_refl).
    + repeat constructor; simpl; intuition discriminate.
    + vm_compute; reflexivity.
Defined.

(** ** C3: what a failed reload leaves behind *)

Lemma keeps_try {A : Type} (r : result A) : keeps_catalog (cls_try r).
Proof. intros eng r' eng' E. injection E as _ <-. auto. Qed.

Lemma keeps_update (f : UsageEngine -> UsageEngine) :
  (forall eng, _plans (f eng) = _plans eng /\ _calendar (f eng) = _calendar eng) ->
  keeps_catalog (cls_update f).
Proof. intros Hf eng r eng' E. injection E as _ <-. apply Hf. Qed.

Lemma keeps_bind {A B : Type} (m : cls A) (f : A -> cls B) :
  keeps_catalog m -> (forall a, keeps_catalog (f a)) -> keeps_catalog (cls_bind m f).
Proof.
  intros Hm Hf eng r eng' E. unfold cls_bind in E.
  destruct (m eng) as [[a|e] eng1] eqn:Em.
  - destruct (Hm _ _ _ Em) as [Hp Hc]. destruct (Hf a _ _ _ E) as [Hp' Hc'].
    split; congruence.
  - injection E as _ <-. eapply Hm; eauto.
Qed.

Lemma load_renames_keeps renames : keeps_catalog (load_renames renames).
Proof.
  induction renames as [|[name override] rest IH]; simpl.
  - apply keeps_try.
  - apply keeps_bind; [apply keeps_try|]. intros pd_name.
    apply keeps_bind; [|intros _; exact IH].
    apply keeps_update. intros eng. split; reflexivity.
Qed.

Ltac keeps_step :=
  first
    [ apply keeps_try
    | apply keeps_update; intros ?; split; reflexivity
    | apply load_renames_keeps
    | apply keeps_bind; [|intros ?] ].

Lemma init_settings_keeps `{External} config : keeps_catalog (_init_settings config).
Proof.
  unfold _init_settings.
  do 9 (apply keeps_bind; [keeps_step | intros ?]).
  apply keeps_bind; [destruct (set_rename _); keeps_step | intros ?].
  apply keeps_bind; [keeps_step | intros ?].
  apply keeps_bind;
    [destruct (bool_decide _); repeat keeps_step | intros ?].
  apply keeps_bind; [keeps_step | intros ?].
  apply keeps_bind;
    [destruct (set_supplyPriority _);
     [destruct (_ || _)%bool|]; keeps_step | intros ?].
  keeps_step.
Qed.

Lemma load_plans_from `{External} plans_json eng r eng' :
  load_plans plans_json eng = (r, eng') ->
  _calendar eng' = _calendar eng /\
  forall name plan,
    dget name (_plans eng') = Some plan ->
    dget name (_plans eng) = Some plan \/
    exists data, In data plans_json /\ new_plan data = Ok plan.
Proof.
  revert eng. induction plans_json as [|data rest IH]; intros eng Hl.
  - simpl in Hl. injection Hl as _ <-. auto.
  - simpl in Hl. unfold cls_bind, cls_try, cls_update in Hl.
    destruct (new_plan data) as [plan0|e] eqn:En.
    + destruct (IH _ Hl) as [Hc Hp]. split; [exact Hc|].
      intros name plan Hget. destruct (Hp name plan Hget) as [Hold|(d & Hin & Hd)].
      * simpl in Hold. destruct (decide (up_name plan0 = name)) as [<-|Hne].
        -- rewrite dget_dset_eq in Hold. injection Hold as <-.
           right. exists data. split; [left; reflexivity | exact En].
        -- rewrite dget_dset_ne in Hold by exact Hne. left. exact Hold.
      * right. exists d. split; [right; exact Hin | exact Hd].
    + injection Hl as _ <-. auto.
Qed.

Lemma load_calendar_plans `{External} calendar_json eng r eng' :
  _load_calendar calendar_json eng = (r, eng') -> _plans eng' = _plans eng.
Proof.
  unfold _load_calendar. intros Hl.
  destruct (parse_dates calendar_json []); [|injection Hl as _ <-; reflexivity].
  destruct (load_entries _ _ _ _) as [[[]|e] built]; injection Hl as _ <-; reflexivity.
Qed.

(** C3, as stated, fails: a calendar entry naming an undefined plan makes
    [reload_config] raise after the plans were reset and rebuilt and the
    calendar was emptied, so neither dictionary keeps its last-good value. *)
Lemma reload_config_not_atomic :
  fst (@reload_config example_env (Ok broken_config) loaded_engine) = Raise ValueError /\
  dkeys (_plans loaded_engine) = ["P"] /\
  dkeys (_plans (snd (@reload_config example_env (Ok broken_config) loaded_engine))) = ["P2"] /\
  List.length (_calendar loaded_engine) = 2%nat /\
  _calendar (snd (@reload_config example_env (Ok broken_config) loaded_engine)) = [].
Proof. repeat split; vm_compute; reflexivity. Qed.

(** C3 (amended): if [reload_config] raises before the plans dictionary is
    reset (the file cannot be read, [_init_settings] fails, or the plans
    section is missing), the committed plans and calendar dictionaries are left
    unchanged; once the reset is reached the plans dictionary holds only plans
    built from the new document, whatever the outcome; a fully successful load
    leaves a valid calendar whose entries all resolve in the new plans
    dictionary. *)
Theorem reload_config_atomicity `{External} config_file eng r eng' :
  reload_config config_file eng = (r, eng') ->
  ((exists e, config_file = Raise e) \/
   (exists config, config_file = Ok config /\
      (is_ok (fst (_init_settings config eng)) = false \/ cfg_plans config = None)) ->
   is_ok r = false /\ _plans eng' = _plans eng /\ _calendar eng' = _calendar eng) /\
  (forall config plans_json,
      config_file = Ok config ->
      is_ok (fst (_init_settings config eng)) = true ->
      cfg_plans config = Some plans_json ->
      forall name plan,
        dget name (_plans eng') = Some plan ->
        exists data, In data plans_json /\ new_plan data = Ok plan) /\
  (r = Ok tt ->
   valid_calendar (dvalues (_calendar eng')) /\
   forall e, In e (dvalues (_calendar eng')) ->
     exists plan_instance,
       dget (ce_plan e) (_plans eng') = Some plan_instance /\
       season_defined plan_instance (ce_season e) = true).
Proof.
  intros Hr. unfold reload_config in Hr.
  destruct config_file as [config|e0].
  2:{ injection Hr as <- <-. split; [|split].
      - intros _. auto.
      - intros ? ? E; discriminate E.
      - discriminate. }
  unfold cls_bind at 1 in Hr. cbn [cls_try] in Hr.
  unfold cls_bind at 1 in Hr.
  destruct (_init_settings config eng) as [[[]|e1] eng1] eqn:Es.
  2:{ injection Hr as <- <-.
      destruct (init_settings_keeps config _ _ _ Es) as [Hp Hc].
      split; [|split].
      - intros _. auto.
      - intros c pj E Hok. injection E as <-. rewrite Es in Hok. discriminate Hok.
      - discriminate. }
  destruct (init_settings_keeps config _ _ _ Es) as [Hp1 Hc1].
  unfold cls_bind at 1 in Hr. cbn [cls_try] in Hr.
  destruct (cfg_plans config) as [plans_json|] eqn:Ep; cbn [lift_opt] in Hr.
  2:{ injection Hr as <- <-. split; [|split].
      - intros _. auto.
      - intros c pj E _ Epj. injection E as <-. congruence.
      - discriminate. }
  unfold cls_bind at 1 in Hr. cbn [cls_update] in Hr.
  unfold cls_bind at 1 in Hr.
  destruct (load_plans plans_json (with_plans eng1 [])) as [[[]|e2] eng2] eqn:El.
  2:{ injection Hr as <- <-. destruct (load_plans_from _ _ _ _ El) as [_ Hfrom].
      split; [|split].
      - intros [[e E]|(c & E & HE)]; [discriminate E|]. injection E as <-.
        destruct HE as [E'|E']; [rewrite Es in E'; discriminate E' | congruence].
      - intros c pj E _ Epj name plan Hget. injection E as <-.
        assert (pj = plans_json) by congruence. subst pj.
        destruct (Hfrom name plan Hget) as [Hold|Hnew]; [discriminate Hold | exact Hnew].
      - discriminate. }
  destruct (load_plans_from _ _ _ _ El) as [_ Hfrom].
  unfold cls_bind at 1 in Hr. cbn [cls_try] in Hr.
  destruct (cfg_calendar config) as [calendar_json|] eqn:Ec; cbn [lift_opt] in Hr.
  2:{ injection Hr as <- <-. split; [|split].
      - intros [[e E]|(c & E & HE)]; [discriminate E|]. injection E as <-.
        destruct HE as [E'|E']; [rewrite Es in E'; discriminate E' | congruence].
      - intros c pj E _ Epj name plan Hget. injection E as <-.
        assert (pj = plans_json) by congruence. subst pj.
        destruct (Hfrom name plan Hget) as [Hold|Hnew]; [discriminate Hold | exact Hnew].
      - discriminate. }
  pose proof (load_calendar_plans _ _ _ _ Hr) as Hplans.
  split; [|split].
  - intros [[e E]|(c & E & HE)]; [discriminate E|]. injection E as <-.
    destruct HE as [E'|E']; [rewrite Es in E'; discriminate E' | congruence].
  - intros c pj E _ Epj name plan Hget. injection E as <-.
    assert (pj = plans_json) by congruence. subst pj.
    rewrite Hplans in Hget.
    destruct (Hfrom name plan Hget) as [Hold|Hnew]; [discriminate Hold | exact Hnew].
  - intros ->. exact (load_calendar_valid _ _ _ Hr).
Qed.

Lemma reload_config_atomicity_witness :
  is_ok (fst (@reload_config example_env
                (Ok (mkConfigJson (Some example_settings) None (Some example_calendar)))
                loaded_engine)) = false /\
  _plans (snd (@reload_config example_env
                 (Ok (mkConfigJson (Some example_settings) None (Some example_calendar)))
                 loaded_engine)) = _plans loaded_engine /\
  _calendar (snd (@reload_config example_env
                    (Ok (mkConfigJson (Some example_settings) None (Some example_calendar)))
                    loaded_engine)) = _calendar loaded_engine.
Proof.
  apply (proj1 (@reload_config_atomicity example_env
                  (Ok (mkConfigJson (Some example_settings) None (Some example_calendar)))
                  loaded_engine _ _ ltac:(apply surjective_pairing))).
  right. eexists. split; [reflexivity|]. right. reflexivity.
Defined.

(** Every successful reload leaves a calendar whose entries resolve in the
    plan catalog. *)
Lemma reload_config_resolves `{External} config_file eng eng' :
  reload_config config_file eng = (Ok tt, eng') -> calendar_resolves eng'.
Proof.
  intros Hr. unfold reload_config in Hr.
  destruct config_file as [config|e0]; [|discriminate].
  unfold cls_bind at 1 in Hr. cbn [cls_try] in Hr.
  unfold cls_bind at 1 in Hr.
  destruct (_init_settings config eng) as [[[]|e1] eng1]; [|discriminate].
  unfold cls_bind at 1 in Hr. cbn [cls_try] in Hr.
  destruct (cfg_plans config) as [plans_json|]; cbn [lift_opt] in Hr; [|discriminate].
  unfold cls_bind at 1 in Hr. cbn [cls_update] in Hr.
  unfold cls_bind at 1 in Hr.
  destruct (load_plans plans_json (with_plans eng1 [])) as [[[]|e2] eng2]; [|discriminate].
  unfold cls_bind at 1 in Hr. cbn [cls_try] in Hr.
  destruct (cfg_calendar config) as [calendar_json|]; cbn [lift_opt] in Hr; [|discriminate].
  exact (proj2 (load_calendar_valid _ _ _ Hr)).
Qed.

(** ** C10: rows outside every tariff mask *)

Lemma isin_In t idx : isin t idx = true <-> In t idx.
Proof.
  unfold isin. rewrite existsb_exists. split.
  - intros (x & Hin & E). apply Z.eqb_eq in E. now subst.
  - intros Hin. exists t. split; [exact Hin | apply Z.eqb_refl].
Qed.

Lemma isin_not_In t idx : ~ In t idx -> isin t idx = false.
Proof.
  intros Hn. destruct (isin t idx) eqn:E; [|reflexivity].
  apply isin_In in E. contradiction.
Qed.

Lemma nth_tl {A : Type} (l : list A) (i : nat) (d : A) :
  nth i (List.tl l) d = nth (S i) l d.
Proof. destruct l; [destruct i|]; reflexivity. Qed.

Lemma loc_merge_nth df_index idx old new (i : nat) t :
  nth_error df_index i = Some t ->
  nth i (loc_merge df_index idx old new) NaN
  = if isin t idx then nth i new NaN else nth i old NaN.
Proof.
  revert i old new. induction df_index as [|t0 rest IH]; intros i old new Hi.
  - destruct i; discriminate.
  - destruct i as [|i]; simpl in Hi.
    + injection Hi as ->. simpl. destruct (isin t idx); [destruct new | destruct old]; reflexivity.
    + cbn [loc_merge nth]. rewrite (IH i _ _ Hi), !nth_tl. reflexivity.
Qed.

Lemma nth_all_NaN (l : list Z) (i : nat) : nth i (map (fun _ => NaN) l) NaN = NaN.
Proof. revert i. induction l as [|x l IH]; intros [|i]; simpl; auto. Qed.

Lemma row_kept_refl (i : nat) df : row_kept i df df.
Proof. split; auto. Qed.

Lemma row_kept_trans (i : nat) df1 df2 df3 :
  row_kept i df1 df2 -> row_kept i df2 df3 -> row_kept i df1 df3.
Proof.
  intros [H1 H2] [H3 H4]. split; [congruence|]. intros c. now rewrite H4, H2.
Qed.

Lemma loc_assign_outside df idx c new (i : nat) t :
  nth_error (df_index df) i = Some t -> isin t idx = false ->
  row_kept i df (loc_assign df idx c new).
Proof.
  intros Hi Hout. split; [reflexivity|]. intros c'.
  unfold cell_of, loc_assign, set_col. cbn [df_data].
  destruct (decide (c = c')) as [<-|Hne].
  - rewrite dget_dset_eq, (loc_merge_nth _ _ _ _ _ _ Hi), Hout.
    destruct (dget c (df_data df)); [reflexivity | apply nth_all_NaN].
  - now rewrite dget_dset_ne.
Qed.

Lemma energy_report_columns_outside eng tariff tariff_idx columns req req' (i : nat) t :
  energy_report_columns eng tariff tariff_idx columns req = Ok req' ->
  nth_error (df_index (_frame req)) i = Some t -> isin t tariff_idx = false ->
  row_kept i (_frame req) (_frame req').
Proof.
  revert req. induction columns as [|column rest IH]; intros req Hrun Hi Hout.
  - simpl in Hrun. apply Ok_inj in Hrun. subst. apply row_kept_refl.
  - cbn [energy_report_columns] in Hrun.
    destruct (bool_decide (column ∈ [TIME; TARIFF; SUPPLY_CHARGE])); [now apply IH|].
    inv_ok Hrun.
    eapply row_kept_trans; [|apply (IH _ Hrun); [exact Hi | exact Hout]].
    apply (loc_assign_outside _ _ _ _ _ _ Hi Hout).
Qed.

Lemma add_energy_reports_outside eng tariff tariff_idx usage_plan req req' (i : nat) t :
  _add_energy_reports eng tariff tariff_idx usage_plan req = Ok req' ->
  nth_error (df_index (_frame req)) i = Some t -> isin t tariff_idx = false ->
  row_kept i (_frame req) (_frame req').
Proof.
  unfold _add_energy_reports. intros Hrun Hi Hout.
  eapply row_kept_trans;
    [|eapply energy_report_columns_outside; [exact Hrun | exact Hi | exact Hout]].
  apply (loc_assign_outside _ _ _ _ _ _ Hi Hout).
Qed.

Lemma simple_agent_usage_outside tariff tariff_idx rates cost_unit col_override req req'
    (i : nat) t :
  simple_agent_usage tariff tariff_idx rates cost_unit col_override req = Ok req' ->
  nth_error (df_index (_frame req)) i = Some t -> isin t tariff_idx = false ->
  row_kept i (_frame req) (_frame req').
Proof.
  revert req. induction rates as [|[energy_column rate] rest IH]; intros req Hrun Hi Hout.
  - simpl in Hrun. apply Ok_inj in Hrun. subst. apply row_kept_refl.
  - cbn [simple_agent_usage] in Hrun.
    destruct (bool_decide (energy_column = SUPPLY_CHARGE)).
    + eapply row_kept_trans; [|apply (IH _ Hrun); [exact Hi | exact Hout]].
      apply (loc_assign_outside _ _ _ _ _ _ Hi Hout).
    + destruct (negb (dmem (value energy_column) (df_data (_frame req)))); [discriminate|].
      inv_ok Hrun.
      eapply row_kept_trans; [|apply (IH _ Hrun); [exact Hi | exact Hout]].
      apply (loc_assign_outside _ _ _ _ _ _ Hi Hout).
Qed.

Lemma tariff_index_mask schedule period df_index season_start season_end t :
  In t (tariff_index schedule period
          (day_index schedule (season_index df_index season_start season_end)))
  <-> In t df_index /\ in_period_mask schedule period season_start season_end t = true.
Proof.
  unfold tariff_index, day_index, season_index, in_period_mask.
  destruct (Nat.eqb (List.length (ts_periods schedule)) 1); cbn [orb];
    rewrite ?List.filter_In, ?andb_true_iff, ?orb_true_iff; tauto.
Qed.

Section OutsideRows.
Variables (eng : UsageEngine) (i : nat) (t : Z).

Lemma apply_periods_outside entry usage_plan schedule day_idx periods req req' :
  apply_periods eng entry usage_plan schedule day_idx periods req = Ok req' ->
  nth_error (df_index (_frame req)) i = Some t ->
  (forall period, In period periods -> ~ In t (tariff_index schedule period day_idx)) ->
  row_kept i (_frame req) (_frame req').
Proof.
  revert req. induction periods as [|period rest IH]; intros req Hrun Hi Hout.
  - simpl in Hrun. apply Ok_inj in Hrun. subst. apply row_kept_refl.
  - cbn [apply_periods] in Hrun.
    assert (Hrest : forall p, In p rest -> ~ In t (tariff_index schedule p day_idx))
      by (intros p Hp; apply Hout; right; exact Hp).
    destruct (tariff_index schedule period day_idx) as [|t0 idx] eqn:Eidx; [now apply IH|].
    assert (Hisin : isin t (t0 :: idx) = false).
    { apply isin_not_In. rewrite <- Eidx. apply Hout. left. reflexivity. }
    inv_ok Hrun. rename a into req1, a1 into req2.
    pose proof (add_energy_reports_outside _ _ _ _ _ _ _ _ Ha Hi Hisin) as K1.
    assert (Hi1 : nth_error (df_index (_frame req1)) i = Some t)
      by (destruct K1 as [-> _]; exact Hi).
    assert (K2 : row_kept i (_frame req1) (_frame req2)).
    { destruct (up_agent_class usage_plan).
      apply (simple_agent_usage_outside _ _ _ _ _ _ _ _ _ Ha1 Hi1 Hisin). }
    assert (Hi2 : nth_error (df_index (_frame req2)) i = Some t)
      by (destruct K2 as [-> _]; exact Hi1).
    eapply row_kept_trans; [exact K1|]. eapply row_kept_trans; [exact K2|].
    apply (IH _ Hrun Hi2 Hrest).
Qed.

Lemma apply_schedules_outside entry usage_plan season_idx schedules req req' :
  apply_schedules eng entry usage_plan season_idx schedules req = Ok req' ->
  nth_error (df_index (_frame req)) i = Some t ->
  (forall schedule period, In schedule schedules -> In period (ts_periods schedule) ->
     ~ In t (tariff_index schedule period (day_index schedule season_idx))) ->
  row_kept i (_frame req) (_frame req').
Proof.
  revert req. induction schedules as [|schedule rest IH]; intros req Hrun Hi Hout.
  - simpl in Hrun. apply Ok_inj in Hrun. subst. apply row_kept_refl.
  - cbn [apply_schedules] in Hrun.
    assert (Hrest : forall s p, In s rest -> In p (ts_periods s) ->
              ~ In t (tariff_index s p (day_index s season_idx)))
      by (intros s p Hs Hp; apply Hout; [right; exact Hs | exact Hp]).
    destruct (day_index schedule season_idx) as [|t0 idx] eqn:Eidx; [now apply IH|].
    inv_ok Hrun. rename a into req1.
    assert (K1 : row_kept i (_frame req) (_frame req1)).
    { apply (apply_periods_outside _ _ _ _ _ _ _ Ha Hi).
      intros period Hp. rewrite <- Eidx. apply Hout; [left; reflexivity | exact Hp]. }
    assert (Hi1 : nth_error (df_index (_frame req1)) i = Some t)
      by (destruct K1 as [-> _]; exact Hi).
    eapply row_kept_trans; [exact K1|]. apply (IH _ Hrun Hi1 Hrest).
Qed.

Lemma apply_calendar_outside entry season_start season_end req req' :
  _apply_calendar eng entry season_start season_end req = Ok req' ->
  nth_error (df_index (_frame req)) i = Some t ->
  (forall usage_plan schedules schedule period,
     dget (ce_plan entry) (_plans eng) = Some usage_plan ->
     dget (ce_season entry) (up_seasons usage_plan) = Some schedules ->
     In schedule (dvalues schedules) -> In period (ts_periods schedule) ->
     in_period_mask schedule period season_start season_end t = false) ->
  row_kept i (_frame req) (_frame req').
Proof.
  unfold _apply_calendar. intros Hrun Hi Hout.
  destruct (season_index (df_index (_frame req)) season_start season_end) as [|t0 idx] eqn:Eidx.
  - apply Ok_inj in Hrun. subst. apply row_kept_refl.
  - inv_ok Hrun. unfold dindex, season_schedules, dindex in Ha, Ha0.
    apply lift_opt_ok in Ha, Ha0.
    apply (apply_schedules_outside _ _ _ _ _ _ Hrun Hi).
    intros schedule period Hs Hp Hin. rewrite <- Eidx in Hin.
    apply tariff_index_mask in Hin. destruct Hin as [_ Hmask].
    rewrite (Hout _ _ _ _ Ha Ha0 Hs Hp) in Hmask. discriminate.
Qed.

Lemma apply_subranges_outside (l : list SubRange) req req' :
  apply_subranges (_apply_calendar eng) l req = Ok req' ->
  nth_error (df_index (_frame req)) i = Some t ->
  (forall entry season_start season_end usage_plan schedules schedule period,
     In (entry, season_start, season_end) l ->
     dget (ce_plan entry) (_plans eng) = Some usage_plan ->
     dget (ce_season entry) (up_seasons usage_plan) = Some schedules ->
     In schedule (dvalues schedules) -> In period (ts_periods schedule) ->
     in_period_mask schedule period season_start season_end t = false) ->
  row_kept i (_frame req) (_frame req').
Proof.
  revert req. induction l as [|[[entry a] b] l IH]; intros req Hrun Hi Hout.
  - simpl in Hrun. apply Ok_inj in Hrun. subst. apply row_kept_refl.
  - cbn [apply_subranges] in Hrun. inv_ok Hrun. rename a0 into req1.
    assert (K1 : row_kept i (_frame req) (_frame req1)).
    { apply (apply_calendar_outside _ _ _ _ _ Ha Hi).
      intros usage_plan schedules schedule period. apply Hout. left. reflexivity. }
    assert (Hi1 : nth_error (df_index (_frame req1)) i = Some t)
      by (destruct K1 as [-> _]; exact Hi).
    eapply row_kept_trans; [exact K1|]. apply (IH _ Hrun Hi1).
    intros e s1 s2 p ss sc pe Hin. apply Hout. right. exact Hin.
Qed.

(** Frame effect of the calendar walk on a row outside every tariff mask. *)
Lemma process_periodic_data_outside range_start range_stop req req' :
  _process_periodic_data eng range_start range_stop req = Ok req' ->
  nth_error (df_index (_frame req)) i = Some t ->
  ~ in_tariff_mask eng range_start range_stop t ->
  row_kept i (_frame req) (_frame req').
Proof.
  unfold _process_periodic_data. rewrite periodic_loop_subranges. intros Hrun Hi Hout.
  apply (apply_subranges_outside _ _ _ Hrun Hi).
  intros entry a b usage_plan schedules schedule period Hin Hp Hs Hsc Hpe.
  destruct (in_period_mask schedule period a b t) eqn:E; [|reflexivity].
  exfalso. apply Hout. exists entry, a, b, usage_plan, schedules, schedule, period.
  repeat split; assumption.
Qed.
End OutsideRows.

Lemma in_tariff_maskb_spec eng range_start range_stop t :
  in_tariff_maskb eng range_start range_stop t = true <->
  in_tariff_mask eng range_start range_stop t.
Proof.
  unfold in_tariff_maskb, in_tariff_mask. rewrite existsb_exists. split.
  - intros ([[entry a] b] & Hin & Hx).
    destruct (dget (ce_plan entry) (_plans eng)) as [usage_plan|] eqn:Ep; [|discriminate].
    destruct (dget (ce_season entry) (up_seasons usage_plan)) as [schedules|] eqn:Es;
      [|discriminate].
    apply existsb_exists in Hx. destruct Hx as (schedule & Hsc & Hx).
    apply existsb_exists in Hx. destruct Hx as (period & Hpe & Hm).
    exists entry, a, b, usage_plan, schedules, schedule, period. repeat split; assumption.
  - intros (entry & a & b & usage_plan & schedules & schedule & period
            & Hin & Hp & Hs & Hsc & Hpe & Hm).
    exists (entry, a, b). split; [exact Hin|]. rewrite Hp, Hs.
    apply existsb_exists. exists schedule. split; [exact Hsc|].
    apply existsb_exists. exists period. split; assumption.
Qed.

Section NoMaskedRows.
Variables (eng : UsageEngine) (req : Request).

Lemma apply_periods_none entry usage_plan schedule day_idx periods :
  (forall period, In period periods -> tariff_index schedule period day_idx = []) ->
  apply_periods eng entry usage_plan schedule day_idx periods req = Ok req.
Proof.
  induction periods as [|period rest IH]; intros Hnone; [reflexivity|].
  cbn [apply_periods]. rewrite (Hnone period) by (left; reflexivity).
  apply IH. intros p Hp. apply Hnone. right. exact Hp.
Qed.

Lemma apply_schedules_none entry usage_plan season_idx schedules :
  (forall schedule period, In schedule schedules -> In period (ts_periods schedule) ->
     tariff_index schedule period (day_index schedule season_idx) = []) ->
  apply_schedules eng entry usage_plan season_idx schedules req = Ok req.
Proof.
  induction schedules as [|schedule rest IH]; intros Hnone; [reflexivity|].
  cbn [apply_schedules].
  assert (Hrest : apply_schedules eng entry usage_plan season_idx rest req = Ok req).
  { apply IH. intros s p Hs Hp. apply Hnone; [right; exact Hs | exact Hp]. }
  destruct (day_index schedule season_idx) as [|t0 idx] eqn:Eidx; [exact Hrest|].
  rewrite apply_periods_none; [exact Hrest|].
  intros period Hp. rewrite <- Eidx. apply Hnone; [left; reflexivity | exact Hp].
Qed.

Lemma apply_calendar_none entry season_start season_end :
  (exists plan_instance,
      dget (ce_plan entry) (_plans eng) = Some plan_instance /\
      season_defined plan_instance (ce_season entry) = true) ->
  (forall t usage_plan schedules schedule period,
     In t (df_index (_frame req)) ->
     dget (ce_plan entry) (_plans eng) = Some usage_plan ->
     dget (ce_season entry) (up_seasons usage_plan) = Some schedules ->
     In schedule (dvalues schedules) -> In period (ts_periods schedule) ->
     in_period_mask schedule period season_start season_end t = false) ->
  _apply_calendar eng entry season_start season_end req = Ok req.
Proof.
  intros (plan_instance & Hplan & Hseason) Hnone. unfold _apply_calendar.
  destruct (season_index (df_index (_frame req)) season_start season_end) as [|t0 idx] eqn:Eidx;
    [reflexivity|].
  unfold dindex, season_schedules, dindex. rewrite Hplan. cbn [lift_opt rbind].
  unfold season_defined, dmem in Hseason.
  destruct (dget (ce_season entry) (up_seasons plan_instance)) as [schedules|] eqn:Es;
    [|discriminate].
  cbn [lift_opt rbind]. apply apply_schedules_none.
  intros schedule period Hsc Hpe. rewrite <- Eidx.
  destruct (tariff_index schedule period
              (day_index schedule (season_index (df_index (_frame req)) season_start season_end)))
    as [|t1 rest] eqn:Et; [reflexivity|].
  exfalso.
  assert (Hin : In t1 (tariff_index schedule period
              (day_index schedule (season_index (df_index (_frame req)) season_start season_end))))
    by (rewrite Et; left; reflexivity).
  apply tariff_index_mask in Hin. destruct Hin as [Hidx Hmask].
  rewrite (Hnone t1 _ _ _ _ Hidx Hplan Es Hsc Hpe) in Hmask. discriminate.
Qed.

Lemma apply_subranges_none (l : list SubRange) :
  (forall entry season_start season_end, In (entry, season_start, season_end) l ->
     _apply_calendar eng entry season_start season_end req = Ok req) ->
  apply_subranges (_apply_calendar eng) l req = Ok req.
Proof.
  induction l as [|[[entry a] b] l IH]; intros Hnone; [reflexivity|].
  cbn [apply_subranges]. rewrite (Hnone entry a b) by (left; reflexivity).
  cbn [rbind]. apply IH. intros e s1 s2 Hin. apply Hnone. right. exact Hin.
Qed.

(** A frame none of whose rows lies in a tariff mask goes through the
    calendar walk untouched and without an error. *)
Lemma process_periodic_data_none range_start range_stop :
  calendar_resolves eng ->
  (forall t, In t (df_index (_frame req)) ->
     in_tariff_maskb eng range_start range_stop t = false) ->
  _process_periodic_data eng range_start range_stop req = Ok req.
Proof.
  intros Hres Hnone. unfold _process_periodic_data. rewrite periodic_loop_subranges.
  apply apply_subranges_none. intros entry a b Hin.
  apply apply_calendar_none.
  - apply Hres. now destruct (subranges_bounds _ _ _ _ _ _ Hin) as [He _].
  - intros t usage_plan schedules schedule period Ht Hp Hs Hsc Hpe.
    destruct (in_period_mask schedule period a b t) eqn:E; [|reflexivity].
    assert (Hm : in_tariff_maskb eng range_start range_stop t = true).
    { apply in_tariff_maskb_spec.
      exists entry, a, b, usage_plan, schedules, schedule, period. repeat split; assumption. }
    rewrite (Hnone t Ht) in Hm. discriminate.
Qed.
End NoMaskedRows.

(** The walk never changes the index of the frame. *)
Lemma energy_report_columns_index eng tariff tariff_idx columns req req' :
  energy_report_columns eng tariff tariff_idx columns req = Ok req' ->
  df_index (_frame req') = df_index (_frame req).
Proof.
  revert req. induction columns as [|column rest IH]; intros req Hrun.
  - simpl in Hrun. apply Ok_inj in Hrun. now subst.
  - cbn [energy_report_columns] in Hrun.
    destruct (bool_decide (column ∈ [TIME; TARIFF; SUPPLY_CHARGE])); [now apply IH|].
    inv_ok Hrun. now rewrite (IH _ Hrun).
Qed.

Lemma simple_agent_usage_index tariff tariff_idx rates cost_unit col_override req req' :
  simple_agent_usage tariff tariff_idx rates cost_unit col_override req = Ok req' ->
  df_index (_frame req') = df_index (_frame req).
Proof.
  revert req. induction rates as [|[energy_column rate] rest IH]; intros req Hrun.
  - simpl in Hrun. apply Ok_inj in Hrun. now subst.
  - cbn [simple_agent_usage] in Hrun.
    destruct (bool_decide (energy_column = SUPPLY_CHARGE)); [now rewrite (IH _ Hrun)|].
    destruct (negb (dmem (value energy_column) (df_data (_frame req)))); [discriminate|].
    inv_ok Hrun. now rewrite (IH _ Hrun).
Qed.

Lemma apply_periods_index eng entry usage_plan schedule day_idx periods req req' :
  apply_periods eng entry usage_plan schedule day_idx periods req = Ok req' ->
  df_index (_frame req') = df_index (_frame req).
Proof.
  revert req. induction periods as [|period rest IH]; intros req Hrun.
  - simpl in Hrun. apply Ok_inj in Hrun. now subst.
  - cbn [apply_periods] in Hrun.
    destruct (tariff_index schedule period day_idx) as [|t0 idx]; [now apply IH|].
    inv_ok Hrun. rewrite (IH _ Hrun).
    destruct (up_agent_class usage_plan). rewrite (simple_agent_usage_index _ _ _ _ _ _ _ Ha1).
    unfold _add_energy_reports in Ha. now rewrite (energy_report_columns_index _ _ _ _ _ _ Ha).
Qed.

Lemma apply_schedules_index eng entry usage_plan season_idx schedules req req' :
  apply_schedules eng entry usage_plan season_idx schedules req = Ok req' ->
  df_index (_frame req') = df_index (_frame req).
Proof.
  revert req. induction schedules as [|schedule rest IH]; intros req Hrun.
  - simpl in Hrun. apply Ok_inj in Hrun. now subst.
  - cbn [apply_schedules] in Hrun.
    destruct (day_index schedule season_idx) as [|t0 idx]; [now apply IH|].
    inv_ok Hrun. rewrite (IH _ Hrun). now apply apply_periods_index in Ha.
Qed.

Lemma process_periodic_data_index eng range_start range_stop req req' :
  _process_periodic_data eng range_start range_stop req = Ok req' ->
  df_index (_frame req') = df_index (_frame req).
Proof.
  unfold _process_periodic_data. rewrite periodic_loop_subranges.
  generalize (subranges (dvalues (_calendar eng)) range_stop range_start). intros l.
  revert req. induction l as [|[[entry a] b] l IH]; intros req Hrun.
  - simpl in Hrun. apply Ok_inj in Hrun. now subst.
  - cbn [apply_subranges] in Hrun. inv_ok Hrun. rewrite (IH _ Hrun).
    unfold _apply_calendar in Ha.
    destruct (season_index (df_index (_frame req)) a b); [apply Ok_inj in Ha; now subst|].
    inv_ok Ha. now apply apply_schedules_index in Ha.
Qed.

(** C10, as stated, fails in its last part: an uncovered row can end the
    request with an error.  A reload that fails in [UsagePlan] has already
    emptied the plan catalog and leaves the calendar of the earlier load;
    [__init__] does not reload, because the InfluxDB client is set; and the
    calendar walk of the next request looks up the plan of the winter entry
    for the Saturday row, which no schedule covers, and raises KeyError. *)
Lemma uncovered_row_raises_after_failed_reload :
  fst (@reload_config example_env (Ok unknown_agent_config) loaded_engine) = Raise ValueError /\
  _plans stale_engine = [] /\
  _calendar stale_engine = _calendar loaded_engine /\
  @UsageEngine__init__ example_env (Ok example_config) stale_engine = (Ok tt, stale_engine) /\
  df_index saturday_frame = [saturday_6am] /\
  in_tariff_maskb stale_engine weekend_start weekend_stop saturday_6am = false /\
  in_tariff_maskb loaded_engine weekend_start weekend_stop saturday_6am = false /\
  @usage example_env stale_engine (fun _ _ => Ok saturday_frame) weekend_request
  = Raise KeyError.
Proof.
  repeat (split; [vm_compute; reflexivity|]). vm_compute; reflexivity.
Qed.

(** C10 (amended): [_core_usage] writes the string "None" into the Tariff
    column of every row; after a request that returns, a row that lies in no
    resolved tariff-period mask still reads "None" there and reads a missing
    value in every column created after [_core_usage] (the per-tariff report
    columns).  When every calendar entry names a plan and a season of the
    plan catalog, which every successful [reload_config] establishes, a frame
    none of whose rows lies in a mask passes the calendar walk unchanged and
    without an error, and the request returns the frame of [_core_usage]
    with an empty report column registry. *)
Theorem uncovered_rows_keep_default_tariff `{External} eng influx_frame request_content :
  (forall req',
      usage eng influx_frame request_content = Ok req' ->
      exists start_dt stop_dt raw core,
        safe_iso_utc_to_dt (range_from request_content) (_timezone eng) = Ok start_dt /\
        safe_iso_utc_to_dt (range_to request_content) (_timezone eng) = Ok stop_dt /\
        influx_frame (wall_clock start_dt) (wall_clock stop_dt) = Ok raw /\
        _core_usage (_priority eng) raw = Ok core /\
        df_index (_frame req') = df_index core /\
        forall (i : nat) t,
          nth_error (df_index core) i = Some t ->
          cell_of core (value TARIFF) i = Str "None" /\
          (in_tariff_maskb eng (wall_clock start_dt) (wall_clock stop_dt) t = false ->
           cell_of (_frame req') (value TARIFF) i = Str "None" /\
           forall c, dmem c (df_data core) = false -> cell_of (_frame req') c i = NaN)) /\
  (forall config_file eng0,
      reload_config config_file eng0 = (Ok tt, eng) -> calendar_resolves eng) /\
  (calendar_resolves eng ->
   (forall range_start range_stop req,
       (forall t, In t (df_index (_frame req)) ->
          in_tariff_maskb eng range_start range_stop t = false) ->
       _process_periodic_data eng range_start range_stop req = Ok req) /\
   (forall start_dt stop_dt raw core,
       safe_iso_utc_to_dt (range_from request_content) (_timezone eng) = Ok start_dt ->
       safe_iso_utc_to_dt (range_to request_content) (_timezone eng) = Ok stop_dt ->
       influx_frame (wall_clock start_dt) (wall_clock stop_dt) = Ok raw ->
       _core_usage (_priority eng) raw = Ok core ->
       (forall t, In t (df_index core) ->
          in_tariff_maskb eng (wall_clock start_dt) (wall_clock stop_dt) t = false) ->
       usage eng influx_frame request_content = Ok (mkRequest core []))).
Proof.
  split; [|split].
  - intros req' Hu. unfold usage in Hu. inv_ok Hu.
    rename a into start_dt, a0 into stop_dt, a1 into raw, a2 into core.
    exists start_dt, stop_dt, raw, core. repeat (split; [assumption|]).
    destruct (core_usage_inv _ _ _ Ha2) as (dfw & dfg & _ & _ & Hidx & Htar & _).
    assert (Hnone : forall (i : nat) t, nth_error (df_index core) i = Some t ->
               cell_of core (value TARIFF) i = Str "None").
    { intros i t Hi. unfold cell_of. rewrite Htar, <- Hidx.
      clear - Hi. revert i Hi. induction (df_index core) as [|x l IH]; intros [|i] Hi;
        simpl in *; try discriminate; auto. }
    split; [exact (process_periodic_data_index _ _ _ _ _ Hu)|].
    intros i t Hi. split; [eapply Hnone; eauto|]. intros Hmask.
    assert (Hout : ~ in_tariff_mask eng (wall_clock start_dt) (wall_clock stop_dt) t).
    { intros Hin. apply in_tariff_maskb_spec in Hin. congruence. }
    destruct (process_periodic_data_outside eng i t _ _ (mkRequest core []) req' Hu Hi Hout)
      as [_ Hcells].
    split.
    + rewrite Hcells. eapply Hnone; eauto.
    + intros c Hc. rewrite Hcells. unfold cell_of, dmem in *. simpl.
      destruct (dget c (df_data core)); [discriminate | reflexivity].
  - intros config_file eng0. apply reload_config_resolves.
  - intros Hres. split.
    + intros range_start range_stop req. now apply process_periodic_data_none.
    + intros start_dt stop_dt raw core Hstart Hstop Hraw Hcore Hnone.
      unfold usage. rewrite Hstart, Hstop. cbn [rbind]. rewrite Hraw. cbn [rbind].
      rewrite Hcore. cbn [rbind].
      apply process_periodic_data_none; [exact Hres | exact Hnone].
Qed.

Lemma uncovered_rows_keep_default_tariff_witness :
  (@usage example_env loaded_engine (fun _ _ => Ok weekend_frame) weekend_request
   = Ok weekend_result /\
   nth_error (df_index (_frame weekend_result)) 0 = Some saturday_6am /\
   in_tariff_maskb loaded_engine (19539 * MICROS_PER_DAY) (19543 * MICROS_PER_DAY)
                   saturday_6am = false /\
   in_tariff_maskb loaded_engine (19539 * MICROS_PER_DAY) (19543 * MICROS_PER_DAY)
                   monday_6am = true /\
   cell_of (_frame weekend_result) "Tariff" 0 = Str "None" /\
   cell_of (_frame weekend_result) "Tariff" 1 = Str "flat" /\
   cell_of (_frame weekend_result) "flat Grid to Home (kWh)" 0 = NaN /\
   exists start_dt stop_dt raw core,
     @safe_iso_utc_to_dt example_env (range_from weekend_request) (_timezone loaded_engine)
     = Ok start_dt /\
     @safe_iso_utc_to_dt example_env (range_to weekend_request) (_timezone loaded_engine)
     = Ok stop_dt /\
     Ok weekend_frame = Ok raw /\
     _core_usage (_priority loaded_engine) raw = Ok core /\
     df_index (_frame weekend_result) = df_index core /\
     forall (i : nat) t,
       nth_error (df_index core) i = Some t ->
       cell_of core (value TARIFF) i = Str "None" /\
       (in_tariff_maskb loaded_engine (wall_clock start_dt) (wall_clock stop_dt) t = false ->
        cell_of (_frame weekend_result) (value TARIFF) i = Str "None" /\
        forall c, dmem c (df_data core) = false -> cell_of (_frame weekend_result) c i = NaN)) /\
  (@reload_config example_env (Ok example_config) fresh_engine = (Ok tt, loaded_engine) /\
   calendar_resolves loaded_engine /\
   _core_usage (_priority loaded_engine) saturday_frame
   = Ok (core_usage_frame (_priority loaded_engine) saturday_frame) /\
   @usage example_env loaded_engine (fun _ _ => Ok saturday_frame) weekend_request
   = Ok (mkRequest (core_usage_frame (_priority loaded_engine) saturday_frame) [])).
Proof.
  split.
  - repeat (split; [vm_compute; reflexivity|]).
    apply (proj1 (@uncovered_rows_keep_default_tariff example_env loaded_engine
                    (fun _ _ => Ok weekend_frame) weekend_request) weekend_result).
    vm_compute; reflexivity.
  - assert (Hload : @reload_config example_env (Ok example_config) fresh_engine
                    = (Ok tt, loaded_engine)) by (vm_compute; reflexivity).
    assert (Hres : calendar_resolves loaded_engine).
    { exact (proj1 (proj2 (@uncovered_rows_keep_default_tariff example_env loaded_engine
                             (fun _ _ => Ok saturday_frame) weekend_request))
               (Ok example_config) fresh_engine Hload). }
    split; [exact Hload|]. split; [exact Hres|].
    split; [vm_compute; reflexivity|].
    eapply (proj2 (proj2 (proj2 (@uncovered_rows_keep_default_tariff example_env loaded_engine
                                   (fun _ _ => Ok saturday_frame) weekend_request)) Hres)).
    + vm_compute; reflexivity.
    + vm_compute; reflexivity.
    + reflexivity.
    + vm_compute; reflexivity.
    + intros t Ht. vm_compute in Ht. destruct Ht as [<-|[]]. vm_compute; reflexivity.
Defined.
(** ** More on the supply allocator *)

Lemma series_pos_nth a c (i : nat) x :
  series_pos a = Ok c -> nth_error a i = Some x -> nth_error c i = Some x.
Proof.
  intros H Ha. destruct (series_map_nth _ _ _ _ _ H Ha) as (z & Hz & Hc).
  destruct x; try discriminate Hz; congruence.
Qed.

Lemma assign_binop_add_row dst a b df df' (n : nat) (x y : cell) :
  assign_binop series_add dst a b df = Ok df' ->
  cell_at df a n = Some x -> cell_at df b n = Some y ->
  cell_at df' dst n = Some (float_add x y) /\
  (forall c, c <> dst -> cell_at df' c n = cell_at df c n).
Proof.
  unfold assign_binop. intros H Hx Hy. inv_ok H. apply Ok_inj in H. subst df'.
  rewrite (col_cell_at _ _ _ _ Ha) in Hx. rewrite (col_cell_at _ _ _ _ Ha0) in Hy.
  split.
  - rewrite cell_at_set_col_eq. eapply series_add_nth; eauto.
  - intros c Hc. rewrite cell_at_set_col_ne; congruence.
Qed.

(** The self-consumption columns of a row, from the cells the waterfall left. *)
Lemma core_usage_tail_row priority df df' (n : nat) (p2h s2h rf gc : cell) :
  _core_usage priority df = Ok df' ->
  cell_at df' PW_TO_HOME n = Some p2h ->
  cell_at df' SOLAR_TO_HOME n = Some s2h ->
  cell_at df' RESIDUAL_DEMAND_FINAL n = Some rf ->
  cell_at df' GRID_CHARGING n = Some gc ->
  cell_at df' SELF_PW_NET_OF_GRID n = Some (float_sub p2h gc) /\
  cell_at df' SELF_SOLAR_PLUS_RES n = Some (float_add s2h rf) /\
  cell_at df' SELF_TOTAL n = Some (float_add p2h (float_add s2h rf)).
Proof.
  unfold _core_usage. intros H Hp Hs Hr Hg. inv_ok H. apply Ok_inj in H. subst df'.
  rename a into dfw, a0 into dfg, a1 into dfb, a2 into dfc, a3 into dfd.
  unfold set_col_scalar in *.
  rewrite cell_at_set_col_ne in Hp, Hs, Hr, Hg by discriminate.
  rewrite !(cell_at_set_col_ne _ TARIFF) by discriminate.
  inv_ok Ha3. apply Ok_inj in Ha3. subst dfd.
  rename a into xs, a0 into pxs, a1 into ys, a2 into zs.
  rewrite cell_at_set_col_ne in Hp, Hs, Hr, Hg by discriminate.
  rewrite (assign_binop_frame _ _ _ _ _ _ n _ Ha2) in Hp by discriminate.
  rewrite (assign_binop_frame _ _ _ _ _ _ n _ Ha2) in Hs by discriminate.
  rewrite (assign_binop_frame _ _ _ _ _ _ n _ Ha2) in Hr by discriminate.
  rewrite (assign_binop_frame _ _ _ _ _ _ n _ Ha2) in Hg by discriminate.
  pose proof Hp as Hp'. pose proof Hg as Hg'.
  rewrite (assign_binop_frame _ _ _ _ _ _ n _ Ha1) in Hp' by discriminate.
  rewrite (assign_binop_frame _ _ _ _ _ _ n _ Ha1) in Hg' by discriminate.
  destruct (assign_binop_sub_row _ _ _ _ _ n _ _ Ha1 Hp' Hg') as [Hnet Hfb].
  destruct (assign_binop_add_row _ _ _ _ _ n _ _ Ha2 Hs Hr) as [Hsol Hfc].
  assert (Hp'' : cell_at dfc PW_TO_HOME n = Some p2h)
    by (rewrite Hfc by discriminate; exact Hp).
  rewrite (col_cell_at _ _ _ _ Ha4) in Hp''.
  pose proof (series_pos_nth _ _ _ _ Ha5 Hp'') as Hpx.
  pose proof Hsol as Hy. rewrite (col_cell_at _ _ _ _ Ha6) in Hy.
  pose proof (series_add_nth _ _ _ _ _ _ Ha7 Hpx Hy) as Htot.
  repeat split.
  - rewrite cell_at_set_col_ne, Hfc by discriminate. exact Hnet.
  - rewrite cell_at_set_col_ne by discriminate. exact Hsol.
  - rewrite cell_at_set_col_eq. exact Htot.
Qed.

Lemma supply_waterfall_index priority (i : nat) last df df' :
  supply_waterfall priority i last df = Ok df' -> df_index df' = df_index df.
Proof.
  revert i last df. induction priority as [|supply rest IH]; intros i last df H.
  - simpl in H. apply Ok_inj in H. now subst.
  - cbn [supply_waterfall] in H. apply rbind_ok in H. destruct H as ([this df1] & Hs & H).
    rewrite (IH _ _ _ H). unfold allocate_supply in Hs. inv_ok Hs.
    apply Ok_inj in Hs. injection Hs as _ <-. reflexivity.
Qed.

Lemma core_usage_index priority df df' :
  _core_usage priority df = Ok df' -> df_index df' = df_index df.
Proof.
  intros H. destruct (core_usage_inv _ _ _ H) as (dfw & dfg & Hw & Hg & Hi & _).
  rewrite Hi. unfold assign_binop in Hg. inv_ok Hg. apply Ok_inj in Hg. subst dfg.
  simpl. eapply supply_waterfall_index; eauto.
Qed.

(** X1: in every row of the returned frame, and for every priority order,
    the grid charging and self-consumption cells are the float64 results of
    the operations of [_core_usage] on the cells of that same row: Grid
    charging is grid supply minus Grid to Home, the Powerwall
    self-consumption is PW to Home minus Grid charging, the solar one is
    Solar to Home plus the final residual, and the total is PW to Home plus
    the solar one; no later assignment overwrites an operand. *)
Theorem core_usage_self_consumption priority df df' (n : nat) (d g p s : cell) :
  Permutation priority [GRID_SUPPLY; PW_SUPPLY; SOLAR_SUPPLY] ->
  _core_usage priority df = Ok df' ->
  cell_at df HOME_DEMAND n = Some d ->
  cell_at df GRID_SUPPLY n = Some g ->
  cell_at df PW_SUPPLY n = Some p ->
  cell_at df SOLAR_SUPPLY n = Some s ->
  exists g2h p2h s2h rf charging net solar total,
    cell_at df' GRID_SUPPLY n = Some g /\
    cell_at df' GRID_TO_HOME n = Some g2h /\
    cell_at df' PW_TO_HOME n = Some p2h /\
    cell_at df' SOLAR_TO_HOME n = Some s2h /\
    cell_at df' RESIDUAL_DEMAND_FINAL n = Some rf /\
    cell_at df' GRID_CHARGING n = Some charging /\
    cell_at df' SELF_PW_NET_OF_GRID n = Some net /\
    cell_at df' SELF_SOLAR_PLUS_RES n = Some solar /\
    cell_at df' SELF_TOTAL n = Some total /\
    charging = float_sub g g2h /\
    net = float_sub p2h charging /\
    solar = float_add s2h rf /\
    total = float_add p2h solar.
Proof.
  intros HP H Hd Hg Hp Hs.
  destruct (core_usage_row _ _ _ n d g p s HP H Hd Hg Hp Hs)
    as (s0 & s1 & s2 & t0 & t1 & t2 & v0 & v1 & v2 & -> & HP3 & Hrow).
  cbv zeta in Hrow.
  destruct Hrow as (_ & Hg' & _ & _ & _ & _ & R3 & T0 & T1 & T2 & g2h & HG & HC).
  assert (Hall : exists p2h s2h,
             cell_at df' PW_TO_HOME n = Some p2h /\
             cell_at df' SOLAR_TO_HOME n = Some s2h).
  { destruct (Permutation_length_3_inv _ _ _ _ _ _ HP3)
      as [(E0 & E1 & E2)|[(E0 & E1 & E2)|[(E0 & E1 & E2)|[(E0 & E1 & E2)|[(E0 & E1 & E2)|(E0 & E1 & E2)]]]]];
      injection E0 as -> -> ->; injection E1 as -> -> ->; injection E2 as -> -> ->.
    all: eexists _, _; split; eassumption. }
  destruct Hall as (p2h & s2h & HPW & HSO).
  destruct (core_usage_tail_row _ _ _ n _ _ _ _ H HPW HSO R3 HC) as (Hnet & Hsol & Htot).
  eexists g2h, p2h, s2h, _, _, _, _, _.
  repeat (split; [eassumption|]).
  repeat split; reflexivity.
Qed.

Lemma core_usage_self_consumption_witness :
  exists g2h p2h s2h rf charging net solar total,
    cell_at (core_usage_frame default_priority rounding_frame) GRID_SUPPLY 0
    = Some (Num float_0_3) /\
    cell_at (core_usage_frame default_priority rounding_frame) GRID_TO_HOME 0 = Some g2h /\
    cell_at (core_usage_frame default_priority rounding_frame) PW_TO_HOME 0 = Some p2h /\
    cell_at (core_usage_frame default_priority rounding_frame) SOLAR_TO_HOME 0 = Some s2h /\
    cell_at (core_usage_frame default_priority rounding_frame) RESIDUAL_DEMAND_FINAL 0
    = Some rf /\
    cell_at (core_usage_frame default_priority rounding_frame) GRID_CHARGING 0
    = Some charging /\
    cell_at (core_usage_frame default_priority rounding_frame) SELF_PW_NET_OF_GRID 0
    = Some net /\
    cell_at (core_usage_frame default_priority rounding_frame) SELF_SOLAR_PLUS_RES 0
    = Some solar /\
    cell_at (core_usage_frame default_priority rounding_frame) SELF_TOTAL 0 = Some total /\
    charging = float_sub (Num float_0_3) g2h /\
    net = float_sub p2h charging /\
    solar = float_add s2h rf /\
    total = float_add p2h solar.
Proof.
  apply (core_usage_self_consumption default_priority rounding_frame _ 0
           (Num float_1_1) (Num float_0_3) (Num 0) (Num 0)).
  - reflexivity.
  - vm_compute; reflexivity.
  - reflexivity.
  - reflexivity.
  - reflexivity.
  - reflexivity.
Defined.

(** X2: in a row whose home demand and three supplies are non-negative
    float64 numbers the three residuals are numbers, none is negative and
    none exceeds the one before it, for every priority order: the home demand
    left to cover never grows along the waterfall. *)
Theorem core_usage_residuals_decrease priority df df' (n : nat) (d g p s : Q) :
  Permutation priority [GRID_SUPPLY; PW_SUPPLY; SOLAR_SUPPLY] ->
  _core_usage priority df = Ok df' ->
  cell_at df HOME_DEMAND n = Some (Num d) ->
  cell_at df GRID_SUPPLY n = Some (Num g) ->
  cell_at df PW_SUPPLY n = Some (Num p) ->
  cell_at df SOLAR_SUPPLY n = Some (Num s) ->
  is_f64 d = true -> is_f64 g = true -> is_f64 p = true -> is_f64 s = true ->
  (0 <= d)%Q -> (0 <= g)%Q -> (0 <= p)%Q -> (0 <= s)%Q ->
  exists r1 r2 rf,
    cell_at df' RESIDUAL_DEMAND_1 n = Some (Num r1) /\
    cell_at df' RESIDUAL_DEMAND_2 n = Some (Num r2) /\
    cell_at df' RESIDUAL_DEMAND_FINAL n = Some (Num rf) /\
    (0 <= rf)%Q /\ (rf <= r2)%Q /\ (r2 <= r1)%Q /\ (r1 <= d)%Q.
Proof.
  intros HP H Hd Hg Hp Hs Id Ig Ip Is Hd0 Hg0 Hp0 Hs0.
  apply is_f64_finite in Id, Ig, Ip, Is.
  destruct (core_usage_nonneg_row _ _ _ n d g p s HP H Hd Hg Hp Hs Id Ig Ip Is Hd0 Hg0 Hp0 Hs0)
    as (s0 & s1 & s2 & t0 & t1 & t2 & v0 & v1 & v2 & r1 & r2 & r3 & a0 & a1 & a2 &
        _ & _ & _ & (R1 & R2 & R3) & _ & _ & _ & (P1 & Q1 & P2 & Q2 & P3 & Q3) & _).
  exists r1, r2, r3. repeat (split; [assumption|]). assumption.
Qed.

Lemma core_usage_residuals_decrease_witness :
  exists r1 r2 rf,
    cell_at (core_usage_frame [SOLAR_SUPPLY; GRID_SUPPLY; PW_SUPPLY] rounding_frame)
            RESIDUAL_DEMAND_1 0 = Some (Num r1) /\
    cell_at (core_usage_frame [SOLAR_SUPPLY; GRID_SUPPLY; PW_SUPPLY] rounding_frame)
            RESIDUAL_DEMAND_2 0 = Some (Num r2) /\
    cell_at (core_usage_frame [SOLAR_SUPPLY; GRID_SUPPLY; PW_SUPPLY] rounding_frame)
            RESIDUAL_DEMAND_FINAL 0 = Some (Num rf) /\
    (0 <= rf)%Q /\ (rf <= r2)%Q /\ (r2 <= r1)%Q /\ (r1 <= float_1_1)%Q.
Proof.
  apply (core_usage_residuals_decrease [SOLAR_SUPPLY; GRID_SUPPLY; PW_SUPPLY]
           rounding_frame _ 0 float_1_1 float_0_3 0 0).
  - eapply perm_trans; [apply perm_swap|]. apply perm_skip, perm_swap.
  - vm_compute; reflexivity.
  - reflexivity.
  - reflexivity.
  - reflexivity.
  - reflexivity.
  - vm_compute; reflexivity.
  - vm_compute; reflexivity.
  - vm_compute; reflexivity.
  - vm_compute; reflexivity.
  - discriminate.
  - discriminate.
  - discriminate.
  - discriminate.
Defined.

(** ** Columns written and columns needed by [_core_usage] *)

Lemma set_col_has df c s c' :
  dmem c' (df_data (set_col df c s)) = (bool_decide (c = c') || dmem c' (df_data df))%bool.
Proof. unfold set_col. cbn [df_data]. apply dmem_dset. Qed.

Lemma col_has df c s : col df c = Ok s -> dmem c (df_data df) = true.
Proof.
  unfold col, dindex, dmem. destruct (dget c (df_data df)); [reflexivity | discriminate].
Qed.

Lemma allocate_supply_columns (i : nat) supply last df this df' :
  allocate_supply i supply last df = Ok (this, df') ->
  exists target,
    dget supply SUPPLY_TO_DEMAND = Some target /\
    dmem (value last) (df_data df) = true /\
    dmem (value supply) (df_data df) = true /\
    forall c, dmem c (df_data df') =
              (bool_decide (value target = c) || (bool_decide (value this = c)
                 || dmem c (df_data df)))%bool.
Proof.
  unfold allocate_supply. intros H. inv_ok H. apply Ok_inj in H.
  injection H as -> <-. unfold dindex in Ha7. apply lift_opt_ok in Ha7.
  exists a7. split; [exact Ha7|]. split; [eapply col_has; eauto|].
  split; [eapply col_has; eauto|]. intros c. now rewrite !set_col_has.
Qed.

Lemma assign_binop_columns op dst a b df df' :
  assign_binop op dst a b df = Ok df' ->
  dmem (value a) (df_data df) = true /\ dmem (value b) (df_data df) = true /\
  forall c, dmem c (df_data df') = (bool_decide (value dst = c) || dmem c (df_data df))%bool.
Proof.
  unfold assign_binop. intros H. inv_ok H. apply Ok_inj in H. subst df'.
  split; [eapply col_has; eauto|]. split; [eapply col_has; eauto|].
  intros c. apply set_col_has.
Qed.

(** X3: on a frame whose home demand and three supply columns hold floats,
    [_core_usage] returns for every priority order; the frame it returns has
    the index of its input and holds the ten derived columns and the Tariff
    column. *)
Theorem core_usage_returns_frame priority df :
  Permutation priority [GRID_SUPPLY; PW_SUPPLY; SOLAR_SUPPLY] ->
  float_column df HOME_DEMAND -> float_column df GRID_SUPPLY ->
  float_column df PW_SUPPLY -> float_column df SOLAR_SUPPLY ->
  exists df',
    _core_usage priority df = Ok df' /\
    df_index df' = df_index df /\
    forall c,
      In c [RESIDUAL_DEMAND_1; RESIDUAL_DEMAND_2; RESIDUAL_DEMAND_FINAL;
            GRID_TO_HOME; PW_TO_HOME; SOLAR_TO_HOME; GRID_CHARGING;
            SELF_PW_NET_OF_GRID; SELF_SOLAR_PLUS_RES; SELF_TOTAL; TARIFF] ->
      dmem (value c) (df_data df') = true.
Proof.
  intros HP Hd Hg Hp Hs.
  destruct (core_usage_total _ _ HP Hd Hg Hp Hs) as (df' & H).
  exists df'. split; [exact H|]. split; [eapply core_usage_index; eauto|].
  unfold _core_usage in H. inv_ok H. apply Ok_inj in H. subst df'.
  unfold set_col_scalar.
  destruct (assign_binop_columns _ _ _ _ _ _ Ha0) as (_ & _ & K0).
  destruct (assign_binop_columns _ _ _ _ _ _ Ha1) as (_ & _ & K1).
  destruct (assign_binop_columns _ _ _ _ _ _ Ha2) as (_ & _ & K2).
  inv_ok Ha3. apply Ok_inj in Ha3. subst a3.
  assert (Hw : forall c, In c [RESIDUAL_DEMAND_1; RESIDUAL_DEMAND_2; RESIDUAL_DEMAND_FINAL;
                               GRID_TO_HOME; PW_TO_HOME; SOLAR_TO_HOME] ->
                         dmem (value c) (df_data a) = true).
  { clear - HP Ha.
    destruct (supply_permutations _ HP) as [E|[E|[E|[E|[E|E]]]]]; subst priority;
      cbn [supply_waterfall] in Ha; inv_ok Ha; apply Ok_inj in Ha; subst a.
    all: repeat match goal with
           | H : allocate_supply _ _ _ _ = Ok (_, _) |- _ =>
               let t := fresh "t" in
               let Ht := fresh "Ht" in
               let K := fresh "K" in
               pose proof (allocate_supply_this _ _ _ _ _ _ H) as Ht;
               apply allocate_supply_columns in H; destruct H as (t & K & _ & _ & H);
               injection Ht as <-; injection K as <-
           end.
    all: intros c Hc; simpl in Hc;
      repeat match goal with
        | K : forall c, dmem c (df_data ?d) = _ |- context [dmem _ (df_data ?d)] => rewrite K
        end;
      repeat destruct Hc as [<-|Hc]; try contradiction; reflexivity. }
  intros c Hc. rewrite !set_col_has, K2, K1, K0.
  simpl in Hc.
  repeat (destruct Hc as [<-|Hc]; [try reflexivity; rewrite Hw by (simpl; tauto);
                                   rewrite ?orb_true_r; reflexivity|]).
  contradiction.
Qed.

Lemma core_usage_returns_frame_witness :
  exists df',
    _core_usage default_priority scenarioD = Ok df' /\
    df_index df' = df_index scenarioD /\
    forall c,
      In c [RESIDUAL_DEMAND_1; RESIDUAL_DEMAND_2; RESIDUAL_DEMAND_FINAL;
            GRID_TO_HOME; PW_TO_HOME; SOLAR_TO_HOME; GRID_CHARGING;
            SELF_PW_NET_OF_GRID; SELF_SOLAR_PLUS_RES; SELF_TOTAL; TARIFF] ->
      dmem (value c) (df_data df') = true.
Proof.
  apply (core_usage_returns_frame default_priority scenarioD).
  - reflexivity.
  - eexists; split; [reflexivity|]; repeat constructor.
  - eexists; split; [reflexivity|]; repeat constructor.
  - eexists; split; [reflexivity|]; repeat constructor.
  - eexists; split; [reflexivity|]; repeat constructor.
Defined.

(** X4: [_core_usage] needs its four input columns.  If it returns a frame
    for a priority order of the three supplies, the input frame has the home
    demand and the three supply columns; with no home demand column the
    request fails with KeyError before anything is computed. *)
Theorem core_usage_needs_inputs priority df :
  Permutation priority [GRID_SUPPLY; PW_SUPPLY; SOLAR_SUPPLY] ->
  (is_ok (_core_usage priority df) = true ->
   forall c, In c [HOME_DEMAND; GRID_SUPPLY; PW_SUPPLY; SOLAR_SUPPLY] ->
             dmem (value c) (df_data df) = true) /\
  (dmem (value HOME_DEMAND) (df_data df) = false ->
   _core_usage priority df = Raise KeyError).
Proof.
  intros HP. split.
  - intros Hok. destruct (_core_usage priority df) as [df'|] eqn:H; [clear Hok|discriminate].
    unfold _core_usage in H. apply rbind_ok in H. destruct H as (dfw & Ha & _).
    destruct (supply_permutations _ HP) as [E|[E|[E|[E|[E|E]]]]]; subst priority;
      cbn [supply_waterfall] in Ha; inv_ok Ha; clear Ha.
    all: repeat match goal with
           | H : allocate_supply _ _ _ _ = Ok (_, _) |- _ =>
               let t := fresh "t" in
               let Ht := fresh "Ht" in
               let K := fresh "K" in
               let L := fresh "L" in
               let M := fresh "M" in
               pose proof (allocate_supply_this _ _ _ _ _ _ H) as Ht;
               apply allocate_supply_columns in H; destruct H as (t & K & L & M & H);
               injection Ht as <-; injection K as <-
           end.
    all: repeat match goal with
           | K : forall c, dmem c (df_data ?d) = _, L : context [dmem _ (df_data ?d)] |- _ =>
               rewrite K in L
           end.
    all: simpl in *.
    all: intros c Hc; repeat destruct Hc as [<-|Hc]; try contradiction; assumption.
  - intros Hd. unfold _core_usage.
    assert (Hcol : col df (value HOME_DEMAND) = Raise KeyError).
    { unfold col, dindex. unfold dmem in Hd.
      destruct (dget (value HOME_DEMAND) (df_data df)); [discriminate | reflexivity]. }
    destruct (supply_permutations _ HP) as [E|[E|[E|[E|[E|E]]]]]; subst priority;
      cbn [supply_waterfall]; unfold allocate_supply at 1;
      cbn [RESIDUALS nth_error lift_opt rbind]; rewrite Hcol; reflexivity.
Qed.

Lemma core_usage_needs_inputs_witness :
  (is_ok (_core_usage default_priority scenarioD) = true ->
   forall c, In c [HOME_DEMAND; GRID_SUPPLY; PW_SUPPLY; SOLAR_SUPPLY] ->
             dmem (value c) (df_data scenarioD) = true) /\
  (dmem (value HOME_DEMAND) (df_data scenarioD) = false ->
   _core_usage default_priority scenarioD = Raise KeyError).
Proof.
  apply (core_usage_needs_inputs default_priority scenarioD). reflexivity.
Defined.

(* ================================================================== *)
(** * Usage plans: what the constructor accepts and what it builds *)

Lemma from_str_some s c : from_str s = Some c <-> member_name c = s.
Proof.
  split.
  - unfold from_str. intros Hf. apply find_some in Hf. destruct Hf as [_ Hb].
    now apply bool_decide_eq_true_1 in Hb.
  - intros <-. destruct c; reflexivity.
Qed.

(** X5: [PDColName.from_str] looks a column up by its member name and by
    nothing else: it returns a column exactly for that column's member name,
    and the display value of a column ("Grid to Home", "_time", ...) is never
    accepted. *)
Theorem from_str_by_member_name :
  (forall s c, from_str s = Some c <-> member_name c = s) /\
  (forall c, from_str (value c) = None).
Proof.
  split; [apply from_str_some|]. intros c. destruct c; reflexivity.
Qed.

Section PeriodShape.
Context `{External}.

Lemma pairwise_periods_nth items ps :
  pairwise_periods items = Ok ps ->
  S (List.length ps) = List.length items \/ (items = [] /\ ps = []).
Proof.
  revert ps. induction items as [|this [|next rest] IH]; intros ps Hps.
  - simpl in Hps. apply Ok_inj in Hps. auto.
  - simpl in Hps. apply Ok_inj in Hps. subst. auto.
  - rewrite pairwise_periods_step in Hps. inv_ok Hps. apply Ok_inj in Hps. subst ps.
    destruct (IH _ Ha1) as [E|[E _]]; [|discriminate]. left. simpl in *. lia.
Qed.

Lemma pairwise_periods_at items ps (i : nat) this next :
  pairwise_periods items = Ok ps ->
  nth_error items i = Some this -> nth_error items (S i) = Some next ->
  exists p,
    nth_error ps i = Some p /\ tp_tariff p = snd this /\
    time_fromisoformat (fst this) = Some (tp_start p) /\
    time_fromisoformat (fst next) = Some (tp_end p).
Proof.
  revert ps i. induction items as [|x [|y rest] IH]; intros ps i Hps Hthis Hnext.
  - destruct i; discriminate.
  - destruct i as [|[|i]]; discriminate.
  - rewrite pairwise_periods_step in Hps. inv_ok Hps. apply Ok_inj in Hps. subst ps.
    apply lift_opt_ok in Ha, Ha0.
    destruct i as [|i].
    + simpl in Hthis, Hnext. injection Hthis as <-. injection Hnext as <-.
      eexists. split; [reflexivity|]. simpl. auto.
    + simpl in Hthis. change (nth_error (x :: y :: rest) (S (S i)))
        with (nth_error (y :: rest) (S i)) in Hnext.
      destruct (IH _ i Ha1 Hthis Hnext) as (p & Hp & Hrest).
      exists p. split; [exact Hp | exact Hrest].
Qed.

Lemma last_some_nth {A : Type} (l : list A) (x : A) :
  List.last (map Some l) None = Some x ->
  nth_error l (Nat.pred (List.length l)) = Some x.
Proof.
  induction l as [|a [|b l] IH]; intros Hl.
  - discriminate.
  - simpl in *. congruence.
  - apply IH. exact Hl.
Qed.

Lemma pairwise_periods_parsed items :
  (forall it, In it items -> time_fromisoformat (fst it) <> None) ->
  exists ps, pairwise_periods items = Ok ps.
Proof.
  induction items as [|x [|y rest] IH]; intros Hall.
  - eexists; reflexivity.
  - eexists; reflexivity.
  - rewrite pairwise_periods_step.
    destruct (time_fromisoformat (fst x)) eqn:Ex;
      [|exfalso; apply (Hall x); [left; reflexivity | exact Ex]].
    destruct (time_fromisoformat (fst y)) eqn:Ey;
      [|exfalso; apply (Hall y); [right; left; reflexivity | exact Ey]].
    destruct IH as (ps & ->); [intros it Hit; apply Hall; right; exact Hit|].
    eexists; reflexivity.
Qed.

Lemma pairwise_periods_unparsed items it :
  (2 <= List.length items)%nat ->
  In it items -> time_fromisoformat (fst it) = None ->
  pairwise_periods items = Raise ValueError.
Proof.
  induction items as [|x [|y rest] IH]; intros Hlen Hin Hnone.
  - contradiction.
  - simpl in Hlen. lia.
  - rewrite pairwise_periods_step.
    destruct Hin as [->|Hin]; [now rewrite Hnone|].
    destruct (time_fromisoformat (fst x)); [|reflexivity].
    destruct (time_fromisoformat (fst y)) eqn:Ey; [|reflexivity].
    cbn [lift_opt rbind].
    destruct rest as [|w rest].
    + destruct Hin as [->|[]]. congruence.
    + rewrite IH; [reflexivity | simpl; lia | exact Hin | exact Hnone].
Qed.
End PeriodShape.

(** X6: the periods built from a schedule's [periods] object follow its
    boundaries in document order: there is one period per boundary, period
    [i] carries the tariff of boundary [i], starts at boundary [i] and ends
    at the boundary after it, the last period ending at the first boundary
    (a single boundary gives one period that starts and ends there). *)
Theorem build_periods_shape `{External} items periods :
  build_periods items = Ok periods ->
  List.length periods = List.length items /\
  forall (i : nat) this next,
    nth_error items i = Some this ->
    nth_error items (Nat.modulo (S i) (List.length items)) = Some next ->
    exists p,
      nth_error periods i = Some p /\ tp_tariff p = snd this /\
      time_fromisoformat (fst this) = Some (tp_start p) /\
      time_fromisoformat (fst next) = Some (tp_end p).
Proof.
  unfold build_periods. intros Hb. inv_ok Hb. apply Ok_inj in Hb. subst periods.
  rename a into ps, a0 into final, a1 into start_time, a2 into end_time.
  apply lift_opt_ok in Ha0, Ha1, Ha2. apply last_some_nth in Ha0.
  destruct (pairwise_periods_nth _ _ Ha) as [Hlen|[-> _]]; [|discriminate].
  split; [rewrite length_app; simpl; lia|].
  intros i this next Hi Hn.
  assert (Hlt : (i < List.length items)%nat) by (apply nth_error_Some; congruence).
  destruct (decide (S i = List.length items)) as [Hlast|Hmid].
  - rewrite Hlast, Nat.Div0.mod_same in Hn.
    assert (Ei : i = List.length ps) by lia.
    assert (Ethis : final = this).
    { rewrite <- Hlast in Ha0. simpl in Ha0. congruence. }
    subst final.
    assert (Enext : (if Nat.eqb (List.length items) 1 then this else List.hd this items)
                    = next).
    { destruct items as [|x [|y rest]]; simpl in *; try lia.
      - destruct i; [|lia]. simpl in Hi. congruence.
      - congruence. }
    rewrite Enext in Ha2.
    eexists. rewrite nth_error_app2, Ei, Nat.sub_diag by lia.
    split; [reflexivity|]. simpl. auto.
  - rewrite Nat.mod_small in Hn by lia.
    destruct (pairwise_periods_at _ _ _ _ _ Ha Hi Hn) as (p & Hp & Hrest).
    exists p. split; [|exact Hrest].
    rewrite nth_error_app1; [exact Hp|]. lia.
Qed.

(** X7: the outcome of building a schedule's periods is decided by its
    boundaries alone: an empty [periods] object raises IndexError, a boundary
    that [time.fromisoformat] rejects raises ValueError, and otherwise the
    periods are built. *)
Theorem build_periods_outcome `{External} items :
  (items = [] -> build_periods items = Raise IndexError) /\
  (items <> [] ->
   (exists it, In it items /\ time_fromisoformat (fst it) = None) ->
   build_periods items = Raise ValueError) /\
  (items <> [] ->
   (forall it, In it items -> time_fromisoformat (fst it) <> None) ->
   is_ok (build_periods items) = true).
Proof.
  split; [intros ->; reflexivity|]. split.
  - intros Hne (it & Hin & Hnone). unfold build_periods.
    destruct items as [|x [|y rest]]; [congruence| |].
    + destruct Hin as [->|[]]. simpl. now rewrite Hnone.
    + rewrite (pairwise_periods_unparsed _ it); [reflexivity | simpl; lia | exact Hin | exact Hnone].
  - intros Hne Hall. unfold build_periods.
    destruct (pairwise_periods_parsed items Hall) as (ps & ->). cbn [rbind].
    destruct (List.last (map Some items) None) as [this|] eqn:El.
    + assert (Hin : In this items).
      { apply last_some_nth in El. eapply nth_error_In; eauto. }
      cbn [lift_opt rbind].
      destruct (time_fromisoformat (fst this)) eqn:Et; [|now apply Hall in Et].
      cbn [lift_opt rbind].
      assert (Hnext : In (if Nat.eqb (List.length items) 1 then this else List.hd this items) items).
      { destruct (Nat.eqb (List.length items) 1); [exact Hin|].
        destruct items; [congruence | left; reflexivity]. }
      set (next := if Nat.eqb (List.length items) 1 then this else List.hd this items) in *.
      destruct (time_fromisoformat (fst next)) eqn:En; [reflexivity | now apply Hall in En].
    + exfalso. clear - Hne El. induction items as [|a [|b l] IH]; [congruence|discriminate|].
      apply IH; [discriminate | exact El].
Qed.

Lemma build_periods_shape_witness :
  List.length peak_offpeak_periods = List.length peak_offpeak_json /\
  forall (i : nat) this next,
    nth_error peak_offpeak_json i = Some this ->
    nth_error peak_offpeak_json (Nat.modulo (S i) (List.length peak_offpeak_json)) = Some next ->
    exists p,
      nth_error peak_offpeak_periods i = Some p /\ tp_tariff p = snd this /\
      @time_fromisoformat example_env (fst this) = Some (tp_start p) /\
      @time_fromisoformat example_env (fst next) = Some (tp_end p).
Proof.
  apply (@build_periods_shape example_env peak_offpeak_json peak_offpeak_periods).
  vm_compute; reflexivity.
Defined.

Lemma build_periods_outcome_witness :
  @build_periods example_env [] = Raise IndexError /\
  @build_periods example_env [("14:00", "peak"); ("8pm", "off-peak")] = Raise ValueError /\
  is_ok (@build_periods example_env peak_offpeak_json) = true.
Proof.
  split; [|split].
  - apply (proj1 (@build_periods_outcome example_env [])). reflexivity.
  - apply (proj1 (proj2 (@build_periods_outcome example_env
                           [("14:00", "peak"); ("8pm", "off-peak")]))).
    + discriminate.
    + exists ("8pm", "off-peak"). split; [right; left; reflexivity | reflexivity].
  - apply (proj2 (proj2 (@build_periods_outcome example_env peak_offpeak_json))).
    + discriminate.
    + intros it [<-|[<-|[]]]; discriminate.
Defined.

Section SeasonRules.
Context `{External}.

Lemma new_schedule_complete kwarg sch :
  new_schedule kwarg = Ok sch ->
  kw_days kwarg <> None /\ kw_periods kwarg <> None /\
  ts_name sch = kw_name kwarg /\ kw_periods kwarg = Some (ts_periods sch).
Proof.
  unfold new_schedule. destruct (kw_days kwarg), (kw_periods kwarg); try discriminate.
  intros E. apply Ok_inj in E. subst sch. simpl. repeat split; congruence.
Qed.

Lemma season_from_json_complete prev_season schedules season0 season :
  season_from_json prev_season schedules season0 = Ok season ->
  forall schedule_json, In schedule_json schedules ->
    exists schedule_name,
      sj_schedule schedule_json = Some schedule_name /\
      ((sj_days schedule_json <> None /\ sj_periods schedule_json <> None) \/
       exists prev, prev_season = Some prev /\ dmem schedule_name prev = true).
Proof.
  revert season0. induction schedules as [|sj rest IH]; intros season0 Hs schedule_json Hin.
  - contradiction.
  - cbn [season_from_json] in Hs. inv_ok Hs. rename a into kwarg, a0 into sch.
    destruct Hin as [<-|Hin]; [|eapply IH; eauto].
    destruct (schedule_kwarg_fields _ _ Ha) as (Hname & Hd & Hp).
    exists (kw_name kwarg). split; [exact Hname|].
    assert (Hnew : new_schedule kwarg = Ok sch ->
                   sj_days sj <> None /\ sj_periods sj <> None).
    { intros Hn. destruct (new_schedule_complete _ _ Hn) as (Hd' & Hp' & _).
      split; intros E; [apply Hd', Hd, E | apply Hp', Hp, E]. }
    destruct prev_season as [prev|]; [|left; auto].
    destruct (dget (kw_name kwarg) prev) as [base|] eqn:Eb; [|left; auto].
    right. exists prev. split; [reflexivity|]. unfold dmem. now rewrite Eb.
Qed.

Lemma build_periods_nonempty items periods :
  build_periods items = Ok periods -> periods <> [].
Proof.
  unfold build_periods. intros Hb. inv_ok Hb. apply Ok_inj in Hb. subst periods.
  intros E. apply app_eq_nil in E. destruct E as [_ E]. discriminate.
Qed.

Lemma schedule_kwarg_periods schedule_json kwarg periods :
  schedule_kwarg schedule_json = Ok kwarg ->
  kw_periods kwarg = Some periods -> periods <> [].
Proof.
  unfold schedule_kwarg. intros Hk. inv_ok Hk. apply Ok_inj in Hk. subst kwarg.
  simpl. intros ->. destruct (sj_periods schedule_json) as [items|].
  - inv_ok Ha0. apply Ok_inj in Ha0. injection Ha0 as <-.
    eapply build_periods_nonempty; eauto.
  - apply Ok_inj in Ha0. discriminate.
Qed.

Lemma season_from_json_well_formed prev_season schedules season0 season :
  (forall prev, prev_season = Some prev -> schedules_well_formed prev) ->
  schedules_well_formed season0 ->
  season_from_json prev_season schedules season0 = Ok season ->
  schedules_well_formed season.
Proof.
  intros Hprev. revert season0. induction schedules as [|sj rest IH]; intros season0 H0 Hs.
  - simpl in Hs. apply Ok_inj in Hs. now subst.
  - cbn [season_from_json] in Hs. inv_ok Hs. rename a into kwarg, a0 into sch.
    refine (IH _ _ Hs).
    intros k sch' Hget.
    destruct (decide (k = kw_name kwarg)) as [->|Hne];
      [|rewrite dget_dset_ne in Hget by congruence; now apply H0].
    rewrite dget_dset_eq in Hget. injection Hget as <-.
    assert (Hnew : new_schedule kwarg = Ok sch ->
                   ts_name sch = kw_name kwarg /\ ts_periods sch <> []).
    { intros Hn. destruct (new_schedule_complete _ _ Hn) as (_ & _ & Hn' & Hp').
      split; [exact Hn'|]. eapply schedule_kwarg_periods; eauto. }
    destruct prev_season as [prev|]; [|auto].
    destruct (dget (kw_name kwarg) prev) as [base|] eqn:Eb; [|auto].
    apply Ok_inj in Ha0. subst sch. unfold replace_schedule. simpl.
    split; [reflexivity|].
    destruct (kw_periods kwarg) as [p|] eqn:Ep.
    + eapply schedule_kwarg_periods; eauto.
    + apply (Hprev prev eq_refl _ _ Eb).
Qed.

Lemma inherit_schedules_well_formed prev season :
  schedules_well_formed prev -> schedules_well_formed season ->
  schedules_well_formed (inherit_schedules prev season).
Proof.
  intros Hp Hs k sch. rewrite inherit_schedules_get.
  destruct (dget k season) as [sch'|] eqn:E.
  - intros [= <-]. now apply Hs.
  - apply Hp.
Qed.

Lemma build_season_well_formed prev_season schedules season :
  (forall prev, prev_season = Some prev -> schedules_well_formed prev) ->
  build_season prev_season schedules = Ok season ->
  schedules_well_formed season.
Proof.
  intros Hprev. unfold build_season. intros Hb. inv_ok Hb. apply Ok_inj in Hb. subst season.
  assert (Ha' : schedules_well_formed a).
  { eapply season_from_json_well_formed; eauto. intros k sch. discriminate. }
  destruct prev_season as [prev|]; [|exact Ha'].
  apply inherit_schedules_well_formed; auto.
Qed.

Lemma seasons_from_json_well_formed items prev_season seasons0 seasons :
  (forall prev, prev_season = Some prev -> schedules_well_formed prev) ->
  (forall k season, dget k seasons0 = Some season -> schedules_well_formed season) ->
  seasons_from_json items prev_season seasons0 = Ok seasons ->
  forall k season, dget k seasons = Some season -> schedules_well_formed season.
Proof.
  revert prev_season seasons0.
  induction items as [|[n0 l0] items IH]; intros prev_season seasons0 Hprev H0 Hs.
  - simpl in Hs. apply Ok_inj in Hs. now subst.
  - cbn [seasons_from_json] in Hs. inv_ok Hs. rename a into season0.
    pose proof (build_season_well_formed _ _ _ Hprev Ha) as Hw.
    apply (IH (Some season0) (dset n0 season0 seasons0)); [| |exact Hs].
    + intros prev [= <-]. exact Hw.
    + intros k season Hget. destruct (decide (k = n0)) as [->|Hne].
      * rewrite dget_dset_eq in Hget. injection Hget as <-. exact Hw.
      * rewrite dget_dset_ne in Hget by congruence. eapply H0; eauto.
Qed.

Lemma report_columns_names reports cols :
  report_columns reports = Ok cols <-> reports = map member_name cols.
Proof.
  revert cols. induction reports as [|report rest IH]; intros cols.
  - simpl. split.
    + intros E. apply Ok_inj in E. now subst.
    + destruct cols; [reflexivity | discriminate].
  - cbn [report_columns]. split.
    + intros Hr. inv_ok Hr. apply Ok_inj in Hr. subst cols.
      apply lift_opt_ok, from_str_some in Ha. apply IH in Ha0. simpl. congruence.
    + destruct cols as [|c cols]; [discriminate|]. simpl. intros E.
      injection E as -> Hrest. apply IH in Hrest.
      rewrite (proj2 (from_str_some _ c) eq_refl), Hrest. reflexivity.
Qed.
End SeasonRules.

(** X8: a schedule object may leave out its days or its periods only when
    the previous season has a schedule of the same name to take them from.
    In a plan whose seasons were built, every schedule object has a name, and
    one that lacks days or periods belongs to a season after the first whose
    predecessor holds a schedule of that name; in the first season every
    schedule object gives both. *)
Theorem partial_schedule_needs_predecessor `{External}
    plan_json items seasons (i : nat) season_name schedules schedule_json :
  pj_seasons plan_json = Some items ->
  List.NoDup (dkeys items) ->
  _init_seasons plan_json = Ok seasons ->
  nth_error items i = Some (season_name, schedules) ->
  In schedule_json schedules ->
  exists schedule_name,
    sj_schedule schedule_json = Some schedule_name /\
    ((sj_days schedule_json <> None /\ sj_periods schedule_json <> None) \/
     exists (k : nat) prev_name prev_schedules prev,
       i = S k /\
       nth_error items k = Some (prev_name, prev_schedules) /\
       dget prev_name seasons = Some prev /\
       dmem schedule_name prev = true).
Proof.
  intros Hitems Hnd Hinit Hi Hin. unfold _init_seasons in Hinit.
  rewrite Hitems in Hinit. cbn [lift_opt rbind] in Hinit.
  destruct (seasons_from_json_ok _ _ _ _ Hinit Hnd ltac:(reflexivity))
    as (built & Hseasons & Hlen & Hnth).
  simpl in Hseasons.
  assert (Hsome : exists season, nth_error built i = Some season).
  { destruct (nth_error built i) eqn:E; [eauto|].
    apply nth_error_None in E. assert (nth_error items i <> None) by congruence.
    apply nth_error_Some in H0. lia. }
  destruct Hsome as (season & Hseason).
  specialize (Hnth i _ _ _ Hi Hseason).
  unfold build_season in Hnth. apply rbind_ok in Hnth. destruct Hnth as (listed & Hlisted & _).
  destruct (season_from_json_complete _ _ _ _ Hlisted _ Hin)
    as (schedule_name & Hname & [Hfull|(prev & Hprev & Hmem)]).
  - exists schedule_name. split; [exact Hname|]. left. exact Hfull.
  - exists schedule_name. split; [exact Hname|]. right.
    destruct i as [|k]; [discriminate|].
    assert (Hk : exists prev_item, nth_error items k = Some prev_item).
    { destruct (nth_error items k) eqn:E; [eauto|].
      apply nth_error_None in E.
      assert (Hlt : nth_error built k <> None) by (simpl in Hprev; congruence).
      apply nth_error_Some in Hlt. lia. }
    destruct Hk as ([prev_name prev_schedules] & Hk).
    exists k, prev_name, prev_schedules, prev.
    split; [reflexivity|]. split; [exact Hk|]. split; [|exact Hmem].
    simpl in Hprev. rewrite <- Hprev.
    subst seasons. apply (dget_combine_nth _ _ k).
    + exact Hnd.
    + unfold dkeys. rewrite length_map. exact Hlen.
    + unfold dkeys. rewrite nth_error_map, Hk. reflexivity.
Qed.

Lemma partial_schedule_needs_predecessor_witness :
  exists schedule_name,
    sj_schedule (mkScheduleJson (Some "all") (Some [0; 1; 2; 3; 4]) None) = Some schedule_name /\
    ((sj_days (mkScheduleJson (Some "all") (Some [0; 1; 2; 3; 4]) None) <> None /\
      sj_periods (mkScheduleJson (Some "all") (Some [0; 1; 2; 3; 4]) None) <> None) \/
     exists (k : nat) prev_name prev_schedules prev,
       1%nat = S k /\
       nth_error (match pj_seasons example_plan with Some items => items | None => [] end) k
       = Some (prev_name, prev_schedules) /\
       dget prev_name example_seasons = Some prev /\
       dmem schedule_name prev = true).
Proof.
  apply (@partial_schedule_needs_predecessor example_env example_plan _ example_seasons
           1 "Winter" [mkScheduleJson (Some "all") (Some [0; 1; 2; 3; 4]) None]).
  - reflexivity.
  - vm_compute. repeat constructor; simpl; intuition discriminate.
  - vm_compute; reflexivity.
  - reflexivity.
  - left; reflexivity.
Defined.

(** X9: in the seasons a plan builds, every schedule is stored under its
    own name and has at least one tariff period, whether it was given in
    full, completed from the previous season or copied from it. *)
Theorem built_schedules_well_formed `{External} plan_json seasons season_name season :
  _init_seasons plan_json = Ok seasons ->
  dget season_name seasons = Some season ->
  schedules_well_formed season.
Proof.
  unfold _init_seasons. intros Hinit Hget. inv_ok Hinit.
  eapply (seasons_from_json_well_formed _ None []); eauto; discriminate.
Qed.

Lemma built_schedules_well_formed_witness :
  schedules_well_formed
    (match dget "Winter" example_seasons with Some season => season | None => [] end).
Proof.
  apply (@built_schedules_well_formed example_env example_plan example_seasons "Winter").
  - vm_compute; reflexivity.
  - vm_compute; reflexivity.
Defined.

(** X10: [UsagePlan(plan_json)] succeeds exactly when the object has a name,
    names the agent "Simple", lists report columns by their member names and
    its seasons can be built; the plan then carries that name, the listed
    columns in order, and those seasons. *)
Theorem new_plan_accepts `{External} plan_json plan :
  new_plan plan_json = Ok plan <->
  pj_name plan_json = Some (up_name plan) /\
  pj_agent plan_json = Some "Simple" /\
  up_agent_class plan = SimpleAgent /\
  pj_report plan_json = Some (map member_name (up_report_cols plan)) /\
  _init_seasons plan_json = Ok (up_seasons plan).
Proof.
  unfold new_plan, _get_agent. split.
  - intros Hn. inv_ok Hn. apply Ok_inj in Hn. subst plan. simpl.
    apply lift_opt_ok in Ha, Ha1.
    apply rbind_ok in Ha0. destruct Ha0 as (agent_name & Hag & Hdec).
    apply lift_opt_ok in Hag.
    destruct (bool_decide_reflect (agent_name = "Simple")) as [->|]; [|discriminate].
    apply Ok_inj in Hdec. apply report_columns_names in Ha2. subst.
    repeat split; auto.
  - intros (Hname & Hagent & Hclass & Hrep & Hseasons).
    rewrite Hname, Hagent, Hrep, Hseasons. cbn [lift_opt rbind].
    rewrite bool_decide_eq_true_2 by reflexivity. cbn [rbind].
    rewrite (proj2 (report_columns_names _ _) eq_refl). cbn [rbind].
    destruct plan as [n a c s]. simpl in *. now subst.
Qed.

(* ================================================================== *)
(** * The calendar: what loading guarantees *)

Section CalendarRules.
Context `{External}.

Lemma validate_fresh_tariffs_defined plan season raw table :
  validate_fresh_tariffs plan season raw = Ok table ->
  dkeys table = dkeys raw /\
  forall tariff, In tariff (dkeys table) -> tariff_defined plan season tariff = true.
Proof.
  revert table. induction raw as [|[tariff rates] rest IH]; intros table Hv.
  - simpl in Hv. apply Ok_inj in Hv. subst. split; [reflexivity | contradiction].
  - cbn [validate_fresh_tariffs] in Hv.
    destruct (tariff_defined plan season tariff) eqn:Ed; [|discriminate].
    inv_ok Hv. apply Ok_inj in Hv. subst table.
    destruct (IH _ Ha0) as [Hk Hd]. split; [simpl; now rewrite Hk|].
    intros t [<-|Hin]; [exact Ed | now apply Hd].
Qed.

Lemma validate_inherited_tariffs_defined plan season table :
  validate_inherited_tariffs plan season table = Ok tt ->
  forall tariff, In tariff (dkeys table) -> tariff_defined plan season tariff = true.
Proof.
  induction table as [|[tariff rates] rest IH]; intros Hv t Hin; [contradiction|].
  cbn [validate_inherited_tariffs] in Hv.
  destruct (tariff_defined plan season tariff) eqn:Ed; [|discriminate].
  destruct Hin as [<-|Hin]; [exact Ed | now apply IH].
Qed.

Lemma post_init_tariffs plans start_date plan season tariffs e :
  post_init plans start_date plan season tariffs = Ok e ->
  exists plan_instance,
    dget (ce_plan e) plans = Some plan_instance /\
    season_defined plan_instance (ce_season e) = true /\
    forall tariff, In tariff (dkeys (ce_tariffs e)) ->
                   tariff_defined plan_instance (ce_season e) tariff = true.
Proof.
  unfold post_init. intros Hp. inv_ok Hp. apply lift_opt_ok in Ha.
  destruct (season_defined a season) eqn:Es; [|discriminate].
  inv_ok Hp. apply Ok_inj in Hp. subst e. simpl.
  exists a. split; [exact Ha|]. split; [exact Es|].
  destruct tariffs as [raw|table].
  - now apply validate_fresh_tariffs_defined in Ha0.
  - inv_ok Ha0. apply Ok_inj in Ha0. subst a0. destruct a1.
    now apply validate_inherited_tariffs_defined.
Qed.

Lemma make_entry_tariffs plans prev_event date_v data e :
  make_entry plans prev_event date_v data = Ok e ->
  exists plan_instance,
    dget (ce_plan e) plans = Some plan_instance /\
    season_defined plan_instance (ce_season e) = true /\
    forall tariff, In tariff (dkeys (ce_tariffs e)) ->
                   tariff_defined plan_instance (ce_season e) tariff = true.
Proof.
  unfold make_entry. intros Hm. destruct prev_event as [prev|].
  - eapply post_init_tariffs; eauto.
  - destruct (cj_plan data), (cj_season data), (cj_tariffs data); try discriminate.
    eapply post_init_tariffs; eauto.
Qed.

Lemma combine_nth_error {A B : Type} (l : list A) (l' : list B) (i : nat) x y :
  nth_error (combine l l') i = Some (x, y) ->
  nth_error l i = Some x /\ nth_error l' i = Some y.
Proof.
  revert l' i. induction l as [|a l IH]; intros l' i Hi.
  - destruct i; discriminate.
  - destruct l' as [|b l']; [destruct i; discriminate|].
    destruct i as [|i]; simpl in *.
    + injection Hi as <- <-. auto.
    + now apply IH.
Qed.

(** The entries of a loaded calendar, position by position: the entry the
    constructor returned for the item at that position, with its end date
    filled in. *)
Lemma load_calendar_entry calendar_json eng eng' (i : nat) d e' :
  _load_calendar calendar_json eng = (Ok tt, eng') ->
  nth_error (_calendar eng') i = Some (d, e') ->
  exists parsed j prev_event e,
    parse_dates calendar_json [] = Ok parsed /\
    nth_error (sort_by_date parsed) i = Some (d, j) /\
    make_entry (_plans eng') prev_event d j = Ok e /\
    ce_start_date e' = ce_start_date e /\ ce_plan e' = ce_plan e /\
    ce_season e' = ce_season e /\ ce_tariffs e' = ce_tariffs e.
Proof.
  intros Hl Hi.
  destruct (load_calendar_ok _ _ _ Hl)
    as (parsed & entries & Hp & Hplans & Hcal & Hlen & Hs & Hnth).
  rewrite Hcal in Hi.
  assert (Hd : nth_error (dkeys (set_end_dates (combine (dkeys (sort_by_date parsed)) entries))) i
               = Some d) by (unfold dkeys at 1; now rewrite nth_error_map, Hi).
  assert (He : nth_error (dvalues (set_end_dates (combine (dkeys (sort_by_date parsed)) entries))) i
               = Some e') by (unfold dvalues; now rewrite nth_error_map, Hi).
  rewrite set_end_dates_keys, dkeys_combine in Hd
    by (unfold dkeys; now rewrite length_map).
  destruct (set_end_dates_fields _ _ _ He) as (e & He0 & Hfields).
  rewrite dvalues_combine in He0 by (unfold dkeys; now rewrite length_map).
  unfold dkeys in Hd. rewrite nth_error_map in Hd.
  destruct (nth_error (sort_by_date parsed) i) as [[d' j]|] eqn:Ei; [|discriminate].
  simpl in Hd. injection Hd as ->.
  exists parsed, j, (entry_before None entries i), e.
  split; [exact Hp|]. split; [exact Ei|]. split; [|exact Hfields].
  rewrite Hplans. eapply Hnth; eauto.
Qed.
End CalendarRules.

(** X11: whatever the order of the items in the calendar document, a
    successfully loaded calendar is keyed by strictly ascending start dates,
    stores every entry under its own start date, and links the entries as the
    calendar walk expects: each end date is the next start date and the last
    entry is open-ended. *)
Theorem loaded_calendar_sorted_and_linked `{External} calendar_json eng eng' :
  _load_calendar calendar_json eng = (Ok tt, eng') ->
  StronglySorted Z.lt (dkeys (_calendar eng')) /\
  (forall d e, In (d, e) (_calendar eng') -> ce_start_date e = d) /\
  valid_calendar (dvalues (_calendar eng')).
Proof.
  intros Hl. split; [|split].
  - destruct (load_calendar_ok _ _ _ Hl)
      as (parsed & entries & Hp & Hplans & Hcal & Hlen & Hs & Hnth).
    rewrite Hcal, set_end_dates_keys, dkeys_combine; [exact Hs|].
    unfold dkeys. now rewrite length_map.
  - intros d e Hin. apply In_nth_error in Hin. destruct Hin as [i Hi].
    destruct (load_calendar_entry _ _ _ _ _ _ Hl Hi)
      as (parsed & j & prev_event & e0 & _ & _ & Hm & Hstart & _).
    destruct (make_entry_start _ _ _ _ _ Hm) as (Hd & _). congruence.
  - exact (proj1 (load_calendar_valid _ _ _ Hl)).
Qed.

Lemma loaded_calendar_sorted_and_linked_witness :
  StronglySorted Z.lt (dkeys (_calendar loaded_engine)) /\
  (forall d e, In (d, e) (_calendar loaded_engine) -> ce_start_date e = d) /\
  valid_calendar (dvalues (_calendar loaded_engine)).
Proof.
  apply (@loaded_calendar_sorted_and_linked example_env example_calendar
           (snd (@reload_config example_env
                   (Ok (mkConfigJson (Some example_settings) (Some [example_plan]) None))
                   fresh_engine))).
  vm_compute; reflexivity.
Defined.

Lemma tariff_defined_period plan season tariff :
  tariff_defined plan season tariff = true <->
  exists schedules schedule period,
    dget season (up_seasons plan) = Some schedules /\
    In schedule (dvalues schedules) /\ In period (ts_periods schedule) /\
    tp_tariff period = tariff.
Proof.
  unfold tariff_defined, schedule_tariff_defined.
  destruct (dget season (up_seasons plan)) as [schedules|].
  - rewrite existsb_exists. split.
    + intros (schedule & Hs & Hp). apply existsb_exists in Hp.
      destruct Hp as (period & Hp & E). apply bool_decide_eq_true_1 in E.
      exists schedules, schedule, period. auto.
    + intros (schedules' & schedule & period & E & Hs & Hp & Ht).
      injection E as <-. exists schedule. split; [exact Hs|].
      apply existsb_exists. exists period. split; [exact Hp|].
      now apply bool_decide_eq_true_2.
  - split; [discriminate|]. intros (? & ? & ? & E & _). discriminate.
Qed.

(** X12: every entry of a successfully loaded calendar passed the
    constructor's validation against the plan catalog, also when it took its
    plan, season or tariffs from the entry before it: its plan is in the
    catalog, its season is a season of that plan, and every tariff of its
    rate table labels a period of some schedule of that season. *)
Theorem loaded_calendar_validated `{External} calendar_json eng eng' e :
  _load_calendar calendar_json eng = (Ok tt, eng') ->
  In e (dvalues (_calendar eng')) ->
  exists plan_instance,
    dget (ce_plan e) (_plans eng') = Some plan_instance /\
    season_defined plan_instance (ce_season e) = true /\
    forall tariff,
      dmem tariff (ce_tariffs e) = true ->
      exists schedules schedule period,
        dget (ce_season e) (up_seasons plan_instance) = Some schedules /\
        In schedule (dvalues schedules) /\ In period (ts_periods schedule) /\
        tp_tariff period = tariff.
Proof.
  intros Hl Hin. unfold dvalues in Hin. apply in_map_iff in Hin.
  destruct Hin as ([d e'] & <- & Hin). apply In_nth_error in Hin. destruct Hin as [i Hi].
  destruct (load_calendar_entry _ _ _ _ _ _ Hl Hi)
    as (parsed & j & prev_event & e0 & _ & _ & Hm & _ & Hplan & Hseason & Htariffs).
  destruct (make_entry_tariffs _ _ _ _ _ Hm) as (plan_instance & Hget & Hdef & Hall).
  exists plan_instance. simpl. rewrite Hplan, Hseason, Htariffs.
  split; [exact Hget|]. split; [exact Hdef|].
  intros tariff Hmem. apply tariff_defined_period, Hall. now apply dmem_dkeys.
Qed.

Lemma loaded_calendar_validated_witness :
  exists plan_instance,
    dget (ce_plan (List.last (dvalues (_calendar loaded_engine))
                             (mkEntry 0 EmptyString EmptyString [] None)))
         (_plans loaded_engine) = Some plan_instance /\
    season_defined plan_instance
      (ce_season (List.last (dvalues (_calendar loaded_engine))
                            (mkEntry 0 EmptyString EmptyString [] None))) = true /\
    forall tariff,
      dmem tariff (ce_tariffs (List.last (dvalues (_calendar loaded_engine))
                                         (mkEntry 0 EmptyString EmptyString [] None))) = true ->
      exists schedules schedule period,
        dget (ce_season (List.last (dvalues (_calendar loaded_engine))
                                   (mkEntry 0 EmptyString EmptyString [] None)))
             (up_seasons plan_instance) = Some schedules /\
        In schedule (dvalues schedules) /\ In period (ts_periods schedule) /\
        tp_tariff period = tariff.
Proof.
  apply (@loaded_calendar_validated example_env example_calendar
           (snd (@reload_config example_env
                   (Ok (mkConfigJson (Some example_settings) (Some [example_plan]) None))
                   fresh_engine))).
  - vm_compute; reflexivity.
  - vm_compute. right; left; reflexivity.
Defined.

Section CalendarOrder.
Context `{External}.

Lemma parse_dates_unparsed calendar_json acc d_str item :
  In (d_str, item) calendar_json -> datetime_fromisoformat d_str = None ->
  parse_dates calendar_json acc = Raise ValueError.
Proof.
  revert acc. induction calendar_json as [|[s j] rest IH]; intros acc Hin Hnone; [contradiction|].
  cbn [parse_dates]. destruct Hin as [E|Hin].
  - injection E as -> ->. now rewrite Hnone.
  - destruct (datetime_fromisoformat s); [|reflexivity]. cbn [lift_opt rbind]. now apply IH.
Qed.

Lemma parse_dates_dated calendar_json acc :
  (forall d_str item, In (d_str, item) calendar_json -> datetime_fromisoformat d_str <> None) ->
  List.NoDup (dkeys acc ++ dkeys (dated_items calendar_json)) ->
  parse_dates calendar_json acc = Ok (acc ++ dated_items calendar_json).
Proof.
  revert acc. induction calendar_json as [|[s j] rest IH]; intros acc Hall Hnd.
  - simpl. now rewrite app_nil_r.
  - cbn [parse_dates dated_items flat_map] in *.
    destruct (datetime_fromisoformat s) as [d|] eqn:Ed;
      [|exfalso; eapply Hall; [left; reflexivity | exact Ed]].
    cbn [lift_opt rbind]. cbn [app dkeys map fst] in Hnd.
    assert (Hfresh : dmem d acc = false).
    { destruct (dmem d acc) eqn:E; [|reflexivity]. apply dmem_dkeys in E.
      exfalso. apply List.NoDup_remove_2 in Hnd. apply Hnd, in_or_app. left. exact E. }
    rewrite (dset_absent _ _ _ Hfresh), IH.
    + now rewrite <- app_assoc.
    + intros d_str item Hin. apply (Hall d_str item). right. exact Hin.
    + unfold dkeys. rewrite map_app. simpl. rewrite <- app_assoc. exact Hnd.
Qed.

Lemma dated_items_perm calendar_json calendar_json' :
  Permutation calendar_json calendar_json' ->
  Permutation (dated_items calendar_json) (dated_items calendar_json').
Proof. intros Hp. unfold dated_items. now apply Permutation_flat_map. Qed.

Lemma sorted_perm_eq (l l' : dict Z CalendarJson) :
  Permutation l l' ->
  StronglySorted Z.lt (dkeys l) -> StronglySorted Z.lt (dkeys l') -> l = l'.
Proof.
  revert l'. induction l as [|x xs IH]; intros l' Hp Hs Hs'.
  - apply Permutation_nil in Hp. now subst.
  - destruct l' as [|y ys]; [symmetry in Hp; now apply Permutation_nil in Hp|].
    unfold dkeys in Hs, Hs'. simpl in Hs, Hs'.
    inversion Hs as [|? ? Hxs Hx]; subst. inversion Hs' as [|? ? Hys Hy]; subst.
    rewrite List.Forall_forall in Hx, Hy.
    assert (Exy : x = y).
    { assert (Hin : In x (y :: ys)) by (eapply Permutation_in; [exact Hp | left; reflexivity]).
      assert (Hin' : In y (x :: xs))
        by (eapply Permutation_in; [symmetry; exact Hp | left; reflexivity]).
      destruct Hin as [E|Hin]; [now subst|].
      destruct Hin' as [E|Hin']; [now subst|].
      pose proof (Hy (fst x) (in_map fst _ _ Hin)).
      pose proof (Hx (fst y) (in_map fst _ _ Hin')). lia. }
    subst y. f_equal. apply IH; auto. eapply Permutation_cons_inv; eauto.
Qed.

Lemma sort_by_date_unique (calendar calendar' : dict Z CalendarJson) :
  Permutation calendar calendar' -> List.NoDup (dkeys calendar) ->
  sort_by_date calendar = sort_by_date calendar'.
Proof.
  intros Hp Hnd.
  assert (Hnd' : List.NoDup (dkeys calendar'))
    by (eapply Permutation_NoDup; [apply Permutation_map; exact Hp | exact Hnd]).
  apply sorted_perm_eq.
  - etransitivity; [apply sort_by_date_perm|].
    etransitivity; [exact Hp|]. symmetry. apply sort_by_date_perm.
  - apply sorted_NoDup_strict; [apply sort_by_date_sorted|].
    eapply Permutation_NoDup; [symmetry; apply Permutation_map, sort_by_date_perm | exact Hnd].
  - apply sorted_NoDup_strict; [apply sort_by_date_sorted|].
    eapply Permutation_NoDup; [symmetry; apply Permutation_map, sort_by_date_perm | exact Hnd'].
Qed.
End CalendarOrder.

(** X13: the order in which the calendar document lists its items does not
    matter.  When no two items carry the same date, two documents with the
    same items in a different order load to the same outcome and the same
    class state. *)
Theorem calendar_document_order_irrelevant `{External} calendar_json calendar_json' eng :
  Permutation calendar_json calendar_json' ->
  List.NoDup (dkeys (dated_items calendar_json)) ->
  _load_calendar calendar_json eng = _load_calendar calendar_json' eng.
Proof.
  intros Hp Hnd.
  destruct (List.existsb_exists
              (fun '(d_str, _) =>
                 match datetime_fromisoformat d_str with Some _ => false | None => true end)
              calendar_json) as [Hex _].
  destruct (existsb _ calendar_json) eqn:Eb.
  - destruct (Hex eq_refl) as ([d_str item] & Hin & Hnone).
    destruct (datetime_fromisoformat d_str) eqn:Ed; [discriminate|].
    unfold _load_calendar.
    rewrite (parse_dates_unparsed _ _ _ _ Hin Ed).
    rewrite (parse_dates_unparsed calendar_json' _ d_str item); [reflexivity| |exact Ed].
    eapply Permutation_in; eauto.
  - assert (Hall : forall d_str item, In (d_str, item) calendar_json ->
                                      datetime_fromisoformat d_str <> None).
    { intros d_str item Hin Hnone.
      assert (existsb (fun '(d_str, _) =>
                 match datetime_fromisoformat d_str with Some _ => false | None => true end)
                calendar_json = true); [|congruence].
      apply List.existsb_exists. exists (d_str, item). split; [exact Hin|]. now rewrite Hnone. }
    unfold _load_calendar.
    rewrite (parse_dates_dated calendar_json []); [|exact Hall | exact Hnd].
    rewrite (parse_dates_dated calendar_json' []).
    + simpl. rewrite (sort_by_date_unique _ _ (dated_items_perm _ _ Hp) Hnd). reflexivity.
    + intros d_str item Hin. apply (Hall d_str item).
      eapply Permutation_in; [symmetry; exact Hp | exact Hin].
    + simpl. eapply Permutation_NoDup; [apply Permutation_map, dated_items_perm; exact Hp|].
      exact Hnd.
Qed.

Lemma calendar_document_order_irrelevant_witness :
  @_load_calendar example_env example_calendar
    (snd (@reload_config example_env
            (Ok (mkConfigJson (Some example_settings) (Some [example_plan]) None))
            fresh_engine))
  = @_load_calendar example_env (rev example_calendar)
      (snd (@reload_config example_env
              (Ok (mkConfigJson (Some example_settings) (Some [example_plan]) None))
              fresh_engine)).
Proof.
  apply (@calendar_document_order_irrelevant example_env).
  - apply Permutation_rev.
  - vm_compute. repeat constructor; simpl; intuition discriminate.
Defined.

(** X14: the calendar document is rejected with ValueError, and the class
    is left with an empty calendar, when [datetime.fromisoformat] rejects one
    of its date strings, and when the item with the earliest date lacks a
    plan, a season or a tariff table, wherever that item stands in the
    document. *)
Theorem load_calendar_rejects `{External} calendar_json eng :
  (forall d_str item,
      In (d_str, item) calendar_json -> datetime_fromisoformat d_str = None ->
      _load_calendar calendar_json eng = (Raise ValueError, with_calendar eng [])) /\
  (forall parsed d item rest,
      parse_dates calendar_json [] = Ok parsed ->
      sort_by_date parsed = (d, item) :: rest ->
      cj_plan item = None \/ cj_season item = None \/ cj_tariffs item = None ->
      _load_calendar calendar_json eng = (Raise ValueError, with_calendar eng [])).
Proof.
  split.
  - intros d_str item Hin Hnone. unfold _load_calendar.
    now rewrite (parse_dates_unparsed _ _ _ _ Hin Hnone).
  - intros parsed d item rest Hp Hsort Hmiss. unfold _load_calendar.
    rewrite Hp, Hsort. cbn [load_entries make_entry].
    destruct (cj_plan item), (cj_season item), (cj_tariffs item);
      try reflexivity; destruct Hmiss as [E|[E|E]]; discriminate.
Qed.

Lemma load_calendar_rejects_witness :
  @_load_calendar example_env [("1 July 2023", mkCalendarJson None (Some "Winter") None)]
                  fresh_engine
  = (Raise ValueError, with_calendar fresh_engine []) /\
  @_load_calendar example_env
     [("2023-07-01", mkCalendarJson (Some "P") (Some "Winter") (Some []));
      ("2023-01-01", mkCalendarJson None (Some "Summer") (Some []))]
     fresh_engine
  = (Raise ValueError, with_calendar fresh_engine []).
Proof.
  split.
  - apply (proj1 (@load_calendar_rejects example_env _ fresh_engine)
             "1 July 2023" (mkCalendarJson None (Some "Winter") None)).
    + left; reflexivity.
    + reflexivity.
  - eapply (proj2 (@load_calendar_rejects example_env _ fresh_engine)).
    + vm_compute; reflexivity.
    + vm_compute; reflexivity.
    + left; reflexivity.
Defined.

(* ================================================================== *)
(** * Settings and the constructor of the engine *)

Lemma keeps_attribute_try {A B : Type} (attribute : UsageEngine -> B) (r : result A) :
  keeps_attribute attribute (cls_try r).
Proof. intros eng r' eng' E. injection E as _ <-. reflexivity. Qed.

Lemma keeps_attribute_update {B : Type} (attribute : UsageEngine -> B)
    (f : UsageEngine -> UsageEngine) :
  (forall eng, attribute (f eng) = attribute eng) ->
  keeps_attribute attribute (cls_update f).
Proof. intros Hf eng r eng' E. injection E as _ <-. apply Hf. Qed.

Lemma keeps_attribute_bind {A B C : Type} (attribute : UsageEngine -> C)
    (m : cls A) (f : A -> cls B) :
  keeps_attribute attribute m -> (forall a, keeps_attribute attribute (f a)) ->
  keeps_attribute attribute (cls_bind m f).
Proof.
  intros Hm Hf eng r eng' E. unfold cls_bind in E.
  destruct (m eng) as [[a|e] eng1] eqn:Em.
  - rewrite (Hf a _ _ _ E). eapply Hm; eauto.
  - injection E as _ <-. eapply Hm; eauto.
Qed.

Lemma load_renames_keeps_attribute {B : Type} (attribute : UsageEngine -> B) renames :
  (forall overrides eng, attribute (set_col_overrides overrides eng) = attribute eng) ->
  keeps_attribute attribute (load_renames renames).
Proof.
  intros Hset. induction renames as [|[name override] rest IH]; simpl.
  - apply keeps_attribute_try.
  - apply keeps_attribute_bind; [apply keeps_attribute_try|]. intros pd_name.
    apply keeps_attribute_bind; [|intros _; exact IH].
    apply keeps_attribute_update. intros eng. apply Hset.
Qed.

Lemma three_found_permutation (o1 o2 o3 : option PDColName) :
  forallb (fun x => bool_decide (Some x ∈ [o1; o2; o3])) default_priority = true ->
  Permutation (found_names [o1; o2; o3]) [GRID_SUPPLY; PW_SUPPLY; SOLAR_SUPPLY] /\
  map Some (found_names [o1; o2; o3]) = [o1; o2; o3].
Proof.
  unfold default_priority. cbn [forallb]. rewrite !andb_true_iff.
  intros (Hg & Hp & Hs & _).
  apply bool_decide_eq_true_1, list_elem_of_In in Hg, Hp, Hs. simpl in Hg, Hp, Hs.
  destruct Hg as [Hg|[Hg|[Hg|[]]]], Hp as [Hp|[Hp|[Hp|[]]]], Hs as [Hs|[Hs|[Hs|[]]]];
    subst; try discriminate; (split; [|reflexivity]); cbn.
  all: first
         [ reflexivity
         | apply perm_swap
         | apply perm_skip, perm_swap
         | eapply perm_trans; [apply perm_skip, perm_swap|]; apply perm_swap
         | eapply perm_trans; [apply perm_swap|]; apply perm_skip, perm_swap
         | eapply perm_trans; [apply perm_swap|];
           eapply perm_trans; [apply perm_skip, perm_swap|]; apply perm_swap ].
Qed.

(** What a successful [_init_settings] read and stored. *)
Lemma init_settings_ok `{External} config eng eng' :
  _init_settings config eng = (Ok tt, eng') ->
  exists settings url bucket tz_key tz bucket_list,
    cfg_settings config = Some settings /\
    set_influx_url settings = Some url /\
    set_bucket settings = Some bucket /\
    set_timezone settings = Some tz_key /\
    zone_info tz_key = Some tz /\
    influx_buckets url = Ok bucket_list /\
    bucket ∈ bucket_list /\
    _influx_client eng' = Some url /\
    _bucket eng' = bucket /\
    _timezone eng' = Some tz /\
    _cost_unit eng' = (match set_cost_unit settings with Some u => u | None => "$" end) /\
    _energy_unit eng' = (match set_energy_unit settings with Some u => u | None => "kWh" end) /\
    match set_supplyPriority settings with
    | None => _priority eng' = default_priority
    | Some names =>
        List.length names = 3%nat /\
        map Some (_priority eng') = map from_str names /\
        Permutation (_priority eng') [GRID_SUPPLY; PW_SUPPLY; SOLAR_SUPPLY]
    end.
Proof.
  unfold _init_settings, cls_bind, cls_try, cls_update. intros Hs.
  destruct (cfg_settings config) as [settings|] eqn:Eset; [|discriminate].
  cbn [lift_opt] in Hs.
  destruct (set_influx_url settings) as [url|] eqn:Eurl; [|discriminate].
  cbn [lift_opt] in Hs.
  destruct (set_bucket settings) as [bucket|] eqn:Ebucket; [|discriminate].
  cbn [lift_opt] in Hs.
  destruct (set_timezone settings) as [tz_key|] eqn:Ekey; [|discriminate].
  cbn [lift_opt] in Hs.
  destruct (zone_info tz_key) as [tz|] eqn:Etz; [|discriminate]. cbn [lift_opt] in Hs.
  set (eng1 := set_col_overrides [] _) in Hs.
  set (renaming := match set_rename settings with
                   | Some renames => load_renames renames
                   | None => fun eng => (Ok tt, eng)
                   end) in Hs.
  assert (Hkeep : forall B (attribute : UsageEngine -> B),
             (forall overrides eng, attribute (set_col_overrides overrides eng) = attribute eng) ->
             keeps_attribute attribute renaming).
  { intros B attribute Hset. subst renaming. destruct (set_rename settings).
    - now apply load_renames_keeps_attribute.
    - apply (keeps_attribute_try attribute (Ok tt)). }
  destruct (renaming eng1) as [[[]|e] eng2] eqn:Er; [|discriminate].
  pose proof (Hkeep _ _influx_client ltac:(reflexivity) _ _ _ Er) as Kc.
  pose proof (Hkeep _ _bucket ltac:(reflexivity) _ _ _ Er) as Kb.
  pose proof (Hkeep _ _timezone ltac:(reflexivity) _ _ _ Er) as Kt.
  clearbody renaming. clear Hkeep Er.
  destruct (influx_buckets url) as [bucket_list|] eqn:Eb; [|discriminate].
  destruct (bool_decide_reflect (bucket ∈ bucket_list)) as [Hin|]; [|discriminate].
  exists settings, url, bucket, tz_key, tz, bucket_list.
  do 7 (split; [first [reflexivity | assumption]|]).
  destruct (set_supplyPriority settings) as [names|] eqn:Eprio.
  - destruct (forallb _ default_priority) eqn:Ef; [|discriminate].
    destruct (Nat.eqb_spec (List.length names) 3) as [Hlen|]; [|discriminate].
    cbn [negb orb] in Hs. injection Hs as <-. cbn.
    rewrite Kc, Kb, Kt. subst eng1. cbn.
    do 5 (split; [reflexivity|]). split; [exact Hlen|].
    destruct names as [|n1 [|n2 [|n3 [|]]]]; try discriminate.
    cbn [map] in *. destruct (three_found_permutation _ _ _ Ef). auto.
  - injection Hs as <-. cbn. rewrite Kc, Kb, Kt. subst eng1. cbn.
    repeat split; reflexivity.
Qed.

(** X15: after [_init_settings] returns, the supply priority of the class is
    an ordering of the three supplies (grid, Powerwall, solar), each taken
    once: the default when the settings give none, and otherwise the three
    member names of the settings in the order given. *)
Theorem loaded_priority_orders_supplies `{External} config eng eng' :
  _init_settings config eng = (Ok tt, eng') ->
  Permutation (_priority eng') [GRID_SUPPLY; PW_SUPPLY; SOLAR_SUPPLY] /\
  exists settings,
    cfg_settings config = Some settings /\
    match set_supplyPriority settings with
    | None => _priority eng' = [GRID_SUPPLY; PW_SUPPLY; SOLAR_SUPPLY]
    | Some names => map Some (_priority eng') = map from_str names
    end.
Proof.
  intros Hs. destruct (init_settings_ok _ _ _ Hs)
    as (settings & url & bucket & tz_key & tz & bucket_list & Hset & _ & _ & _ & _ & _ & _
        & _ & _ & _ & _ & _ & Hprio).
  split.
  - destruct (set_supplyPriority settings); [tauto|]. rewrite Hprio. reflexivity.
  - exists settings. split; [exact Hset|].
    destruct (set_supplyPriority settings); [tauto | exact Hprio].
Qed.

Lemma loaded_priority_orders_supplies_witness :
  Permutation (_priority solar_first_engine) [GRID_SUPPLY; PW_SUPPLY; SOLAR_SUPPLY] /\
  exists settings,
    cfg_settings solar_first_config = Some settings /\
    match set_supplyPriority settings with
    | None => _priority solar_first_engine = [GRID_SUPPLY; PW_SUPPLY; SOLAR_SUPPLY]
    | Some names => map Some (_priority solar_first_engine) = map from_str names
    end.
Proof.
  apply (@loaded_priority_orders_supplies example_env solar_first_config fresh_engine).
  vm_compute; reflexivity.
Defined.

(** X16: after [_init_settings] returns, the class holds a client for the
    url of the settings, the zone of the settings' timezone key, and a bucket
    name that the database itself listed; the cost and energy units are the
    ones given, "$" and "kWh" by default. *)
Theorem loaded_settings_are_checked `{External} config eng eng' :
  _init_settings config eng = (Ok tt, eng') ->
  exists settings url tz_key bucket_list,
    cfg_settings config = Some settings /\
    set_influx_url settings = Some url /\ _influx_client eng' = Some url /\
    set_bucket settings = Some (_bucket eng') /\
    influx_buckets url = Ok bucket_list /\ _bucket eng' ∈ bucket_list /\
    set_timezone settings = Some tz_key /\
    _timezone eng' = zone_info tz_key /\ _timezone eng' <> None /\
    _cost_unit eng' = (match set_cost_unit settings with Some u => u | None => "$" end) /\
    _energy_unit eng' = (match set_energy_unit settings with Some u => u | None => "kWh" end).
Proof.
  intros Hs. destruct (init_settings_ok _ _ _ Hs)
    as (settings & url & bucket & tz_key & tz & bucket_list & Hset & Hurl & Hb & Htz & Hzone
        & Hlist & Hin & Hclient & Hbucket & Htime & Hcost & Henergy & _).
  exists settings, url, tz_key, bucket_list. subst bucket.
  repeat split; try assumption; congruence.
Qed.

Lemma loaded_settings_are_checked_witness :
  exists settings url tz_key bucket_list,
    cfg_settings solar_first_config = Some settings /\
    set_influx_url settings = Some url /\ _influx_client solar_first_engine = Some url /\
    set_bucket settings = Some (_bucket solar_first_engine) /\
    @influx_buckets example_env url = Ok bucket_list /\
    _bucket solar_first_engine ∈ bucket_list /\
    set_timezone settings = Some tz_key /\
    _timezone solar_first_engine = @zone_info example_env tz_key /\
    _timezone solar_first_engine <> None /\
    _cost_unit solar_first_engine
    = (match set_cost_unit settings with Some u => u | None => "$" end) /\
    _energy_unit solar_first_engine
    = (match set_energy_unit settings with Some u => u | None => "kWh" end).
Proof.
  apply (@loaded_settings_are_checked example_env solar_first_config fresh_engine).
  vm_compute; reflexivity.
Defined.

Section ClientAttribute.
Context `{External}.

Lemma load_plans_keeps_client plans_json :
  keeps_attribute _influx_client (load_plans plans_json).
Proof.
  induction plans_json as [|data rest IH]; simpl.
  - apply keeps_attribute_try.
  - apply keeps_attribute_bind; [apply keeps_attribute_try|]. intros plan.
    apply keeps_attribute_bind; [|intros _; exact IH].
    apply keeps_attribute_update. reflexivity.
Qed.

Lemma load_calendar_keeps_client calendar_json :
  keeps_attribute _influx_client (_load_calendar calendar_json).
Proof.
  intros eng r eng'. unfold _load_calendar. intros Hl.
  destruct (parse_dates calendar_json []); [|injection Hl as _ <-; reflexivity].
  destruct (load_entries _ _ _ _) as [[[]|e] built]; injection Hl as _ <-; reflexivity.
Qed.

Lemma cls_bind_ok {A B : Type} (a : A) (f : A -> cls B) eng :
  cls_bind (cls_try (Ok a)) f eng = f a eng.
Proof. reflexivity. Qed.

Lemma cls_bind_update {B : Type} (g : UsageEngine -> UsageEngine) (f : unit -> cls B) eng :
  cls_bind (cls_update g) f eng = f tt (g eng).
Proof. reflexivity. Qed.

Ltac client_step :=
  first
    [ apply keeps_attribute_try
    | apply keeps_attribute_update; reflexivity
    | apply load_renames_keeps_attribute; reflexivity
    | apply load_plans_keeps_client
    | apply load_calendar_keeps_client
    | apply keeps_attribute_bind; [|intros ?] ].

(** Once the settings name a url, [_init_settings] leaves a client for it,
    also when it raises further on. *)
Lemma init_settings_client config settings url eng r eng' :
  cfg_settings config = Some settings ->
  set_influx_url settings = Some url ->
  _init_settings config eng = (r, eng') ->
  _influx_client eng' = Some url.
Proof.
  intros Hset Hurl. unfold _init_settings.
  rewrite Hset. cbn [lift_opt]. rewrite cls_bind_ok. cbv beta.
  rewrite Hurl. cbn [lift_opt]. rewrite cls_bind_ok. cbv beta.
  rewrite cls_bind_update. cbv beta.
  match goal with
  | |- ?m ?e = _ -> _ =>
      assert (Hk : keeps_attribute _influx_client m); [|intros Hm; now rewrite (Hk _ _ _ Hm)]
  end.
  do 6 (apply keeps_attribute_bind; [client_step | intros ?]).
  apply keeps_attribute_bind; [destruct (set_rename _); client_step | intros ?].
  apply keeps_attribute_bind; [client_step | intros ?].
  apply keeps_attribute_bind; [destruct (bool_decide _); repeat client_step | intros ?].
  apply keeps_attribute_bind; [client_step | intros ?].
  apply keeps_attribute_bind;
    [destruct (set_supplyPriority _); [destruct (_ || _)%bool|]; client_step | intros ?].
  client_step.
Qed.

(** Without a settings section or without a url in it, [_init_settings]
    raises before it touches the class. *)
Lemma init_settings_no_url config eng :
  cfg_settings config = None \/
  (exists settings, cfg_settings config = Some settings /\ set_influx_url settings = None) ->
  _init_settings config eng = (Raise KeyError, eng).
Proof.
  unfold _init_settings. intros [Hset|(settings & Hset & Hurl)]; rewrite Hset.
  - reflexivity.
  - cbn [lift_opt]. rewrite cls_bind_ok. cbv beta. rewrite Hurl. reflexivity.
Qed.

Lemma reload_config_client config settings url eng r eng' :
  cfg_settings config = Some settings ->
  set_influx_url settings = Some url ->
  reload_config (Ok config) eng = (r, eng') ->
  _influx_client eng' = Some url.
Proof.
  intros Hset Hurl. unfold reload_config.
  rewrite cls_bind_ok. cbv beta. unfold cls_bind at 1.
  destruct (_init_settings config eng) as [[[]|e] eng1] eqn:Es.
  - pose proof (init_settings_client _ _ _ _ _ _ Hset Hurl Es) as Hc.
    rewrite <- Hc.
    match goal with
    | |- ?m ?e = _ -> _ =>
        assert (Hk : keeps_attribute _influx_client m);
          [|intros Hm; exact (Hk _ _ _ Hm)]
    end.
    repeat client_step.
  - intros Hm. injection Hm as _ <-. eapply init_settings_client; eauto.
Qed.
End ClientAttribute.

(** X17: the constructor of the engine reloads the configuration only while
    the class has no InfluxDB client, and [reload_config] creates the client
    before it validates anything else.  So once a configuration with a
    settings url was read, every later construction returns without
    reloading, whether that load succeeded or raised part-way; a load that
    fails for want of settings or of a url leaves the class untouched, and
    the next construction on a class without a client loads again. *)
Theorem failed_load_is_not_retried `{External} config eng r eng' :
  reload_config (Ok config) eng = (r, eng') ->
  (forall settings url,
      cfg_settings config = Some settings -> set_influx_url settings = Some url ->
      forall config_file, UsageEngine__init__ config_file eng' = (Ok tt, eng')) /\
  (cfg_settings config = None \/
   (exists settings, cfg_settings config = Some settings /\ set_influx_url settings = None) ->
   r = Raise KeyError /\ eng' = eng /\
   (_influx_client eng = None ->
    forall config_file,
      UsageEngine__init__ config_file eng' = reload_config config_file eng')).
Proof.
  intros Hr. split.
  - intros settings url Hset Hurl config_file. unfold UsageEngine__init__.
    now rewrite (reload_config_client _ _ _ _ _ _ Hset Hurl Hr).
  - intros Hmiss. unfold reload_config, cls_bind, cls_try in Hr.
    rewrite (init_settings_no_url _ _ Hmiss) in Hr. injection Hr as <- <-.
    split; [reflexivity|]. split; [reflexivity|].
    intros Hnone config_file. unfold UsageEngine__init__. now rewrite Hnone.
Qed.

Lemma failed_load_is_not_retried_witness :
  (forall settings url,
      cfg_settings broken_config = Some settings -> set_influx_url settings = Some url ->
      forall config_file,
        @UsageEngine__init__ example_env config_file
          (snd (@reload_config example_env (Ok broken_config) fresh_engine))
        = (Ok tt, snd (@reload_config example_env (Ok broken_config) fresh_engine))) /\
  (cfg_settings broken_config = None \/
   (exists settings,
       cfg_settings broken_config = Some settings /\ set_influx_url settings = None) ->
   fst (@reload_config example_env (Ok broken_config) fresh_engine) = Raise KeyError /\
   snd (@reload_config example_env (Ok broken_config) fresh_engine) = fresh_engine /\
   (_influx_client fresh_engine = None ->
    forall config_file,
      @UsageEngine__init__ example_env config_file
        (snd (@reload_config example_env (Ok broken_config) fresh_engine))
      = @reload_config example_env config_file
          (snd (@reload_config example_env (Ok broken_config) fresh_engine)))).
Proof.
  apply (@failed_load_is_not_retried example_env broken_config fresh_engine).
  vm_compute; reflexivity.
Defined.

(* ================================================================== *)
(** * The request: which columns the calendar walk writes *)

Lemma append_nonempty (a b : string) : b <> EmptyString -> a +:+ b <> EmptyString.
Proof. destruct a; simpl; [auto | discriminate]. Qed.

Lemma last_char_app (a b : string) :
  b <> EmptyString -> last_char (a +:+ b) = last_char b.
Proof.
  intros Hb. induction a as [|c a IH]; [reflexivity|].
  simpl. destruct (a +:+ b) eqn:E; [|exact IH].
  exfalso. eapply append_nonempty; eauto.
Qed.

Lemma report_name_last tariff name unit :
  last_char (report_name tariff name unit) = Some ")"%char.
Proof.
  unfold report_name.
  assert (H1 : unit +:+ ")" <> EmptyString) by (apply append_nonempty; discriminate).
  assert (H2 : " (" +:+ unit +:+ ")" <> EmptyString) by (apply append_nonempty; exact H1).
  assert (H3 : name +:+ " (" +:+ unit +:+ ")" <> EmptyString)
    by (apply append_nonempty; exact H2).
  assert (H4 : " " +:+ name +:+ " (" +:+ unit +:+ ")" <> EmptyString)
    by (apply append_nonempty; exact H3).
  rewrite (last_char_app _ _ H4), (last_char_app _ _ H3), (last_char_app _ _ H2),
    (last_char_app _ _ H1), last_char_app by discriminate.
  reflexivity.
Qed.

Lemma value_plain c : last_char (value c) <> Some ")"%char.
Proof. destruct c; discriminate. Qed.

Lemma energy_report_names_last eng tariff columns c :
  In c (energy_report_names eng tariff columns) -> last_char c = Some ")"%char.
Proof.
  unfold energy_report_names. intros Hin. apply in_map_iff in Hin.
  destruct Hin as (column & <- & _). apply report_name_last.
Qed.

Lemma cost_report_names_last tariff rates cost_unit col_override c :
  In c (cost_report_names tariff rates cost_unit col_override) ->
  last_char c = Some ")"%char.
Proof.
  unfold cost_report_names. intros Hin. apply in_map_iff in Hin.
  destruct Hin as ([column rate] & <- & _). apply report_name_last.
Qed.

Lemma loc_assign_other df idx c new c' :
  c <> c' -> dget c' (df_data (loc_assign df idx c new)) = dget c' (df_data df).
Proof. intros Hne. unfold loc_assign, set_col. cbn [df_data]. now apply dget_dset_ne. Qed.

Lemma energy_report_columns_other eng tariff tariff_idx columns req req' c :
  energy_report_columns eng tariff tariff_idx columns req = Ok req' ->
  ~ In c (energy_report_names eng tariff columns) ->
  dget c (df_data (_frame req')) = dget c (df_data (_frame req)).
Proof.
  revert req. induction columns as [|column rest IH]; intros req Hrun Hc.
  - simpl in Hrun. apply Ok_inj in Hrun. now subst.
  - cbn [energy_report_columns] in Hrun. unfold energy_report_names in Hc, IH.
    cbn [List.filter] in Hc.
    destruct (bool_decide (column ∈ [TIME; TARIFF; SUPPLY_CHARGE])); cbn [negb] in Hc;
      [now apply IH|].
    cbn [map] in Hc. inv_ok Hrun.
    rewrite (IH _ Hrun) by (intros Hin; apply Hc; right; exact Hin).
    cbn [_frame]. apply loc_assign_other. intros E. apply Hc. left. exact E.
Qed.

Lemma simple_agent_usage_other tariff tariff_idx rates cost_unit col_override req req' c :
  simple_agent_usage tariff tariff_idx rates cost_unit col_override req = Ok req' ->
  ~ In c (cost_report_names tariff rates cost_unit col_override) ->
  dget c (df_data (_frame req')) = dget c (df_data (_frame req)).
Proof.
  revert req. induction rates as [|[energy_column rate] rest IH]; intros req Hrun Hc.
  - simpl in Hrun. apply Ok_inj in Hrun. now subst.
  - cbn [simple_agent_usage] in Hrun. unfold cost_report_names in Hc, IH. cbn [map] in Hc.
    assert (Hrest : ~ In c (map (fun '(energy_column, _) =>
                report_name tariff (value_with_override energy_column col_override) cost_unit)
              rest)) by (intros Hin; apply Hc; right; exact Hin).
    assert (Hhead : report_name tariff (value_with_override energy_column col_override)
                                cost_unit <> c) by (intros E; apply Hc; left; exact E).
    destruct (bool_decide (energy_column = SUPPLY_CHARGE)).
    + rewrite (IH _ Hrun Hrest). cbn [_frame]. unfold loc_assign_scalar.
      now apply loc_assign_other.
    + destruct (negb (dmem (value energy_column) (df_data (_frame req)))); [discriminate|].
      inv_ok Hrun. rewrite (IH _ Hrun Hrest). cbn [_frame]. now apply loc_assign_other.
Qed.

(** A column that is neither Tariff nor named like a report column. *)
Lemma add_energy_reports_plain eng tariff tariff_idx usage_plan req req' c :
  _add_energy_reports eng tariff tariff_idx usage_plan req = Ok req' ->
  c <> value TARIFF -> last_char c <> Some ")"%char ->
  dget c (df_data (_frame req')) = dget c (df_data (_frame req)).
Proof.
  unfold _add_energy_reports. intros Hrun Ht Hc.
  rewrite (energy_report_columns_other _ _ _ _ _ _ c Hrun).
  - cbn [_frame]. unfold loc_assign_scalar. apply loc_assign_other. congruence.
  - intros Hin. apply energy_report_names_last in Hin. contradiction.
Qed.

Lemma simple_agent_usage_plain tariff tariff_idx rates cost_unit col_override req req' c :
  simple_agent_usage tariff tariff_idx rates cost_unit col_override req = Ok req' ->
  last_char c <> Some ")"%char ->
  dget c (df_data (_frame req')) = dget c (df_data (_frame req)).
Proof.
  intros Hrun Hc. apply (simple_agent_usage_other _ _ _ _ _ _ _ _ Hrun).
  intros Hin. apply cost_report_names_last in Hin. contradiction.
Qed.

Section PlainColumns.
Variables (eng : UsageEngine) (c : string).
Hypothesis (Htariff : c <> value TARIFF) (Hplain : last_char c <> Some ")"%char).

Lemma apply_periods_plain entry usage_plan schedule day_idx periods req req' :
  apply_periods eng entry usage_plan schedule day_idx periods req = Ok req' ->
  dget c (df_data (_frame req')) = dget c (df_data (_frame req)).
Proof.
  revert req. induction periods as [|period rest IH]; intros req Hrun.
  - simpl in Hrun. apply Ok_inj in Hrun. now subst.
  - cbn [apply_periods] in Hrun.
    destruct (tariff_index schedule period day_idx) as [|t0 idx]; [now apply IH|].
    inv_ok Hrun. rewrite (IH _ Hrun). destruct (up_agent_class usage_plan).
    rewrite (simple_agent_usage_plain _ _ _ _ _ _ _ c Ha1 Hplain).
    apply (add_energy_reports_plain _ _ _ _ _ _ c Ha Htariff Hplain).
Qed.

Lemma apply_schedules_plain entry usage_plan season_idx schedules req req' :
  apply_schedules eng entry usage_plan season_idx schedules req = Ok req' ->
  dget c (df_data (_frame req')) = dget c (df_data (_frame req)).
Proof.
  revert req. induction schedules as [|schedule rest IH]; intros req Hrun.
  - simpl in Hrun. apply Ok_inj in Hrun. now subst.
  - cbn [apply_schedules] in Hrun.
    destruct (day_index schedule season_idx) as [|t0 idx]; [now apply IH|].
    inv_ok Hrun. rewrite (IH _ Hrun). now apply apply_periods_plain in Ha.
Qed.

Lemma apply_calendar_plain entry season_start season_end req req' :
  _apply_calendar eng entry season_start season_end req = Ok req' ->
  dget c (df_data (_frame req')) = dget c (df_data (_frame req)).
Proof.
  unfold _apply_calendar. intros Hrun.
  destruct (season_index (df_index (_frame req)) season_start season_end);
    [apply Ok_inj in Hrun; now subst|].
  inv_ok Hrun. now apply apply_schedules_plain in Hrun.
Qed.

Lemma process_periodic_data_plain range_start range_stop req req' :
  _process_periodic_data eng range_start range_stop req = Ok req' ->
  dget c (df_data (_frame req')) = dget c (df_data (_frame req)).
Proof.
  unfold _process_periodic_data. rewrite periodic_loop_subranges.
  generalize (subranges (dvalues (_calendar eng)) range_stop range_start). intros l.
  revert req. induction l as [|[[entry a] b] l IH]; intros req Hrun.
  - simpl in Hrun. apply Ok_inj in Hrun. now subst.
  - cbn [apply_subranges] in Hrun. inv_ok Hrun. rewrite (IH _ Hrun).
    now apply apply_calendar_plain in Ha.
Qed.
End PlainColumns.

(** X18: the calendar walk writes only the Tariff column and the per-tariff
    report columns.  When it returns, the frame has the index it started
    with, every column whose name is not Tariff and does not end in a closing
    parenthesis is exactly as it was, and so are in particular the measured
    and derived columns of [PDColName] other than Tariff. *)
Theorem calendar_walk_keeps_flow_columns eng range_start range_stop req req' :
  _process_periodic_data eng range_start range_stop req = Ok req' ->
  df_index (_frame req') = df_index (_frame req) /\
  (forall c, c <> value TARIFF -> last_char c <> Some ")"%char ->
             dget c (df_data (_frame req')) = dget c (df_data (_frame req))) /\
  (forall column, column <> TARIFF ->
                  dget (value column) (df_data (_frame req'))
                  = dget (value column) (df_data (_frame req))).
Proof.
  intros Hrun. split; [eapply process_periodic_data_index; eauto|]. split.
  - intros c Ht Hc. eapply process_periodic_data_plain; eauto.
  - intros column Hne. eapply process_periodic_data_plain; eauto.
    + intros E. apply value_inj in E. contradiction.
    + apply value_plain.
Qed.

Lemma calendar_walk_keeps_flow_columns_witness :
  df_index (_frame weekend_processed) = df_index (_frame (mkRequest weekend_core [])) /\
  (forall c, c <> value TARIFF -> last_char c <> Some ")"%char ->
             dget c (df_data (_frame weekend_processed))
             = dget c (df_data (_frame (mkRequest weekend_core [])))) /\
  (forall column, column <> TARIFF ->
                  dget (value column) (df_data (_frame weekend_processed))
                  = dget (value column) (df_data (_frame (mkRequest weekend_core [])))).
Proof.
  apply (calendar_walk_keeps_flow_columns loaded_engine weekend_start weekend_stop).
  vm_compute; reflexivity.
Defined.

(* ================================================================== *)
(** * The request: what the rows of a tariff period receive *)

Lemma nth_const {A : Type} (l : list Z) (x d : A) (i : nat) :
  (i < List.length l)%nat -> nth i (map (fun _ => x) l) d = x.
Proof.
  revert i. induction l as [|y l IH]; intros [|i] Hi; simpl in *; try lia; auto.
  apply IH. lia.
Qed.

Lemma loc_assign_inside df idx c new (i : nat) t :
  nth_error (df_index df) i = Some t -> isin t idx = true ->
  cell_of (loc_assign df idx c new) c i = nth i new NaN.
Proof.
  intros Hi Hin. unfold cell_of, loc_assign, set_col. cbn [df_data].
  now rewrite dget_dset_eq, (loc_merge_nth _ _ _ _ _ _ Hi), Hin.
Qed.

Lemma loc_assign_scalar_cell df idx c x (i : nat) t :
  nth_error (df_index df) i = Some t ->
  cell_of (loc_assign_scalar df idx c x) c i
  = if isin t idx then x else cell_of df c i.
Proof.
  intros Hi. unfold loc_assign_scalar, cell_of, loc_assign, set_col. cbn [df_data].
  rewrite dget_dset_eq, (loc_merge_nth _ _ _ _ _ _ Hi).
  destruct (isin t idx).
  - apply nth_const. apply nth_error_Some. congruence.
  - destruct (dget c (df_data df)); [reflexivity | apply nth_all_NaN].
Qed.

Lemma cell_of_other df df' c (i : nat) :
  dget c (df_data df') = dget c (df_data df) -> cell_of df' c i = cell_of df c i.
Proof. unfold cell_of. now intros ->. Qed.

Lemma col_cell_of df c s (i : nat) : col df c = Ok s -> nth i s NaN = cell_of df c i.
Proof.
  unfold col, dindex, cell_of. destruct (dget c (df_data df)); [|discriminate].
  intros E. apply Ok_inj in E. now subst.
Qed.

Lemma loc_times_inside df_index idx s rate cost (i : nat) t x :
  loc_times df_index idx s rate = Ok cost ->
  nth_error df_index i = Some t -> isin t idx = true ->
  nth i s NaN = Num x -> nth i cost NaN = round64 (x * rate).
Proof.
  revert s cost i. induction df_index as [|t0 rest IH]; intros s cost i Hl Hi Hin Hx.
  - destruct i; discriminate.
  - destruct s as [|y s]; [destruct i; discriminate|].
    cbn [loc_times] in Hl. inv_ok Hl. apply Ok_inj in Hl. subst cost.
    destruct i as [|i]; simpl in Hi, Hx |- *.
    + injection Hi as ->. subst y. rewrite Hin in Ha. cbn [cell_arith float_mul] in Ha.
      apply Ok_inj in Ha. now subst.
    + eapply IH; eauto.
Qed.

(** The Tariff cell of a row after the reports and the agent of one tariff
    period ran. *)
Lemma add_energy_reports_tariff eng tariff tariff_idx usage_plan req req' (i : nat) t :
  _add_energy_reports eng tariff tariff_idx usage_plan req = Ok req' ->
  nth_error (df_index (_frame req)) i = Some t ->
  cell_of (_frame req') (value TARIFF) i
  = if isin t tariff_idx then Str tariff else cell_of (_frame req) (value TARIFF) i.
Proof.
  unfold _add_energy_reports. intros Hrun Hi.
  rewrite (cell_of_other _ _ _ _ (energy_report_columns_other _ _ _ _ _ _ _ Hrun
             ltac:(intros Hin; apply energy_report_names_last in Hin;
                    exact (value_plain TARIFF Hin)))).
  cbn [_frame]. now apply loc_assign_scalar_cell.
Qed.

Lemma energy_report_columns_copies eng tariff tariff_idx columns req req' (i : nat) t :
  energy_report_columns eng tariff tariff_idx columns req = Ok req' ->
  nth_error (df_index (_frame req)) i = Some t -> isin t tariff_idx = true ->
  List.NoDup (energy_report_names eng tariff columns) ->
  forall column,
    In column columns -> column ∉ [TIME; TARIFF; SUPPLY_CHARGE] ->
    cell_of (_frame req')
            (report_name tariff (value_with_override column (_col_overrides eng))
                         (_energy_unit eng)) i
    = cell_of (_frame req) (value column) i.
Proof.
  revert req. induction columns as [|column0 rest IH]; intros req Hrun Hi Hin Hnd column Hc Hsp.
  - contradiction.
  - cbn [energy_report_columns] in Hrun. unfold energy_report_names in Hnd, IH.
    cbn [List.filter] in Hnd.
    destruct (bool_decide_reflect (column0 ∈ [TIME; TARIFF; SUPPLY_CHARGE])) as [Hs0|Hs0];
      cbn [negb] in Hnd.
    + destruct Hc as [->|Hc]; [contradiction|]. now apply IH.
    + cbn [map] in Hnd. inversion Hnd as [|? ? Hfresh Hnd']; subst.
      inv_ok Hrun. rename a into data.
      set (name0 := report_name tariff (value_with_override column0 (_col_overrides eng))
                                (_energy_unit eng)) in *.
      destruct Hc as [->|Hc].
      * rewrite (cell_of_other _ _ _ _
                   (energy_report_columns_other _ _ _ _ _ _ name0 Hrun Hfresh)).
        cbn [_frame]. rewrite (loc_assign_inside _ _ _ _ _ _ Hi Hin).
        now apply col_cell_of.
      * rewrite (IH _ Hrun Hi Hin Hnd' column Hc Hsp). cbn [_frame].
        apply cell_of_other, loc_assign_other.
        intros E. apply (value_plain column). rewrite <- E. apply report_name_last.
Qed.

(** X19: in the rows of a tariff period, [_add_energy_reports] writes the
    tariff name into the Tariff column and, when the report names of the plan
    are distinct, copies every report column of the plan other than TIME,
    TARIFF and SUPPLY_CHARGE into the per-tariff column named after it. *)
Theorem energy_reports_fill_period_rows eng tariff tariff_idx usage_plan req req' (i : nat) t :
  _add_energy_reports eng tariff tariff_idx usage_plan req = Ok req' ->
  nth_error (df_index (_frame req)) i = Some t ->
  isin t tariff_idx = true ->
  cell_of (_frame req') (value TARIFF) i = Str tariff /\
  (List.NoDup (energy_report_names eng tariff (up_report_cols usage_plan)) ->
   forall column,
     In column (up_report_cols usage_plan) -> column ∉ [TIME; TARIFF; SUPPLY_CHARGE] ->
     cell_of (_frame req')
             (report_name tariff (value_with_override column (_col_overrides eng))
                          (_energy_unit eng)) i
     = cell_of (_frame req) (value column) i).
Proof.
  intros Hrun Hi Hin. split.
  - now rewrite (add_energy_reports_tariff _ _ _ _ _ _ _ _ Hrun Hi), Hin.
  - intros Hnd column Hc Hsp. unfold _add_energy_reports in Hrun.
    rewrite (energy_report_columns_copies _ _ _ _ _ _ _ _ Hrun Hi Hin Hnd column Hc Hsp).
    cbn [_frame]. unfold loc_assign_scalar. apply cell_of_other, loc_assign_other.
    intros E. apply value_inj in E. subst column. apply Hsp.
    apply elem_of_cons. right. apply elem_of_cons. left. reflexivity.
Qed.

Lemma energy_reports_fill_period_rows_witness :
  cell_of (_frame monday_reports) (value TARIFF) 1 = Str "flat" /\
  (List.NoDup (energy_report_names loaded_engine "flat"
                 [GRID_TO_HOME; SELF_TOTAL]) ->
   forall column,
     In column [GRID_TO_HOME; SELF_TOTAL] -> column ∉ [TIME; TARIFF; SUPPLY_CHARGE] ->
     cell_of (_frame monday_reports)
             (report_name "flat" (value_with_override column (_col_overrides loaded_engine))
                          (_energy_unit loaded_engine)) 1
     = cell_of (_frame (mkRequest weekend_core [])) (value column) 1).
Proof.
  apply (energy_reports_fill_period_rows loaded_engine "flat" [monday_6am]
           (mkPlan "P" SimpleAgent [GRID_TO_HOME; SELF_TOTAL] [])
           (mkRequest weekend_core []) monday_reports 1 monday_6am).
  - vm_compute; reflexivity.
  - vm_compute; reflexivity.
  - vm_compute; reflexivity.
Defined.

(** X20: in the rows of a tariff period, and when the cost names of the
    rate table are distinct, [SimpleAgent.usage] writes into the cost column
    of each rate the float64 product of the energy of that row and the rate,
    and for the supply charge the rate itself; a rate for a column the frame
    lacks raises KeyError. *)
Theorem simple_agent_costs_period_rows tariff tariff_idx rates cost_unit col_override
    req req' (i : nat) t :
  simple_agent_usage tariff tariff_idx rates cost_unit col_override req = Ok req' ->
  nth_error (df_index (_frame req)) i = Some t ->
  isin t tariff_idx = true ->
  List.NoDup (cost_report_names tariff rates cost_unit col_override) ->
  forall energy_column rate,
    In (energy_column, rate) rates ->
    (energy_column = SUPPLY_CHARGE ->
     cell_of (_frame req')
             (report_name tariff (value_with_override energy_column col_override) cost_unit) i
     = Num rate) /\
    (energy_column <> SUPPLY_CHARGE ->
     dmem (value energy_column) (df_data (_frame req)) = true /\
     forall x,
       cell_of (_frame req) (value energy_column) i = Num x ->
       cell_of (_frame req')
               (report_name tariff (value_with_override energy_column col_override) cost_unit) i
       = round64 (x * rate)).
Proof.
  revert req. induction rates as [|[column0 rate0] rest IH];
    intros req Hrun Hi Hin Hnd energy_column rate Hc; [contradiction|].
  cbn [simple_agent_usage] in Hrun. unfold cost_report_names in Hnd, IH. cbn [map] in Hnd.
  inversion Hnd as [|? ? Hfresh Hnd']; subst.
  set (name0 := report_name tariff (value_with_override column0 col_override) cost_unit) in *.
  assert (Hplain : forall column : PDColName, name0 <> value column).
  { intros column E. apply (value_plain column). rewrite <- E. apply report_name_last. }
  destruct (bool_decide_reflect (column0 = SUPPLY_CHARGE)) as [Hs0|Hs0].
  - destruct Hc as [E|Hc].
    + injection E as <- <-. split; [|contradiction]. intros _.
      rewrite (cell_of_other _ _ _ _
                 (simple_agent_usage_other _ _ _ _ _ _ _ name0 Hrun Hfresh)).
      cbn [_frame]. now rewrite (loc_assign_scalar_cell _ _ _ _ _ _ Hi), Hin.
    + destruct (IH _ Hrun Hi Hin Hnd' energy_column rate Hc) as [K1 K2].
      split; [exact K1|]. intros Hne. destruct (K2 Hne) as [Km Kx]. cbn [_frame] in Km, Kx.
      unfold loc_assign_scalar in Km, Kx.
      split.
      * unfold dmem in *. now rewrite loc_assign_other in Km by apply Hplain.
      * intros x Hx. apply Kx.
        rewrite (cell_of_other (_frame req)); [exact Hx|]. apply loc_assign_other, Hplain.
  - destruct (dmem (value column0) (df_data (_frame req))) eqn:Em; [|discriminate].
    cbn [negb] in Hrun. inv_ok Hrun. rename a into data, a0 into cost.
    destruct Hc as [E|Hc].
    + injection E as <- <-. split; [contradiction|]. intros _. split; [exact Em|].
      intros x Hx.
      rewrite (cell_of_other _ _ _ _
                 (simple_agent_usage_other _ _ _ _ _ _ _ name0 Hrun Hfresh)).
      cbn [_frame]. rewrite (loc_assign_inside _ _ _ _ _ _ Hi Hin).
      eapply loc_times_inside; eauto. now rewrite (col_cell_of _ _ _ _ Ha).
    + destruct (IH _ Hrun Hi Hin Hnd' energy_column rate Hc) as [K1 K2].
      split; [exact K1|]. intros Hne. destruct (K2 Hne) as [Km Kx]. cbn [_frame] in Km, Kx.
      split.
      * unfold dmem in *. now rewrite loc_assign_other in Km by apply Hplain.
      * intros x Hx. apply Kx.
        rewrite (cell_of_other (_frame req)); [exact Hx|]. apply loc_assign_other, Hplain.
Qed.

Lemma simple_agent_costs_period_rows_witness :
  (GRID_TO_HOME = SUPPLY_CHARGE ->
   cell_of (_frame monday_costs)
           (report_name "flat" (value_with_override GRID_TO_HOME []) "$") 1
   = Num float_0_3) /\
  (GRID_TO_HOME <> SUPPLY_CHARGE ->
   dmem (value GRID_TO_HOME) (df_data (_frame monday_reports)) = true /\
   forall x,
     cell_of (_frame monday_reports) (value GRID_TO_HOME) 1 = Num x ->
     cell_of (_frame monday_costs)
             (report_name "flat" (value_with_override GRID_TO_HOME []) "$") 1
     = round64 (x * float_0_3)).
Proof.
  apply (simple_agent_costs_period_rows "flat" [monday_6am]
           [(GRID_TO_HOME, float_0_3); (SUPPLY_CHARGE, 1%Q)] "$" []
           monday_reports monday_costs 1 monday_6am).
  - vm_compute; reflexivity.
  - vm_compute; reflexivity.
  - vm_compute; reflexivity.
  - vm_compute. repeat constructor; simpl; intuition discriminate.
  - left; reflexivity.
Defined.

(* ================================================================== *)
(** * The request: periods without rates, and the tariff of covered rows *)

Lemma apply_calendar_index eng entry season_start season_end req req' :
  _apply_calendar eng entry season_start season_end req = Ok req' ->
  df_index (_frame req') = df_index (_frame req).
Proof.
  unfold _apply_calendar. intros Hrun.
  destruct (season_index (df_index (_frame req)) season_start season_end);
    [apply Ok_inj in Hrun; now subst|].
  inv_ok Hrun. now apply apply_schedules_index in Hrun.
Qed.

Lemma tariff_index_nil schedule period : tariff_index schedule period [] = [].
Proof. unfold tariff_index. destruct (Nat.eqb _ 1); reflexivity. Qed.

Section UnpricedPeriod.
Variables (eng : UsageEngine) (entry : CalendarEntry).

Lemma apply_periods_unpriced usage_plan schedule day_idx periods period req :
  In period periods ->
  tariff_index schedule period day_idx <> [] ->
  dget (tp_tariff period) (ce_tariffs entry) = None ->
  is_ok (apply_periods eng entry usage_plan schedule day_idx periods req) = false.
Proof.
  revert req. induction periods as [|p0 rest IH]; intros req Hin Hidx Hrate; [contradiction|].
  cbn [apply_periods].
  destruct (tariff_index schedule p0 day_idx) as [|t0 idx] eqn:E0.
  - destruct Hin as [->|Hin]; [congruence|]. now apply IH.
  - destruct (_add_energy_reports eng (tp_tariff p0) (t0 :: idx) usage_plan req)
      as [req1|err]; [|reflexivity].
    cbn [rbind]. destruct Hin as [->|Hin].
    + unfold dindex. rewrite Hrate. reflexivity.
    + destruct (dindex (tp_tariff p0) (ce_tariffs entry)) as [rates|err]; [|reflexivity].
      cbn [rbind]. destruct (agent_usage _ _ _ _ _ _ req1) as [req2|err]; [|reflexivity].
      cbn [rbind]. now apply IH.
Qed.

Lemma apply_schedules_unpriced usage_plan season_idx schedules schedule period req :
  In schedule schedules -> In period (ts_periods schedule) ->
  tariff_index schedule period (day_index schedule season_idx) <> [] ->
  dget (tp_tariff period) (ce_tariffs entry) = None ->
  is_ok (apply_schedules eng entry usage_plan season_idx schedules req) = false.
Proof.
  revert req. induction schedules as [|s0 rest IH]; intros req Hs Hp Hidx Hrate;
    [contradiction|].
  cbn [apply_schedules].
  destruct (day_index s0 season_idx) as [|t0 idx] eqn:E0.
  - destruct Hs as [->|Hs]; [|now apply IH].
    rewrite E0, tariff_index_nil in Hidx. congruence.
  - destruct Hs as [->|Hs].
    + rewrite E0 in Hidx.
      pose proof (apply_periods_unpriced usage_plan schedule (t0 :: idx) _ _ req Hp Hidx Hrate)
        as Hfail.
      destruct (apply_periods _ _ _ _ _ _ req); [discriminate | reflexivity].
    + destruct (apply_periods _ _ _ _ _ _ req) as [req1|err]; [|reflexivity].
      cbn [rbind]. now apply IH.
Qed.

Lemma apply_calendar_unpriced season_start season_end usage_plan schedules schedule period
    req t :
  dget (ce_plan entry) (_plans eng) = Some usage_plan ->
  dget (ce_season entry) (up_seasons usage_plan) = Some schedules ->
  In schedule (dvalues schedules) -> In period (ts_periods schedule) ->
  In t (df_index (_frame req)) ->
  in_period_mask schedule period season_start season_end t = true ->
  dget (tp_tariff period) (ce_tariffs entry) = None ->
  is_ok (_apply_calendar eng entry season_start season_end req) = false.
Proof.
  intros Hplan Hseason Hs Hp Ht Hmask Hrate. unfold _apply_calendar.
  assert (Hin : In t (tariff_index schedule period
                        (day_index schedule
                           (season_index (df_index (_frame req)) season_start season_end))))
    by (apply tariff_index_mask; auto).
  destruct (season_index (df_index (_frame req)) season_start season_end) as [|t0 idx] eqn:E0.
  - unfold day_index in Hin. simpl in Hin. rewrite tariff_index_nil in Hin. contradiction.
  - unfold dindex, season_schedules, dindex. rewrite Hplan. cbn [lift_opt rbind].
    rewrite Hseason. cbn [lift_opt rbind].
    eapply apply_schedules_unpriced; eauto.
    intros E. rewrite E in Hin. contradiction.
Qed.
End UnpricedPeriod.

(** X21: loading checks that every tariff the calendar prices labels a
    period, but not that every period is priced.  A request whose window
    holds a row in a period for whose tariff the calendar entry has no rate
    table does not return: the lookup of the rates raises KeyError unless an
    earlier step of the walk already failed. *)
Theorem unpriced_period_fails_request eng range_start range_stop req
    entry season_start season_end usage_plan schedules schedule period t :
  In (entry, season_start, season_end)
     (subranges (dvalues (_calendar eng)) range_stop range_start) ->
  dget (ce_plan entry) (_plans eng) = Some usage_plan ->
  dget (ce_season entry) (up_seasons usage_plan) = Some schedules ->
  In schedule (dvalues schedules) ->
  In period (ts_periods schedule) ->
  In t (df_index (_frame req)) ->
  in_period_mask schedule period season_start season_end t = true ->
  dget (tp_tariff period) (ce_tariffs entry) = None ->
  is_ok (_process_periodic_data eng range_start range_stop req) = false.
Proof.
  intros Hin Hplan Hseason Hs Hp Ht Hmask Hrate.
  unfold _process_periodic_data. rewrite periodic_loop_subranges.
  revert Hin. generalize (subranges (dvalues (_calendar eng)) range_stop range_start).
  intros l. revert req Ht. induction l as [|[[e0 a] b] l IH]; intros req Ht Hin; [contradiction|].
  cbn [apply_subranges]. destruct Hin as [E|Hin].
  - injection E as -> -> ->.
    pose proof (apply_calendar_unpriced eng entry season_start season_end _ _ _ _ req t
                  Hplan Hseason Hs Hp Ht Hmask Hrate) as Hfail.
    destruct (_apply_calendar eng entry season_start season_end req); [discriminate|reflexivity].
  - destruct (_apply_calendar eng e0 a b req) as [req1|err] eqn:E1; [|reflexivity].
    cbn [rbind]. apply IH; [|exact Hin].
    now rewrite (apply_calendar_index _ _ _ _ _ _ E1).
Qed.

Lemma unpriced_period_fails_request_witness :
  fst (@reload_config example_env (Ok unpriced_config) fresh_engine) = Ok tt /\
  is_ok (_process_periodic_data unpriced_engine (19359 * MICROS_PER_DAY)
           (19360 * MICROS_PER_DAY) (mkRequest monday_3pm_frame [])) = false.
Proof.
  split; [vm_compute; reflexivity|].
  eapply (unpriced_period_fails_request unpriced_engine _ _ _ _ _ _ _ _ _
            (mkPeriod "peak" (14 * 3600000000) (20 * 3600000000)) monday_3pm).
  - vm_compute. left. reflexivity.
  - vm_compute; reflexivity.
  - vm_compute; reflexivity.
  - vm_compute. left. reflexivity.
  - vm_compute. left. reflexivity.
  - vm_compute. left. reflexivity.
  - vm_compute; reflexivity.
  - vm_compute; reflexivity.
Defined.

Section CoveredRows.
Variables (eng : UsageEngine) (i : nat) (t : Z).

Lemma apply_periods_tagged entry usage_plan schedule day_idx periods req req' :
  apply_periods eng entry usage_plan schedule day_idx periods req = Ok req' ->
  nth_error (df_index (_frame req)) i = Some t ->
  (cell_of (_frame req') (value TARIFF) i = cell_of (_frame req) (value TARIFF) i /\
   forall period, In period periods -> ~ In t (tariff_index schedule period day_idx)) \/
  exists period,
    In period periods /\ In t (tariff_index schedule period day_idx) /\
    cell_of (_frame req') (value TARIFF) i = Str (tp_tariff period).
Proof.
  revert req. induction periods as [|p0 rest IH]; intros req Hrun Hi.
  - simpl in Hrun. apply Ok_inj in Hrun. subst. left. split; [reflexivity | intros ? []].
  - cbn [apply_periods] in Hrun.
    destruct (tariff_index schedule p0 day_idx) as [|t0 idx] eqn:E0.
    + destruct (IH _ Hrun Hi) as [[Hkept Hnone]|(p & Hp & Hin & Hcell)].
      * left. split; [exact Hkept|]. intros p [<-|Hp]; [rewrite E0; intros []|now apply Hnone].
      * right. exists p. split; [right; exact Hp|]. split; assumption.
    + inv_ok Hrun. rename a into req1, a1 into req2.
      assert (Hi1 : nth_error (df_index (_frame req1)) i = Some t).
      { unfold _add_energy_reports in Ha.
        now rewrite (energy_report_columns_index _ _ _ _ _ _ Ha). }
      assert (Hcell2 : cell_of (_frame req2) (value TARIFF) i
                       = if isin t (t0 :: idx) then Str (tp_tariff p0)
                         else cell_of (_frame req) (value TARIFF) i).
      { rewrite <- (add_energy_reports_tariff _ _ _ _ _ _ _ _ Ha Hi).
        destruct (up_agent_class usage_plan).
        apply cell_of_other. eapply simple_agent_usage_plain; [exact Ha1|].
        apply value_plain. }
      assert (Hi2 : nth_error (df_index (_frame req2)) i = Some t).
      { destruct (up_agent_class usage_plan).
        now rewrite (simple_agent_usage_index _ _ _ _ _ _ _ Ha1). }
      destruct (IH _ Hrun Hi2) as [[Hkept Hnone]|(p & Hp & Hin & Hcell)].
      * destruct (isin t (t0 :: idx)) eqn:Eis.
        -- right. exists p0. split; [left; reflexivity|].
           split; [rewrite E0; now apply isin_In|]. congruence.
        -- left. split; [congruence|].
           intros p [<-|Hp]; [|now apply Hnone].
           rewrite E0. intros Hin. apply isin_In in Hin. congruence.
      * right. exists p. split; [right; exact Hp|]. split; assumption.
Qed.

Lemma apply_schedules_tagged entry usage_plan season_idx schedules req req' :
  apply_schedules eng entry usage_plan season_idx schedules req = Ok req' ->
  nth_error (df_index (_frame req)) i = Some t ->
  (cell_of (_frame req') (value TARIFF) i = cell_of (_frame req) (value TARIFF) i /\
   forall schedule period, In schedule schedules -> In period (ts_periods schedule) ->
     ~ In t (tariff_index schedule period (day_index schedule season_idx))) \/
  exists schedule period,
    In schedule schedules /\ In period (ts_periods schedule) /\
    In t (tariff_index schedule period (day_index schedule season_idx)) /\
    cell_of (_frame req') (value TARIFF) i = Str (tp_tariff period).
Proof.
  revert req. induction schedules as [|s0 rest IH]; intros req Hrun Hi.
  - simpl in Hrun. apply Ok_inj in Hrun. subst. left. split; [reflexivity | intros ? ? []].
  - cbn [apply_schedules] in Hrun.
    destruct (day_index s0 season_idx) as [|t0 idx] eqn:E0.
    + destruct (IH _ Hrun Hi) as [[Hkept Hnone]|(s & p & Hs & Hp & Hin & Hcell)].
      * left. split; [exact Hkept|]. intros s p [<-|Hs] Hp; [|now apply Hnone].
        rewrite E0, tariff_index_nil. intros [].
      * right. exists s, p. split; [right; exact Hs|]. repeat split; assumption.
    + inv_ok Hrun. rename a into req1.
      assert (Hi1 : nth_error (df_index (_frame req1)) i = Some t)
        by now rewrite (apply_periods_index _ _ _ _ _ _ _ _ Ha).
      destruct (IH _ Hrun Hi1) as [[Hkept Hnone]|(s & p & Hs & Hp & Hin & Hcell)].
      * destruct (apply_periods_tagged _ _ _ _ _ _ _ Ha Hi)
          as [[Hkept0 Hnone0]|(p & Hp & Hin & Hcell)].
        -- left. split; [congruence|]. intros s p [<-|Hs] Hp; [|now apply Hnone].
           rewrite E0. now apply Hnone0.
        -- right. exists s0, p. split; [left; reflexivity|]. split; [exact Hp|].
           split; [now rewrite E0 | congruence].
      * right. exists s, p. split; [right; exact Hs|]. repeat split; assumption.
Qed.

Lemma apply_calendar_tagged entry season_start season_end req req' :
  _apply_calendar eng entry season_start season_end req = Ok req' ->
  nth_error (df_index (_frame req)) i = Some t ->
  (cell_of (_frame req') (value TARIFF) i = cell_of (_frame req) (value TARIFF) i /\
   forall usage_plan schedules schedule period,
     dget (ce_plan entry) (_plans eng) = Some usage_plan ->
     dget (ce_season entry) (up_seasons usage_plan) = Some schedules ->
     In schedule (dvalues schedules) -> In period (ts_periods schedule) ->
     in_period_mask schedule period season_start season_end t = false) \/
  exists usage_plan schedules schedule period,
    dget (ce_plan entry) (_plans eng) = Some usage_plan /\
    dget (ce_season entry) (up_seasons usage_plan) = Some schedules /\
    In schedule (dvalues schedules) /\ In period (ts_periods schedule) /\
    in_period_mask schedule period season_start season_end t = true /\
    cell_of (_frame req') (value TARIFF) i = Str (tp_tariff period).
Proof.
  unfold _apply_calendar. intros Hrun Hi.
  assert (Ht : In t (df_index (_frame req))) by (eapply nth_error_In; eauto).
  destruct (season_index (df_index (_frame req)) season_start season_end) as [|t0 idx] eqn:E0.
  - apply Ok_inj in Hrun. subst req'. left. split; [reflexivity|].
    intros usage_plan schedules schedule period _ _ _ _.
    destruct (in_period_mask schedule period season_start season_end t) eqn:Em; [|reflexivity].
    assert (Hin : In t (tariff_index schedule period
                          (day_index schedule
                             (season_index (df_index (_frame req)) season_start season_end))))
      by (apply tariff_index_mask; auto).
    rewrite E0 in Hin. unfold day_index in Hin. simpl in Hin.
    rewrite tariff_index_nil in Hin. contradiction.
  - inv_ok Hrun. rename a into usage_plan, a0 into schedules.
    unfold dindex, season_schedules, dindex in Ha, Ha0. apply lift_opt_ok in Ha, Ha0.
    destruct (apply_schedules_tagged _ _ _ _ _ _ Hrun Hi)
      as [[Hkept Hnone]|(s & p & Hs & Hp & Hin & Hcell)].
    + left. split; [exact Hkept|].
      intros usage_plan' schedules' schedule period Hplan Hseason Hs Hp.
      assert (usage_plan' = usage_plan) by congruence. subst usage_plan'.
      assert (schedules' = schedules) by congruence. subst schedules'.
      destruct (in_period_mask schedule period season_start season_end t) eqn:Em;
        [|reflexivity].
      exfalso. apply (Hnone schedule period Hs Hp). rewrite <- E0.
      apply tariff_index_mask. auto.
    + right. exists usage_plan, schedules, s, p.
      rewrite <- E0 in Hin. apply tariff_index_mask in Hin. destruct Hin as [_ Hm].
      repeat split; assumption.
Qed.

Lemma apply_subranges_tagged (l : list SubRange) req req' :
  apply_subranges (_apply_calendar eng) l req = Ok req' ->
  nth_error (df_index (_frame req)) i = Some t ->
  (cell_of (_frame req') (value TARIFF) i = cell_of (_frame req) (value TARIFF) i /\
   forall entry season_start season_end usage_plan schedules schedule period,
     In (entry, season_start, season_end) l ->
     dget (ce_plan entry) (_plans eng) = Some usage_plan ->
     dget (ce_season entry) (up_seasons usage_plan) = Some schedules ->
     In schedule (dvalues schedules) -> In period (ts_periods schedule) ->
     in_period_mask schedule period season_start season_end t = false) \/
  exists entry season_start season_end usage_plan schedules schedule period,
    In (entry, season_start, season_end) l /\
    dget (ce_plan entry) (_plans eng) = Some usage_plan /\
    dget (ce_season entry) (up_seasons usage_plan) = Some schedules /\
    In schedule (dvalues schedules) /\ In period (ts_periods schedule) /\
    in_period_mask schedule period season_start season_end t = true /\
    cell_of (_frame req') (value TARIFF) i = Str (tp_tariff period).
Proof.
  revert req. induction l as [|[[e0 a] b] l IH]; intros req Hrun Hi.
  - simpl in Hrun. apply Ok_inj in Hrun. subst. left. split; [reflexivity|].
    intros ? ? ? ? ? ? ? [].
  - cbn [apply_subranges] in Hrun. inv_ok Hrun. rename a0 into req1.
    assert (Hi1 : nth_error (df_index (_frame req1)) i = Some t)
      by now rewrite (apply_calendar_index _ _ _ _ _ _ Ha).
    destruct (IH _ Hrun Hi1)
      as [[Hkept Hnone]|(e & s1 & s2 & pl & ss & sc & pe & Hin & Hrest)].
    + destruct (apply_calendar_tagged _ _ _ _ _ Ha Hi)
        as [[Hkept0 Hnone0]|(pl & ss & sc & pe & Hrest)].
      * left. split; [congruence|].
        intros e s1 s2 pl ss sc pe [E|Hin].
        -- injection E as <- <- <-. apply Hnone0.
        -- now apply Hnone.
      * right. exists e0, a, b, pl, ss, sc, pe. split; [left; reflexivity|].
        destruct Hrest as (? & ? & ? & ? & ? & Hcell). repeat split; try assumption.
        congruence.
    + right. exists e, s1, s2, pl, ss, sc, pe. split; [right; exact Hin | exact Hrest].
Qed.
End CoveredRows.

(** X22: after a request's calendar walk returns, every row that lies in
    the mask of some tariff period carries, in its Tariff column, the tariff
    of a period whose mask holds the row (of the last such period the walk
    reached, when masks overlap). *)
Theorem covered_rows_carry_tariff eng range_start range_stop req req' (i : nat) t :
  _process_periodic_data eng range_start range_stop req = Ok req' ->
  nth_error (df_index (_frame req)) i = Some t ->
  in_tariff_mask eng range_start range_stop t ->
  exists entry season_start season_end usage_plan schedules schedule period,
    In (entry, season_start, season_end)
       (subranges (dvalues (_calendar eng)) range_stop range_start) /\
    dget (ce_plan entry) (_plans eng) = Some usage_plan /\
    dget (ce_season entry) (up_seasons usage_plan) = Some schedules /\
    In schedule (dvalues schedules) /\
    In period (ts_periods schedule) /\
    in_period_mask schedule period season_start season_end t = true /\
    cell_of (_frame req') (value TARIFF) i = Str (tp_tariff period).
Proof.
  unfold _process_periodic_data. rewrite periodic_loop_subranges. intros Hrun Hi Hmask.
  destruct (apply_subranges_tagged _ _ _ _ _ _ Hrun Hi) as [[_ Hnone]|Htag]; [|exact Htag].
  destruct Hmask as (entry & a & b & usage_plan & schedules & schedule & period
                     & Hin & Hp & Hs & Hsc & Hpe & Hm).
  rewrite (Hnone _ _ _ _ _ _ _ Hin Hp Hs Hsc Hpe) in Hm. discriminate.
Qed.

Lemma covered_rows_carry_tariff_witness :
  exists entry season_start season_end usage_plan schedules schedule period,
    In (entry, season_start, season_end)
       (subranges (dvalues (_calendar loaded_engine)) weekend_stop weekend_start) /\
    dget (ce_plan entry) (_plans loaded_engine) = Some usage_plan /\
    dget (ce_season entry) (up_seasons usage_plan) = Some schedules /\
    In schedule (dvalues schedules) /\
    In period (ts_periods schedule) /\
    in_period_mask schedule period season_start season_end monday_6am = true /\
    cell_of (_frame weekend_processed) (value TARIFF) 1 = Str (tp_tariff period).
Proof.
  apply (covered_rows_carry_tariff loaded_engine weekend_start weekend_stop
           (mkRequest weekend_core []) weekend_processed 1 monday_6am).
  - vm_compute; reflexivity.
  - vm_compute; reflexivity.
  - apply in_tariff_maskb_spec. vm_compute; reflexivity.
Defined.

(* ================================================================== *)
(** * The reply table *)

Lemma register_columns_inv names name reg :
  dmem name (register_columns names reg) = true ->
  dmem name reg = true \/ In name names.
Proof.
  revert reg. induction names as [|n names IH]; intros reg Hin; simpl in *; [auto|].
  destruct (IH _ Hin) as [Hreg|Hn]; [|auto].
  rewrite register_column_dmem in Hreg. apply orb_true_iff in Hreg.
  destruct Hreg as [E|Hreg]; [|auto]. apply bool_decide_eq_true_1 in E. auto.
Qed.

Lemma register_columns_number names reg :
  (forall n, dmem n reg = true -> dget n reg = Some "number") ->
  forall n, dmem n (register_columns names reg) = true ->
            dget n (register_columns names reg) = Some "number".
Proof.
  revert reg. induction names as [|n0 names IH]; intros reg Hreg; simpl; [exact Hreg|].
  apply IH. intros n Hn. unfold register_column in *.
  destruct (dmem n0 reg) eqn:E0; simpl in *; [now apply Hreg|].
  destruct (decide (n0 = n)) as [->|Hne].
  - apply dget_dset_eq.
  - rewrite dget_dset_ne by exact Hne. apply Hreg.
    rewrite dmem_dset in Hn. apply orb_true_iff in Hn. destruct Hn as [E|Hn]; [|exact Hn].
    apply bool_decide_eq_true_1 in E. contradiction.
Qed.

Lemma loc_assign_has df idx c new c' :
  dmem c' (df_data (loc_assign df idx c new))
  = (bool_decide (c = c') || dmem c' (df_data df))%bool.
Proof. unfold loc_assign. apply set_col_has. Qed.

Lemma energy_report_columns_columns eng tariff tariff_idx columns req req' :
  energy_report_columns eng tariff tariff_idx columns req = Ok req' ->
  (forall c, dmem c (df_data (_frame req)) = true -> dmem c (df_data (_frame req')) = true) /\
  (forall name, In name (energy_report_names eng tariff columns) ->
                dmem name (df_data (_frame req')) = true).
Proof.
  revert req. induction columns as [|column rest IH]; intros req Hrun.
  - simpl in Hrun. apply Ok_inj in Hrun. subst. split; [auto | intros ? []].
  - cbn [energy_report_columns] in Hrun. unfold energy_report_names in *.
    cbn [List.filter].
    destruct (bool_decide (column ∈ [TIME; TARIFF; SUPPLY_CHARGE])); cbn [negb];
      [now apply IH|].
    inv_ok Hrun. destruct (IH _ Hrun) as [Hgrow Hnames]. cbn [_frame] in Hgrow.
    split.
    + intros c Hc. apply Hgrow. rewrite loc_assign_has, Hc. apply orb_true_r.
    + cbn [map]. intros name [<-|Hin]; [|now apply Hnames].
      apply Hgrow. rewrite loc_assign_has, bool_decide_eq_true_2; reflexivity.
Qed.

Lemma simple_agent_usage_columns tariff tariff_idx rates cost_unit col_override req req' :
  simple_agent_usage tariff tariff_idx rates cost_unit col_override req = Ok req' ->
  (forall c, dmem c (df_data (_frame req)) = true -> dmem c (df_data (_frame req')) = true) /\
  (forall name, In name (cost_report_names tariff rates cost_unit col_override) ->
                dmem name (df_data (_frame req')) = true).
Proof.
  revert req. induction rates as [|[energy_column rate] rest IH]; intros req Hrun.
  - simpl in Hrun. apply Ok_inj in Hrun. subst. split; [auto | intros ? []].
  - cbn [simple_agent_usage] in Hrun. unfold cost_report_names in *. cbn [map].
    destruct (bool_decide (energy_column = SUPPLY_CHARGE)).
    + destruct (IH _ Hrun) as [Hgrow Hnames]. cbn [_frame] in Hgrow.
      unfold loc_assign_scalar in Hgrow. split.
      * intros c Hc. apply Hgrow. rewrite loc_assign_has, Hc. apply orb_true_r.
      * intros name [<-|Hin]; [|now apply Hnames].
        apply Hgrow. rewrite loc_assign_has, bool_decide_eq_true_2; reflexivity.
    + destruct (negb (dmem (value energy_column) (df_data (_frame req)))); [discriminate|].
      inv_ok Hrun. destruct (IH _ Hrun) as [Hgrow Hnames]. cbn [_frame] in Hgrow. split.
      * intros c Hc. apply Hgrow. rewrite loc_assign_has, Hc. apply orb_true_r.
      * intros name [<-|Hin]; [|now apply Hnames].
        apply Hgrow. rewrite loc_assign_has, bool_decide_eq_true_2; reflexivity.
Qed.

(** One step of registration and writing keeps the registry consistent. *)
Lemma registry_consistent_step names req req' :
  registry_consistent req ->
  _report_cols req' = register_columns names (_report_cols req) ->
  (forall c, dmem c (df_data (_frame req)) = true -> dmem c (df_data (_frame req')) = true) ->
  (forall name, In name names ->
                dmem name (df_data (_frame req')) = true /\ last_char name = Some ")"%char) ->
  registry_consistent req'.
Proof.
  intros Hreq Hreg Hgrow Hnames name Hin. rewrite Hreg in Hin |- *.
  split; [|split].
  - destruct (register_columns_inv _ _ _ Hin) as [Hold|Hnew].
    + apply Hgrow. now apply Hreq.
    + now apply Hnames.
  - destruct (register_columns_inv _ _ _ Hin) as [Hold|Hnew].
    + now apply Hreq.
    + now apply Hnames.
  - apply register_columns_number; [|exact Hin]. intros n Hn. now apply Hreq.
Qed.

Section RegistryConsistent.
Variable eng : UsageEngine.

Lemma add_energy_reports_consistent tariff tariff_idx usage_plan req req' :
  _add_energy_reports eng tariff tariff_idx usage_plan req = Ok req' ->
  registry_consistent req -> registry_consistent req'.
Proof.
  intros Hrun Hreq.
  pose proof (add_energy_reports_registry _ _ _ _ _ _ Hrun) as Hreg.
  unfold _add_energy_reports in Hrun.
  destruct (energy_report_columns_columns _ _ _ _ _ _ Hrun) as [Hgrow Hnames].
  cbn [_frame] in Hgrow. unfold loc_assign_scalar in Hgrow.
  eapply registry_consistent_step; [exact Hreq | exact Hreg | |].
  - intros c Hc. apply Hgrow. rewrite loc_assign_has, Hc. apply orb_true_r.
  - intros name Hin. split; [now apply Hnames|].
    eapply energy_report_names_last; eauto.
Qed.

Lemma simple_agent_usage_consistent tariff tariff_idx rates cost_unit col_override req req' :
  simple_agent_usage tariff tariff_idx rates cost_unit col_override req = Ok req' ->
  registry_consistent req -> registry_consistent req'.
Proof.
  intros Hrun Hreq.
  pose proof (simple_agent_usage_registry _ _ _ _ _ _ _ Hrun) as Hreg.
  destruct (simple_agent_usage_columns _ _ _ _ _ _ _ Hrun) as [Hgrow Hnames].
  eapply registry_consistent_step; [exact Hreq | exact Hreg | exact Hgrow |].
  intros name Hin. split; [now apply Hnames|].
  eapply cost_report_names_last; eauto.
Qed.

Lemma apply_periods_consistent entry usage_plan schedule day_idx periods req req' :
  apply_periods eng entry usage_plan schedule day_idx periods req = Ok req' ->
  registry_consistent req -> registry_consistent req'.
Proof.
  revert req. induction periods as [|period rest IH]; intros req Hrun Hreq.
  - simpl in Hrun. apply Ok_inj in Hrun. now subst.
  - cbn [apply_periods] in Hrun.
    destruct (tariff_index schedule period day_idx) as [|t0 idx]; [now apply (IH req)|].
    inv_ok Hrun. apply (IH _ Hrun). destruct (up_agent_class usage_plan).
    eapply simple_agent_usage_consistent; [exact Ha1|].
    eapply add_energy_reports_consistent; eauto.
Qed.

Lemma apply_schedules_consistent entry usage_plan season_idx schedules req req' :
  apply_schedules eng entry usage_plan season_idx schedules req = Ok req' ->
  registry_consistent req -> registry_consistent req'.
Proof.
  revert req. induction schedules as [|schedule rest IH]; intros req Hrun Hreq.
  - simpl in Hrun. apply Ok_inj in Hrun. now subst.
  - cbn [apply_schedules] in Hrun.
    destruct (day_index schedule season_idx) as [|t0 idx]; [now apply (IH req)|].
    inv_ok Hrun. apply (IH _ Hrun). eapply apply_periods_consistent; eauto.
Qed.

Lemma process_periodic_data_consistent range_start range_stop req req' :
  _process_periodic_data eng range_start range_stop req = Ok req' ->
  registry_consistent req -> registry_consistent req'.
Proof.
  unfold _process_periodic_data. rewrite periodic_loop_subranges.
  generalize (subranges (dvalues (_calendar eng)) range_stop range_start). intros l.
  revert req. induction l as [|[[entry a] b] l IH]; intros req Hrun Hreq.
  - simpl in Hrun. apply Ok_inj in Hrun. now subst.
  - cbn [apply_subranges] in Hrun. inv_ok Hrun. apply (IH _ Hrun).
    unfold _apply_calendar in Ha.
    destruct (season_index (df_index (_frame req)) a b); [apply Ok_inj in Ha; now subst|].
    inv_ok Ha. eapply apply_schedules_consistent; eauto.
Qed.
End RegistryConsistent.

Lemma select_columns_ok df names :
  (forall name, In name names -> dmem name (df_data df) = true) ->
  exists data,
    select_columns df names = Ok data /\ dkeys data = names /\
    forall (i : nat), map (fun '(_, s) => nth i s NaN) data
                      = map (fun name => cell_of df name i) names.
Proof.
  induction names as [|name rest IH]; intros Hall.
  - exists []. repeat split; reflexivity.
  - destruct IH as (data & Hsel & Hkeys & Hrows);
      [intros n Hn; apply Hall; right; exact Hn|].
    cbn [select_columns].
    assert (Hname : dmem name (df_data df) = true) by (apply Hall; left; reflexivity).
    unfold dmem in Hname. unfold col, dindex.
    destruct (dget name (df_data df)) as [s|] eqn:Es; [|discriminate].
    cbn [lift_opt rbind]. rewrite Hsel. cbn [rbind].
    eexists. split; [reflexivity|]. split; [simpl; now rewrite Hkeys|].
    intros i. cbn [map]. rewrite Hrows. unfold cell_of at 2. now rewrite Es.
Qed.

Lemma column_manifest_numbers names reg :
  (forall name, In name names -> dget name reg = Some "number") ->
  column_manifest names reg = Ok (map (fun name => (name, "number")) names).
Proof.
  induction names as [|name rest IH]; intros Hall; [reflexivity|].
  cbn [column_manifest]. unfold dindex. rewrite (Hall name) by (left; reflexivity).
  cbn [lift_opt rbind]. rewrite IH by (intros n Hn; apply Hall; right; exact Hn).
  reflexivity.
Qed.

Lemma frame_to_json_tables_consistent epoch_ms req :
  registry_consistent req ->
  exists table,
    _frame_to_json_tables epoch_ms req
    = Ok (table, mkRequest (_frame req) (dset (value TIME) "time" (_report_cols req))) /\
    table_columns table
    = (value TIME, "time") :: map (fun name => (name, "number")) (dkeys (_report_cols req)) /\
    List.length (table_rows table) = List.length (df_index (_frame req)) /\
    forall (i : nat) t,
      nth_error (df_index (_frame req)) i = Some t ->
      nth_error (table_rows table) i
      = Some (Num (epoch_ms t)
                :: map (fun name => cell_of (_frame req) name i) (dkeys (_report_cols req))).
Proof.
  intros Hreq. unfold _frame_to_json_tables.
  destruct (select_columns_ok (_frame req) (dkeys (_report_cols req)))
    as (data & -> & Hkeys & Hrows).
  { intros name Hin. apply dmem_dkeys in Hin. now apply Hreq. }
  cbn [rbind].
  assert (Htime : dmem (value TIME) (_report_cols req) = false).
  { destruct (dmem (value TIME) (_report_cols req)) eqn:E; [|reflexivity].
    destruct (Hreq _ E) as (_ & Hlast & _). discriminate. }
  assert (Hfresh : dmem (value TIME) data = false).
  { destruct (dmem (value TIME) data) eqn:E; [|reflexivity].
    apply dmem_dkeys in E. rewrite Hkeys in E. apply dmem_dkeys in E. congruence. }
  rewrite Hfresh. cbn [dkeys map fst column_manifest]. unfold dindex at 1.
  rewrite dget_dset_eq. cbn [lift_opt rbind].
  change (map fst data) with (dkeys data). rewrite Hkeys.
  rewrite column_manifest_numbers.
  - cbn [rbind]. eexists. split; [reflexivity|]. cbn [table_columns table_rows].
    split; [reflexivity|]. split.
    + unfold frame_rows. now rewrite length_map, length_seq.
    + intros i t Hi. unfold frame_rows.
      assert (Hlt : (i < List.length (df_index (_frame req)))%nat)
        by (apply nth_error_Some; congruence).
      rewrite nth_error_map, nth_error_seq.
      destruct (Nat.ltb_spec i (List.length (df_index (_frame req)))); [|lia].
      cbn [option_map Nat.add map]. rewrite Hrows. f_equal. f_equal.
      clear - Hi. revert i Hi.
      induction (df_index (_frame req)) as [|t0 l IH]; intros [|i] Hi; try discriminate.
      * simpl in *. congruence.
      * simpl in *. now apply IH.
  - intros name Hin. apply dmem_dkeys in Hin.
    destruct (Hreq _ Hin) as (_ & Hlast & Hnum).
    rewrite dget_dset_ne; [exact Hnum|]. intros E. rewrite <- E in Hlast. discriminate.
Qed.

(** X23: a request that got through the calendar walk always renders.  When
    [usage] returns the request state, every registered report column is a
    column of the frame and none is called "_time", so [_frame_to_json_tables]
    raises neither KeyError nor ValueError; the table lists "_time" with type
    "time" first and then the registered columns in registration order, all of
    type "number", and has one row per row of the frame, holding the row's
    time in milliseconds and its cell in each registered column. *)
Theorem successful_request_renders `{External} eng influx_frame request_content req epoch_ms :
  usage eng influx_frame request_content = Ok req ->
  exists table,
    _frame_to_json_tables epoch_ms req
    = Ok (table, mkRequest (_frame req) (dset (value TIME) "time" (_report_cols req))) /\
    table_columns table
    = (value TIME, "time") :: map (fun name => (name, "number")) (dkeys (_report_cols req)) /\
    List.length (table_rows table) = List.length (df_index (_frame req)) /\
    forall (i : nat) t,
      nth_error (df_index (_frame req)) i = Some t ->
      nth_error (table_rows table) i
      = Some (Num (epoch_ms t)
                :: map (fun name => cell_of (_frame req) name i) (dkeys (_report_cols req))).
Proof.
  unfold usage. intros Hrun. inv_ok Hrun.
  apply frame_to_json_tables_consistent.
  eapply process_periodic_data_consistent; [exact Hrun|].
  intros name Hin. discriminate.
Qed.

Lemma successful_request_renders_witness :
  exists table,
    _frame_to_json_tables (fun t => (t - 8 * 3600000000) # 1000) weekend_result
    = Ok (table, mkRequest (_frame weekend_result)
                           (dset (value TIME) "time" (_report_cols weekend_result))) /\
    table_columns table
    = (value TIME, "time")
        :: map (fun name => (name, "number")) (dkeys (_report_cols weekend_result)) /\
    List.length (table_rows table) = List.length (df_index (_frame weekend_result)) /\
    forall (i : nat) t,
      nth_error (df_index (_frame weekend_result)) i = Some t ->
      nth_error (table_rows table) i
      = Some (Num ((t - 8 * 3600000000) # 1000)
                :: map (fun name => cell_of (_frame weekend_result) name i)
                       (dkeys (_report_cols weekend_result))).
Proof.
  apply (@successful_request_renders example_env loaded_engine
           (fun _ _ => Ok weekend_frame) weekend_request).
  vm_compute; reflexivity.
Defined.

(* ================================================================== *)
(** * What a request leaves of the measurements, and the renames *)

Lemma supply_target supply target :
  dget supply SUPPLY_TO_DEMAND = Some target ->
  In target [GRID_TO_HOME; PW_TO_HOME; SOLAR_TO_HOME].
Proof.
  destruct supply; simpl; intros E; try discriminate; injection E as <-; simpl; auto.
Qed.

Lemma allocate_supply_other (i : nat) supply last df this df' c :
  allocate_supply i supply last df = Ok (this, df') ->
  ~ In c (map value (RESIDUALS ++ [GRID_TO_HOME; PW_TO_HOME; SOLAR_TO_HOME])) ->
  dget c (df_data df') = dget c (df_data df).
Proof.
  intros Hs Hc. pose proof (allocate_supply_this _ _ _ _ _ _ Hs) as Hthis.
  unfold allocate_supply in Hs. inv_ok Hs. apply Ok_inj in Hs. injection Hs as -> <-.
  unfold dindex in Ha7. apply lift_opt_ok in Ha7. apply supply_target in Ha7.
  apply nth_error_In in Hthis.
  unfold set_col. cbn [df_data]. rewrite !dget_dset_ne; [reflexivity| |].
  - intros E. apply Hc. rewrite <- E. apply in_map, in_or_app. left. exact Hthis.
  - intros E. apply Hc. rewrite <- E. apply in_map, in_or_app. right. exact Ha7.
Qed.

Lemma supply_waterfall_other priority (i : nat) last df df' c :
  supply_waterfall priority i last df = Ok df' ->
  ~ In c (map value (RESIDUALS ++ [GRID_TO_HOME; PW_TO_HOME; SOLAR_TO_HOME])) ->
  dget c (df_data df') = dget c (df_data df).
Proof.
  revert i last df. induction priority as [|supply rest IH]; intros i last df H Hc.
  - simpl in H. apply Ok_inj in H. now subst.
  - cbn [supply_waterfall] in H. apply rbind_ok in H. destruct H as ([this df1] & Hs & H).
    rewrite (IH _ _ _ H Hc). eapply allocate_supply_other; eauto.
Qed.

Lemma assign_binop_other op dst a b df df' c :
  assign_binop op dst a b df = Ok df' -> c <> value dst ->
  dget c (df_data df') = dget c (df_data df).
Proof.
  unfold assign_binop. intros H Hc. inv_ok H. apply Ok_inj in H. subst df'.
  unfold set_col. cbn [df_data]. apply dget_dset_ne. congruence.
Qed.

Lemma core_usage_other priority df df' c :
  _core_usage priority df = Ok df' ->
  ~ In c (map value [RESIDUAL_DEMAND_1; RESIDUAL_DEMAND_2; RESIDUAL_DEMAND_FINAL;
                     GRID_TO_HOME; PW_TO_HOME; SOLAR_TO_HOME; GRID_CHARGING;
                     SELF_PW_NET_OF_GRID; SELF_SOLAR_PLUS_RES; SELF_TOTAL; TARIFF]) ->
  dget c (df_data df') = dget c (df_data df).
Proof.
  unfold _core_usage. intros H Hc. inv_ok H. apply Ok_inj in H. subst df'.
  inv_ok Ha3. apply Ok_inj in Ha3. subst a3.
  unfold set_col_scalar, set_col. cbn [df_data].
  rewrite !dget_dset_ne by (intros E; apply Hc; rewrite <- E; simpl; tauto).
  rewrite (assign_binop_other _ _ _ _ _ _ c Ha2)
    by (intros E; apply Hc; rewrite E; simpl; tauto).
  rewrite (assign_binop_other _ _ _ _ _ _ c Ha1)
    by (intros E; apply Hc; rewrite E; simpl; tauto).
  rewrite (assign_binop_other _ _ _ _ _ _ c Ha0)
    by (intros E; apply Hc; rewrite E; simpl; tauto).
  apply (supply_waterfall_other _ _ _ _ _ c Ha).
  intros Hin. apply Hc. simpl in Hin |- *. tauto.
Qed.

(** X24: a request leaves the measurements of the frame that
    [_get_influx_data] stored as they are.  That frame, the answer of the
    database after its sort, time-zone conversion and column rename, is the
    [influx_frame] handed to [usage]; when [usage] returns, its frame has the
    index of that frame, and the five measured columns (grid supply, grid
    export, Powerwall supply, home demand, solar supply) are exactly the
    columns of that frame: neither [_core_usage] nor the calendar walk writes
    to them. *)
Theorem request_keeps_measurements `{External} eng influx_frame request_content req :
  usage eng influx_frame request_content = Ok req ->
  exists start_dt stop_dt raw,
    safe_iso_utc_to_dt (range_from request_content) (_timezone eng) = Ok start_dt /\
    safe_iso_utc_to_dt (range_to request_content) (_timezone eng) = Ok stop_dt /\
    influx_frame (wall_clock start_dt) (wall_clock stop_dt) = Ok raw /\
    df_index (_frame req) = df_index raw /\
    forall column,
      In column [GRID_SUPPLY; GRID_EXPORT; PW_SUPPLY; HOME_DEMAND; SOLAR_SUPPLY] ->
      dget (value column) (df_data (_frame req)) = dget (value column) (df_data raw).
Proof.
  unfold usage. intros Hrun. inv_ok Hrun.
  rename a into start_dt, a0 into stop_dt, a1 into raw, a2 into core.
  exists start_dt, stop_dt, raw. repeat (split; [assumption|]).
  split.
  - rewrite (process_periodic_data_index _ _ _ _ _ Hrun). cbn [_frame].
    eapply core_usage_index; eauto.
  - intros column Hin.
    rewrite (process_periodic_data_plain eng (value column)) with (req := mkRequest core [])
                                                             (req' := req)
                                                             (range_start := wall_clock start_dt)
                                                             (range_stop := wall_clock stop_dt).
    + cbn [_frame]. apply (core_usage_other _ _ _ _ Ha2).
      simpl in Hin |- *. intros Hw.
      repeat destruct Hin as [<-|Hin]; try contradiction;
        repeat destruct Hw as [Hw|Hw]; try discriminate; contradiction.
    + intros E. apply value_inj in E. subst column.
      simpl in Hin. repeat destruct Hin as [Hin|Hin]; try discriminate; contradiction.
    + apply value_plain.
    + exact Hrun.
Qed.

Lemma request_keeps_measurements_witness :
  exists start_dt stop_dt raw,
    @safe_iso_utc_to_dt example_env (range_from weekend_request) (_timezone loaded_engine)
    = Ok start_dt /\
    @safe_iso_utc_to_dt example_env (range_to weekend_request) (_timezone loaded_engine)
    = Ok stop_dt /\
    (fun _ _ => Ok weekend_frame) (wall_clock start_dt) (wall_clock stop_dt) = Ok raw /\
    df_index (_frame weekend_result) = df_index raw /\
    forall column,
      In column [GRID_SUPPLY; GRID_EXPORT; PW_SUPPLY; HOME_DEMAND; SOLAR_SUPPLY] ->
      dget (value column) (df_data (_frame weekend_result)) = dget (value column) (df_data raw).
Proof.
  apply (@request_keeps_measurements example_env loaded_engine
           (fun _ _ => Ok weekend_frame) weekend_request weekend_result).
  vm_compute; reflexivity.
Defined.

Lemma member_name_inj c1 c2 : member_name c1 = member_name c2 -> c1 = c2.
Proof.
  intros E. pose proof (proj2 (from_str_some (member_name c1) c1) eq_refl) as H1.
  rewrite E in H1. pose proof (proj2 (from_str_some (member_name c2) c2) eq_refl) as H2.
  congruence.
Qed.

Lemma load_renames_overrides renames eng eng' :
  load_renames renames eng = (Ok tt, eng') ->
  List.NoDup (dkeys renames) ->
  forall column,
    dget column (_col_overrides eng')
    = match dget (member_name column) renames with
      | Some override => Some override
      | None => dget column (_col_overrides eng)
      end.
Proof.
  revert eng. induction renames as [|[name override] rest IH]; intros eng Hl Hnd column.
  - simpl in Hl. injection Hl as <-. reflexivity.
  - cbn [load_renames] in Hl. unfold cls_bind, cls_try, cls_update in Hl.
    destruct (from_str name) as [pd_name|] eqn:Ef; [|discriminate]. cbn [lift_opt] in Hl.
    apply from_str_some in Ef. subst name.
    inversion Hnd as [|? ? Hfresh Hnd']; subst.
    rewrite (IH _ Hl Hnd' column). cbn [_col_overrides set_col_overrides dget].
    destruct (decide (member_name column = member_name pd_name)) as [E|Hne].
    + apply member_name_inj in E. subst column.
      destruct (dget (member_name pd_name) rest) eqn:Er.
      * exfalso. apply Hfresh. apply dmem_dkeys. unfold dmem. now rewrite Er.
      * apply dget_dset_eq.
    + destruct (dget (member_name column) rest); [reflexivity|].
      apply dget_dset_ne. intros ->. contradiction.
Qed.

Lemma init_settings_overrides `{External} config eng eng' :
  _init_settings config eng = (Ok tt, eng') ->
  exists settings eng1 eng2,
    cfg_settings config = Some settings /\
    _col_overrides eng1 = [] /\
    match set_rename settings with
    | Some renames => load_renames renames eng1 = (Ok tt, eng2)
    | None => eng2 = eng1
    end /\
    _col_overrides eng' = _col_overrides eng2.
Proof.
  unfold _init_settings, cls_bind, cls_try, cls_update. intros Hs.
  destruct (cfg_settings config) as [settings|] eqn:Eset; [|discriminate].
  cbn [lift_opt] in Hs.
  destruct (set_influx_url settings) as [url|]; [|discriminate]. cbn [lift_opt] in Hs.
  destruct (set_bucket settings) as [bucket|]; [|discriminate]. cbn [lift_opt] in Hs.
  destruct (set_timezone settings) as [tz_key|]; [|discriminate]. cbn [lift_opt] in Hs.
  destruct (zone_info tz_key) as [tz|]; [|discriminate]. cbn [lift_opt] in Hs.
  set (eng1 := set_col_overrides [] _) in Hs.
  exists settings, eng1.
  destruct (set_rename settings) as [renames|].
  - destruct (load_renames renames eng1) as [[[]|e] eng2] eqn:Er; [|discriminate].
    exists eng2. split; [reflexivity|]. split; [reflexivity|]. split; [reflexivity|].
    destruct (influx_buckets url); [|discriminate].
    destruct (bool_decide _); [|discriminate].
    destruct (set_supplyPriority settings).
    + destruct (_ || _)%bool; [discriminate|]. injection Hs as <-. reflexivity.
    + injection Hs as <-. reflexivity.
  - exists eng1. split; [reflexivity|]. split; [reflexivity|]. split; [reflexivity|].
    destruct (influx_buckets url); [|discriminate].
    destruct (bool_decide _); [|discriminate].
    destruct (set_supplyPriority settings).
    + destruct (_ || _)%bool; [discriminate|]. injection Hs as <-. reflexivity.
    + injection Hs as <-. reflexivity.
Qed.

(** X25: the [rename] settings take effect as written.  After
    [_init_settings] returns, a column whose member name is a key of the
    [rename] object is reported under the name given there, and every other
    column under its own display value; without a [rename] object there are
    no overrides. *)
Theorem loaded_renames_take_effect `{External} config eng eng' :
  _init_settings config eng = (Ok tt, eng') ->
  exists settings,
    cfg_settings config = Some settings /\
    match set_rename settings with
    | None => _col_overrides eng' = []
    | Some renames =>
        List.NoDup (dkeys renames) ->
        forall column,
          value_with_override column (_col_overrides eng')
          = match dget (member_name column) renames with
            | Some override => override
            | None => value column
            end
    end.
Proof.
  intros Hs. destruct (init_settings_overrides _ _ _ Hs)
    as (settings & eng1 & eng2 & Hset & Hempty & Hren & Hov).
  exists settings. split; [exact Hset|].
  destruct (set_rename settings) as [renames|].
  - intros Hnd column. unfold value_with_override.
    rewrite Hov, (load_renames_overrides _ _ _ Hren Hnd column), Hempty.
    destruct (dget (member_name column) renames); reflexivity.
  - subst eng2. congruence.
Qed.

Lemma loaded_renames_take_effect_witness :
  exists settings,
    cfg_settings solar_first_config = Some settings /\
    match set_rename settings with
    | None => _col_overrides solar_first_engine = []
    | Some renames =>
        List.NoDup (dkeys renames) ->
        forall column,
          value_with_override column (_col_overrides solar_first_engine)
          = match dget (member_name column) renames with
            | Some override => override
            | None => value column
            end
    end.
Proof.
  apply (@loaded_renames_take_effect example_env solar_first_config fresh_engine).
  vm_compute; reflexivity.
Defined.
